(** * Invoice test-case generator: a model of the generator and of its
    worker, and the properties its specification states.

    The model follows the TypeScript sources: [suppliers.ts] (companies and
    products), [generator.ts] (invoices, transactions, test cases, CSV, PDF
    data) and [worker/index.ts] (the request handlers).  JavaScript numbers
    are IEEE 754 binary64 values ([spec_float] with precision 53); Date
    objects hold a time value in milliseconds, or none; the sources of
    randomness and the locale-dependent builtins are fields of a [Host];
    texts are kept in UTF-8 and measured in UTF-16 code units, as [length]
    and [substring] do; a loop whose condition never fails is followed for a
    number of iterations, the [fuel], and a call that is still in it then
    has the outcome [Unending]. *)

From Stdlib Require Import ZArith Lia Bool List String Ascii DecimalString.
From Stdlib Require Import QArith Qabs Lqa Qpower Floats.SpecFloat.
From Stdlib Require Import Sorting.Sorted Sorting.Permutation.
From Stdlib Require DecimalPos DecimalN.
Import ListNotations.

Local Open Scope string_scope.
Local Open Scope Z_scope.

(** * JavaScript numbers: IEEE 754 binary64 *)

Definition prec : Z := 53.
Definition emax : Z := 1024.

Definition number : Type := spec_float.

Definition NaN : number := S754_nan.

Definition num_add : number -> number -> number := SFadd prec emax.
Definition num_sub : number -> number -> number := SFsub prec emax.
Definition num_mul : number -> number -> number := SFmul prec emax.
Definition num_div : number -> number -> number := SFdiv prec emax.
Definition num_lt : number -> number -> bool := SFltb.
Definition num_eq : number -> number -> bool := SFeqb.

(** The number denoted by an integer literal or produced by an integer-valued
    builtin: the binary64 value nearest to [z]. *)
Definition ofZ (z : Z) : number := binary_normalize prec emax z 0 false.

(** The number denoted by the decimal [n / 10^f] (numeric literals, and
    [parseFloat] applied to fixed-point text): nearest binary64 value,
    ties to even. *)
Definition of_decimal (neg : bool) (n : N) (f : nat) : number :=
  match n with
  | N0 => S754_zero neg
  | Npos p =>
      SFdiv prec emax (S754_finite neg p 0)
        (S754_finite false (Z.to_pos (10 ^ Z.of_nat f)) 0)
  end.

Definition is_finite (x : number) : bool :=
  match x with S754_finite _ _ _ | S754_zero _ => true | _ => false end.

Definition sgn (x : number) : bool :=
  match x with
  | S754_finite s _ _ | S754_zero s | S754_infinity s => s
  | S754_nan => false
  end.

(** Exact integer part (towards minus infinity) of a finite number. *)
Definition floorZ (x : number) : Z :=
  match x with
  | S754_finite s m e =>
      let z := cond_Zopp s (Zpos m) in
      if 0 <=? e then z * 2 ^ e else z / 2 ^ (- e)
  | _ => 0
  end.

(** Exact integer part (towards zero) of a finite number: ToIntegerOrInfinity. *)
Definition truncZ (x : number) : Z :=
  match x with
  | S754_finite s m e =>
      let a := if 0 <=? e then Zpos m * 2 ^ e else Zpos m / 2 ^ (- e) in
      cond_Zopp s a
  | _ => 0
  end.

Definition Math_floor (x : number) : number :=
  match x with
  | S754_finite s m e =>
      if 0 <=? e then x
      else let z := floorZ x in
           if z =? 0 then S754_zero false else ofZ z
  | _ => x
  end.

Definition Math_abs (x : number) : number := SFabs x.

(** ** [Number.prototype.toFixed] and [parseFloat] *)

(** The text produced by [x.toFixed(f)]: ["NaN"], a sign and the digits of an
    integer [n] with the decimal point [f] places from the right, or, for
    magnitudes of at least 10^21 and infinities, the text of [ToString(x)]. *)
Inductive fixed_text : Type :=
  | Fixed_NaN
  | Fixed_digits (neg : bool) (n : N) (f : nat)
  | Fixed_toString (x : number).

(** [n] is the integer for which [n / 10^f - |x|] is as close to zero as
    possible, the larger one when there are two. *)
Definition fixed_digits (m : positive) (e : Z) (f : nat) : N :=
  let p := 10 ^ Z.of_nat f in
  Z.to_N (if 0 <=? e then Zpos m * 2 ^ e * p
          else (2 * Zpos m * p + 2 ^ (- e)) / 2 ^ (- e + 1)).

Definition at_least_1e21 (m : positive) (e : Z) : bool :=
  if 0 <=? e then 10 ^ 21 <=? Zpos m * 2 ^ e
  else 10 ^ 21 * 2 ^ (- e) <=? Zpos m.

Definition toFixed (x : number) (f : nat) : fixed_text :=
  match x with
  | S754_nan => Fixed_NaN
  | S754_infinity _ => Fixed_toString x
  | S754_zero _ => Fixed_digits false 0 f
  | S754_finite s m e =>
      if at_least_1e21 m e then Fixed_toString x
      else Fixed_digits s (fixed_digits m e f) f
  end.

Definition parseFloat (t : fixed_text) : number :=
  match t with
  | Fixed_NaN => NaN
  | Fixed_digits neg n f => of_decimal neg n f
  | Fixed_toString x => x
  end.


(** Number of iterations of [for (let i = 0; i < x; i++)], or [None] when
    the loop never exits.  The test [i < x] fails at once when [x] is NaN,
    zero or negative; otherwise the counter takes the values 0, 1, 2, ...
    up to 2^53, where [i++] leaves it as it is (2^53 + 1 is no binary64
    number and rounds to 2^53): the loop exits, after as many iterations as
    the least whole number that is not below [x], exactly when [x] is at
    most 2^53, and never when [x] is larger or [+Infinity]. *)
Definition iterations (x : number) : option nat :=
  match x with
  | S754_nan => Some O
  | S754_infinity true => Some O
  | S754_infinity false => None
  | _ =>
      let c := - floorZ (SFopp x) in
      if c <=? 2 ^ 53 then Some (Z.to_nat c) else None
  end.

(** What [Math.random()] may return: a valid binary64 number, of positive
    sign, greater than or equal to +0 and strictly less than 1. *)
Definition unit_ok (x : number) : bool :=
  valid_binary prec emax x && is_finite x && negb (sgn x) && num_lt x (ofZ 1).

(** ** Exact values of numbers, used to state their properties *)

(** Magnitude and value of a finite number, as rationals. *)
Definition mag (x : number) : Q :=
  match x with
  | S754_finite _ m e => (inject_Z (Zpos m) * 2 ^ e)%Q
  | _ => 0%Q
  end.

Definition SF2Q (x : number) : Q := if sgn x then (- mag x)%Q else mag x.

Definition finite64 (x : number) : Prop :=
  valid_binary prec emax x = true /\ is_finite x = true.

(** Unit roundoff and half the smallest subnormal of binary64. *)
Definition u : Q := 1 # (2 ^ 53).
Definition eta : Q := 1 # (2 ^ 1075).

Definition Qsign (s : bool) (x : Q) : Q := if s then (- x)%Q else x.

(** [rounds X v]: the number [v] is a binary64 rounding of the exact value [X]. *)
Definition rounds (X : Q) (v : number) : Prop :=
  finite64 v /\
  ((0 <= X)%Q -> sgn v = true -> (SF2Q v == 0)%Q) /\
  ((X <= 0)%Q -> sgn v = false -> (SF2Q v == 0)%Q) /\
  (Qabs (SF2Q v - X) <= u * Qabs X + eta)%Q /\
  (forall w, finite64 w -> (SF2Q w == X)%Q -> (SF2Q v == X)%Q).

(** [within lo hi x]: [x] is a finite number of positive sign whose value
    lies between [lo] and [hi]. *)
Definition within (lo hi : Q) (x : number) : Prop :=
  finite64 x /\ sgn x = false /\ (lo <= SF2Q x /\ SF2Q x <= hi)%Q.

(** [shr_located W N mrs]: the record [mrs] holds the truncation of [N / W],
    its round and sticky bits locating the remainder against [W / 2]. *)
Definition shr_located (W N : Z) (mrs : shr_record) : Prop :=
  exists rho, N = shr_m mrs * W + rho /\ 0 <= rho < W /\ 0 <= shr_m mrs /\
    (shr_r mrs = true <-> W <= 2 * rho) /\
    (shr_s mrs = true <-> rho <> 0 /\ 2 * rho <> W).

Local Open Scope string_scope.
Local Open Scope Z_scope.

(** * Strings

    Texts are sequences of bytes, the UTF-8 form of the JavaScript string.
    A JavaScript string counts and cuts by UTF-16 code units: a character
    of one, two or three bytes is one unit, and a character of four bytes
    is two units (a surrogate pair), which a cut cannot separate in this
    form.  On ASCII text, bytes, units and characters are the same. *)

Definition code (c : ascii) : nat := nat_of_ascii c.

(** A byte that continues a character begun by an earlier byte. *)
Definition is_continuation (c : ascii) : bool :=
  (128 <=? code c)%nat && (code c <? 192)%nat.

(** The code units of the character that the byte [c] begins. *)
Definition units_of (c : ascii) : nat :=
  if is_continuation c then 0%nat else if (240 <=? code c)%nat then 2%nat else 1%nat.

(** [s.length] *)
Fixpoint js_length (s : string) : nat :=
  match s with
  | "" => 0%nat
  | String c s' => (units_of c + js_length s')%nat
  end.

(** [s.substring(0, n)]: the characters that fit in the first [n] units. *)
Fixpoint js_prefix (n : nat) (s : string) : string :=
  match s with
  | "" => ""
  | String c s' =>
      if is_continuation c then String c (js_prefix n s')
      else if (units_of c <=? n)%nat then String c (js_prefix (n - units_of c) s')
      else ""
  end.

Definition is_upper (c : ascii) : bool := (65 <=? code c)%nat && (code c <=? 90)%nat.
Definition is_lower (c : ascii) : bool := (97 <=? code c)%nat && (code c <=? 122)%nat.
Definition is_digit (c : ascii) : bool := (48 <=? code c)%nat && (code c <=? 57)%nat.

(** The regular-expression class [\s] on ASCII text: tab, line feed, vertical
    tab, form feed, carriage return and space. *)
Definition is_space (c : ascii) : bool :=
  ((9 <=? code c)%nat && (code c <=? 13)%nat) || (code c =? 32)%nat.

Definition digit_char (d : Z) : ascii := ascii_of_nat (48 + Z.to_nat d).
Definition digit_value (c : ascii) : Z := Z.of_nat (code c) - 48.

(** The [w] low-order decimal digits of [n], most significant first. *)
Fixpoint fixed_width (w : nat) (n : Z) : string :=
  match w with
  | O => ""
  | S w' => String (digit_char ((n / 10 ^ Z.of_nat w') mod 10)) (fixed_width w' n)
  end.

Fixpoint parse_digits (acc : Z) (s : string) : option Z :=
  match s with
  | "" => Some acc
  | String c s' => if is_digit c then parse_digits (10 * acc + digit_value c) s' else None
  end.

(** [ToString] of an integer-valued number. *)
Definition Z_to_string (z : Z) : string := NilZero.string_of_int (Z.to_int z).

Fixpoint repeat_char (c : ascii) (n : nat) : string :=
  match n with O => "" | S n' => String c (repeat_char c n') end.

Definition padStart (s : string) (w : nat) (c : ascii) : string :=
  repeat_char c (w - String.length s) ++ s.

(** [s.split(sep)[0]] for a one-character separator. *)
Fixpoint split_first (sep : ascii) (s : string) : string :=
  match s with
  | "" => ""
  | String c s' => if Ascii.eqb c sep then "" else String c (split_first sep s')
  end.

(** No character of [s] is [sep]. *)
Fixpoint avoids (sep : ascii) (s : string) : bool :=
  match s with
  | "" => true
  | String c s' => negb (Ascii.eqb c sep) && avoids sep s'
  end.

(** [s.split(sep)] for a one-character separator. *)
Fixpoint split_on (sep : ascii) (cur : string) (s : string) : list string :=
  match s with
  | "" => [cur]
  | String c s' =>
      if Ascii.eqb c sep then cur :: split_on sep "" s'
      else split_on sep (cur ++ String c "") s'
  end.

Fixpoint string_filter (p : ascii -> bool) (s : string) : string :=
  match s with
  | "" => ""
  | String c s' => if p c then String c (string_filter p s') else string_filter p s'
  end.

Fixpoint string_mem (x : string) (l : list string) : bool :=
  match l with
  | [] => false
  | y :: l' => String.eqb x y || string_mem x l'
  end.

(** [[...new Set(l)]]: the distinct entries, in order of first occurrence. *)
Fixpoint dedupe_from (seen : list string) (l : list string) : list string :=
  match l with
  | [] => []
  | x :: l' =>
      if string_mem x seen then dedupe_from seen l'
      else x :: dedupe_from (x :: seen) l'
  end.

Definition dedupe (l : list string) : list string := dedupe_from [] l.

(** * Dates: the abstract operations of ECMA-262, section "Date Objects" *)

Definition msPerDay : Z := 86400000.

(** A Date object holds a time value, or NaN ("Invalid Date"). *)
Definition Date : Type := option Z.

Definition TimeClip (t : Z) : Date :=
  if Z.abs t <=? 8640000000000000 then Some t else None.

Definition Day (t : Z) : Z := t / msPerDay.
Definition TimeWithinDay (t : Z) : Z := t mod msPerDay.

Definition DayFromYear (y : Z) : Z :=
  365 * (y - 1970) + (y - 1969) / 4 - (y - 1901) / 100 + (y - 1601) / 400.

Definition DaysInYear (y : Z) : Z :=
  if negb (y mod 4 =? 0) then 365
  else if negb (y mod 100 =? 0) then 366
  else if negb (y mod 400 =? 0) then 365
  else 366.

(** The largest year whose first day is not after day [d], found through the
    400-year cycle that starts on 1 January 1601. *)
Definition YearFromDay (d : Z) : Z :=
  let n := d + 134774 in
  let n400 := n / 146097 in
  let r := n mod 146097 in
  let n100 := Z.min (r / 36524) 3 in
  let r1 := r - n100 * 36524 in
  let n4 := r1 / 1461 in
  let r2 := r1 mod 1461 in
  let n1 := Z.min (r2 / 365) 3 in
  1601 + 400 * n400 + 100 * n100 + 4 * n4 + n1.

Definition YearFromTime (t : Z) : Z := YearFromDay (Day t).

Definition InLeapYear (t : Z) : Z :=
  if DaysInYear (YearFromTime t) =? 366 then 1 else 0.

Definition DayWithinYear (t : Z) : Z := Day t - DayFromYear (YearFromTime t).

(** First day, within its year, of month [m] (0 to 11). *)
Definition month_start (m leap : Z) : Z :=
  match m with
  | 0 => 0 | 1 => 31 | 2 => 59 + leap | 3 => 90 + leap | 4 => 120 + leap
  | 5 => 151 + leap | 6 => 181 + leap | 7 => 212 + leap | 8 => 243 + leap
  | 9 => 273 + leap | 10 => 304 + leap | _ => 334 + leap
  end.

Definition MonthFromTime (t : Z) : Z :=
  let d := DayWithinYear t in
  let leap := InLeapYear t in
  if d <? 31 then 0
  else if d <? 59 + leap then 1
  else if d <? 90 + leap then 2
  else if d <? 120 + leap then 3
  else if d <? 151 + leap then 4
  else if d <? 181 + leap then 5
  else if d <? 212 + leap then 6
  else if d <? 243 + leap then 7
  else if d <? 273 + leap then 8
  else if d <? 304 + leap then 9
  else if d <? 334 + leap then 10
  else 11.

Definition DateFromTime (t : Z) : Z :=
  DayWithinYear t - month_start (MonthFromTime t) (InLeapYear t) + 1.

Definition MakeDay (year month date : Z) : Z :=
  let ym := year + month / 12 in
  let mn := month mod 12 in
  let leap := if DaysInYear ym =? 366 then 1 else 0 in
  DayFromYear ym + month_start mn leap + date - 1.

Definition MakeDate (day time : Z) : Z := day * msPerDay + time.

Definition getTime (d : Date) : number :=
  match d with Some t => ofZ t | None => NaN end.

(** [d1 > d2] on Date objects compares their time values; NaN compares false. *)
Definition date_gt (d1 d2 : Date) : bool :=
  match d1, d2 with
  | Some a, Some b => b <? a
  | _, _ => false
  end.

Definition year_text (y : Z) : string :=
  if (0 <=? y) && (y <=? 9999) then fixed_width 4 y
  else String (if y <? 0 then "-"%char else "+"%char) (fixed_width 6 (Z.abs y)).

Definition date_text (t : Z) : string :=
  year_text (YearFromTime t) ++ "-" ++ fixed_width 2 (MonthFromTime t + 1)
    ++ "-" ++ fixed_width 2 (DateFromTime t).

Definition time_text (t : Z) : string :=
  let ms := TimeWithinDay t in
  fixed_width 2 (ms / 3600000) ++ ":" ++ fixed_width 2 ((ms / 60000) mod 60)
    ++ ":" ++ fixed_width 2 ((ms / 1000) mod 60) ++ "." ++ fixed_width 3 (ms mod 1000) ++ "Z".

(** Results of code that may throw, or enter a loop that never exits:
    [Unending] is the result of a call that has entered such a loop and has
    not thrown in the iterations that were followed. *)
Inductive exn : Type := RangeError | TypeError.

Inductive Outcome (A : Type) : Type :=
  | Return (a : A)
  | Throw (e : exn)
  | Unending.
Arguments Return {A} a.
Arguments Throw {A} e.
Arguments Unending {A}.

Definition toISOString (d : Date) : Outcome string :=
  match d with
  | Some t => Return (date_text t ++ "T" ++ time_text t)
  | None => Throw RangeError
  end.

(** The date-only forms [YYYY-MM-DD] and [±YYYYYY-MM-DD] of the Date Time
    String Format, read as UTC. *)
Definition char_at (i : nat) (s : string) : ascii :=
  match String.get i s with Some c => c | None => "000"%char end.

Definition ymd_time (y m d : Z) : option Z :=
  if (1 <=? m) && (m <=? 12) && (1 <=? d) && (d <=? 31)
  then Some (MakeDate (MakeDay y (m - 1) d) 0) else None.

Definition parse_date_only (s : string) : option Z :=
  if (String.length s =? 10)%nat && Ascii.eqb (char_at 4 s) "-" && Ascii.eqb (char_at 7 s) "-" then
    match parse_digits 0 (substring 0 4 s), parse_digits 0 (substring 5 2 s),
          parse_digits 0 (substring 8 2 s) with
    | Some y, Some m, Some d => ymd_time y m d
    | _, _, _ => None
    end
  else if (String.length s =? 13)%nat && Ascii.eqb (char_at 7 s) "-" && Ascii.eqb (char_at 10 s) "-"
          && (Ascii.eqb (char_at 0 s) "+" || Ascii.eqb (char_at 0 s) "-") then
    match parse_digits 0 (substring 1 6 s), parse_digits 0 (substring 8 2 s),
          parse_digits 0 (substring 11 2 s) with
    | Some y, Some m, Some d =>
        if Ascii.eqb (char_at 0 s) "-" then
          if y =? 0 then None else ymd_time (- y) m d
        else ymd_time y m d
    | _, _, _ => None
    end
  else None.

Local Open Scope list_scope.
Local Open Scope string_scope.
Local Open Scope Z_scope.

(** * The host environment: builtins and sources of randomness *)

Record UnitDouble : Type := {
  ud_value :> number;
  ud_ok : unit_ok ud_value = true
}.

Record Host : Type := {
  (** [String.prototype.toUpperCase] and [toLowerCase] *)
  host_toUpperCase : string -> string;
  host_toLowerCase : string -> string;
  (** [Number::toString], the shortest round-tripping decimal text *)
  host_numberToString : number -> string;
  (** [Date.parse] on text outside the date-only forms *)
  host_dateParse : string -> option Z;
  (** [LocalTZA(t, isUTC)]: the offset of local time from UTC, in
      milliseconds, at the UTC or local time [t] *)
  host_localTZA : Z -> bool -> Z;
  (** the value returned by the [i]-th draw from [Math.random()] *)
  host_random : nat -> UnitDouble;
  (** the raw integer behind the [i]-th draw of a faker helper *)
  host_fakerNat : nat -> nat;
  (** the text produced by the [i]-th draw of a faker data generator or uuid *)
  host_fakerText : nat -> string
}.

(** Computations that draw from the host's random sources and may throw:
    the state is the number of draws made so far. *)
Definition Gen (A : Type) : Type := nat -> Outcome (A * nat).

Definition ret {A : Type} (a : A) : Gen A := fun n => Return (a, n).

Definition bind {A B : Type} (g : Gen A) (k : A -> Gen B) : Gen B :=
  fun n => match g n with
           | Return (a, n') => k a n'
           | Throw e => Throw e
           | Unending => Unending
           end.

Definition lift {A : Type} (o : Outcome A) : Gen A :=
  fun n => match o with
           | Return a => Return (a, n)
           | Throw e => Throw e
           | Unending => Unending
           end.

Declare Scope gen_scope.
Delimit Scope gen_scope with gen.
Notation "x <- g ;; k" := (bind g (fun x => k))
  (at level 61, g at next level, right associativity) : gen_scope.
Notation "' pat <- g ;; k" := (bind g (fun x => match x with pat => k end))
  (at level 61, pat pattern, g at next level, right associativity) : gen_scope.
Local Open Scope gen_scope.

Fixpoint repeatM {A : Type} (n : nat) (g : Gen A) : Gen (list A) :=
  match n with
  | O => ret []
  | S n' => x <- g ;; xs <- repeatM n' g ;; ret (x :: xs)
  end.

Fixpoint mapM {A B : Type} (f : A -> Gen B) (l : list A) : Gen (list B) :=
  match l with
  | [] => ret []
  | a :: l' => b <- f a ;; bs <- mapM f l' ;; ret (b :: bs)
  end.


(** * Shared types *)

Record Company : Type := {
  name : string;
  address : string;
  phone : string;
  email : string;
  website : string;
  bankName : string;
  iban : string;
  vatId : string;
  nameVariations : option (list string)
}.

Record Country : Type := {
  country_code : string;
  locale : string;
  suffix : list string;
  vatPrefix : string;
  ibanPrefix : string;
  bankNames : list string
}.

Inductive TransactionDirection : Type := payables | receivables.

Inductive TestCaseType : Type :=
  | perfect_match
  | discount_1_percent
  | discount_2_percent
  | discount_3_percent
  | fx_gain
  | fx_loss
  | partial_match_no_description
  | partial_match_amount_mismatch
  | partial_match_date_far
  | group_payment.

Record TestCaseConfig : Type := {
  cfg_type : TestCaseType;
  cfg_label : string;
  cfg_description : string;
  cfg_quantity : number
}.

Record InvoiceItem : Type := {
  item_name : string;
  quantity : number;
  price : number;
  tax : number
}.

Record Invoice : Type := {
  inv_id : string;
  inv_number : string;
  date : string;
  dueDate : string;
  supplier : Company;
  customer : Company;
  items : list InvoiceItem;
  subtotal : number;
  taxTotal : number;
  total : number;
  currency : string;
  note : string
}.

Record BankTransaction : Type := {
  tx_date : string;
  counterparty : string;
  description : string;
  amount_eur : number
}.

Record Metadata : Type := {
  originalAmount : number;
  adjustedAmount : number;
  adjustmentReason : option string;
  discountPercent : option number;
  fxRate : option number;
  matchingFields : list string;
  mismatchedFields : list string;
  groupedInvoiceCount : option number
}.

Record TestCase : Type := {
  tc_id : string;
  tc_type : TestCaseType;
  tc_direction : TransactionDirection;
  invoice : Invoice;
  invoices : option (list Invoice);
  transaction : BankTransaction;
  metadata : Metadata
}.

Record GeneratedTestSuite : Type := {
  suite_id : string;
  createdAt : string;
  suite_direction : TransactionDirection;
  cases : list TestCase;
  csvContent : string
}.

(** [Partial<Company>]: every field may be absent. *)
Record PartialCompany : Type := {
  p_name : option string;
  p_address : option string;
  p_phone : option string;
  p_email : option string;
  p_website : option string;
  p_bankName : option string;
  p_iban : option string;
  p_vatId : option string
}.

Record Product : Type := {
  prod_name : string;
  basePrice : number;
  category : string
}.

Definition direction_eqb (a b : TransactionDirection) : bool :=
  match a, b with
  | payables, payables | receivables, receivables => true
  | _, _ => false
  end.



Section WithHost.
Variable h : Host.

Definition toUpperCase : string -> string := host_toUpperCase h.
Definition toLowerCase : string -> string := host_toLowerCase h.
Definition numberToString : number -> string := host_numberToString h.

Definition Math_random : Gen number :=
  fun n => Return (ud_value (host_random h n), S n).

(** [faker.number.int({ min, max })] *)
Definition faker_int (min max : Z) : Gen Z :=
  fun n => Return (min + Z.of_nat (host_fakerNat h n) mod (max - min + 1), S n).

(** [faker.helpers.arrayElement(l)] *)
Definition arrayElement {A : Type} (l : list A) : Gen A :=
  fun n => match l with
           | [] => Throw TypeError
           | x :: _ => Return (nth (host_fakerNat h n mod List.length l)%nat l x, S n)
           end.

(** faker's data generators ([person.lastName], [location.city], ...) and [uuidv4] *)
Definition faker_text : Gen string :=
  fun n => Return (host_fakerText h n, S n).

Definition uuidv4 : Gen string := faker_text.

(** [new Date(text)] *)
Definition Date_parse (s : string) : Date :=
  match parse_date_only s with
  | Some t => TimeClip t
  | None => match host_dateParse h s with Some t => TimeClip t | None => None end
  end.

(** [LocalTime], [UTC] and the methods of Date objects that work in local time *)
Definition LocalTime (t : Z) : Z := t + host_localTZA h t true.
Definition UTC (t : Z) : Z := t - host_localTZA h t false.

Definition getDate (d : Date) : number :=
  match d with Some t => ofZ (DateFromTime (LocalTime t)) | None => NaN end.

Definition getFullYear (d : Date) : number :=
  match d with Some t => ofZ (YearFromTime (LocalTime t)) | None => NaN end.

Definition setDate (d : Date) (date : number) : Date :=
  match d with
  | None => None
  | Some t0 =>
      if is_finite date then
        let t := LocalTime t0 in
        let newDate :=
          MakeDate (MakeDay (YearFromTime t) (MonthFromTime t) (truncZ date))
                   (TimeWithinDay t) in
        TimeClip (UTC newDate)
      else None
  end.

(** * Companies (suppliers module) *)

Definition EU_COUNTRIES : list Country :=
  [ Build_Country "DE" "de" ["GmbH"; "AG"; "KG"] "DE" "DE" ["Deutsche Bank AG"; "Commerzbank AG"; "DZ Bank AG"];
    Build_Country "NL" "nl" ["B.V."; "N.V."] "NL" "NL" ["ING Bank N.V."; "ABN AMRO"; "Rabobank"];
    Build_Country "GB" "en_GB" ["Ltd"; "PLC"] "GB" "GB" ["Barclays Bank"; "HSBC UK"; "Lloyds Bank"];
    Build_Country "FR" "fr" ["S.A."; "S.A.R.L."; "SAS"] "FR" "FR" ["BNP Paribas"; "Crédit Agricole"; "Société Générale"];
    Build_Country "IT" "it" ["SpA"; "S.r.l."] "IT" "IT" ["UniCredit S.p.A."; "Intesa Sanpaolo"; "Banca Monte dei Paschi"];
    Build_Country "ES" "es" ["S.A."; "S.L."] "ES" "ES" ["Banco Santander"; "BBVA"; "CaixaBank"];
    Build_Country "SE" "sv" ["AB"; "AS"] "SE" "SE" ["Nordea Bank"; "SEB"; "Swedbank"];
    Build_Country "CH" "de_CH" ["AG"; "GmbH"; "SA"] "CHE" "CH" ["UBS AG"; "Credit Suisse"; "Zürcher Kantonalbank"];
    Build_Country "BE" "nl_BE" ["S.A."; "N.V."; "SPRL"] "BE" "BE" ["BNP Paribas Fortis"; "KBC Bank"; "Belfius"];
    Build_Country "AT" "de_AT" ["GmbH"; "AG"] "ATU" "AT" ["Erste Bank"; "Raiffeisen Bank"; "Bank Austria"] ].

Definition BUSINESS_PREFIXES : list string :=
  ["Tech"; "Data"; "Cloud"; "Digital"; "Smart"; "Euro"; "Global"; "Pro"; "Net"; "Sys";
   "Info"; "Cyber"; "Logic"; "Soft"; "Web"; "Auto"; "Bio"; "Eco"; "Med"; "Fin"].

Definition BUSINESS_SUFFIXES : list string :=
  ["Solutions"; "Systems"; "Services"; "Tech"; "Soft"; "Pro"; "Labs"; "Works"; "Group"; "Corp";
   "Dynamics"; "Logic"; "Ware"; "Net"; "Link"; "Hub"; "Base"; "Core"; "Wave"; "Flow"].

Definition BUSINESS_INDUSTRIES : list string :=
  ["Software"; "Consulting"; "Logistics"; "Marketing"; "Finance"; "Engineering"; "Supply"; "Print";
   "Medical"; "Office"; "Security"; "Analytics"; "Automation"; "Integration"; "Components"].

Definition generateBusinessName : Gen string :=
  style <- faker_int 0 3 ;;
  match style with
  | 0 =>
      a <- arrayElement BUSINESS_PREFIXES ;; b <- arrayElement BUSINESS_SUFFIXES ;;
      ret (a ++ b)
  | 1 =>
      a <- arrayElement ["Nordic"; "Euro"; "Global"; "Prime"; "Alpha"; "Delta"] ;;
      b <- arrayElement BUSINESS_INDUSTRIES ;;
      ret (a ++ " " ++ b)
  | 2 =>
      a <- faker_text ;; b <- arrayElement BUSINESS_INDUSTRIES ;;
      ret (a ++ " " ++ b)
  | _ =>
      a <- arrayElement BUSINESS_PREFIXES ;; b <- arrayElement BUSINESS_INDUSTRIES ;;
      ret (a ++ b)
  end.

(** [s.split(/(?=[A-Z])|\s+/)]: a piece ends before every capital letter that
    does not start it, and at every run of white space, which is dropped. *)
Fixpoint split_words (in_space : bool) (cur : string) (s : string) : list string :=
  match s with
  | "" => [cur]
  | String c s' =>
      if in_space && is_space c then split_words true cur s'
      else if is_upper c then
        match cur with
        | "" => split_words false (String c "") s'
        | _ => cur :: split_words false (String c "") s'
        end
      else if is_space c then cur :: split_words true "" s'
      else split_words false (cur ++ String c "") s'
  end.

(** [w[0]], the empty text standing for [undefined] under [join('')]. *)
Definition first_char (w : string) : string := js_prefix 1 w.

(** [s.replace(/([a-z])([A-Z])/g, '$1 $2')] *)
Fixpoint space_camel (s : string) : string :=
  match s with
  | "" => ""
  | String c s' =>
      match s' with
      | String c' _ =>
          if is_lower c && is_upper c' then String c (String " " (space_camel s'))
          else String c (space_camel s')
      | "" => String c ""
      end
  end.

Definition remove_periods (s : string) : string :=
  string_filter (fun c => negb (Ascii.eqb c ".")) s.

Definition remove_spaces (s : string) : string :=
  string_filter (fun c => negb (is_space c)) s.

Definition generateNameVariations (baseName legalSuffix : string) : list string :=
  let fullName := baseName ++ " " ++ legalSuffix in
  let variations := [toUpperCase fullName; baseName; toUpperCase baseName] in
  let abbrev := toUpperCase (String.concat "" (map first_char (split_words false "" baseName))) in
  let variations :=
    if (2 <=? js_length abbrev)%nat
    then List.app variations [abbrev; abbrev ++ " " ++ legalSuffix] else variations in
  let spaced := space_camel baseName in
  let variations :=
    if negb (String.eqb spaced baseName)
    then List.app variations [spaced; spaced ++ " " ++ legalSuffix] else variations in
  let cleanSuffix := remove_periods legalSuffix in
  let variations :=
    if negb (String.eqb cleanSuffix legalSuffix)
    then List.app variations [baseName ++ " " ++ cleanSuffix] else variations in
  let variations :=
    if (10 <? js_length baseName)%nat
    then List.app variations [toUpperCase (js_prefix 10 baseName)] else variations in
  dedupe variations.

Definition generateCompany : Gen Company :=
  country <- arrayElement EU_COUNTRIES ;;
  baseName <- generateBusinessName ;;
  legalSuffix <- arrayElement (suffix country) ;;
  let fullName := baseName ++ " " ++ legalSuffix in
  street <- faker_text ;; zip <- faker_text ;; city <- faker_text ;;
  phone' <- faker_text ;;
  email' <- faker_text ;;
  bank <- arrayElement (bankNames country) ;;
  iban' <- faker_text ;;
  digits <- faker_text ;;
  ret {| name := fullName;
         address := street ++ ", " ++ zip ++ " " ++ city ++ ", " ++ country_code country;
         phone := phone';
         email := email';
         website := "www." ++ remove_spaces (toLowerCase baseName) ++ "." ++ toLowerCase (country_code country);
         bankName := bank;
         iban := iban';
         vatId := vatPrefix country ++ digits;
         nameVariations := Some (generateNameVariations baseName legalSuffix) |}.

Definition getRandomSupplier : Gen Company := generateCompany.

(** The legal-form tokens removed by [generateSimpleVariation]. *)
Definition LEGAL_TOKENS : list string :=
  ["GmbH"; "Ltd"; "AG"; "B.V."; "S.A."; "SpA"; "KG"; "Oy"; "AS"; "S.L."; "AB"; "N.V.";
   "PLC"; "S.r.l."; "S.A.R.L."; "SAS"; "SPRL"].

Fixpoint string_rev_onto (s acc : string) : string :=
  match s with "" => acc | String c s' => string_rev_onto s' (String c acc) end.
Definition string_rev (s : string) : string := string_rev_onto s "".

Fixpoint drop_while (p : ascii -> bool) (s : string) : string :=
  match s with
  | "" => ""
  | String c s' => if p c then drop_while p s' else s
  end.

Definition trim (s : string) : string :=
  drop_while is_space (string_rev (drop_while is_space (string_rev s))).

Definition ascii_lower (c : ascii) : ascii :=
  if is_upper c then ascii_of_nat (code c + 32) else c.

Fixpoint string_map (f : ascii -> ascii) (s : string) : string :=
  match s with "" => "" | String c s' => String (f c) (string_map f s') end.

(** [name.replace(/\s+(tok1|tok2|...)$/i, '')] for one token: the text before
    the run of white space that precedes a trailing token, if there is one. *)
Definition strip_token (name tok : string) : option string :=
  let rn := string_rev name in
  let rt := string_rev tok in
  if String.prefix (string_map ascii_lower rt) (string_map ascii_lower rn) then
    let rest := substring (String.length rt) (String.length rn - String.length rt) rn in
    match rest with
    | String c _ => if is_space c then Some (string_rev (drop_while is_space rest)) else None
    | "" => None
    end
  else None.

Fixpoint strip_legal (name : string) (toks : list string) : string :=
  match toks with
  | [] => name
  | tok :: toks' =>
      match strip_token name tok with
      | Some s => s
      | None => strip_legal name toks'
      end
  end.

Definition generateSimpleVariation (name' : string) : Gen string :=
  variationType <- faker_int 0 4 ;;
  match variationType with
  | 0 => ret (toUpperCase name')
  | 1 => ret (hd "" (split_on " " "" name'))
  | 2 => ret (trim (strip_legal name' LEGAL_TOKENS))
  | 3 => ret (remove_periods name')
  | _ => ret (String.concat " " (firstn 2 (split_on " " "" name')))
  end.

Definition getRandomNameVariation (company : Company) : Gen string :=
  r <- Math_random ;;
  if num_lt r (of_decimal false 4 1) then ret (name company)
  else
    match nameVariations company with
    | Some (v :: vs) => arrayElement (v :: vs)
    | _ => generateSimpleVariation (name company)
    end.


(** * Products (suppliers module) *)

Definition PRODUCTS : list Product :=
  [ Build_Product "Software License - Enterprise" (ofZ 5000) "software";
    Build_Product "Cloud Hosting - Monthly" (ofZ 299) "hosting";
    Build_Product "IT Consulting Services" (ofZ 150) "services";
    Build_Product "Hardware Maintenance Contract" (ofZ 1200) "maintenance";
    Build_Product "Data Analytics Platform" (ofZ 2500) "software";
    Build_Product "Cybersecurity Audit" (ofZ 3500) "services";
    Build_Product "API Integration Services" (ofZ 800) "services";
    Build_Product "Office Supplies - Bulk Order" (ofZ 450) "supplies";
    Build_Product "Training Workshop (per person)" (ofZ 350) "training";
    Build_Product "Technical Support - Annual" (ofZ 1800) "support";
    Build_Product "Server Equipment" (ofZ 4500) "hardware";
    Build_Product "Network Infrastructure Setup" (ofZ 2800) "services";
    Build_Product "Database Migration Services" (ofZ 1500) "services";
    Build_Product "SSL Certificate - Wildcard" (ofZ 299) "security";
    Build_Product "Domain Registration (per year)" (ofZ 25) "hosting" ].

Definition product_text (category' : string) : Gen string :=
  if String.eqb category' "software" then
    a <- faker_text ;; b <- faker_text ;; ret (a ++ " " ++ b ++ " License")
  else if String.eqb category' "services" then
    a <- faker_text ;; b <- faker_text ;; ret (a ++ " " ++ b ++ " Services")
  else if String.eqb category' "hardware" then
    a <- faker_text ;; b <- faker_text ;; ret (a ++ " " ++ b)
  else if String.eqb category' "supplies" then
    a <- faker_text ;; b <- faker_text ;; ret (a ++ " Office " ++ b)
  else
    a <- faker_text ;; ret (a ++ " Support Package").

Definition generateProduct : Gen Product :=
  r <- Math_random ;;
  if num_lt r (of_decimal false 7 1) then arrayElement PRODUCTS
  else
    category' <- arrayElement ["software"; "services"; "hardware"; "supplies"; "support"] ;;
    name' <- product_text category' ;;
    p <- faker_int 50 5000 ;;
    ret {| prod_name := name'; basePrice := ofZ p; category := category' |}.

(** The loop of [getRandomProducts], whose body does not throw: it never
    returns when it never exits. *)
Definition getRandomProducts (count : number) : Gen (list Product) :=
  match iterations count with
  | Some k => repeatM k generateProduct
  | None => fun _ => Unending
  end.

Definition GENERIC_DESCRIPTIONS : list string :=
  ["Payment"; "Invoice Payment"; "Supplier Payment"; "Wire Transfer"; "Bank Transfer";
   "Settlement"; "Account Settlement"; "Payment Order"; "SEPA Transfer"; "International Payment"].

Definition getRandomGenericDescription : Gen string :=
  arrayElement GENERIC_DESCRIPTIONS.

(** * The generator *)

Definition DEFAULT_COMPANY : Company :=
  {| name := "Acme Corporation GmbH";
     address := "MusterstraÃŸe 123, 10115 Berlin, Germany";
     phone := "+49 30 555 1234";
     email := "accounting@acme-corp.de";
     website := "www.acme-corp.de";
     bankName := "Deutsche Bank AG";
     iban := "DE89370400440532013001";
     vatId := "DE987654321";
     nameVariations := None |}.

Definition randomBetween (min max : number) : Gen number :=
  r <- Math_random ;;
  ret (num_add (Math_floor (num_mul r (num_add (num_sub max min) (ofZ 1)))) min).

Definition randomFloat (min max : number) (decimals : nat) : Gen number :=
  r <- Math_random ;;
  let value := num_add (num_mul r (num_sub max min)) min in
  ret (parseFloat (toFixed value decimals)).

Definition formatDate (d : Date) : Outcome string :=
  match toISOString d with
  | Return s => Return (split_first "T" s)
  | Throw e => Throw e
  | Unending => Unending
  end.

Definition addDays (d : Date) (days : number) : Date :=
  let result := d in
  setDate result (num_add (getDate result) days).

(** Text of a number inside a template literal or under [toString()]. *)
Definition is_integer (x : number) : bool :=
  match x with
  | S754_zero _ => true
  | S754_finite _ m e => (0 <=? e) || (Zpos m mod 2 ^ (- e) =? 0)
  | _ => false
  end.

Definition Number_toString (x : number) : string :=
  match x with
  | S754_finite _ m e =>
      if is_integer x && negb (at_least_1e21 m e) then Z_to_string (truncZ x)
      else numberToString x
  | S754_zero _ => "0"
  | _ => numberToString x
  end.

Definition generateInvoiceNumber (year sequence : number)
    (direction : TransactionDirection) : string :=
  let prefix := if direction_eqb direction receivables then "INV" else "BILL" in
  prefix ++ "-" ++ Number_toString year ++ "-" ++ padStart (Number_toString sequence) 4 "0".

Definition generateInvoiceItems (itemCount : number) : Gen (list InvoiceItem) :=
  products <- getRandomProducts itemCount ;;
  mapM (fun product =>
          quantity' <- randomBetween (ofZ 1) (ofZ 10) ;;
          priceVariation <- randomFloat (of_decimal false 8 1) (of_decimal false 12 1) 2 ;;
          let price' := parseFloat (toFixed (num_mul (basePrice product) priceVariation) 2) in
          t <- randomBetween (ofZ 0) (ofZ 2) ;;
          let tax' := if num_eq t (ofZ 0) then ofZ 0 else ofZ 19 in
          ret {| item_name := prod_name product; quantity := quantity';
                 price := price'; tax := tax' |})
       products.

Record InvoiceTotals : Type := {
  totals_subtotal : number;
  totals_taxTotal : number;
  totals_total : number
}.

(** The loop of [calculateInvoiceTotals]: the running [subtotal] and [taxTotal]. *)
Fixpoint sum_items (its : list InvoiceItem) (subtotal' taxTotal' : number) : number * number :=
  match its with
  | [] => (subtotal', taxTotal')
  | item :: rest =>
      let itemSubtotal := num_mul (quantity item) (price item) in
      let itemTax := num_div (num_mul itemSubtotal (tax item)) (ofZ 100) in
      sum_items rest (num_add subtotal' itemSubtotal) (num_add taxTotal' itemTax)
  end.

Definition calculateInvoiceTotals (its : list InvoiceItem) : InvoiceTotals :=
  let '(subtotal', taxTotal') := sum_items its (ofZ 0) (ofZ 0) in
  {| totals_subtotal := parseFloat (toFixed subtotal' 2);
     totals_taxTotal := parseFloat (toFixed taxTotal' 2);
     totals_total := parseFloat (toFixed (num_add subtotal' taxTotal') 2) |}.

Definition msPerDayNumber : number :=
  num_mul (num_mul (num_mul (ofZ 1000) (ofZ 60)) (ofZ 60)) (ofZ 24).

Definition generateInvoice (range_start range_end : Date) (supplier' customer' : Company)
    (invoiceSequence : number) (direction : TransactionDirection) : Gen Invoice :=
  let daysDiff :=
    Math_floor (num_div (num_sub (getTime range_end) (getTime range_start)) msPerDayNumber) in
  randomDays <- randomBetween (ofZ 0) daysDiff ;;
  let invoiceDate := addDays range_start randomDays in
  terms <- randomBetween (ofZ 14) (ofZ 30) ;;
  let dueDate' := addDays invoiceDate terms in
  itemCount <- randomBetween (ofZ 1) (ofZ 5) ;;
  items' <- generateInvoiceItems itemCount ;;
  let totals := calculateInvoiceTotals items' in
  let note' :=
    if direction_eqb direction receivables
    then "Thank you for your business. Payment due within the specified terms."
    else "Please process payment by the due date. Thank you." in
  id' <- uuidv4 ;;
  let number' := generateInvoiceNumber (getFullYear invoiceDate) invoiceSequence direction in
  date' <- lift (formatDate invoiceDate) ;;
  due' <- lift (formatDate dueDate') ;;
  ret {| inv_id := id'; inv_number := number'; date := date'; dueDate := due';
         supplier := supplier'; customer := customer'; items := items';
         subtotal := totals_subtotal totals; taxTotal := totals_taxTotal totals;
         total := totals_total totals; currency := "EUR"; note := note' |}.

(** Text of [x.toFixed(f)]. *)
Definition fixed_to_string (t : fixed_text) : string :=
  match t with
  | Fixed_NaN => "NaN"
  | Fixed_toString x => numberToString x
  | Fixed_digits neg n f =>
      let p := 10 ^ Z.of_nat f in
      (if neg then "-" else "") ++ Z_to_string (Z.of_N n / p)
        ++ (if (f =? 0)%nat then "" else "." ++ fixed_width f (Z.of_N n mod p))
  end.

Definition amountSignOf (direction : TransactionDirection) : number :=
  if direction_eqb direction payables then ofZ (-1) else ofZ 1.

Definition discount_case (inv : Invoice) (invoiceDate : Date) (amountSign : number)
    (k : Z) (factor : number) (base : Metadata) : Gen (Date * number * string * Metadata) :=
  offset <- randomBetween (ofZ 1) (ofZ 5) ;;
  let amount := num_mul amountSign (parseFloat (toFixed (num_mul (total inv) factor) 2)) in
  let pct := Z_to_string k in
  ret (addDays invoiceDate offset, amount,
       inv_number inv ++ " Payment " ++ pct ++ "% early discount",
       {| originalAmount := originalAmount base;
          adjustedAmount := Math_abs amount;
          adjustmentReason := Some (pct ++ "% early payment discount");
          discountPercent := Some (ofZ k);
          fxRate := None;
          matchingFields := ["counterparty"; "invoice_number"; "date_proximity"];
          mismatchedFields := ["amount (" ++ pct ++ "% discount applied)"];
          groupedInvoiceCount := None |}).

Definition fx_case (inv : Invoice) (invoiceDate : Date) (amountSign : number)
    (direction : TransactionDirection) (lo hi : number) (kind : string)
    (base : Metadata) : Gen (Date * number * string * Metadata) :=
  offset <- randomBetween (ofZ 3) (ofZ 14) ;;
  rate <- randomFloat lo hi 2 ;;
  let multiplier := if direction_eqb direction payables then rate else num_sub (ofZ 2) rate in
  let amount := num_mul amountSign (parseFloat (toFixed (num_mul (total inv) multiplier) 2)) in
  ret (addDays invoiceDate offset, amount,
       inv_number inv ++ " FX Payment",
       {| originalAmount := originalAmount base;
          adjustedAmount := Math_abs amount;
          adjustmentReason :=
            Some ("FX " ++ kind ++ " (rate: " ++ fixed_to_string (toFixed rate 4) ++ ")");
          discountPercent := None;
          fxRate := Some rate;
          matchingFields := ["counterparty"; "invoice_number"];
          mismatchedFields := ["amount (FX " ++ kind ++ ")"];
          groupedInvoiceCount := None |}).

Definition with_fields (base : Metadata) (matching mismatched : list string) : Metadata :=
  {| originalAmount := originalAmount base;
     adjustedAmount := adjustedAmount base;
     adjustmentReason := adjustmentReason base;
     discountPercent := discountPercent base;
     fxRate := fxRate base;
     matchingFields := matching;
     mismatchedFields := mismatched;
     groupedInvoiceCount := groupedInvoiceCount base |}.

Definition generateTransaction (inv : Invoice) (type : TestCaseType)
    (direction : TransactionDirection) : Gen (BankTransaction * Metadata) :=
  let invoiceDate := Date_parse (date inv) in
  let base :=
    {| originalAmount := total inv; adjustedAmount := total inv;
       adjustmentReason := None; discountPercent := None; fxRate := None;
       matchingFields := []; mismatchedFields := []; groupedInvoiceCount := None |} in
  let counterpartyCompany :=
    if direction_eqb direction payables then supplier inv else customer inv in
  counterparty' <- getRandomNameVariation counterpartyCompany ;;
  let amountSign := amountSignOf direction in
  '(transactionDate, amount, description', metadata') <-
    match type with
    | perfect_match =>
        offset <- randomBetween (ofZ 1) (ofZ 7) ;;
        ret (addDays invoiceDate offset, num_mul amountSign (total inv),
             inv_number inv ++ " Payment",
             with_fields base ["counterparty"; "amount"; "invoice_number"; "date_proximity"] [])
    | discount_1_percent =>
        discount_case inv invoiceDate amountSign 1 (of_decimal false 99 2) base
    | discount_2_percent =>
        discount_case inv invoiceDate amountSign 2 (of_decimal false 98 2) base
    | discount_3_percent =>
        discount_case inv invoiceDate amountSign 3 (of_decimal false 97 2) base
    | fx_gain =>
        fx_case inv invoiceDate amountSign direction
          (of_decimal false 95 2) (of_decimal false 99 2) "gain" base
    | fx_loss =>
        fx_case inv invoiceDate amountSign direction
          (of_decimal false 101 2) (of_decimal false 105 2) "loss" base
    | partial_match_no_description =>
        offset <- randomBetween (ofZ 1) (ofZ 10) ;;
        d <- getRandomGenericDescription ;;
        ret (addDays invoiceDate offset, num_mul amountSign (total inv), d,
             with_fields base ["counterparty"; "amount"; "date_proximity"]
               ["description (no invoice number)"])
    | partial_match_amount_mismatch =>
        offset <- randomBetween (ofZ 1) (ofZ 10) ;;
        mismatchFactor <- randomFloat (of_decimal false 99 2) (of_decimal false 101 2) 2 ;;
        let amount := num_mul amountSign
                        (parseFloat (toFixed (num_mul (total inv) mismatchFactor) 2)) in
        ret (addDays invoiceDate offset, amount, inv_number inv ++ " Payment",
             {| originalAmount := originalAmount base;
                adjustedAmount := Math_abs amount;
                adjustmentReason := Some "Unknown amount difference (possible fees or rounding)";
                discountPercent := None; fxRate := None;
                matchingFields := ["counterparty"; "invoice_number"; "date_proximity"];
                mismatchedFields := ["amount (small unexplained difference)"];
                groupedInvoiceCount := None |})
    | partial_match_date_far =>
        offset <- randomBetween (ofZ 30) (ofZ 60) ;;
        ret (addDays invoiceDate offset, num_mul amountSign (total inv),
             inv_number inv ++ " Late Payment",
             with_fields base ["counterparty"; "amount"; "invoice_number"]
               ["date (30+ days after invoice)"])
    | group_payment =>
        offset <- randomBetween (ofZ 1) (ofZ 7) ;;
        ret (addDays invoiceDate offset, num_mul amountSign (total inv),
             inv_number inv ++ " Payment",
             with_fields base ["counterparty"; "amount"; "invoice_number"; "date_proximity"] [])
    end ;;
  date' <- lift (formatDate transactionDate) ;;
  ret ({| tx_date := date'; counterparty := counterparty';
          description := description'; amount_eur := amount |}, metadata').

Definition generateTestCase (type : TestCaseType) (direction : TransactionDirection)
    (range_start range_end : Date) (ourCompany : Company) (invoiceSequence : number)
    : Gen TestCase :=
  otherParty <- getRandomSupplier ;;
  let supplier' := if direction_eqb direction payables then otherParty else ourCompany in
  let customer' := if direction_eqb direction payables then ourCompany else otherParty in
  inv <- generateInvoice range_start range_end supplier' customer' invoiceSequence direction ;;
  '(transaction', metadata') <- generateTransaction inv type direction ;;
  id' <- uuidv4 ;;
  ret {| tc_id := id'; tc_type := type; tc_direction := direction; invoice := inv;
         invoices := None; transaction := transaction'; metadata := metadata' |}.

Definition latestDate (invs : list Invoice) (first : Date) : Date :=
  fold_left (fun latest inv =>
               let invDate := Date_parse (date inv) in
               if date_gt invDate latest then invDate else latest)
            invs first.

Definition generateGroupPaymentTestCase (direction : TransactionDirection)
    (range_start range_end : Date) (ourCompany : Company) (startingSequence : number)
    : Gen (TestCase * number) :=
  otherParty <- getRandomSupplier ;;
  let supplier' := if direction_eqb direction payables then otherParty else ourCompany in
  let customer' := if direction_eqb direction payables then ourCompany else otherParty in
  invoiceCount <- randomBetween (ofZ 2) (ofZ 3) ;;
  invoices' <- match iterations invoiceCount with
               | Some k =>
                   mapM (fun i =>
                           generateInvoice range_start range_end supplier' customer'
                             (num_add startingSequence (ofZ (Z.of_nat i))) direction)
                        (seq 0 k)
               | None => fun _ => Unending
               end ;;
  let totalAmount := fold_left (fun sum inv => num_add sum (total inv)) invoices' (ofZ 0) in
  let amountSign := amountSignOf direction in
  match invoices' with
  | [] => lift (Throw TypeError)
  | first :: _ =>
      let latestInvoiceDate := latestDate invoices' (Date_parse (date first)) in
      offset <- randomBetween (ofZ 1) (ofZ 7) ;;
      let transactionDate := addDays latestInvoiceDate offset in
      let invoiceNumbers := String.concat ", " (map inv_number invoices') in
      let description' := "Batch Payment: " ++ invoiceNumbers in
      let counterpartyCompany :=
        if direction_eqb direction payables then supplier' else customer' in
      counterparty' <- getRandomNameVariation counterpartyCompany ;;
      date' <- lift (formatDate transactionDate) ;;
      let transaction' :=
        {| tx_date := date'; counterparty := counterparty'; description := description';
           amount_eur := parseFloat (toFixed (num_mul amountSign totalAmount) 2) |} in
      let metadata' :=
        {| originalAmount := parseFloat (toFixed totalAmount 2);
           adjustedAmount := parseFloat (toFixed totalAmount 2);
           adjustmentReason :=
             Some ("Group payment covering " ++ Number_toString invoiceCount ++ " invoices");
           discountPercent := None; fxRate := None;
           matchingFields := ["counterparty"; "total_amount"; "invoice_numbers"; "date_proximity"];
           mismatchedFields := [];
           groupedInvoiceCount := Some invoiceCount |} in
      id' <- uuidv4 ;;
      ret ({| tc_id := id'; tc_type := group_payment; tc_direction := direction;
              invoice := first; invoices := Some invoices';
              transaction := transaction'; metadata := metadata' |}, invoiceCount)
  end.

(** ** CSV *)

Definition csv_header : string := "date;counterparty;description;amount_eur".

Definition csv_row (tc : TestCase) : string :=
  let t := transaction tc in
  tx_date t ++ ";" ++ counterparty t ++ ";" ++ description t ++ ";" ++ Number_toString (amount_eur t).

(** [a.localeCompare(b)] on the keys of the rows.  The keys are date texts,
    made of digits, hyphens and, for a year above 9999, a plus sign;
    the collation of the runtime (ICU, root order) compares such texts
    character by character, the hyphen before the plus sign and both
    before the digits.  Other characters, which no key holds, are put
    after them, in the order of their codes. *)
Definition collation_weight (c : ascii) : N :=
  if Ascii.eqb c "-" then 0%N
  else if Ascii.eqb c "+" then 1%N
  else if is_digit c then (N.of_nat (code c) - 46)%N
  else (N.of_nat (code c) + 12)%N.

Fixpoint localeCompare (a b : string) : comparison :=
  match a, b with
  | "", "" => Eq
  | "", String _ _ => Lt
  | String _ _, "" => Gt
  | String x a', String y b' =>
      match (collation_weight x ?= collation_weight y)%N with
      | Eq => localeCompare a' b'
      | o => o
      end
  end.

Definition row_le (a b : string) : bool :=
  match localeCompare (split_first ";" a) (split_first ";" b) with
  | Gt => false
  | _ => true
  end.

(** [Array.prototype.sort] is stable: an element goes before the first
    element of the sorted rest that is not strictly smaller. *)
Fixpoint insert_row (le : string -> string -> bool) (x : string) (l : list string)
    : list string :=
  match l with
  | [] => [x]
  | y :: l' => if le x y then x :: l else y :: insert_row le x l'
  end.

Fixpoint sort_rows (le : string -> string -> bool) (l : list string) : list string :=
  match l with
  | [] => []
  | x :: l' => insert_row le x (sort_rows le l')
  end.

Definition newline : string := String (ascii_of_nat 10) "".

Definition generateCSV (testCases : list TestCase) : string :=
  let rows := map csv_row testCases in
  let rows := sort_rows row_le rows in
  String.concat newline (csv_header :: rows).

(** ** The suite *)

Definition or_default (o : option string) (d : string) : string :=
  match o with Some s => s | None => d end.

(** [{ ...DEFAULT_COMPANY, ...companyOverrides }] *)
Definition merge_company (base : Company) (o : option PartialCompany) : Company :=
  match o with
  | None => base
  | Some p =>
      {| name := or_default (p_name p) (name base);
         address := or_default (p_address p) (address base);
         phone := or_default (p_phone p) (phone base);
         email := or_default (p_email p) (email base);
         website := or_default (p_website p) (website base);
         bankName := or_default (p_bankName p) (bankName base);
         iban := or_default (p_iban p) (iban base);
         vatId := or_default (p_vatId p) (vatId base);
         nameVariations := nameVariations base |}
  end.

(** The inner loop of [generateTestSuite] for one configuration. *)
Fixpoint generate_units (n : nat) (type : TestCaseType) (direction : TransactionDirection)
    (range_start range_end : Date) (ourCompany : Company)
    (acc : list TestCase) (invoiceSequence : number) : Gen (list TestCase * number) :=
  match n with
  | O => ret (acc, invoiceSequence)
  | S n' =>
      match type with
      | group_payment =>
          '(testCase, invoicesGenerated) <-
            generateGroupPaymentTestCase direction range_start range_end ourCompany invoiceSequence ;;
          generate_units n' type direction range_start range_end ourCompany
            (acc ++ [testCase])%list (num_add invoiceSequence invoicesGenerated)
      | _ =>
          testCase <- generateTestCase type direction range_start range_end ourCompany invoiceSequence ;;
          generate_units n' type direction range_start range_end ourCompany
            (acc ++ [testCase])%list (num_add invoiceSequence (ofZ 1))
      end
  end.

(** The inner loop for a configuration whose quantity lets it never exit,
    followed for [fuel] iterations: it ends only by an iteration that
    throws. *)
Fixpoint generate_unending (fuel : nat) (type : TestCaseType)
    (direction : TransactionDirection) (range_start range_end : Date) (ourCompany : Company)
    (acc : list TestCase) (invoiceSequence : number) : Gen (list TestCase * number) :=
  match fuel with
  | O => fun _ => Unending
  | S fuel' =>
      match type with
      | group_payment =>
          '(testCase, invoicesGenerated) <-
            generateGroupPaymentTestCase direction range_start range_end ourCompany invoiceSequence ;;
          generate_unending fuel' type direction range_start range_end ourCompany
            (acc ++ [testCase])%list (num_add invoiceSequence invoicesGenerated)
      | _ =>
          testCase <- generateTestCase type direction range_start range_end ourCompany invoiceSequence ;;
          generate_unending fuel' type direction range_start range_end ourCompany
            (acc ++ [testCase])%list (num_add invoiceSequence (ofZ 1))
      end
  end.

Fixpoint generate_configs (fuel : nat) (configs : list TestCaseConfig)
    (direction : TransactionDirection)
    (range_start range_end : Date) (ourCompany : Company)
    (acc : list TestCase) (invoiceSequence : number) : Gen (list TestCase) :=
  match configs with
  | [] => ret acc
  | config :: rest =>
      '(acc', seq') <-
        match iterations (cfg_quantity config) with
        | Some k =>
            generate_units k (cfg_type config) direction
              range_start range_end ourCompany acc invoiceSequence
        | None =>
            generate_unending fuel (cfg_type config) direction
              range_start range_end ourCompany acc invoiceSequence
        end ;;
      generate_configs fuel rest direction range_start range_end ourCompany acc' seq'
  end.

(** [fuel] is the number of iterations for which a loop that never exits
    is followed. *)
Definition generateTestSuite (fuel : nat) (now : Z) (configs : list TestCaseConfig)
    (direction : TransactionDirection) (start' end' : string)
    (companyOverrides : option PartialCompany) : Gen GeneratedTestSuite :=
  let ourCompany := merge_company DEFAULT_COMPANY companyOverrides in
  let range_start := Date_parse start' in
  let range_end := Date_parse end' in
  invoiceSequence <- randomBetween (ofZ 100) (ofZ 999) ;;
  testCases <- generate_configs fuel configs direction range_start range_end ourCompany [] invoiceSequence ;;
  let csvContent' := generateCSV testCases in
  id' <- uuidv4 ;;
  created <- lift (toISOString (TimeClip now)) ;;
  ret {| suite_id := id'; createdAt := created; suite_direction := direction;
         cases := testCases; csvContent := csvContent' |}.

(** ** PDF data *)

Record PDFCompany : Type := {
  pdf_logo : string;
  pdf_company_name : string;
  pdf_company_address : string;
  pdf_company_phone : string;
  pdf_company_email : string;
  pdf_company_website : string;
  pdf_bank : string
}.

Record PDFCustomer : Type := {
  pdf_customer_name : string;
  pdf_customer_address : string;
  pdf_customer_phone : string;
  pdf_customer_email : string
}.

Record PDFInvoice : Type := {
  pdf_number : number;
  pdf_date : string;
  pdf_dueDate : string;
  pdf_status : string;
  pdf_locale : string;
  pdf_currency : string
}.

Record PDFQr : Type := {
  pdf_qr_data : string;
  pdf_qr_width : number
}.

Record PDFData : Type := {
  pdf_company : PDFCompany;
  pdf_customer : PDFCustomer;
  pdf_invoice : PDFInvoice;
  pdf_items : list InvoiceItem;
  pdf_qr : PDFQr;
  pdf_note : string
}.

(** [parseInt(text, 10)] on text made of decimal digits only. *)
Definition parseInt_digits (s : string) : number :=
  match s with
  | "" => NaN
  | _ => match parse_digits 0 s with Some z => ofZ z | None => NaN end
  end.

Definition invoiceToPDFData (inv : Invoice) : PDFData :=
  let invoiceNumber := parseInt_digits (string_filter is_digit (inv_number inv)) in
  {| pdf_company :=
       {| pdf_logo := "";
          pdf_company_name := name (supplier inv);
          pdf_company_address := address (supplier inv);
          pdf_company_phone := phone (supplier inv);
          pdf_company_email := email (supplier inv);
          pdf_company_website := website (supplier inv);
          pdf_bank :=
            bankName (supplier inv) ++ newline ++ "IBAN: " ++ iban (supplier inv)
              ++ newline ++ "VAT ID: " ++ vatId (supplier inv) |};
     pdf_customer :=
       {| pdf_customer_name := name (customer inv);
          pdf_customer_address := address (customer inv);
          pdf_customer_phone := phone (customer inv);
          pdf_customer_email := email (customer inv) |};
     pdf_invoice :=
       {| pdf_number := invoiceNumber; pdf_date := date inv; pdf_dueDate := dueDate inv;
          pdf_status := "Due"; pdf_locale := "en-US"; pdf_currency := currency inv |};
     pdf_items := items inv;
     pdf_qr :=
       {| pdf_qr_data :=
            "Invoice: " ++ inv_number inv ++ newline ++ "Amount: " ++ currency inv ++ " "
              ++ Number_toString (total inv) ++ newline ++ "IBAN: " ++ iban (supplier inv);
          pdf_qr_width := ofZ 100 |};
     pdf_note := note inv |}.

(** * The worker: request handlers *)

Record DateRangeBody : Type := {
  range_start_text : option string;
  range_end_text : option string
}.

(** The parsed JSON body of a [POST /api/generate] request. *)
Record GenerationBody : Type := {
  body_cases : option (list TestCaseConfig);
  body_dateRange : option DateRangeBody;
  body_direction : option TransactionDirection;
  body_customerCompany : option PartialCompany;
  body_myCompany : option PartialCompany
}.

Inductive ResponseBody : Type :=
  | ErrorBody (error : string)
  | SuiteBody (suite : GeneratedTestSuite)
  | PdfBody (data : PDFData).

Record Response : Type := {
  status : Z;
  body : ResponseBody
}.

(** Truthiness of an optional text: present and not empty. *)
Definition truthy_text (o : option string) : option string :=
  match o with
  | Some "" => None
  | Some s => Some s
  | None => None
  end.

(** The response of [POST /api/generate], or none when the generation is in
    a loop that never exits and has not thrown in the [fuel] iterations
    followed. *)
Definition post_generate (fuel : nat) (now : Z) (b : GenerationBody) (n : nat)
    : option Response :=
  match body_cases b with
  | None | Some [] => Some {| status := 400; body := ErrorBody "No test cases specified" |}
  | Some cases' =>
      match body_dateRange b with
      | None => Some {| status := 400; body := ErrorBody "Date range is required" |}
      | Some r =>
          match truthy_text (range_start_text r), truthy_text (range_end_text r) with
          | Some start', Some end' =>
              let direction :=
                match body_direction b with Some d => d | None => payables end in
              match generateTestSuite fuel now cases' direction start' end'
                      (body_myCompany b) n with
              | Return (testSuite, _) =>
                  Some {| status := 200; body := SuiteBody testSuite |}
              | Throw _ =>
                  Some {| status := 500; body := ErrorBody "Failed to generate test cases" |}
              | Unending => None
              end
          | _, _ => Some {| status := 400; body := ErrorBody "Date range is required" |}
          end
      end
  end.

Definition post_invoice_pdf_data (b : option Invoice) : Response :=
  match b with
  | None => {| status := 400; body := ErrorBody "Invoice data is required" |}
  | Some inv => {| status := 200; body := PdfBody (invoiceToPDFData inv) |}
  end.

End WithHost.

Local Open Scope list_scope.
Local Open Scope string_scope.
Local Open Scope Z_scope.

(** * Vocabulary of the statements *)

(** The date field of a CSV row: the text before its first semicolon. *)
Definition row_key (r : string) : string := split_first ";" r.

(** Ascending order of texts compared as strings, code unit by code unit
    (the order of the operator [<=] on strings). *)
Definition text_le (a b : string) : Prop := String.compare a b <> Gt.

(** The rows of [l] whose date field is [d], in the order they have in [l]. *)
Definition rows_dated (d : string) (l : list string) : list string :=
  filter (fun r => String.eqb (row_key r) d) l.

(** Ascending order of rows by their date field. *)
Definition rows_le (a b : string) : Prop := text_le (row_key a) (row_key b).

(** The order in which the sort of [generateCSV] leaves two rows: the first
    is not after the second under [localeCompare]. *)
Definition collation_le (a b : string) : Prop := localeCompare a b <> Gt.
Definition rows_collated (a b : string) : Prop := collation_le (row_key a) (row_key b).

(** A text made of digits and hyphens only. *)
Fixpoint plain_text (s : string) : bool :=
  match s with
  | "" => true
  | String c s' => (is_digit c || Ascii.eqb c "-") && plain_text s'
  end.

(** A date text of the fixed width of ten characters, [YYYY-MM-DD]. *)
Definition fixed_width_date (s : string) : Prop := String.length s = 10%nat.

(** The two-decimal amount of [n] cents. *)
Definition cents (n : Z) : number := of_decimal false (Z.to_N n) 2.

(** Absolute error allowed on amounts below ten thousand million. *)
Definition tol : Q := 1 # 100000.

(** What the generator guarantees about a product and about an invoice item. *)
Definition product_ok (p : Product) : Prop :=
  exists z, 25 <= z <= 5000 /\ basePrice p = ofZ z.

Definition item_ok (it : InvoiceItem) : Prop :=
  (exists q, 1 <= q <= 10 /\ quantity it = ofZ q) /\
  (exists n, 2000 <= n <= 600005 /\ price it = cents n) /\
  (tax it = ofZ 0 \/ tax it = ofZ 19).

(** The largest time value of a Date. *)
Definition maxTime : Z := 8640000000000000.

(** The local time of the host is at a fixed offset from UTC, as in the
    Worker runtime, whose time zone is UTC. *)
Definition fixed_offset (h : Host) : Prop :=
  forall t t' b b', host_localTZA h t b = host_localTZA h t' b'.

(** What [generateInvoice] guarantees about the invoice it returns, between
    the parties [sup] and [cus]: its issue date is the text of a time value,
    its items are well formed, and its totals are those computed from the
    items. *)
Definition invoice_generated (sup cus : Company) (inv : Invoice) : Prop :=
  supplier inv = sup /\ customer inv = cus /\
  (exists t, Z.abs t <= maxTime /\ date inv = date_text t) /\
  Forall item_ok (items inv) /\
  (1 <= List.length (items inv) <= 5)%nat /\
  subtotal inv = totals_subtotal (calculateInvoiceTotals (items inv)) /\
  taxTotal inv = totals_taxTotal (calculateInvoiceTotals (items inv)) /\
  total inv = totals_total (calculateInvoiceTotals (items inv)).

(** The percentage of an early-payment discount case. *)
Definition discount_percent (type : TestCaseType) : option Z :=
  match type with
  | discount_1_percent => Some 1
  | discount_2_percent => Some 2
  | discount_3_percent => Some 3
  | _ => None
  end.

(** A magnitude with the sign of the cash flow: negative for payables,
    positive for receivables. *)
Definition signed (direction : TransactionDirection) (x : number) : number :=
  match direction with
  | payables => SFopp x
  | receivables => x
  end.

(** [round(x, 2)], as the generator computes it. *)
Definition round2 (x : number) : number := parseFloat (toFixed x 2).

(** The caller's own company on an invoice: the customer of a payable, the
    supplier of a receivable. *)
Definition own_company (direction : TransactionDirection) (inv : Invoice) : Company :=
  match direction with
  | payables => customer inv
  | receivables => supplier inv
  end.

(** The issue date of an invoice, read from its text as a time value. *)
Definition issue_time (inv : Invoice) : option Z := parse_date_only (date inv).

(** The running sum of the totals of the invoices of a group. *)
Definition sum_totals (invs : list Invoice) : number :=
  fold_left (fun sum inv => num_add sum (total inv)) invs (ofZ 0).

Definition Zsum (l : list Z) : Z := fold_right Z.add 0 l.

(** What the suite generator guarantees about each test case: its direction,
    the caller's own company on all its invoices, and a transaction date that
    is the text of a time value. *)
Definition case_generated (our : Company) (direction : TransactionDirection)
    (tc : TestCase) : Prop :=
  tc_direction tc = direction /\
  own_company direction (invoice tc) = our /\
  (forall invs, invoices tc = Some invs ->
     Forall (fun inv => own_company direction inv = our) invs) /\
  exists t, tx_date (transaction tc) = date_text t.

(** The number of test cases asked for, when the loop over every quantity
    exits; none when one of them never does. *)
Definition requested (configs : list TestCaseConfig) : option nat :=
  fold_right (fun config acc =>
                match iterations (cfg_quantity config), acc with
                | Some k, Some a => Some (k + a)%nat
                | _, _ => None
                end)
             (Some O) configs.

(** The request with the [customerCompany] field taken off. *)
Definition without_customerCompany (b : GenerationBody) : GenerationBody :=
  {| body_cases := body_cases b; body_dateRange := body_dateRange b;
     body_direction := body_direction b; body_customerCompany := None;
     body_myCompany := body_myCompany b |}.

(** A request is incomplete when its case list is missing or empty, or when
    its date range, or the start or end of the range, is missing or empty. *)
Definition request_incomplete (b : GenerationBody) : Prop :=
  body_cases b = None \/ body_cases b = Some [] \/ body_dateRange b = None \/
  exists r, body_dateRange b = Some r /\
    (range_start_text r = None \/ range_start_text r = Some "" \/
     range_end_text r = None \/ range_end_text r = Some "").

(** Sums as the loop of [calculateInvoiceTotals] forms them. *)
Definition item_subtotal (it : InvoiceItem) : number := num_mul (quantity it) (price it).
Definition item_tax (it : InvoiceItem) : number :=
  num_div (num_mul (item_subtotal it) (tax it)) (ofZ 100).
Definition sum_of (f : InvoiceItem -> number) (its : list InvoiceItem) : number :=
  fold_left (fun acc it => num_add acc (f it)) its (ofZ 0).

(** * Sample data *)

(** A host for the examples: ASCII case mapping, draws that cycle through
    one half, the largest number below one and zero, and numbered texts. *)
Definition ascii_upper (c : ascii) : ascii :=
  if is_lower c then ascii_of_nat (code c - 32) else c.

Definition unit_of (k : Z) : number := binary_normalize prec emax k (-53) false.

Definition one_half : UnitDouble := {| ud_value := unit_of (2 ^ 52); ud_ok := eq_refl |}.
Definition almost_one : UnitDouble := {| ud_value := unit_of (2 ^ 53 - 1); ud_ok := eq_refl |}.
Definition exactly_zero : UnitDouble := {| ud_value := S754_zero false; ud_ok := eq_refl |}.

Definition sample_host : Host :=
  {| host_toUpperCase := string_map ascii_upper;
     host_toLowerCase := string_map ascii_lower;
     host_numberToString := fun _ => "?";
     host_dateParse := fun _ => None;
     host_localTZA := fun _ _ => 0;
     host_random := fun i =>
       match (i mod 3)%nat with
       | O => one_half
       | 1%nat => almost_one
       | _ => exactly_zero
       end;
     host_fakerNat := fun i => (7 * i + 3)%nat;
     host_fakerText := fun i => "text" ++ Z_to_string (Z.of_nat i) |}.

Definition sample_start : Date := Date_parse sample_host "2025-01-01".
Definition sample_end : Date := Date_parse sample_host "2025-12-31".

Definition sample_invoice_run : Outcome (Invoice * nat) :=
  Eval vm_compute in
    generateInvoice sample_host sample_start sample_end DEFAULT_COMPANY DEFAULT_COMPANY
      (ofZ 100) payables 0%nat.

Definition sample_fx_run : Outcome (TestCase * nat) :=
  Eval vm_compute in
    generateTestCase sample_host fx_gain receivables sample_start sample_end
      DEFAULT_COMPANY (ofZ 100) 0%nat.

Definition sample_discount_run : Outcome (TestCase * nat) :=
  Eval vm_compute in
    generateTestCase sample_host discount_2_percent payables sample_start sample_end
      DEFAULT_COMPANY (ofZ 100) 0%nat.

Definition sample_group_run : Outcome (TestCase * number * nat) :=
  Eval vm_compute in
    generateGroupPaymentTestCase sample_host payables sample_start sample_end
      DEFAULT_COMPANY (ofZ 100) 0%nat.

Definition sample_invoice : Invoice :=
  ltac:(let r := eval cbv delta [sample_invoice_run] in sample_invoice_run in
        lazymatch r with Return (?x, _) => exact x end).
Definition sample_invoice_next : nat :=
  ltac:(let r := eval cbv delta [sample_invoice_run] in sample_invoice_run in
        lazymatch r with Return (_, ?n) => exact n end).

Definition sample_fx_case : TestCase :=
  ltac:(let r := eval cbv delta [sample_fx_run] in sample_fx_run in
        lazymatch r with Return (?x, _) => exact x end).
Definition sample_fx_next : nat :=
  ltac:(let r := eval cbv delta [sample_fx_run] in sample_fx_run in
        lazymatch r with Return (_, ?n) => exact n end).

Definition sample_discount_case : TestCase :=
  ltac:(let r := eval cbv delta [sample_discount_run] in sample_discount_run in
        lazymatch r with Return (?x, _) => exact x end).
Definition sample_discount_next : nat :=
  ltac:(let r := eval cbv delta [sample_discount_run] in sample_discount_run in
        lazymatch r with Return (_, ?n) => exact n end).

Definition sample_group_case : TestCase :=
  ltac:(let r := eval cbv delta [sample_group_run] in sample_group_run in
        lazymatch r with Return (?x, _, _) => exact x end).
Definition sample_group_count : number :=
  ltac:(let r := eval cbv delta [sample_group_run] in sample_group_run in
        lazymatch r with Return (_, ?c, _) => exact c end).
Definition sample_group_next : nat :=
  ltac:(let r := eval cbv delta [sample_group_run] in sample_group_run in
        lazymatch r with Return (_, _, ?n) => exact n end).

(** The scenario of the specification: a payable whose total is 10000.00. *)
Definition invoice_10000 : Invoice :=
  {| inv_id := "a1"; inv_number := "BILL-2025-0100"; date := "2025-03-01";
     dueDate := "2025-03-15"; supplier := DEFAULT_COMPANY; customer := DEFAULT_COMPANY;
     items := []; subtotal := ofZ 10000; taxTotal := ofZ 0; total := ofZ 10000;
     currency := "EUR"; note := "" |}.

Definition sample_10000_run : Outcome (BankTransaction * Metadata * nat) :=
  Eval vm_compute in generateTransaction sample_host invoice_10000 discount_2_percent payables 0%nat.
Definition sample_10000_transaction : BankTransaction :=
  ltac:(let r := eval cbv delta [sample_10000_run] in sample_10000_run in
        lazymatch r with Return (?x, _, _) => exact x end).
Definition sample_10000_metadata : Metadata :=
  ltac:(let r := eval cbv delta [sample_10000_run] in sample_10000_run in
        lazymatch r with Return (_, ?m, _) => exact m end).
Definition sample_10000_next : nat :=
  ltac:(let r := eval cbv delta [sample_10000_run] in sample_10000_run in
        lazymatch r with Return (_, _, ?n) => exact n end).

(** One unit at 20.50 taxed at 19 per cent: the three totals round apart. *)
Definition odd_cent_item : InvoiceItem :=
  {| item_name := "Cloud Hosting - Monthly"; quantity := ofZ 1; price := cents 2050;
     tax := ofZ 19 |}.

(** An invoice whose number holds no digit. *)
Definition draft_invoice : Invoice :=
  {| inv_id := "a2"; inv_number := "DRAFT"; date := "2025-03-01";
     dueDate := "2025-03-15"; supplier := DEFAULT_COMPANY; customer := DEFAULT_COMPANY;
     items := []; subtotal := ofZ 10000; taxTotal := ofZ 0; total := ofZ 10000;
     currency := "EUR"; note := "" |}.

Definition config_of (t : TestCaseType) (q : Z) : TestCaseConfig :=
  {| cfg_type := t; cfg_label := ""; cfg_description := ""; cfg_quantity := ofZ q |}.

(** A request whose date range ends before it starts. *)
Definition backwards_request : GenerationBody :=
  {| body_cases := Some [config_of perfect_match 2];
     body_dateRange :=
       Some {| range_start_text := Some "2025-12-31"; range_end_text := Some "2025-01-01" |};
     body_direction := None; body_customerCompany := None; body_myCompany := None |}.

(** A request whose dates are no dates. *)
Definition unparsable_request : GenerationBody :=
  {| body_cases := Some [config_of perfect_match 2];
     body_dateRange :=
       Some {| range_start_text := Some "soon"; range_end_text := Some "later" |};
     body_direction := None; body_customerCompany := None; body_myCompany := None |}.

Definition sample_now : Z := 1700000000000.

(** A request that names its own company in the documented field. *)
Definition globex : PartialCompany :=
  {| p_name := Some "Globex AG"; p_address := None; p_phone := None; p_email := None;
     p_website := None; p_bankName := None; p_iban := None; p_vatId := None |}.

Definition override_request : GenerationBody :=
  {| body_cases := Some [config_of perfect_match 1; config_of group_payment 1];
     body_dateRange :=
       Some {| range_start_text := Some "2025-01-01"; range_end_text := Some "2025-12-31" |};
     body_direction := Some receivables;
     body_customerCompany := Some globex; body_myCompany := None |}.

Definition override_response : option Response :=
  Eval vm_compute in post_generate sample_host 0 sample_now override_request 0%nat.
Definition override_suite : GeneratedTestSuite :=
  ltac:(let r := eval cbv delta [override_response] in override_response in
        lazymatch r with Some {| status := _; body := SuiteBody ?s |} => exact s end).

Definition sample_configs : list TestCaseConfig :=
  [config_of perfect_match 2; config_of group_payment 1; config_of fx_loss 1].

Definition sample_suite_run : Outcome (GeneratedTestSuite * nat) :=
  Eval vm_compute in
    generateTestSuite sample_host 0 sample_now sample_configs payables
      "2025-01-01" "2025-12-31" None 0%nat.
Definition sample_suite : GeneratedTestSuite :=
  ltac:(let r := eval cbv delta [sample_suite_run] in sample_suite_run in
        lazymatch r with Return (?x, _) => exact x end).
Definition sample_suite_next : nat :=
  ltac:(let r := eval cbv delta [sample_suite_run] in sample_suite_run in
        lazymatch r with Return (_, ?n) => exact n end).

(** A host whose local time changes its offset from UTC, as New York does
    in 2025: five hours behind UTC, and four hours behind it between
    9 March, 07:00 UTC, and 2 November, 06:00 UTC; a local time is read with
    the offset in force before a change.  Its draws are all zero. *)
Definition new_york_offset (t : Z) (isUTC : bool) : Z :=
  let t' := if isUTC then t else t + 4 * 3600000 in
  if (1741503600000 <=? t') && (t' <? 1762063200000) then -4 * 3600000 else -5 * 3600000.

Definition new_york_host : Host :=
  {| host_toUpperCase := host_toUpperCase sample_host;
     host_toLowerCase := host_toLowerCase sample_host;
     host_numberToString := host_numberToString sample_host;
     host_dateParse := host_dateParse sample_host;
     host_localTZA := new_york_offset;
     host_random := fun _ => exactly_zero;
     host_fakerNat := host_fakerNat sample_host;
     host_fakerText := host_fakerText sample_host |}.

(** An invoice made on that host for a range of one day, 1 March 2025. *)
Definition new_york_invoice_run : Outcome (Invoice * nat) :=
  Eval vm_compute in
    generateInvoice new_york_host (Date_parse new_york_host "2025-03-01")
      (Date_parse new_york_host "2025-03-01") DEFAULT_COMPANY DEFAULT_COMPANY
      (ofZ 100) payables 0%nat.
Definition new_york_invoice : Invoice :=
  ltac:(let r := eval cbv delta [new_york_invoice_run] in new_york_invoice_run in
        lazymatch r with Return (?x, _) => exact x end).
Definition new_york_invoice_next : nat :=
  ltac:(let r := eval cbv delta [new_york_invoice_run] in new_york_invoice_run in
        lazymatch r with Return (_, ?n) => exact n end).

(** A group payment made on that host for a range of one day, 9 March 2025. *)
Definition new_york_group_run : Outcome (TestCase * number * nat) :=
  Eval vm_compute in
    generateGroupPaymentTestCase new_york_host payables
      (Date_parse new_york_host "2025-03-09") (Date_parse new_york_host "2025-03-09")
      DEFAULT_COMPANY (ofZ 100) 0%nat.
Definition new_york_group_case : TestCase :=
  ltac:(let r := eval cbv delta [new_york_group_run] in new_york_group_run in
        lazymatch r with Return (?x, _, _) => exact x end).
Definition new_york_group_count : number :=
  ltac:(let r := eval cbv delta [new_york_group_run] in new_york_group_run in
        lazymatch r with Return (_, ?c, _) => exact c end).
Definition new_york_group_next : nat :=
  ltac:(let r := eval cbv delta [new_york_group_run] in new_york_group_run in
        lazymatch r with Return (_, _, ?n) => exact n end).

(** A host in UTC whose first twenty draws are zero and whose later draws
    are the largest number below one, and a suite of two cases made on it
    for a range from the year before year 0 to the year 10001. *)
Definition far_host : Host :=
  {| host_toUpperCase := host_toUpperCase sample_host;
     host_toLowerCase := host_toLowerCase sample_host;
     host_numberToString := host_numberToString sample_host;
     host_dateParse := host_dateParse sample_host;
     host_localTZA := fun _ _ => 0;
     host_random := fun i => if (i <? 20)%nat then exactly_zero else almost_one;
     host_fakerNat := host_fakerNat sample_host;
     host_fakerText := host_fakerText sample_host |}.

Definition far_suite_run : Outcome (GeneratedTestSuite * nat) :=
  Eval vm_compute in
    generateTestSuite far_host 0 sample_now [config_of perfect_match 2] payables
      "-000001-01-01" "+010001-12-31" None 0%nat.
Definition far_suite : GeneratedTestSuite :=
  ltac:(let r := eval cbv delta [far_suite_run] in far_suite_run in
        lazymatch r with Return (?x, _) => exact x end).
Definition far_suite_next : nat :=
  ltac:(let r := eval cbv delta [far_suite_run] in far_suite_run in
        lazymatch r with Return (_, ?n) => exact n end).

Local Open Scope list_scope.
Local Open Scope string_scope.
Local Open Scope Z_scope.

(** * Vocabulary of the further properties *)

(** The counterparty of a test case: the supplier of a payable, the customer
    of a receivable. *)
Definition other_company (direction : TransactionDirection) (inv : Invoice) : Company :=
  match direction with
  | payables => supplier inv
  | receivables => customer inv
  end.

(** The days between the issue date and the payment, smallest and largest,
    that [generateTransaction] draws for each type. *)
Definition payment_delay (type : TestCaseType) : Z * Z :=
  match type with
  | perfect_match | group_payment => (1, 7)
  | discount_1_percent | discount_2_percent | discount_3_percent => (1, 5)
  | fx_gain | fx_loss => (3, 14)
  | partial_match_no_description | partial_match_amount_mismatch => (1, 10)
  | partial_match_date_far => (30, 60)
  end.

(** The types whose transaction pays the invoice total unchanged. *)
Definition pays_total (type : TestCaseType) : bool :=
  match type with
  | perfect_match | partial_match_no_description | partial_match_date_far | group_payment => true
  | _ => false
  end.

(** The bounds, in hundredths, of the rate drawn for an FX case. *)
Definition fx_rate_bounds (type : TestCaseType) : option (Z * Z) :=
  match type with
  | fx_gain => Some (95, 99)
  | fx_loss => Some (101, 105)
  | _ => None
  end.

(** The factor applied to the invoice total in an FX case: the rate for a
    payable, its mirror image [2 - rate] for a receivable. *)
Definition fx_multiplier (direction : TransactionDirection) (rate : number) : number :=
  match direction with
  | payables => rate
  | receivables => num_sub (ofZ 2) rate
  end.

(** [x < 0] and [0 < x] on numbers. *)
Definition is_negative (x : number) : bool := num_lt x (ofZ 0).
Definition is_positive (x : number) : bool := num_lt (ofZ 0) x.

(** All the invoices of a test case: those of the group, or the single one. *)
Definition case_invoices (tc : TestCase) : list Invoice :=
  match invoices tc with
  | Some invs => invs
  | None => [invoice tc]
  end.

(** The invoice number ends with a hyphen and the four digits of the
    sequence [q]. *)
Definition numbered (inv : Invoice) (q : Z) : Prop :=
  exists pre, inv_number inv = pre ++ "-" ++ fixed_width 4 q.

(** The [n] integers from [q] on. *)
Fixpoint Zrange (q : Z) (n : nat) : list Z :=
  match n with
  | O => []
  | S n' => q :: Zrange (q + 1) n'
  end.

(** All the invoices of a list of test cases, in the order of generation. *)
Definition all_invoices (l : list TestCase) : list Invoice := flat_map case_invoices l.

(** * Further sample data *)

Definition sample_perfect_run : Outcome (TestCase * nat) :=
  Eval vm_compute in
    generateTestCase sample_host perfect_match payables sample_start sample_end
      DEFAULT_COMPANY (ofZ 100) 0%nat.
Definition sample_perfect_case : TestCase :=
  ltac:(let r := eval cbv delta [sample_perfect_run] in sample_perfect_run in
        lazymatch r with Return (?x, _) => exact x end).
Definition sample_perfect_next : nat :=
  ltac:(let r := eval cbv delta [sample_perfect_run] in sample_perfect_run in
        lazymatch r with Return (_, ?n) => exact n end).

Definition sample_mismatch_run : Outcome (TestCase * nat) :=
  Eval vm_compute in
    generateTestCase sample_host partial_match_amount_mismatch receivables sample_start
      sample_end DEFAULT_COMPANY (ofZ 100) 0%nat.
Definition sample_mismatch_case : TestCase :=
  ltac:(let r := eval cbv delta [sample_mismatch_run] in sample_mismatch_run in
        lazymatch r with Return (?x, _) => exact x end).
Definition sample_mismatch_next : nat :=
  ltac:(let r := eval cbv delta [sample_mismatch_run] in sample_mismatch_run in
        lazymatch r with Return (_, ?n) => exact n end).

Definition sample_generic_run : Outcome (TestCase * nat) :=
  Eval vm_compute in
    generateTestCase sample_host partial_match_no_description payables sample_start
      sample_end DEFAULT_COMPANY (ofZ 100) 0%nat.
Definition sample_generic_case : TestCase :=
  ltac:(let r := eval cbv delta [sample_generic_run] in sample_generic_run in
        lazymatch r with Return (?x, _) => exact x end).
Definition sample_generic_next : nat :=
  ltac:(let r := eval cbv delta [sample_generic_run] in sample_generic_run in
        lazymatch r with Return (_, ?n) => exact n end).

(** A request that asks for no test case at all, with dates that are no
    dates. *)
Definition idle_request : GenerationBody :=
  {| body_cases := Some [config_of perfect_match 0; config_of group_payment (-2)];
     body_dateRange :=
       Some {| range_start_text := Some "soon"; range_end_text := Some "later" |};
     body_direction := None; body_customerCompany := None; body_myCompany := None |}.

(** The direction a request asks for: payables unless it says otherwise. *)
Definition request_direction (b : GenerationBody) : TransactionDirection :=
  match body_direction b with Some d => d | None => payables end.

(** A request one of whose quantities is [+Infinity] (the JSON number
    [1e999]). *)
Definition endless_request : GenerationBody :=
  {| body_cases :=
       Some [config_of perfect_match 1;
             {| cfg_type := fx_gain; cfg_label := ""; cfg_description := "";
                cfg_quantity := S754_infinity false |}];
     body_dateRange :=
       Some {| range_start_text := Some "2025-01-01"; range_end_text := Some "2025-12-31" |};
     body_direction := None; body_customerCompany := None; body_myCompany := None |}.

Local Open Scope Z_scope.

(** * Properties of the model *)

(** ** Rounding: shifts and the place of the remainder *)

Lemma digits2_pos_bounds (p : positive) :
  2 ^ (Zpos (digits2_pos p) - 1) <= Zpos p < 2 ^ (Zpos (digits2_pos p)).
Proof.
  induction p as [p IH | p IH |]; cbn [digits2_pos].
  - rewrite Pos2Z.inj_succ.
    replace (Z.succ (Z.pos (digits2_pos p)) - 1) with (Z.succ (Z.pos (digits2_pos p) - 1)) by lia.
    rewrite !Z.pow_succ_r by lia. lia.
  - rewrite Pos2Z.inj_succ.
    replace (Z.succ (Z.pos (digits2_pos p)) - 1) with (Z.succ (Z.pos (digits2_pos p) - 1)) by lia.
    rewrite !Z.pow_succ_r by lia. lia.
  - cbn. lia.
Qed.

Lemma shr_1_located W N mrs :
  0 < W -> shr_located W N mrs -> shr_located (2 * W) N (shr_1 mrs).
Proof.
  intros HW (rho & HN & Hrho & Hm & Hr & Hs).
  destruct mrs as [m r s]; cbn [shr_m shr_r shr_s] in *.
  assert (Hrs : orb r s = true <-> rho <> 0).
  { rewrite orb_true_iff, Hr, Hs. lia. }
  destruct m as [|[p|p|]|p]; try lia; cbn [shr_1];
    [ exists rho | exists (W + rho) | exists rho | exists (W + rho) ];
    cbn [shr_m shr_r shr_s];
    try rewrite Pos2Z.inj_xI in HN; try rewrite Pos2Z.inj_xO in HN;
    repeat split; try lia; try tauto;
    try (intros; apply Hrs; lia); try (intro H; apply Hrs in H; lia);
    try (match goal with H : orb _ _ = true |- _ => apply Hrs in H; lia end).
Qed.

Lemma iter_shr_1_located p : forall W N mrs,
  0 < W -> shr_located W N mrs ->
  shr_located (2 ^ Zpos p * W) N (iter_pos shr_1 p mrs).
Proof.
  induction p as [p IH | p IH |]; intros W N mrs HW H; cbn [iter_pos].
  - replace (2 ^ Z.pos p~1 * W) with (2 ^ Zpos p * (2 ^ Zpos p * (2 * W))).
    + apply IH. { pose proof (Z.pow_pos_nonneg 2 (Zpos p)). nia. }
      apply IH. lia. apply shr_1_located; assumption.
    + replace (Z.pos p~1) with (Zpos p + Zpos p + 1) by lia.
      rewrite !Z.pow_add_r by lia. change (2 ^ 1) with 2. ring.
  - replace (2 ^ Z.pos p~0 * W) with (2 ^ Zpos p * (2 ^ Zpos p * W)).
    + apply IH. { pose proof (Z.pow_pos_nonneg 2 (Zpos p)). nia. }
      apply IH. lia. assumption.
    + replace (Z.pos p~0) with (Zpos p + Zpos p) by lia.
      rewrite !Z.pow_add_r by lia. ring.
  - change (2 ^ 1) with 2. apply shr_1_located; assumption.
Qed.

Lemma fexp_eq z : fexp prec emax z = Z.max (z - 53) (-1074).
Proof. reflexivity. Qed.

Lemma Zdigits2_bounds m : 0 < m ->
  2 ^ (Zdigits2 m - 1) <= m < 2 ^ Zdigits2 m /\ 0 < Zdigits2 m.
Proof.
  destruct m as [|p|p]; try lia. intros _. cbn [Zdigits2].
  split. apply digits2_pos_bounds. lia.
Qed.

Lemma pow2_lt_inv a b : 0 <= b -> 2 ^ a < 2 ^ b -> a < b.
Proof.
  intros Hb H. destruct (Z.lt_ge_cases a b) as [|Hge]; [assumption|].
  pose proof (Z.pow_le_mono_r 2 b a ltac:(lia) Hge). lia.
Qed.

Lemma Zdigits2_unique m n : 0 < n -> 2 ^ (n - 1) <= m < 2 ^ n -> Zdigits2 m = n.
Proof.
  intros Hn Hm.
  assert (0 < m) by (pose proof (Z.pow_pos_nonneg 2 (n - 1)); lia).
  destruct (Zdigits2_bounds m H) as [Hd Hd0].
  assert (Zdigits2 m - 1 < n) by (apply pow2_lt_inv; lia).
  assert (n - 1 < Zdigits2 m) by (apply pow2_lt_inv; lia).
  lia.
Qed.

Lemma Zdigits2_le m n : 0 < m < 2 ^ n -> 0 <= n -> Zdigits2 m <= n.
Proof.
  intros Hm Hn. destruct (Zdigits2_bounds m ltac:(lia)) as [Hd Hd0].
  assert (Zdigits2 m - 1 < n) by (apply pow2_lt_inv; lia). lia.
Qed.

Lemma shr_located_shift mrs e n W N :
  0 < W -> 0 <= n -> shr_located W N mrs ->
  shr_located (2 ^ n * W) N (fst (shr mrs e n)) /\ snd (shr mrs e n) = e + n.
Proof.
  intros HW Hn H. destruct n as [|p|p]; try lia; cbn [shr fst snd].
  - split; [|lia]. change (2 ^ 0) with 1. now rewrite Z.mul_1_l.
  - split; [|reflexivity]. now apply iter_shr_1_located.
Qed.

Lemma round_nearest_even_located W N mrs :
  0 < W -> shr_located W N mrs ->
  let m1 := round_nearest_even (shr_m mrs) (loc_of_shr_record mrs) in
  - W <= 2 * (m1 * W - N) <= W /\ shr_m mrs <= m1 <= shr_m mrs + 1.
Proof.
  intros HW (rho & HN & Hrho & Hm & Hr & Hs).
  destruct mrs as [m [|] [|]]; cbn [shr_m shr_r shr_s loc_of_shr_record round_nearest_even] in *.
  - assert (W <= 2 * rho) by tauto. assert (2 * rho <> W) by tauto. nia.
  - assert (W <= 2 * rho) by tauto.
    assert (rho = 0 \/ 2 * rho = W).
    { destruct (Z.eq_dec rho 0); [tauto|]. destruct (Z.eq_dec (2 * rho) W); [tauto|].
      assert (false = true) by tauto. discriminate. }
    destruct (Z.even m); nia.
  - assert (~ W <= 2 * rho) by (intro; assert (false = true) by tauto; discriminate).
    nia.
  - assert (~ W <= 2 * rho) by (intro; assert (false = true) by tauto; discriminate).
    nia.
Qed.

Lemma shr_m_of_loc m l : shr_m (shr_record_of_loc m l) = m.
Proof. destruct l as [|[| |]]; reflexivity. Qed.

Lemma bounded_intro m e :
  fexp prec emax (Zpos (digits2_pos m) + e) = e -> e <= 971 -> bounded prec emax m e = true.
Proof.
  intros H1 H2. unfold bounded, canonical_mantissa.
  rewrite H1, Z.eqb_refl. cbn [andb]. apply Z.leb_le. exact H2.
Qed.

Lemma binary_round_aux_spec sx mx ex lx D N B :
  0 < D -> 0 < mx ->
  shr_located D N (shr_record_of_loc mx lx) ->
  ex <= fexp prec emax (Zdigits2 mx + ex) ->
  N < D * 2 ^ B -> 0 <= B -> ex + B <= 1023 ->
  exists m1 k1,
    k1 = fexp prec emax (Zdigits2 mx + ex) - ex /\
    0 <= m1 /\
    - (2 ^ k1 * D) <= 2 * (m1 * (2 ^ k1 * D) - N) <= 2 ^ k1 * D /\
    (2 ^ (k1 + 52) <= mx \/ ex + k1 = -1074) /\
    ((m1 = 0 /\ binary_round_aux prec emax sx mx ex lx = S754_zero sx) \/
     (exists m2 c, (c = 0 \/ c = 1) /\ m1 = Zpos m2 * 2 ^ c /\
        binary_round_aux prec emax sx mx ex lx = S754_finite sx m2 (ex + k1 + c) /\
        bounded prec emax m2 (ex + k1 + c) = true)).
Proof.
  intros HD Hmx Hloc Hk HB HB0 HeB.
  destruct (Zdigits2_bounds mx Hmx) as [Hd Hd0].
  set (d := Zdigits2 mx) in *.
  set (k1 := fexp prec emax (d + ex) - ex).
  assert (Hk1 : 0 <= k1) by (unfold k1; lia).
  unfold binary_round_aux, shr_fexp. fold d. fold k1.
  destruct (shr_located_shift (shr_record_of_loc mx lx) ex k1 D N HD Hk1 Hloc) as [Hloc1 He1].
  destruct (shr (shr_record_of_loc mx lx) ex k1) as [mrs' e'].
  cbn [fst snd] in Hloc1, He1. subst e'.
  assert (HW : 0 < 2 ^ k1 * D) by (pose proof (Z.pow_pos_nonneg 2 k1); nia).
  set (W := 2 ^ k1 * D) in *.
  destruct (round_nearest_even_located W N mrs' HW Hloc1) as [Hnear Hm1].
  set (m1 := round_nearest_even (shr_m mrs') (loc_of_shr_record mrs')) in *.
  destruct Hloc1 as (rho & HN & Hrho & Hm' & _).
  destruct Hloc as (rho0 & HN0 & Hrho0 & _ & _). rewrite shr_m_of_loc in HN0.
  set (m' := shr_m mrs') in *.
  exists m1, k1. split; [reflexivity|]. split; [lia|]. split; [exact Hnear|].
  assert (Hfe : fexp prec emax (d + ex) = Z.max (d + ex - 53) (-1074)) by apply fexp_eq.
  destruct (Z.max_spec (d + ex - 53) (-1074)) as [[Hlt Hmax]|[Hge Hmax]].
  - (* subnormal range: the exponent is emin *)
    assert (Hk1e : ex + k1 = -1074) by (unfold k1; lia).
    split; [right; exact Hk1e|].
    assert (Hm'52 : m' < 2 ^ 52).
    { assert (d <= k1 + 52) by lia.
      pose proof (Z.pow_le_mono_r 2 d (k1 + 52) ltac:(lia) H).
      rewrite Z.pow_add_r in H0 by lia.
      assert (N < 2 ^ 52 * W) by (unfold W; nia). nia. }
    assert (Hm1le : m1 <= 2 ^ 52) by lia.
    destruct (Z.eq_dec m1 0) as [Hz|Hnz].
    + left. split; [exact Hz|]. rewrite Hz. cbn [Zdigits2]. rewrite Z.add_0_l, Hk1e. reflexivity.
    + right. assert (Hm1pos : 0 < m1) by lia.
      destruct m1 as [|p1|p1] eqn:Em1; try lia.
      exists p1, 0. split; [left; reflexivity|].
      split; [change (2 ^ 0) with 1; lia|].
      assert (Hd1 : Zdigits2 (Zpos p1) <= 53).
      { apply Zdigits2_le; [|lia]. change (2 ^ 53) with (2 * 2 ^ 52). lia. }
      assert (Hfe1 : fexp prec emax (Zdigits2 (Zpos p1) + (ex + k1)) = ex + k1).
      { rewrite fexp_eq. lia. }
      cbn [shr_record_of_loc]. rewrite Hfe1, Z.sub_diag. cbn [shr shr_m].
      rewrite Z.add_0_r.
      replace (ex + k1 <=? emax - prec) with true by (symmetry; apply Z.leb_le; unfold emax, prec; lia).
      split; [reflexivity|]. apply bounded_intro; [exact Hfe1 | lia].
  - (* normal range *)
    assert (Hk1d : k1 = d - 53) by (unfold k1; lia).
    split.
    { left. replace (k1 + 52) with (d - 1) by lia. lia. }
    assert (Hpd : 2 ^ d = 2 ^ 53 * 2 ^ k1).
    { replace d with (53 + k1) by lia. apply Z.pow_add_r; lia. }
    assert (Hpd1 : 2 ^ (d - 1) = 2 ^ 52 * 2 ^ k1).
    { replace (d - 1) with (52 + k1) by lia. apply Z.pow_add_r; lia. }
    assert (Hm'lo : 2 ^ 52 <= m') by (unfold W in *; nia).
    assert (Hm'hi : m' < 2 ^ 53) by (unfold W in *; nia).
    assert (He970 : ex + k1 <= 970).
    { assert (2 ^ (52 + k1) < 2 ^ B).
      { rewrite Z.pow_add_r by lia. unfold W in *. nia. }
      apply pow2_lt_inv in H; lia. }
    right.
    destruct (Z.eq_dec m1 (2 ^ 53)) as [Hc|Hnc].
    + exists (2 ^ 52)%positive, 1. split; [right; reflexivity|].
      split; [rewrite Hc; reflexivity|].
      rewrite Hc. change (Zdigits2 (2 ^ 53)) with 54.
      assert (Hfe1 : fexp prec emax (54 + (ex + k1)) - (ex + k1) = 1) by (rewrite fexp_eq; lia).
      rewrite Hfe1. cbn [shr_record_of_loc shr iter_pos].
      change (shr_m (shr_1 {| shr_m := 2 ^ 53; shr_r := false; shr_s := false |})) with (Zpos (2 ^ 52)).
      cbv iota beta.
      replace (ex + k1 + 1 <=? emax - prec) with true by (symmetry; apply Z.leb_le; unfold emax, prec; lia).
      split; [reflexivity|]. apply bounded_intro; [|lia].
      change (Z.pos (digits2_pos (2 ^ 52))) with 53. rewrite fexp_eq. lia.
    + assert (Hm1pos : 0 < m1) by (pose proof (Z.pow_pos_nonneg 2 52); lia).
      destruct m1 as [|p1|p1] eqn:Em1; try lia.
      exists p1, 0. split; [left; reflexivity|].
      split; [change (2 ^ 0) with 1; lia|].
      assert (Hd1 : Zdigits2 (Zpos p1) = 53).
      { apply Zdigits2_unique; [lia|]. change (53 - 1) with 52.
        change (2 ^ 53) with (2 * 2 ^ 52) in *. lia. }
      assert (Hfe1 : fexp prec emax (Zdigits2 (Zpos p1) + (ex + k1)) = ex + k1).
      { rewrite fexp_eq. lia. }
      cbn [shr_record_of_loc]. rewrite Hfe1, Z.sub_diag. cbn [shr shr_m].
      rewrite Z.add_0_r.
      replace (ex + k1 <=? emax - prec) with true by (symmetry; apply Z.leb_le; unfold emax, prec; lia).
      split; [reflexivity|]. apply bounded_intro; [exact Hfe1 | lia].
Qed.

Local Open Scope Z_scope.
Local Open Scope Q_scope.

(** ** Rounding: the error of one operation *)

Lemma pow2Q_pos e : 0 < 2 ^ e.
Proof. apply Qpower_0_lt. reflexivity. Qed.

Lemma pow2Q_add a b : 2 ^ (a + b) == 2 ^ a * 2 ^ b.
Proof. apply Qpower_plus. discriminate. Qed.

Lemma pow2Q_Z n : (0 <= n)%Z -> 2 ^ n == inject_Z (2 ^ n).
Proof. intros H. rewrite Zpower_Qpower by assumption. reflexivity. Qed.

Lemma pow2Q_lt_inv a b : 2 ^ a < 2 ^ b -> (a < b)%Z.
Proof. intros H. apply (Qpower_lt_compat_l_inv 2); [assumption|reflexivity]. Qed.

Lemma pow2Q_le a b : (a <= b)%Z -> 2 ^ a <= 2 ^ b.
Proof. intros H. apply Qpower_le_compat_l; [assumption|discriminate]. Qed.

Lemma mag_nonneg x : 0 <= mag x.
Proof.
  destruct x as [s|s| |s m e]; cbn [mag]; try apply Qle_refl.
  apply Qmult_le_0_compat. discriminate. apply Qlt_le_weak, pow2Q_pos.
Qed.

Lemma u_eq : u == / inject_Z (2 ^ 53).
Proof. reflexivity. Qed.

Lemma eta_eq : eta == 2 ^ (-1075).
Proof. reflexivity. Qed.

Ltac zify_Q H :=
  first [rewrite Zle_Qle in H | rewrite Zlt_Qlt in H | apply (f_equal inject_Z) in H];
  unfold Z.sub in H;
  repeat first [rewrite inject_Z_plus in H | rewrite inject_Z_mult in H | rewrite inject_Z_opp in H].

Lemma round_error_Q m1 k1 N D ex mx :
  (0 < D)%Z -> (0 <= k1)%Z -> (0 < mx)%Z -> (mx * D <= N)%Z ->
  (- (2 ^ k1 * D) <= 2 * (m1 * (2 ^ k1 * D) - N) <= 2 ^ k1 * D)%Z ->
  (2 ^ (k1 + 52) <= mx \/ ex + k1 = -1074)%Z ->
  Qabs (inject_Z m1 * 2 ^ (ex + k1) - inject_Z N / inject_Z D * 2 ^ ex)
    <= u * (inject_Z N / inject_Z D * 2 ^ ex) + eta.
Proof.
  intros HD Hk Hmx HmxN [Hn1 Hn2] Hrel.
  assert (HP := pow2Q_pos ex).
  assert (HV : 2 ^ (ex + k1) == 2 ^ ex * inject_Z (2 ^ k1)).
  { rewrite pow2Q_add, (pow2Q_Z k1) by assumption. reflexivity. }
  rewrite HV.
  assert (HK0 : (0 < 2 ^ k1)%Z) by (apply Z.pow_pos_nonneg; lia).
  assert (HKmx : (2 ^ 52 * 2 ^ k1 <= mx)%Z \/ (ex + k1 = -1074)%Z).
  { destruct Hrel as [H|H]; [left|right; exact H].
    rewrite Z.pow_add_r in H by lia. lia. }
  assert (HKe : (ex + k1 = -1074)%Z -> 2 ^ ex * inject_Z (2 ^ k1) == 2 * eta).
  { intros H. rewrite <- HV, H. reflexivity. }
  clear Hrel HV.
  set (K := (2 ^ k1)%Z) in *.
  zify_Q HD. zify_Q HK0. zify_Q Hmx. zify_Q HmxN. zify_Q Hn1. zify_Q Hn2.
  change (inject_Z 2) with 2 in *. change (inject_Z 0) with 0 in *.
  assert (HKmx' : inject_Z (2 ^ 52) * inject_Z K <= inject_Z mx \/ (ex + k1 = -1074)%Z).
  { destruct HKmx as [H|H]; [left|right; exact H]. zify_Q H. exact H. }
  clear HKmx.
  set (P := 2 ^ ex) in *.
  set (qm := inject_Z m1) in *. set (qN := inject_Z N) in *.
  set (qD := inject_Z D) in *. set (qK := inject_Z K) in *. set (qmx := inject_Z mx) in *.
  assert (Hdiv : qN / qD * qD == qN) by (field; lra).
  set (R := qN / qD) in *.
  assert (HRmx : qmx <= R) by (unfold R; apply Qle_shift_div_l; assumption).
  assert (HNR : qN == R * qD) by (symmetry; exact Hdiv).
  clearbody R qN qD qm qK qmx P. clear Hdiv.
  assert (Hd1 : qm * qK - R <= qK * (1#2)).
  { destruct (Qlt_le_dec (qK * (1#2)) (qm * qK - R)) as [Hc|]; [exfalso|assumption].
    assert (0 < (qm * qK - R - qK * (1#2)) * qD) by (apply Qmult_lt_0_compat; lra).
    nra. }
  assert (Hd2 : - (qK * (1#2)) <= qm * qK - R).
  { destruct (Qlt_le_dec (qm * qK - R) (- (qK * (1#2)))) as [Hc|]; [exfalso|assumption].
    assert (0 < (- (qK * (1#2)) - (qm * qK - R)) * qD) by (apply Qmult_lt_0_compat; lra).
    nra. }
  assert (Habs : Qabs (qm * (P * qK) - R * P) <= qK * (1#2) * P).
  { apply Qabs_Qle_condition. split.
    - assert (0 <= (qm * qK - R + qK * (1#2)) * P) by (apply Qmult_le_0_compat; lra). nra.
    - assert (0 <= (qK * (1#2) - (qm * qK - R)) * P) by (apply Qmult_le_0_compat; lra). nra. }
  eapply Qle_trans; [exact Habs|].
  assert (Hu : 0 < u) by reflexivity. assert (Heta : 0 < eta) by reflexivity.
  destruct HKmx' as [H|H].
  - assert (qK * (1#2) <= u * R).
    { change (inject_Z (2 ^ 53)) with (9007199254740992 # 1) in *.
      change (inject_Z (2 ^ 52)) with (4503599627370496 # 1) in *.
      unfold u. change (1 # 2 ^ 53) with (1 # 9007199254740992). lra. }
    assert (0 <= (u * R - qK * (1#2)) * P) by (apply Qmult_le_0_compat; lra). nra.
  - specialize (HKe H). assert (0 <= u * (R * P)).
    { apply Qmult_le_0_compat; [lra|]. apply Qmult_le_0_compat; lra. }
    nra.
Qed.

Lemma Qdiv_mul_cancel a d : 0 < d -> a / d * d == a.
Proof. intros. field. lra. Qed.

(* binade of a positive mantissa scaled by 2^e *)
Lemma binade_bounds m e (X : Q) :
  (0 < m)%Z -> inject_Z m * 2 ^ e <= X -> X < inject_Z (m + 1) * 2 ^ e ->
  2 ^ (Zdigits2 m - 1 + e) <= X /\ X < 2 ^ (Zdigits2 m + e).
Proof.
  intros Hm H1 H2. destruct (Zdigits2_bounds m Hm) as [[Hlo Hhi] Hd].
  assert (HP := pow2Q_pos e).
  rewrite !pow2Q_add. rewrite (pow2Q_Z (Zdigits2 m - 1)), (pow2Q_Z (Zdigits2 m)) by lia.
  assert (Hhi' : (m + 1 <= 2 ^ Zdigits2 m)%Z) by lia.
  rewrite Zle_Qle in Hlo. zify_Q Hhi'.
  set (a := inject_Z (2 ^ (Zdigits2 m - 1))) in *.
  set (b := inject_Z (2 ^ Zdigits2 m)) in *.
  rewrite inject_Z_plus in H2. change (inject_Z 1) with 1 in *.
  set (qm := inject_Z m) in *. set (P := 2 ^ e) in *.
  clearbody a b qm P. split.
  - assert (0 <= (qm - a) * P) by (apply Qmult_le_0_compat; lra). nra.
  - assert (0 <= (b - (qm + 1)) * P) by (apply Qmult_le_0_compat; lra). nra.
Qed.

Lemma binade_unique a b (X : Q) :
  2 ^ (a - 1) <= X -> X < 2 ^ a -> 2 ^ (b - 1) <= X -> X < 2 ^ b -> a = b.
Proof.
  intros H1 H2 H3 H4.
  assert (a - 1 < b)%Z by (apply pow2Q_lt_inv; lra).
  assert (b - 1 < a)%Z by (apply pow2Q_lt_inv; lra).
  lia.
Qed.

Lemma bounded_canonical m e :
  bounded prec emax m e = true ->
  fexp prec emax (Zpos (digits2_pos m) + e) = e /\ (e <= 971)%Z.
Proof.
  unfold bounded, canonical_mantissa. intros H. apply andb_true_iff in H.
  destruct H as [H1 H2]. apply Z.eqb_eq in H1. apply Z.leb_le in H2.
  split; [exact H1 | exact H2].
Qed.

Lemma binary_round_aux_Q sx mx ex lx D N :
  (0 < D)%Z -> (0 < mx)%Z ->
  shr_located D N (shr_record_of_loc mx lx) ->
  (ex <= fexp prec emax (Zdigits2 mx + ex))%Z ->
  inject_Z N / inject_Z D * 2 ^ ex < 2 ^ 1023 ->
  let X := inject_Z N / inject_Z D * 2 ^ ex in
  let v := binary_round_aux prec emax sx mx ex lx in
  finite64 v /\ sgn v = sx /\
  Qabs (mag v - X) <= u * X + eta /\
  (forall mw ew, bounded prec emax mw ew = true ->
     inject_Z (Zpos mw) * 2 ^ ew == X -> mag v == X).
Proof.
  intros HD Hmx Hloc Hk HX X v.
  assert (Hloc0 := Hloc). destruct Hloc0 as (rho0 & HN0 & Hrho0 & _ & _).
  rewrite shr_m_of_loc in HN0.
  assert (HP := pow2Q_pos ex).
  assert (HDq : 0 < inject_Z D) by (rewrite <- (Zlt_Qlt 0); assumption).
  assert (HmxX : inject_Z mx * 2 ^ ex <= X).
  { unfold X. assert (inject_Z mx <= inject_Z N / inject_Z D).
    { apply Qle_shift_div_l; [assumption|]. rewrite <- inject_Z_mult, <- Zle_Qle. lia. }
    set (R := inject_Z N / inject_Z D) in *. set (qmx := inject_Z mx) in *.
    assert (0 <= (R - qmx) * 2 ^ ex) by (apply Qmult_le_0_compat; lra). nra. }
  assert (HXmx : X < inject_Z (mx + 1) * 2 ^ ex).
  { unfold X. assert (inject_Z N / inject_Z D < inject_Z (mx + 1)).
    { apply Qlt_shift_div_r; [assumption|]. rewrite <- inject_Z_mult, <- Zlt_Qlt. lia. }
    set (R := inject_Z N / inject_Z D) in *. set (qmx := inject_Z (mx + 1)) in *.
    assert (0 < (qmx - R) * 2 ^ ex) by (apply Qmult_lt_0_compat; lra). nra. }
  assert (Hex : (ex <= 1023)%Z).
  { destruct (Z.le_gt_cases ex 1023) as [|Hgt]; [assumption|exfalso].
    assert (2 ^ 1023 <= 2 ^ ex) by (apply pow2Q_le; lia).
    assert (1 <= inject_Z mx) by (rewrite <- (Zle_Qle 1); lia).
    set (qmx := inject_Z mx) in *.
    assert (0 <= (qmx - 1) * 2 ^ ex) by (apply Qmult_le_0_compat; lra).
    fold X in HX. nra. }
  assert (HB : (N < D * 2 ^ (1023 - ex))%Z).
  { rewrite Zlt_Qlt, inject_Z_mult, <- (pow2Q_Z (1023 - ex)) by lia.
    assert (H1023 : 2 ^ 1023 == 2 ^ (1023 - ex) * 2 ^ ex).
    { rewrite <- pow2Q_add. replace (1023 - ex + ex)%Z with 1023%Z by lia. reflexivity. }
    rewrite H1023 in HX.
    assert (HR : inject_Z N / inject_Z D < 2 ^ (1023 - ex)).
    { destruct (Qlt_le_dec (inject_Z N / inject_Z D) (2 ^ (1023 - ex))) as [|Hc]; [assumption|exfalso].
      set (R := inject_Z N / inject_Z D) in *. set (T := 2 ^ (1023 - ex)) in *.
      assert (0 <= (R - T) * 2 ^ ex) by (apply Qmult_le_0_compat; lra). nra. }
    assert (Hc := Qdiv_mul_cancel (inject_Z N) (inject_Z D) HDq).
    set (R := inject_Z N / inject_Z D) in *. set (T := 2 ^ (1023 - ex)) in *.
    assert (0 < (T - R) * inject_Z D) by (apply Qmult_lt_0_compat; lra). nra. }
  destruct (binary_round_aux_spec sx mx ex lx D N (1023 - ex) HD Hmx Hloc Hk HB ltac:(lia) ltac:(lia))
    as (m1 & k1 & Hk1 & Hm1 & Hnear & Hrel & Hres).
  assert (Hk1nn : (0 <= k1)%Z) by lia.
  assert (Hmag : mag v == inject_Z m1 * 2 ^ (ex + k1)).
  { unfold v. destruct Hres as [[Hz Hr]|(m2 & c & Hc & Hm12 & Hr & _)]; rewrite Hr; cbn [mag].
    - rewrite Hz. ring.
    - rewrite Hm12, inject_Z_mult, (pow2Q_add (ex + k1) c).
      rewrite (pow2Q_Z c) by lia. ring. }
  assert (Herr := round_error_Q m1 k1 N D ex mx HD Hk1nn Hmx ltac:(lia) Hnear Hrel).
  split; [|split; [|split]].
  - unfold v. destruct Hres as [[Hz Hr]|(m2 & c & Hc & Hm12 & Hr & Hb)]; rewrite Hr;
      split; try reflexivity. cbn [valid_binary]. exact Hb.
  - unfold v. destruct Hres as [[Hz Hr]|(m2 & c & Hc & Hm12 & Hr & Hb)]; rewrite Hr; reflexivity.
  - rewrite Hmag. exact Herr.
  - intros mw ew Hbw HwX. destruct (bounded_canonical mw ew Hbw) as [Hcw _].
    destruct (binade_bounds mx ex X Hmx HmxX HXmx) as [Hb1 Hb2].
    destruct (binade_bounds (Zpos mw) ew X ltac:(lia)) as [Hb3 Hb4].
    { rewrite HwX. apply Qle_refl. }
    { rewrite <- HwX. rewrite inject_Z_plus. change (inject_Z 1) with 1.
      assert (HPw := pow2Q_pos ew). nra. }
    assert (Hbin : (Zdigits2 mx + ex = Zdigits2 (Zpos mw) + ew)%Z).
    { apply (binade_unique _ _ X).
      - replace (Zdigits2 mx + ex - 1)%Z with (Zdigits2 mx - 1 + ex)%Z by lia. exact Hb1.
      - exact Hb2.
      - replace (Zdigits2 (Zpos mw) + ew - 1)%Z with (Zdigits2 (Zpos mw) - 1 + ew)%Z by lia. exact Hb3.
      - exact Hb4. }
    cbn [Zdigits2] in Hbin.
    assert (Hew : (ew = ex + k1)%Z) by (rewrite Hk1, Hbin, Hcw; lia).
    assert (HNw : (N = Zpos mw * (2 ^ k1 * D))%Z).
    { apply inject_Z_injective. rewrite !inject_Z_mult, <- (pow2Q_Z k1) by lia.
      assert (Hc := Qdiv_mul_cancel (inject_Z N) (inject_Z D) HDq).
      unfold X in HwX. rewrite Hew, pow2Q_add in HwX.
      set (R := inject_Z N / inject_Z D) in *.
      assert (HR : R == inject_Z (Zpos mw) * 2 ^ k1).
      { apply (Qmult_inj_r _ _ (2 ^ ex)); [lra|]. rewrite <- HwX. ring. }
      rewrite <- Hc, HR. ring. }
    assert (Hm1w : m1 = Zpos mw).
    { assert (0 < 2 ^ k1 * D)%Z by (pose proof (Z.pow_pos_nonneg 2 k1); nia).
      set (W := (2 ^ k1 * D)%Z) in *. nia. }
    rewrite Hmag, Hm1w, <- Hew. exact HwX.
Qed.

Lemma SF2Q_Qsign v : SF2Q v = Qsign (sgn v) (mag v).
Proof. reflexivity. Qed.

Lemma mag_abs v : mag v == Qabs (SF2Q v).
Proof.
  unfold SF2Q. pose proof (mag_nonneg v). destruct (sgn v).
  - rewrite Qabs_opp, Qabs_pos; [reflexivity|assumption].
  - rewrite Qabs_pos; [reflexivity|assumption].
Qed.

Lemma finite64_mag w :
  finite64 w -> 0 < mag w ->
  exists s mw ew, w = S754_finite s mw ew /\ bounded prec emax mw ew = true.
Proof.
  intros [Hv Hf] Hpos. destruct w as [s|s| |s m e]; cbn [mag] in Hpos; try lra; try discriminate.
  exists s, m, e. split; [reflexivity|exact Hv].
Qed.

Lemma round_signed sx mx ex lx D N (X : Q) :
  (0 < D)%Z -> (0 < mx)%Z ->
  shr_located D N (shr_record_of_loc mx lx) ->
  (ex <= fexp prec emax (Zdigits2 mx + ex))%Z ->
  X == Qsign sx (inject_Z N / inject_Z D * 2 ^ ex) ->
  Qabs X < 2 ^ 1023 ->
  rounds X (binary_round_aux prec emax sx mx ex lx).
Proof.
  intros HD Hmx Hloc Hk HX Hlt.
  set (A := inject_Z N / inject_Z D * 2 ^ ex) in *.
  assert (HA : 0 < A).
  { destruct Hloc as (rho0 & HN0 & Hrho0 & _ & _). rewrite shr_m_of_loc in HN0.
    unfold A. apply Qmult_lt_0_compat; [|apply pow2Q_pos].
    apply Qlt_shift_div_l. rewrite <- (Zlt_Qlt 0); assumption.
    rewrite Qmult_0_l, <- (Zlt_Qlt 0). nia. }
  assert (HabsX : Qabs X == A).
  { rewrite HX. unfold Qsign. destruct sx.
    - rewrite Qabs_opp, Qabs_pos; [reflexivity|lra].
    - rewrite Qabs_pos; [reflexivity|lra]. }
  rewrite HabsX in Hlt.
  destruct (binary_round_aux_Q sx mx ex lx D N HD Hmx Hloc Hk Hlt) as (Hfin & Hsgn & Herr & Hex).
  fold A in Herr, Hex.
  set (v := binary_round_aux prec emax sx mx ex lx) in *.
  pose proof (mag_nonneg v) as Hmv.
  unfold rounds. split; [exact Hfin|].
  rewrite (SF2Q_Qsign v), Hsgn.
  split; [|split; [|split]].
  - intros H0 Hs. rewrite Hs in HX. cbn [Qsign] in HX. exfalso. lra.
  - intros H0 Hs. rewrite Hs in HX. cbn [Qsign] in HX. exfalso. lra.
  - rewrite HabsX. destruct sx; cbn [Qsign] in *.
    + setoid_replace (- mag v - X) with (- (mag v - A)) by (rewrite HX; ring).
      rewrite Qabs_opp. exact Herr.
    + setoid_replace (mag v - X) with (mag v - A) by (rewrite HX; ring). exact Herr.
  - intros w Hw HwX.
    assert (Hmw : mag w == A) by (rewrite mag_abs, HwX; exact HabsX).
    destruct (finite64_mag w Hw ltac:(lra)) as (s & mw & ew & -> & Hb).
    cbn [mag] in Hmw. specialize (Hex mw ew Hb Hmw).
    rewrite HX. destruct sx; cbn [Qsign]; rewrite Hex; reflexivity.
Qed.

Lemma rounds_ext X Y v : X == Y -> rounds X v -> rounds Y v.
Proof.
  intros HXY (Hf & Hs1 & Hs2 & Herr & Hex). unfold rounds.
  split; [exact Hf|]. split; [|split; [|split]].
  - intros H. apply Hs1. rewrite HXY. exact H.
  - intros H. apply Hs2. rewrite HXY. exact H.
  - rewrite <- HXY. exact Herr.
  - intros w Hw HwY. rewrite <- HXY. apply (Hex w Hw). rewrite HXY. exact HwY.
Qed.

Lemma rounds_zero X s : X == 0 -> rounds X (S754_zero s).
Proof.
  intros HX. apply (rounds_ext 0); [symmetry; exact HX|]. unfold rounds.
  split; [split; reflexivity|].
  assert (Hz : SF2Q (S754_zero s) == 0) by (unfold SF2Q; destruct s; reflexivity).
  split; [|split; [|split]]; try (intros; exact Hz).
  rewrite Hz. cbn. discriminate.
Qed.

Lemma located_exact m : (0 <= m)%Z -> shr_located 1 m (shr_record_of_loc m loc_Exact).
Proof.
  intros Hm. exists 0%Z. cbn [shr_record_of_loc shr_m shr_r shr_s].
  repeat split; try lia; try discriminate.
Qed.

Lemma Zdigits2_mul_ge a b :
  (0 < a)%Z -> (0 < b)%Z -> (Zdigits2 a + Zdigits2 b - 1 <= Zdigits2 (a * b))%Z.
Proof.
  intros Ha Hb.
  destruct (Zdigits2_bounds a Ha) as [[Ha1 Ha2] Hda].
  destruct (Zdigits2_bounds b Hb) as [[Hb1 Hb2] Hdb].
  destruct (Zdigits2_bounds (a * b)%Z ltac:(nia)) as [[Hc1 Hc2] Hdc].
  assert (2 ^ (Zdigits2 a - 1 + (Zdigits2 b - 1)) < 2 ^ Zdigits2 (a * b))%Z.
  { rewrite Z.pow_add_r by lia.
    pose proof (Z.pow_pos_nonneg 2 (Zdigits2 a - 1) ltac:(lia) ltac:(lia)).
    pose proof (Z.pow_pos_nonneg 2 (Zdigits2 b - 1) ltac:(lia) ltac:(lia)). nia. }
  apply pow2_lt_inv in H; lia.
Qed.

Lemma SF2Q_finite s m e : SF2Q (S754_finite s m e) = Qsign s (inject_Z (Zpos m) * 2 ^ e).
Proof. reflexivity. Qed.

Lemma SFmul_rounds x y :
  finite64 x -> finite64 y -> Qabs (SF2Q x * SF2Q y) < 2 ^ 1023 ->
  rounds (SF2Q x * SF2Q y) (SFmul prec emax x y).
Proof.
  intros [Hvx Hfx] [Hvy Hfy] Hlt.
  destruct x as [sx|sx| |sx mx ex]; try discriminate;
  destruct y as [sy|sy| |sy my ey]; try discriminate; cbn [SFmul];
  try (apply rounds_zero; unfold SF2Q; cbn [sgn mag]; destruct sx, sy; ring).
  cbn [valid_binary] in Hvx, Hvy.
  destruct (bounded_canonical _ _ Hvx) as [Hcx _].
  destruct (bounded_canonical _ _ Hvy) as [Hcy _].
  apply (round_signed _ _ _ _ 1%Z (Zpos mx * Zpos my)%Z); try lia.
  - apply (located_exact (Zpos (mx * my))). lia.
  - rewrite !fexp_eq in *.
    pose proof (Zdigits2_mul_ge (Zpos mx) (Zpos my) ltac:(lia) ltac:(lia)) as Hd.
    cbn [Zdigits2] in Hd |- *. change (Z.pos mx * Z.pos my)%Z with (Zpos (mx * my)) in Hd.
    cbn [Zdigits2] in Hd. lia.
  - rewrite !SF2Q_finite.
    destruct sx, sy; cbn [xorb Qsign]; rewrite pow2Q_add, inject_Z_mult; field.
  - exact Hlt.
Qed.

Lemma digits2_iter_xO m d :
  Zpos (digits2_pos (Pos.iter xO m d)) = (Zpos (digits2_pos m) + Zpos d)%Z.
Proof.
  induction d as [|d IH] using Pos.peano_ind.
  - cbn [Pos.iter digits2_pos]. lia.
  - rewrite Pos.iter_succ. cbn [digits2_pos]. rewrite Pos2Z.inj_succ, IH. lia.
Qed.

Lemma iter_xO_value m d : Zpos (Pos.iter xO m d) = (Zpos m * 2 ^ Zpos d)%Z.
Proof.
  induction d as [|d IH] using Pos.peano_ind.
  - cbn [Pos.iter]. change (2 ^ 1)%Z with 2%Z. lia.
  - rewrite Pos.iter_succ, Pos2Z.inj_xO, IH, Pos2Z.inj_succ, Z.pow_succ_r by lia. ring.
Qed.

Lemma binary_round_rounds s m e :
  inject_Z (Zpos m) * 2 ^ e < 2 ^ 1023 ->
  rounds (Qsign s (inject_Z (Zpos m) * 2 ^ e)) (binary_round prec emax s m e).
Proof.
  intros Hlt. unfold binary_round, shl_align.
  assert (HA : 0 < inject_Z (Zpos m) * 2 ^ e).
  { apply Qmult_lt_0_compat; [reflexivity|apply pow2Q_pos]. }
  assert (Habs : Qabs (Qsign s (inject_Z (Zpos m) * 2 ^ e)) == inject_Z (Zpos m) * 2 ^ e).
  { destruct s; cbn [Qsign]; [rewrite Qabs_opp|]; apply Qabs_pos; lra. }
  set (f := fexp prec emax (Zpos (digits2_pos m) + e)) in *.
  destruct (f - e)%Z as [|d|d] eqn:Hd.
  - apply (round_signed _ _ _ _ 1%Z (Zpos m)); try lia.
    + apply (located_exact (Zpos m)). lia.
    + cbn [Zdigits2]. fold f. lia.
    + destruct s; cbn [Qsign]; field.
    + rewrite Habs. exact Hlt.
  - apply (round_signed _ _ _ _ 1%Z (Zpos m)); try lia.
    + apply (located_exact (Zpos m)). lia.
    + cbn [Zdigits2]. fold f. lia.
    + destruct s; cbn [Qsign]; field.
    + rewrite Habs. exact Hlt.
  - assert (He : (e = f + Zpos d)%Z) by lia.
    assert (HX : inject_Z (Zpos m) * 2 ^ e == inject_Z (Zpos (Pos.iter xO m d)) * 2 ^ f).
    { rewrite iter_xO_value, inject_Z_mult, <- (pow2Q_Z (Zpos d)) by lia.
      rewrite He at 1. rewrite pow2Q_add. ring. }
    apply (round_signed _ _ _ _ 1%Z (Zpos (Pos.iter xO m d))); try lia.
    + apply (located_exact (Zpos (Pos.iter xO m d))). lia.
    + cbn [Zdigits2]. rewrite digits2_iter_xO.
      replace (Z.pos (digits2_pos m) + Z.pos d + f)%Z with (Zpos (digits2_pos m) + e)%Z by lia.
      fold f. lia.
    + destruct s; cbn [Qsign]; rewrite HX; field.
    + rewrite Habs. exact Hlt.
Qed.

Lemma binary_normalize_rounds z e :
  Qabs (inject_Z z * 2 ^ e) < 2 ^ 1023 ->
  rounds (inject_Z z * 2 ^ e) (binary_normalize prec emax z e false).
Proof.
  intros Hlt. destruct z as [|m|m]; cbn [binary_normalize].
  - apply rounds_zero. ring.
  - apply (binary_round_rounds false m e). rewrite Qabs_pos in Hlt; [exact Hlt|].
    apply Qmult_le_0_compat; [discriminate|]. apply Qlt_le_weak, pow2Q_pos.
  - apply (rounds_ext (Qsign true (inject_Z (Zpos m) * 2 ^ e))).
    + cbn [Qsign]. change (inject_Z (Z.neg m)) with (- inject_Z (Zpos m)). ring.
    + apply binary_round_rounds.
      change (inject_Z (Z.neg m)) with (- inject_Z (Zpos m)) in Hlt.
      setoid_replace (- inject_Z (Z.pos m) * 2 ^ e) with (- (inject_Z (Z.pos m) * 2 ^ e)) in Hlt by ring.
      rewrite Qabs_opp, Qabs_pos in Hlt; [exact Hlt|].
      apply Qmult_le_0_compat; [discriminate|]. apply Qlt_le_weak, pow2Q_pos.
Qed.

Lemma SF2Q_sgn_true v : sgn v = true -> SF2Q v == - mag v.
Proof. intros H. unfold SF2Q. rewrite H. reflexivity. Qed.

Lemma SF2Q_sgn_false v : sgn v = false -> SF2Q v == mag v.
Proof. intros H. unfold SF2Q. rewrite H. reflexivity. Qed.

Lemma rounds_self v : finite64 v -> rounds (SF2Q v) v.
Proof.
  intros Hf. pose proof (mag_nonneg v) as Hm. unfold rounds.
  split; [exact Hf|]. split; [|split; [|split]].
  - intros H Hs. rewrite (SF2Q_sgn_true v Hs) in *. lra.
  - intros H Hs. rewrite (SF2Q_sgn_false v Hs) in *. lra.
  - setoid_replace (SF2Q v - SF2Q v) with 0 by ring. cbn [Qabs Z.abs Qnum Qden].
    assert (0 <= u * Qabs (SF2Q v)).
    { apply Qmult_le_0_compat; [discriminate|apply Qabs_nonneg]. }
    assert (0 < eta) by reflexivity. change (Qabs 0) with 0. lra.
  - intros w _ _. reflexivity.
Qed.

Lemma shl_align_value m e e' :
  (e' <= e)%Z ->
  Zpos (fst (shl_align m e e')) = (Zpos m * 2 ^ (e - e'))%Z.
Proof.
  intros H. unfold shl_align. destruct (e' - e)%Z as [|d|d] eqn:Hd; cbn [fst]; try lia.
  - replace (e - e')%Z with 0%Z by lia. change (2 ^ 0)%Z with 1%Z. lia.
  - rewrite iter_xO_value. replace (e - e')%Z with (Zpos d) by lia. reflexivity.
Qed.

Lemma aligned_value s m e ez :
  (ez <= e)%Z ->
  inject_Z (cond_Zopp s (Zpos (fst (shl_align m e ez)))) * 2 ^ ez
    == SF2Q (S754_finite s m e).
Proof.
  intros H. rewrite shl_align_value by assumption. rewrite SF2Q_finite.
  assert (He : 2 ^ e == 2 ^ (e - ez) * 2 ^ ez).
  { rewrite <- pow2Q_add. replace (e - ez + ez)%Z with e by lia. reflexivity. }
  destruct s; cbn [cond_Zopp Qsign]; rewrite ?inject_Z_opp, inject_Z_mult, He,
    <- (pow2Q_Z (e - ez)) by lia; ring.
Qed.

Lemma SF2Q_zero s : SF2Q (S754_zero s) == 0.
Proof. destruct s; reflexivity. Qed.

Lemma SFadd_rounds x y :
  finite64 x -> finite64 y -> Qabs (SF2Q x + SF2Q y) < 2 ^ 1023 ->
  rounds (SF2Q x + SF2Q y) (SFadd prec emax x y).
Proof.
  intros Hx Hy Hlt. assert (Hx' := Hx). assert (Hy' := Hy).
  destruct Hx' as [Hvx Hfx]. destruct Hy' as [Hvy Hfy].
  destruct x as [sx|sx| |sx mx ex]; try discriminate;
  destruct y as [sy|sy| |sy my ey]; try discriminate; cbn [SFadd].
  - destruct sx, sy; apply rounds_zero; rewrite !SF2Q_zero; ring.
  - apply (rounds_ext (SF2Q (S754_finite sy my ey))); [rewrite SF2Q_zero; ring|].
    apply rounds_self; assumption.
  - apply (rounds_ext (SF2Q (S754_finite sx mx ex))); [rewrite SF2Q_zero; ring|].
    apply rounds_self; assumption.
  - set (ez := Z.min ex ey).
    set (z := (cond_Zopp sx (Zpos (fst (shl_align mx ex ez))) +
               cond_Zopp sy (Zpos (fst (shl_align my ey ez))))%Z).
    assert (Hz : inject_Z z * 2 ^ ez == SF2Q (S754_finite sx mx ex) + SF2Q (S754_finite sy my ey)).
    { unfold z. rewrite inject_Z_plus, Qmult_plus_distr_l.
      rewrite !aligned_value by (unfold ez; lia). reflexivity. }
    apply (rounds_ext (inject_Z z * 2 ^ ez)); [exact Hz|].
    apply binary_normalize_rounds. rewrite Hz. exact Hlt.
Qed.

Lemma SF2Q_opp_finite s m e :
  SF2Q (S754_finite (negb s) m e) == - SF2Q (S754_finite s m e).
Proof. rewrite !SF2Q_finite. destruct s; cbn [negb Qsign]; ring. Qed.

Lemma SFsub_rounds x y :
  finite64 x -> finite64 y -> Qabs (SF2Q x - SF2Q y) < 2 ^ 1023 ->
  rounds (SF2Q x - SF2Q y) (SFsub prec emax x y).
Proof.
  intros Hx Hy Hlt. assert (Hx' := Hx). assert (Hy' := Hy).
  destruct Hx' as [Hvx Hfx]. destruct Hy' as [Hvy Hfy].
  destruct x as [sx|sx| |sx mx ex]; try discriminate;
  destruct y as [sy|sy| |sy my ey]; try discriminate; cbn [SFsub].
  - destruct sx, sy; apply rounds_zero; rewrite !SF2Q_zero; ring.
  - apply (rounds_ext (SF2Q (S754_finite (negb sy) my ey))).
    + rewrite SF2Q_opp_finite, SF2Q_zero. ring.
    + apply rounds_self. split; [exact Hvy|reflexivity].
  - apply (rounds_ext (SF2Q (S754_finite sx mx ex))); [rewrite SF2Q_zero; ring|].
    apply rounds_self; assumption.
  - set (ez := Z.min ex ey).
    set (z := (cond_Zopp sx (Zpos (fst (shl_align mx ex ez))) -
               cond_Zopp sy (Zpos (fst (shl_align my ey ez))))%Z).
    assert (Hz : inject_Z z * 2 ^ ez == SF2Q (S754_finite sx mx ex) - SF2Q (S754_finite sy my ey)).
    { unfold z, Z.sub, Qminus. rewrite inject_Z_plus, inject_Z_opp, Qmult_plus_distr_l.
      setoid_replace (- inject_Z (cond_Zopp sy (Z.pos (fst (shl_align my ey ez)))) * 2 ^ ez)
        with (- (inject_Z (cond_Zopp sy (Z.pos (fst (shl_align my ey ez)))) * 2 ^ ez)) by ring.
      rewrite !aligned_value by (unfold ez; lia). reflexivity. }
    apply (rounds_ext (inject_Z z * 2 ^ ez)); [exact Hz|].
    apply binary_normalize_rounds. rewrite Hz. exact Hlt.
Qed.

Lemma new_location_located D q r :
  (0 < D)%Z -> (0 <= r < D)%Z -> (0 <= q)%Z ->
  shr_located D (q * D + r) (shr_record_of_loc q (new_location D r)).
Proof.
  intros HD Hr Hq. exists r. rewrite shr_m_of_loc.
  split; [reflexivity|]. split; [exact Hr|]. split; [exact Hq|].
  unfold new_location, new_location_even, new_location_odd.
  destruct (Z.even D) eqn:Hev.
  - destruct (Z.eqb_spec r 0) as [Hr0|Hr0].
    + cbn [shr_record_of_loc shr_r shr_s]. split; split; try discriminate; lia.
    + destruct (Z.compare_spec (2 * r) D); cbn [shr_record_of_loc shr_r shr_s];
        split; split; try discriminate; try reflexivity; lia.
  - assert (Hodd : (2 * r <> D)%Z).
    { intros <-. rewrite Z.even_mul in Hev. discriminate. }
    destruct (Z.eqb_spec r 0) as [Hr0|Hr0].
    + cbn [shr_record_of_loc shr_r shr_s]. split; split; try discriminate; lia.
    + destruct (Z.compare_spec (2 * r + 1) D); cbn [shr_record_of_loc shr_r shr_s];
        split; split; try discriminate; try reflexivity; lia.
Qed.

Lemma mag_finite s m e : mag (S754_finite s m e) = inject_Z (Zpos m) * 2 ^ e.
Proof. reflexivity. Qed.

Lemma Qabs_Qsign s a : 0 <= a -> Qabs (Qsign s a) == a.
Proof. intros H. destruct s; cbn [Qsign]; [rewrite Qabs_opp|]; apply Qabs_pos; exact H. Qed.

Lemma SFdiv_rounds x y :
  is_finite x = true -> is_finite y = true -> ~ SF2Q y == 0 ->
  (SF2Q x == 0 \/ 2 ^ (-1021) <= Qabs (SF2Q x / SF2Q y)) ->
  Qabs (SF2Q x / SF2Q y) < 2 ^ 1023 ->
  rounds (SF2Q x / SF2Q y) (SFdiv prec emax x y).
Proof.
  intros Hfx Hfy Hy0 Hlo Hlt.
  destruct y as [sy|sy| |sy my ey]; try discriminate.
  { exfalso. apply Hy0. apply SF2Q_zero. }
  destruct x as [sx|sx| |sx mx ex]; try discriminate.
  { cbn [SFdiv]. apply rounds_zero. rewrite SF2Q_zero. field. exact Hy0. }
  cbn [SFdiv].
  assert (Hxpos : 0 < inject_Z (Zpos mx) * 2 ^ ex)
    by (apply Qmult_lt_0_compat; [reflexivity|apply pow2Q_pos]).
  assert (Hypos : 0 < inject_Z (Zpos my) * 2 ^ ey)
    by (apply Qmult_lt_0_compat; [reflexivity|apply pow2Q_pos]).
  set (A := (inject_Z (Zpos mx) * 2 ^ ex) / (inject_Z (Zpos my) * 2 ^ ey)).
  assert (HXA : SF2Q (S754_finite sx mx ex) / SF2Q (S754_finite sy my ey) == Qsign (xorb sx sy) A).
  { rewrite !SF2Q_finite. unfold A. pose proof (pow2Q_pos ey).
    destruct sx, sy; cbn [xorb Qsign]; field; repeat split; try lra; discriminate. }
  assert (HA0 : 0 < A).
  { unfold A. apply Qlt_shift_div_l; lra. }
  assert (HabsA : Qabs (SF2Q (S754_finite sx mx ex) / SF2Q (S754_finite sy my ey)) == A).
  { rewrite HXA. apply Qabs_Qsign. lra. }
  rewrite HabsA in Hlt.
  assert (HloA : 2 ^ (-1021) <= A).
  { destruct Hlo as [H|H]; [|rewrite HabsA in H; exact H].
    exfalso. rewrite SF2Q_finite in H. destruct sx; cbn [Qsign] in H; lra. }
  clear Hlo HabsA.
  unfold SFdiv_core_binary.
  set (d1 := Zdigits2 (Zpos mx)). set (d2 := Zdigits2 (Zpos my)).
  destruct (Zdigits2_bounds (Zpos mx) ltac:(lia)) as [[Hx1 Hx2] Hd1]. fold d1 in Hx1, Hx2, Hd1.
  destruct (Zdigits2_bounds (Zpos my) ltac:(lia)) as [[Hy1 Hy2] Hd2]. fold d2 in Hy1, Hy2, Hd2.
  set (dq := (d1 + ex - (d2 + ey))%Z).
  (* the quotient lies below 2^(dq+1) *)
  assert (HAhi : A < 2 ^ (dq + 1)).
  { unfold A. apply Qlt_shift_div_r; [exact Hypos|].
    assert (H2 : 2 ^ (dq + 1) * (inject_Z (Z.pos my) * 2 ^ ey)
                 == 2 ^ (d1 + ex) * (inject_Z (Zpos my) * / inject_Z (2 ^ (d2 - 1)))).
    { replace (dq + 1)%Z with ((d1 + ex) + (- (d2 - 1) + - ey))%Z by (unfold dq; lia).
      rewrite (pow2Q_add (d1 + ex)), (pow2Q_add (- (d2 - 1))), !Qpower_opp.
      rewrite (pow2Q_Z (d2 - 1)) by lia. field. split.
      - intro Hc. assert (0 < inject_Z (2 ^ (d2 - 1))); [|lra].
        rewrite <- (Zlt_Qlt 0). apply Z.pow_pos_nonneg; lia.
      - intro Hc. pose proof (pow2Q_pos ey). lra. }
    rewrite H2.
    assert (Hq1 : inject_Z (Zpos mx) * 2 ^ ex < 2 ^ (d1 + ex)).
    { rewrite pow2Q_add, (pow2Q_Z d1) by lia. apply Qmult_lt_compat_r; [apply pow2Q_pos|].
      rewrite <- Zlt_Qlt. exact Hx2. }
    assert (Hq2 : 1 <= inject_Z (Zpos my) * / inject_Z (2 ^ (d2 - 1))).
    { apply Qle_shift_div_l.
      - rewrite <- (Zlt_Qlt 0). apply Z.pow_pos_nonneg; lia.
      - rewrite Qmult_1_l, <- Zle_Qle. exact Hy1. }
    assert (H0 : 0 < 2 ^ (d1 + ex)) by apply pow2Q_pos.
    set (T := 2 ^ (d1 + ex)) in *. set (Y := inject_Z (Z.pos my) * / inject_Z (2 ^ (d2 - 1))) in *.
    assert (0 <= (Y - 1) * T) by (apply Qmult_le_0_compat; lra). nra. }
  assert (Hdq : (-1021 <= dq)%Z).
  { assert (-1021 < dq + 1)%Z by (apply pow2Q_lt_inv; lra). lia. }
  assert (Hfe : fexp prec emax dq = (dq - 53)%Z) by (rewrite fexp_eq; lia).
  fold d1 d2 dq. rewrite Hfe.
  set (e' := Z.min (dq - 53) (ex - ey)).
  set (s := (ex - ey - e')%Z).
  assert (Hs0 : (0 <= s)%Z) by (unfold s, e'; lia).
  assert (Hs53 : (53 + d2 <= d1 + s)%Z).
  { unfold s, e'. destruct (Z.min_spec (dq - 53) (ex - ey)) as [[? ->]|[? ->]]; unfold dq in *; lia. }
  assert (Hsdef : s = (ex - ey - e')%Z) by reflexivity. clearbody s.
  set (m' := match s with Z0 => Zpos mx | Zpos _ => Z.shiftl (Zpos mx) s | Zneg _ => 0%Z end).
  assert (Hm' : m' = (Zpos mx * 2 ^ s)%Z).
  { unfold m'. clear - Hs0. destruct s as [|p|p]; try lia.
    apply Z.shiftl_mul_pow2. lia. }
  clearbody m'.
  pose proof (Z_div_mod m' (Zpos my) ltac:(lia)) as Hdm.
  destruct (Z.div_eucl m' (Zpos my)) as [q r]. destruct Hdm as [Hqr Hr].
  assert (Hq52 : (2 ^ 52 <= q)%Z).
  { assert (H1 : (2 ^ (52 + d2) <= m')%Z).
    { rewrite Hm'.
      assert (2 ^ (52 + d2) <= 2 ^ (d1 - 1) * 2 ^ s)%Z.
      { rewrite <- Z.pow_add_r by lia. apply Z.pow_le_mono_r; lia. }
      pose proof (Z.pow_pos_nonneg 2 s ltac:(lia) ltac:(lia)).
      nia. }
    rewrite Z.pow_add_r in H1 by lia.
    assert (Hc : (q < 2 ^ 52 -> False)%Z) by (intro; nia).
    lia. }
  assert (Hdqq : (53 <= Zdigits2 q)%Z).
  { destruct (Zdigits2_bounds q ltac:(lia)) as [[_ Hh] Hdq0].
    assert (52 < Zdigits2 q)%Z by (apply pow2_lt_inv; lia). lia. }
  assert (HAval : A == inject_Z m' / inject_Z (Zpos my) * 2 ^ e').
  { unfold A. rewrite Hm', inject_Z_mult, <- (pow2Q_Z s) by lia.
    assert (He : 2 ^ ex == 2 ^ s * 2 ^ e' * 2 ^ ey).
    { rewrite <- !pow2Q_add. replace (s + e' + ey)%Z with ex by lia. reflexivity. }
    rewrite He. field. pose proof (pow2Q_pos ey). repeat split; try discriminate; lra. }
  apply (rounds_ext (Qsign (xorb sx sy) A)); [symmetry; exact HXA|].
  apply (round_signed _ _ _ _ (Zpos my) m'); try lia.
  - rewrite Hqr, (Z.mul_comm (Zpos my) q). apply new_location_located; lia.
  - rewrite fexp_eq. lia.
  - destruct (xorb sx sy); cbn [Qsign]; rewrite HAval; reflexivity.
  - rewrite Qabs_Qsign by lra. exact Hlt.
Qed.

Local Open Scope Z_scope.
Local Open Scope Q_scope.

(** ** Uniqueness of representations *)

Lemma mantissa_binade m e :
  2 ^ (Zdigits2 (Zpos m) + e - 1) <= inject_Z (Zpos m) * 2 ^ e /\
  inject_Z (Zpos m) * 2 ^ e < 2 ^ (Zdigits2 (Zpos m) + e).
Proof.
  destruct (binade_bounds (Zpos m) e (inject_Z (Zpos m) * 2 ^ e)) as [H1 H2].
  - lia.
  - apply Qle_refl.
  - rewrite inject_Z_plus. change (inject_Z 1) with 1.
    pose proof (pow2Q_pos e). nra.
  - replace (Zdigits2 (Zpos m) + e - 1)%Z with (Zdigits2 (Zpos m) - 1 + e)%Z by lia.
    split; assumption.
Qed.

Lemma canonical_unique m1 e1 m2 e2 :
  bounded prec emax m1 e1 = true -> bounded prec emax m2 e2 = true ->
  inject_Z (Zpos m1) * 2 ^ e1 == inject_Z (Zpos m2) * 2 ^ e2 ->
  m1 = m2 /\ e1 = e2.
Proof.
  intros Hb1 Hb2 Heq.
  destruct (bounded_canonical _ _ Hb1) as [Hc1 _].
  destruct (bounded_canonical _ _ Hb2) as [Hc2 _].
  destruct (mantissa_binade m1 e1) as [Ha1 Ha2].
  destruct (mantissa_binade m2 e2) as [Hb1' Hb2'].
  rewrite <- Heq in Hb1', Hb2'.
  assert (Hd : (Zdigits2 (Zpos m1) + e1 = Zdigits2 (Zpos m2) + e2)%Z)
    by (eapply binade_unique; eassumption).
  cbn [Zdigits2] in Hd.
  assert (He : e1 = e2) by (rewrite <- Hc1, <- Hc2, Hd; reflexivity).
  split; [|exact He]. subst e2.
  assert (Hm : inject_Z (Zpos m1) == inject_Z (Zpos m2)).
  { apply (Qmult_inj_r _ _ (2 ^ e1)); [|exact Heq]. pose proof (pow2Q_pos e1). lra. }
  rewrite inject_Z_injective in Hm. injection Hm as Hm'. exact Hm'.
Qed.

Lemma mag_pos_finite s m e : 0 < mag (S754_finite s m e).
Proof. cbn [mag]. apply Qmult_lt_0_compat; [reflexivity|apply pow2Q_pos]. Qed.

Lemma finite64_unique v w :
  finite64 v -> finite64 w -> SF2Q v == SF2Q w -> sgn v = sgn w -> v = w.
Proof.
  intros [Hvv Hfv] [Hvw Hfw] Heq Hs.
  destruct v as [sv|sv| |sv mv ev]; try discriminate;
  destruct w as [sw|sw| |sw mw ew]; try discriminate; cbn [sgn] in Hs; subst sw.
  - reflexivity.
  - exfalso. rewrite SF2Q_zero in Heq. pose proof (mag_pos_finite sv mw ew).
    unfold SF2Q in Heq. cbn [sgn] in Heq. destruct sv; lra.
  - exfalso. rewrite SF2Q_zero in Heq. pose proof (mag_pos_finite sv mv ev).
    unfold SF2Q in Heq. cbn [sgn] in Heq. destruct sv; lra.
  - cbn [valid_binary] in Hvv, Hvw.
    destruct (canonical_unique mv ev mw ew Hvv Hvw) as [-> ->]; [|reflexivity].
    unfold SF2Q in Heq. cbn [sgn mag] in Heq. destruct sv; lra.
Qed.

Lemma finite64_value_zero v : finite64 v -> SF2Q v == 0 -> exists s, v = S754_zero s.
Proof.
  intros [_ Hf] H0. destruct v as [s|s| |s m e]; try discriminate.
  - exists s. reflexivity.
  - exfalso. pose proof (mag_pos_finite s m e). unfold SF2Q in H0. cbn [sgn] in H0.
    destruct s; lra.
Qed.

(** ** Integers *)

Lemma small_int_representable (s : bool) (m : positive) :
  (Zpos m < 2 ^ 53)%Z ->
  exists w, finite64 w /\ sgn w = s /\ mag w == inject_Z (Zpos m).
Proof.
  intros Hm.
  pose proof (digits2_pos_bounds m) as [Hlo Hhi].
  assert (Hd : (Zpos (digits2_pos m) <= 53)%Z).
  { pose proof (Zdigits2_le (Zpos m) 53 ltac:(lia) ltac:(lia)) as H. exact H. }
  destruct (Z.eq_dec (Zpos (digits2_pos m)) 53) as [He|Hne].
  - exists (S754_finite s m 0). split; [|split].
    + split; [|reflexivity]. cbn [valid_binary]. apply bounded_intro; [|lia].
      rewrite fexp_eq, He. reflexivity.
    + reflexivity.
    + cbn [mag]. change (2 ^ 0) with 1. ring.
  - set (k := Z.to_pos (53 - Zpos (digits2_pos m))).
    assert (Hk : (Zpos k = 53 - Zpos (digits2_pos m))%Z) by (unfold k; lia).
    exists (S754_finite s (Pos.iter xO m k) (- Zpos k)). split; [|split].
    + split; [|reflexivity]. cbn [valid_binary]. apply bounded_intro; [|lia].
      rewrite digits2_iter_xO, fexp_eq. lia.
    + reflexivity.
    + cbn [mag]. rewrite iter_xO_value, inject_Z_mult, <- (pow2Q_Z (Zpos k)) by lia.
      rewrite <- Qmult_assoc, <- pow2Q_add.
      replace (Z.pos k + - Z.pos k)%Z with 0%Z by lia. change (2 ^ 0) with 1. ring.
Qed.

Lemma int_representable (z : Z) :
  (Z.abs z < 2 ^ 53)%Z -> exists w, finite64 w /\ SF2Q w == inject_Z z.
Proof.
  intros Hz. destruct z as [|m|m].
  - exists (S754_zero false). split; [split; reflexivity|reflexivity].
  - destruct (small_int_representable false m Hz) as (w & Hw & Hs & Hm).
    exists w. split; [exact Hw|]. unfold SF2Q. rewrite Hs. exact Hm.
  - destruct (small_int_representable true m Hz) as (w & Hw & Hs & Hm).
    exists w. split; [exact Hw|]. unfold SF2Q. rewrite Hs, Hm. reflexivity.
Qed.

Lemma Qabs_inject_Z z : Qabs (inject_Z z) == inject_Z (Z.abs z).
Proof. reflexivity. Qed.

Lemma pow2_53_lt_1023 : inject_Z (2 ^ 53) < 2 ^ 1023.
Proof. reflexivity. Qed.

Lemma inject_Z_neg z : (z < 0)%Z -> inject_Z z < 0.
Proof. intros H. rewrite (Zlt_Qlt z 0) in H. exact H. Qed.

Lemma inject_Z_pos z : (0 < z)%Z -> 0 < inject_Z z.
Proof. intros H. rewrite (Zlt_Qlt 0 z) in H. exact H. Qed.

Lemma ofZ_rounds z : (Z.abs z < 2 ^ 53)%Z -> rounds (inject_Z z) (ofZ z).
Proof.
  intros Hz. apply (rounds_ext (inject_Z z * 2 ^ 0)); [change (2 ^ 0) with 1; ring|].
  apply binary_normalize_rounds. change (2 ^ 0) with 1. rewrite Qmult_1_r, Qabs_inject_Z.
  eapply Qlt_trans; [|exact pow2_53_lt_1023]. rewrite <- Zlt_Qlt. exact Hz.
Qed.

Lemma ofZ_spec z :
  (Z.abs z < 2 ^ 53)%Z ->
  finite64 (ofZ z) /\ SF2Q (ofZ z) == inject_Z z /\ sgn (ofZ z) = (z <? 0)%Z.
Proof.
  intros Hz. destruct (ofZ_rounds z Hz) as (Hf & Hs1 & Hs2 & _ & Hex).
  destruct (int_representable z Hz) as (w & Hw & Hwz).
  assert (Hval : SF2Q (ofZ z) == inject_Z z) by (apply (Hex w Hw Hwz)).
  split; [exact Hf|]. split; [exact Hval|].
  destruct (Z.ltb_spec z 0) as [Hneg|Hpos].
  - destruct (sgn (ofZ z)) eqn:Es; [reflexivity|exfalso].
    assert (inject_Z z < 0) by (apply inject_Z_neg; exact Hneg).
    assert (SF2Q (ofZ z) == 0) by (apply Hs2; [lra|reflexivity]). lra.
  - destruct (Z.eq_dec z 0) as [->|Hnz]; [reflexivity|].
    destruct (sgn (ofZ z)) eqn:Es; [exfalso|reflexivity].
    assert (0 < inject_Z z) by (apply inject_Z_pos; lia).
    assert (SF2Q (ofZ z) == 0) by (apply Hs1; [lra|reflexivity]). lra.
Qed.

Lemma int_value_ofZ v k :
  finite64 v -> SF2Q v == inject_Z k -> (Z.abs k < 2 ^ 53)%Z ->
  (k <> 0%Z \/ sgn v = false) -> v = ofZ k.
Proof.
  intros Hv Hval Hk Hsign. destruct (ofZ_spec k Hk) as (Hf & Hok & Hsk).
  apply finite64_unique; try assumption.
  - rewrite Hval, Hok. reflexivity.
  - rewrite Hsk. destruct (Z.ltb_spec k 0) as [Hneg|Hpos].
    + destruct (sgn v) eqn:Es; [reflexivity|exfalso].
      assert (inject_Z k < 0) by (apply inject_Z_neg; exact Hneg).
      pose proof (mag_nonneg v). unfold SF2Q in Hval. rewrite Es in Hval. lra.
    + destruct Hsign as [Hnz|Hs]; [|exact Hs].
      destruct (sgn v) eqn:Es; [exfalso|reflexivity].
      assert (0 < inject_Z k) by (apply inject_Z_pos; lia).
      pose proof (mag_nonneg v). unfold SF2Q in Hval. rewrite Es in Hval. lra.
Qed.

Lemma ofZ_inj a b :
  (Z.abs a < 2 ^ 53)%Z -> (Z.abs b < 2 ^ 53)%Z -> ofZ a = ofZ b -> a = b.
Proof.
  intros Ha Hb H. destruct (ofZ_spec a Ha) as (_ & H1 & _).
  destruct (ofZ_spec b Hb) as (_ & H2 & _). rewrite H in H1.
  assert (H3 : inject_Z a == inject_Z b) by (rewrite <- H1, <- H2; reflexivity).
  rewrite inject_Z_injective in H3. exact H3.
Qed.

(** Exact results round to themselves. *)
Lemma rounds_exact X v w :
  rounds X v -> finite64 w -> SF2Q w == X ->
  SF2Q v == X.
Proof. intros (_ & _ & _ & _ & Hex) Hw HwX. exact (Hex w Hw HwX). Qed.

Lemma rounds_int X v k :
  rounds X v -> X == inject_Z k -> (Z.abs k < 2 ^ 53)%Z -> k <> 0%Z -> v = ofZ k.
Proof.
  intros Hr HX Hk Hnz. destruct (int_representable k Hk) as (w & Hw & Hwk).
  assert (Hv : SF2Q v == X) by (apply (rounds_exact X v w Hr Hw); rewrite Hwk, HX; reflexivity).
  destruct Hr as (Hf & _). apply int_value_ofZ; try assumption.
  - rewrite Hv. exact HX.
  - left. exact Hnz.
Qed.

Local Open Scope Z_scope.
Local Open Scope Q_scope.

(** ** Signs of results *)

Lemma round_signed_sgn sx mx ex lx D N :
  (0 < D)%Z -> (0 < mx)%Z ->
  shr_located D N (shr_record_of_loc mx lx) ->
  (ex <= fexp prec emax (Zdigits2 mx + ex))%Z ->
  inject_Z N / inject_Z D * 2 ^ ex < 2 ^ 1023 ->
  sgn (binary_round_aux prec emax sx mx ex lx) = sx.
Proof.
  intros HD Hmx Hloc Hk Hlt.
  destruct (binary_round_aux_Q sx mx ex lx D N HD Hmx Hloc Hk Hlt) as (_ & Hs & _).
  exact Hs.
Qed.

Lemma SF2Q_abs_mag x : Qabs (SF2Q x) == mag x.
Proof. symmetry. apply mag_abs. Qed.

Lemma SFmul_sgn x y :
  finite64 x -> finite64 y -> Qabs (SF2Q x * SF2Q y) < 2 ^ 1023 ->
  sgn (SFmul prec emax x y) = xorb (sgn x) (sgn y).
Proof.
  intros [Hvx Hfx] [Hvy Hfy] Hlt.
  destruct x as [sx|sx| |sx mx ex]; try discriminate;
  destruct y as [sy|sy| |sy my ey]; try discriminate; cbn [SFmul sgn]; try reflexivity.
  cbn [valid_binary] in Hvx, Hvy.
  destruct (bounded_canonical _ _ Hvx) as [Hcx _].
  destruct (bounded_canonical _ _ Hvy) as [Hcy _].
  apply (round_signed_sgn _ _ _ _ 1%Z (Zpos mx * Zpos my)%Z); try lia.
  - apply (located_exact (Zpos (mx * my))). lia.
  - rewrite !fexp_eq in *.
    pose proof (Zdigits2_mul_ge (Zpos mx) (Zpos my) ltac:(lia) ltac:(lia)) as Hd.
    cbn [Zdigits2] in Hd |- *. change (Z.pos mx * Z.pos my)%Z with (Zpos (mx * my)) in Hd.
    cbn [Zdigits2] in Hd. lia.
  - rewrite Qabs_Qmult, !SF2Q_abs_mag in Hlt. cbn [mag] in Hlt.
    rewrite inject_Z_mult, pow2Q_add.
    setoid_replace (inject_Z (Z.pos mx) * inject_Z (Z.pos my) / inject_Z 1 * (2 ^ ex * 2 ^ ey))
      with (inject_Z (Z.pos mx) * 2 ^ ex * (inject_Z (Z.pos my) * 2 ^ ey)) by field.
    exact Hlt.
Qed.

Lemma binary_round_sgn s m e :
  inject_Z (Zpos m) * 2 ^ e < 2 ^ 1023 ->
  sgn (binary_round prec emax s m e) = s.
Proof.
  intros Hlt. unfold binary_round, shl_align.
  set (f := fexp prec emax (Zpos (digits2_pos m) + e)) in *.
  assert (HX : inject_Z (Z.pos m) / inject_Z 1 * 2 ^ e < 2 ^ 1023).
  { setoid_replace (inject_Z (Z.pos m) / inject_Z 1 * 2 ^ e)
      with (inject_Z (Z.pos m) * 2 ^ e) by field. exact Hlt. }
  destruct (f - e)%Z as [|d|d] eqn:Hd.
  - apply (round_signed_sgn _ _ _ _ 1%Z (Zpos m)); try lia.
    + apply (located_exact (Zpos m)). lia.
    + cbn [Zdigits2]. fold f. lia.
    + exact HX.
  - apply (round_signed_sgn _ _ _ _ 1%Z (Zpos m)); try lia.
    + apply (located_exact (Zpos m)). lia.
    + cbn [Zdigits2]. fold f. lia.
    + exact HX.
  - assert (He : (e = f + Zpos d)%Z) by lia.
    apply (round_signed_sgn _ _ _ _ 1%Z (Zpos (Pos.iter xO m d))); try lia.
    + apply (located_exact (Zpos (Pos.iter xO m d))). lia.
    + cbn [Zdigits2]. rewrite digits2_iter_xO.
      replace (Z.pos (digits2_pos m) + Z.pos d + f)%Z with (Zpos (digits2_pos m) + e)%Z by lia.
      fold f. lia.
    + rewrite iter_xO_value, inject_Z_mult, <- (pow2Q_Z (Zpos d)) by lia.
      setoid_replace (inject_Z (Z.pos m) * 2 ^ Z.pos d / inject_Z 1 * 2 ^ f)
        with (inject_Z (Z.pos m) * (2 ^ f * 2 ^ Zpos d)) by field.
      rewrite <- pow2Q_add, <- He. exact Hlt.
Qed.

Lemma cond_Zopp_false_pos a b : (0 < cond_Zopp false a + cond_Zopp false b)%Z ->
  (cond_Zopp false a + cond_Zopp false b = a + b)%Z.
Proof. reflexivity. Qed.

Lemma SFadd_sgn_nonneg x y :
  finite64 x -> finite64 y -> sgn x = false -> sgn y = false ->
  SF2Q x + SF2Q y < 2 ^ 1023 ->
  sgn (SFadd prec emax x y) = false.
Proof.
  intros Hx Hy Hsx Hsy Hlt. assert (Hx' := Hx). assert (Hy' := Hy).
  destruct Hx' as [Hvx Hfx]. destruct Hy' as [Hvy Hfy].
  destruct x as [sx|sx| |sx mx ex]; try discriminate;
  destruct y as [sy|sy| |sy my ey]; try discriminate;
  cbn [sgn] in Hsx, Hsy; subst sx sy; cbn [SFadd]; try reflexivity.
  set (ez := Z.min ex ey).
  set (z := (cond_Zopp false (Zpos (fst (shl_align mx ex ez))) +
             cond_Zopp false (Zpos (fst (shl_align my ey ez))))%Z).
  assert (Hz : inject_Z z * 2 ^ ez == SF2Q (S754_finite false mx ex) + SF2Q (S754_finite false my ey)).
  { unfold z. rewrite inject_Z_plus, Qmult_plus_distr_l.
    rewrite !aligned_value by (unfold ez; lia). reflexivity. }
  assert (Hzpos : (0 < z)%Z) by (unfold z; cbn [cond_Zopp]; lia).
  destruct z as [|p|p]; try lia. cbn [binary_normalize].
  apply binary_round_sgn. rewrite Hz. exact Hlt.
Qed.

(** ** Multiplication by the amount sign *)

Lemma SF2Q_opp x : SF2Q (SFopp x) == - SF2Q x.
Proof.
  destruct x as [s|s| |s m e]; unfold SF2Q; cbn [SFopp sgn mag]; try (destruct s; cbn [negb]; ring).
  ring.
Qed.

Lemma finite64_opp x : finite64 x -> finite64 (SFopp x).
Proof. intros [Hv Hf]. destruct x; try discriminate; split; assumption || reflexivity. Qed.

Lemma one_value : SF2Q (ofZ 1) == 1.
Proof. reflexivity. Qed.

Lemma minus_one_value : SF2Q (ofZ (-1)) == - (1).
Proof. reflexivity. Qed.

Lemma finite64_ofZ_1 : finite64 (ofZ 1).
Proof. split; reflexivity. Qed.

Lemma finite64_ofZ_m1 : finite64 (ofZ (-1)).
Proof. split; reflexivity. Qed.

Lemma num_mul_one x :
  finite64 x -> Qabs (SF2Q x) < 2 ^ 1023 -> num_mul (ofZ 1) x = x.
Proof.
  intros Hx Hb. unfold num_mul.
  assert (Hlt : Qabs (SF2Q (ofZ 1) * SF2Q x) < 2 ^ 1023).
  { rewrite one_value, Qmult_1_l. exact Hb. }
  pose proof (SFmul_rounds (ofZ 1) x finite64_ofZ_1 Hx Hlt) as Hr.
  pose proof (SFmul_sgn (ofZ 1) x finite64_ofZ_1 Hx Hlt) as Hs.
  assert (Hv : SF2Q (SFmul prec emax (ofZ 1) x) == SF2Q (ofZ 1) * SF2Q x).
  { apply (rounds_exact _ _ x Hr Hx). rewrite one_value. ring. }
  destruct Hr as (Hf & _). apply finite64_unique; try assumption.
  rewrite Hv, one_value. ring.
Qed.

Lemma num_mul_minus_one x :
  finite64 x -> Qabs (SF2Q x) < 2 ^ 1023 -> num_mul (ofZ (-1)) x = SFopp x.
Proof.
  intros Hx Hb. unfold num_mul.
  assert (Hlt : Qabs (SF2Q (ofZ (-1)) * SF2Q x) < 2 ^ 1023).
  { rewrite minus_one_value.
    setoid_replace (- (1) * SF2Q x) with (- SF2Q x) by ring.
    rewrite Qabs_opp. exact Hb. }
  pose proof (SFmul_rounds (ofZ (-1)) x finite64_ofZ_m1 Hx Hlt) as Hr.
  pose proof (SFmul_sgn (ofZ (-1)) x finite64_ofZ_m1 Hx Hlt) as Hs.
  assert (Hv : SF2Q (SFmul prec emax (ofZ (-1)) x) == SF2Q (ofZ (-1)) * SF2Q x).
  { apply (rounds_exact _ _ (SFopp x) Hr (finite64_opp x Hx)).
    rewrite SF2Q_opp, minus_one_value. ring. }
  destruct Hr as (Hf & _). apply finite64_unique; try assumption.
  - apply finite64_opp; exact Hx.
  - rewrite Hv, SF2Q_opp, minus_one_value. ring.
  - rewrite Hs. destruct Hx as [_ Hfx]. destruct x as [s|s| |s m e]; try discriminate; reflexivity.
Qed.

Lemma Math_abs_opp_nonneg x : sgn x = false -> is_finite x = true -> Math_abs (SFopp x) = x.
Proof. destruct x as [s|s| |s m e]; cbn; intros; try discriminate; subst; reflexivity. Qed.

Lemma Math_abs_nonneg x : sgn x = false -> is_finite x = true -> Math_abs x = x.
Proof. destruct x as [s|s| |s m e]; cbn; intros; try discriminate; subst; reflexivity. Qed.

Local Open Scope Z_scope.
Local Open Scope Q_scope.

(** ** Integer parts *)

Lemma SF2Q_signed s m e :
  SF2Q (S754_finite s m e) == inject_Z (cond_Zopp s (Zpos m)) * 2 ^ e.
Proof. rewrite SF2Q_finite. destruct s; cbn [Qsign cond_Zopp]; [|reflexivity].
  change (inject_Z (- Z.pos m)) with (- inject_Z (Zpos m)). ring. Qed.

Lemma pow2Q_neg e : (e < 0)%Z -> 2 ^ e == / inject_Z (2 ^ (- e)).
Proof.
  intros He. replace e with (- (- e))%Z at 1 by lia.
  rewrite Qpower_opp, (pow2Q_Z (- e)) by lia. reflexivity.
Qed.

Lemma Zdiv_Q_bounds z P :
  (0 < P)%Z ->
  inject_Z (z / P) <= inject_Z z / inject_Z P /\
  inject_Z z / inject_Z P < inject_Z (z / P) + 1.
Proof.
  intros HP. pose proof (Z.div_mod z P ltac:(lia)) as Hdm.
  pose proof (Z.mod_pos_bound z P HP) as Hr.
  assert (HPq : 0 < inject_Z P) by (apply inject_Z_pos; exact HP).
  split.
  - apply Qle_shift_div_l; [exact HPq|]. rewrite <- inject_Z_mult, <- Zle_Qle. nia.
  - apply Qlt_shift_div_r; [exact HPq|].
    change 1 with (inject_Z 1). rewrite <- inject_Z_plus, <- inject_Z_mult, <- Zlt_Qlt. nia.
Qed.

Lemma floorZ_spec x :
  is_finite x = true ->
  inject_Z (floorZ x) <= SF2Q x /\ SF2Q x < inject_Z (floorZ x) + 1.
Proof.
  intros Hf. destruct x as [s|s| |s m e]; try discriminate.
  - rewrite SF2Q_zero. cbn [floorZ]. split; [apply Qle_refl|reflexivity].
  - rewrite SF2Q_signed. cbn [floorZ]. set (z := cond_Zopp s (Zpos m)).
    destruct (Z.leb_spec 0 e) as [He|He].
    + rewrite inject_Z_mult, <- (pow2Q_Z e) by exact He. split; [apply Qle_refl|].
      set (X := inject_Z z * 2 ^ e). lra.
    + rewrite (pow2Q_neg e He).
      apply (Zdiv_Q_bounds z (2 ^ (- e))). apply Z.pow_pos_nonneg; lia.
Qed.

Lemma floorZ_int x k : is_finite x = true -> SF2Q x == inject_Z k -> floorZ x = k.
Proof.
  intros Hf Hk. destruct (floorZ_spec x Hf) as [H1 H2]. rewrite Hk in H1, H2.
  rewrite <- Zle_Qle in H1. change 1 with (inject_Z 1) in H2.
  rewrite <- inject_Z_plus, <- Zlt_Qlt in H2. lia.
Qed.

Lemma truncZ_floorZ s m e :
  truncZ (S754_finite s m e) = cond_Zopp s (floorZ (S754_finite false m e)).
Proof. reflexivity. Qed.

Lemma truncZ_int x k : is_finite x = true -> SF2Q x == inject_Z k -> truncZ x = k.
Proof.
  intros Hf Hk. destruct x as [s|s| |s m e]; try discriminate.
  - rewrite SF2Q_zero in Hk. change 0 with (inject_Z 0) in Hk.
    rewrite inject_Z_injective in Hk. subst k. reflexivity.
  - rewrite truncZ_floorZ. rewrite SF2Q_finite in Hk. destruct s; cbn [Qsign cond_Zopp] in *.
    + rewrite (floorZ_int _ (- k)%Z); [lia|reflexivity|].
      rewrite SF2Q_finite, inject_Z_opp. cbn [Qsign]. lra.
    + apply floorZ_int; [reflexivity|]. rewrite SF2Q_finite. exact Hk.
Qed.

Lemma Math_floor_ofZ x :
  finite64 x -> sgn x = false -> SF2Q x < inject_Z (2 ^ 53) ->
  Math_floor x = ofZ (floorZ x).
Proof.
  intros Hx Hs Hlt. assert (Hx' := Hx). destruct Hx' as [Hv Hf].
  destruct x as [s|s| |s m e]; try discriminate; cbn [sgn] in Hs; subst s.
  - reflexivity.
  - unfold Math_floor. destruct (Z.leb_spec 0 e) as [He|He].
    + assert (Hval : SF2Q (S754_finite false m e) == inject_Z (floorZ (S754_finite false m e))).
      { rewrite SF2Q_signed. cbn [floorZ]. destruct (Z.leb_spec 0 e); [|lia].
        rewrite inject_Z_mult, <- (pow2Q_Z e) by lia. reflexivity. }
      assert (Hpos : (0 < floorZ (S754_finite false m e))%Z).
      { cbn [floorZ cond_Zopp]. destruct (Z.leb_spec 0 e); [|lia].
        pose proof (Z.pow_pos_nonneg 2 e ltac:(lia) ltac:(lia)). nia. }
      apply int_value_ofZ; try assumption.
      * rewrite Hval, <- Zlt_Qlt in Hlt. lia.
      * left. lia.
    + destruct (Z.eqb_spec (floorZ (S754_finite false m e)) 0) as [Hz|Hz].
      * rewrite Hz. reflexivity.
      * reflexivity.
Qed.

Lemma iterations_int v k :
  is_finite v = true -> SF2Q v == inject_Z k -> (k <= 2 ^ 53)%Z ->
  iterations v = Some (Z.to_nat k).
Proof.
  intros Hf Hk Hb.
  assert (Hfl : floorZ (SFopp v) = (- k)%Z).
  { apply floorZ_int.
    - destruct v; try discriminate; reflexivity.
    - rewrite SF2Q_opp, Hk, inject_Z_opp. reflexivity. }
  assert (Hc : (- floorZ (SFopp v) <=? 2 ^ 53)%Z = true) by (apply Z.leb_le; lia).
  destruct v as [s|s| |s m e]; try discriminate; unfold iterations;
    rewrite Hc, Hfl; f_equal; f_equal; lia.
Qed.

(** ** What [Math.random()] returns *)

Lemma ofZ_1_eq : ofZ 1 = S754_finite false 4503599627370496 (-52).
Proof. reflexivity. Qed.

Lemma unit_ok_bound r :
  unit_ok r = true -> finite64 r /\ sgn r = false /\ 0 <= SF2Q r /\ SF2Q r <= 1 - u.
Proof.
  unfold unit_ok. intros H. repeat (apply andb_true_iff in H; destruct H as [H ?]).
  rename H into Hv, H2 into Hf, H1 into Hs, H0 into Hlt.
  apply negb_true_iff in Hs.
  split; [split; assumption|]. split; [exact Hs|].
  destruct r as [s|s| |s m e]; try discriminate; cbn [sgn] in Hs; subst s.
  - rewrite SF2Q_zero. split; [apply Qle_refl|discriminate].
  - pose proof (mag_pos_finite false m e) as Hpos.
    assert (Hval : SF2Q (S754_finite false m e) == inject_Z (Zpos m) * 2 ^ e) by reflexivity.
    split; [unfold SF2Q; cbn [sgn]; lra|]. rewrite Hval.
    cbn [valid_binary] in Hv. destruct (bounded_canonical _ _ Hv) as [Hc _].
    rewrite fexp_eq in Hc.
    pose proof (digits2_pos_bounds m) as [Hlo Hhi].
    assert (Hd53 : (Zpos (digits2_pos m) <= 53)%Z) by lia.
    assert (Hm : (Zpos m <= 2 ^ 53 - 1)%Z).
    { assert (2 ^ Zpos (digits2_pos m) <= 2 ^ 53)%Z by (apply Z.pow_le_mono_r; lia). lia. }
    unfold num_lt, SFltb in Hlt. rewrite ofZ_1_eq in Hlt. cbn [SFcompare] in Hlt.
    destruct (Z.compare_spec e (-52)) as [He|He|He]; try (discriminate Hlt).
    + subst e. exfalso.
      assert (Hd : Zpos (digits2_pos m) = 53%Z) by lia.
      rewrite Hd in Hlo. change (2 ^ (53 - 1))%Z with 4503599627370496%Z in Hlo.
      rewrite Pos.compare_cont_spec in Hlt. cbn [Pos.switch_Eq] in Hlt.
      destruct (Pos.compare_spec m 4503599627370496) as [Ec|Ec|Ec]; try (discriminate Hlt).
      apply Pos2Z.pos_lt_pos in Ec. clear - Hlo Ec. lia.
    + assert (Hp : 2 ^ e <= 2 ^ (-53)) by (apply pow2Q_le; lia).
      rewrite Zle_Qle in Hm.
      pose proof (pow2Q_pos e) as HP.
      apply (Qle_trans _ (inject_Z (2 ^ 53 - 1) * 2 ^ e)).
      * apply Qmult_le_compat_r; [exact Hm|lra].
      * apply (Qle_trans _ (inject_Z (2 ^ 53 - 1) * 2 ^ (-53))).
        -- apply Qmult_le_l; [reflexivity|exact Hp].
        -- discriminate.
Qed.

Local Open Scope Z_scope.
Local Open Scope Q_scope.

(** ** Bounds read off a rounding *)

Lemma u_pos : 0 < u. Proof. reflexivity. Qed.
Lemma eta_pos : 0 < eta. Proof. reflexivity. Qed.
Lemma u_lt_1 : u < 1. Proof. reflexivity. Qed.

Lemma rounds_bounds X v :
  rounds X v -> 0 <= X ->
  X * (1 - u) - eta <= SF2Q v /\ SF2Q v <= X * (1 + u) + eta.
Proof.
  intros (_ & _ & _ & Herr & _) HX. rewrite (Qabs_pos X HX) in Herr.
  apply Qabs_Qle_condition in Herr. destruct Herr as [H1 H2]. split; lra.
Qed.

Lemma rounds_finite X v : rounds X v -> finite64 v.
Proof. intros (H & _). exact H. Qed.

Lemma eta_small : eta < 2 ^ (-1000) * (1 - u).
Proof. reflexivity. Qed.

Lemma rounds_pos_sgn X v : rounds X v -> 2 ^ (-1000) <= X -> sgn v = false.
Proof.
  intros Hr HX. assert (H0 : 0 < 2 ^ (-1000)) by reflexivity.
  pose proof eta_small as He. pose proof u_pos. pose proof u_lt_1.
  set (t := 2 ^ (-1000)) in *. clearbody t.
  destruct (rounds_bounds X v Hr ltac:(lra)) as [Hlo _].
  destruct Hr as (_ & Hs & _). destruct (sgn v) eqn:Es; [exfalso|reflexivity].
  assert (Hz : SF2Q v == 0) by (apply Hs; [lra|reflexivity]).
  clear Hs Es.
  assert (t * (1 - u) <= X * (1 - u)) by (apply Qmult_le_compat_r; lra).
  lra.
Qed.

Lemma within_weaken lo hi lo' hi' x :
  within lo hi x -> lo' <= lo -> hi <= hi' -> within lo' hi' x.
Proof.
  intros (Hf & Hs & H1 & H2) Hlo Hhi.
  split; [exact Hf|]. split; [exact Hs|]. split; lra.
Qed.

Lemma within_value x : finite64 x -> sgn x = false -> within (SF2Q x) (SF2Q x) x.
Proof.
  intros Hf Hs. split; [exact Hf|]. split; [exact Hs|]. split; apply Qle_refl.
Qed.

Lemma within_nonneg lo hi x : within lo hi x -> 0 <= SF2Q x.
Proof. intros (_ & Hs & _). unfold SF2Q. rewrite Hs. apply mag_nonneg. Qed.

Lemma Qmult_interval a b c d x y :
  0 <= a -> 0 <= c -> a <= x -> x <= b -> c <= y -> y <= d ->
  a * c <= x * y /\ x * y <= b * d.
Proof. intros. split; nra. Qed.

Lemma mul_within a b c d lo hi x y :
  within a b x -> within c d y -> 0 <= a -> 0 <= c ->
  b * d < 2 ^ 1023 ->
  lo <= a * c * (1 - u) - eta -> b * d * (1 + u) + eta <= hi ->
  within lo hi (num_mul x y).
Proof.
  intros (Hfx & Hsx & Hx1 & Hx2) (Hfy & Hsy & Hy1 & Hy2) Ha Hc Hbd Hlo Hhi.
  destruct (Qmult_interval a b c d (SF2Q x) (SF2Q y)) as [HX1 HX2]; try assumption.
  assert (HX0 : 0 <= SF2Q x * SF2Q y) by (apply Qmult_le_0_compat; lra).
  assert (Hlt : Qabs (SF2Q x * SF2Q y) < 2 ^ 1023) by (rewrite Qabs_pos; lra).
  pose proof (SFmul_rounds x y Hfx Hfy Hlt) as Hr.
  pose proof (SFmul_sgn x y Hfx Hfy Hlt) as Hs. rewrite Hsx, Hsy in Hs.
  destruct (rounds_bounds _ _ Hr HX0) as [Hb1 Hb2].
  pose proof u_pos. pose proof u_lt_1.
  split; [exact (rounds_finite _ _ Hr)|]. split; [exact Hs|]. unfold num_mul. split.
  - assert (a * c * (1 - u) <= SF2Q x * SF2Q y * (1 - u)) by (apply Qmult_le_compat_r; lra). lra.
  - assert (SF2Q x * SF2Q y * (1 + u) <= b * d * (1 + u)) by (apply Qmult_le_compat_r; lra). lra.
Qed.

Lemma add_within a b c d lo hi x y :
  within a b x -> within c d y -> 0 <= a -> 0 <= c ->
  b + d < 2 ^ 1023 ->
  lo <= (a + c) * (1 - u) - eta -> (b + d) * (1 + u) + eta <= hi ->
  within lo hi (num_add x y).
Proof.
  intros (Hfx & Hsx & Hx1 & Hx2) (Hfy & Hsy & Hy1 & Hy2) Ha Hc Hbd Hlo Hhi.
  assert (HX0 : 0 <= SF2Q x + SF2Q y) by lra.
  assert (Hlt : Qabs (SF2Q x + SF2Q y) < 2 ^ 1023) by (rewrite Qabs_pos; lra).
  pose proof (SFadd_rounds x y Hfx Hfy Hlt) as Hr.
  pose proof (SFadd_sgn_nonneg x y Hfx Hfy Hsx Hsy ltac:(lra)) as Hs.
  destruct (rounds_bounds _ _ Hr HX0) as [Hb1 Hb2].
  pose proof u_pos. pose proof u_lt_1.
  split; [exact (rounds_finite _ _ Hr)|]. split; [exact Hs|]. unfold num_add. split.
  - assert ((a + c) * (1 - u) <= (SF2Q x + SF2Q y) * (1 - u)) by (apply Qmult_le_compat_r; lra). lra.
  - assert ((SF2Q x + SF2Q y) * (1 + u) <= (b + d) * (1 + u)) by (apply Qmult_le_compat_r; lra). lra.
Qed.

Lemma hundred_value : SF2Q (ofZ 100) == 100.
Proof. reflexivity. Qed.

Lemma finite64_ofZ_100 : finite64 (ofZ 100).
Proof. split; reflexivity. Qed.

Lemma SFdiv_sgn_zero s y : is_finite y = true -> ~ SF2Q y == 0 ->
  sgn (SFdiv prec emax (S754_zero s) y) = xorb s (sgn y).
Proof.
  intros Hf Hy. destruct y as [sy|sy| |sy my ey]; try discriminate.
  - exfalso. apply Hy. apply SF2Q_zero.
  - reflexivity.
Qed.

(** Division by the literal 100 of a number that is zero or not tiny. *)
Lemma div100_within a b lo hi x :
  within a b x -> (SF2Q x == 0 \/ 2 ^ (-900) <= a) -> 0 <= a ->
  b < 2 ^ 1023 ->
  lo <= a / 100 * (1 - u) - eta -> b / 100 * (1 + u) + eta <= hi ->
  within lo hi (num_div x (ofZ 100)).
Proof.
  intros (Hfx & Hsx & Hx1 & Hx2) Hz Ha Hb Hlo Hhi.
  assert (Hx0 : 0 <= SF2Q x) by lra.
  assert (Hy0 : ~ SF2Q (ofZ 100) == 0) by (rewrite hundred_value; discriminate).
  assert (HXeq : SF2Q x / SF2Q (ofZ 100) == SF2Q x / 100) by (rewrite hundred_value; reflexivity).
  assert (HX0 : 0 <= SF2Q x / 100) by (apply Qle_shift_div_l; lra).
  assert (HXb : SF2Q x / 100 <= SF2Q x) by (apply Qle_shift_div_r; lra).
  assert (Hlt : Qabs (SF2Q x / SF2Q (ofZ 100)) < 2 ^ 1023).
  { rewrite HXeq, Qabs_pos; lra. }
  assert (Hcond : SF2Q x == 0 \/ 2 ^ (-1021) <= Qabs (SF2Q x / SF2Q (ofZ 100))).
  { destruct Hz as [Hz|Hz]; [left; exact Hz|right].
    rewrite HXeq, Qabs_pos by exact HX0. apply Qle_shift_div_l; [reflexivity|].
    assert (2 ^ (-1021) * 100 <= 2 ^ (-900)) by discriminate. lra. }
  destruct Hfx as [Hvx Hfx'].
  pose proof (SFdiv_rounds x (ofZ 100) Hfx' eq_refl Hy0 Hcond Hlt) as Hr.
  apply (rounds_ext _ (SF2Q x / 100)) in Hr; [|exact HXeq].
  destruct (rounds_bounds _ _ Hr HX0) as [Hb1 Hb2].
  pose proof u_pos. pose proof u_lt_1.
  assert (Hs : sgn (num_div x (ofZ 100)) = false).
  { destruct Hz as [Hz|Hz].
    - destruct (finite64_value_zero x (conj Hvx Hfx') Hz) as [s ->].
      cbn [sgn] in Hsx. subst s. reflexivity.
    - apply (rounds_pos_sgn _ _ Hr).
      assert (2 ^ (-1000) * 100 <= 2 ^ (-900)) by discriminate.
      apply Qle_shift_div_l; [reflexivity|]. lra. }
  split; [exact (rounds_finite _ _ Hr)|]. split; [exact Hs|]. unfold num_div.
  assert (Ha100 : a / 100 <= SF2Q x / 100) by (apply Qmult_le_compat_r; [lra|discriminate]).
  assert (Hb100 : SF2Q x / 100 <= b / 100) by (apply Qmult_le_compat_r; [lra|discriminate]).
  split.
  - assert (a / 100 * (1 - u) <= SF2Q x / 100 * (1 - u)) by (apply Qmult_le_compat_r; lra). lra.
  - assert (SF2Q x / 100 * (1 + u) <= b / 100 * (1 + u)) by (apply Qmult_le_compat_r; lra). lra.
Qed.

Local Open Scope Z_scope.
Local Open Scope Q_scope.

(** ** [toFixed] and [parseFloat] *)

Lemma fixed_digits_spec m e f :
  let n := inject_Z (Z.of_N (fixed_digits m e f)) in
  let X := inject_Z (Zpos m) * 2 ^ e * inject_Z (10 ^ Z.of_nat f) in
  2 * n - 1 <= 2 * X /\ 2 * X < 2 * n + 1.
Proof.
  unfold fixed_digits. set (p := (10 ^ Z.of_nat f)%Z).
  assert (Hp : (0 < p)%Z) by (apply Z.pow_pos_nonneg; lia).
  destruct (Z.leb_spec 0 e) as [He|He]; cbv zeta.
  - assert (H0 : (0 <= Zpos m * 2 ^ e * p)%Z).
    { pose proof (Z.pow_pos_nonneg 2 e ltac:(lia) He). nia. }
    rewrite Z2N.id by exact H0. rewrite !inject_Z_mult, <- (pow2Q_Z e) by exact He.
    set (X := inject_Z (Zpos m) * 2 ^ e * inject_Z p). split; lra.
  - set (P := (2 ^ (- e))%Z).
    assert (HP : (0 < P)%Z) by (apply Z.pow_pos_nonneg; lia).
    assert (HP2 : (2 ^ (- e + 1) = 2 * P)%Z).
    { unfold P. rewrite Z.pow_add_r by lia. change (2 ^ 1)%Z with 2%Z. lia. }
    rewrite HP2.
    set (q := ((2 * Zpos m * p + P) / (2 * P))%Z).
    assert (Hq0 : (0 <= q)%Z) by (apply Z.div_pos; nia).
    rewrite Z2N.id by exact Hq0.
    pose proof (Z.div_mod (2 * Zpos m * p + P) (2 * P) ltac:(lia)) as Hdm.
    pose proof (Z.mod_pos_bound (2 * Zpos m * p + P) (2 * P) ltac:(lia)) as Hr.
    fold q in Hdm.
    assert (H1 : ((2 * q - 1) * P <= 2 * (Zpos m * p))%Z) by nia.
    assert (H2 : (2 * (Zpos m * p) < (2 * q + 1) * P)%Z) by nia.
    rewrite (pow2Q_neg e He). fold P.
    rewrite Zle_Qle in H1. rewrite Zlt_Qlt in H2.
    rewrite !inject_Z_mult in H1, H2.
    change (2 * q - 1)%Z with (2 * q + -1)%Z in H1.
    rewrite !inject_Z_plus, !inject_Z_mult in H1, H2.
    change (inject_Z 2) with 2 in *. change (inject_Z (-1)) with (- (1)) in *.
    change (inject_Z 1) with 1 in *.
    assert (HPq : 0 < inject_Z P) by (apply inject_Z_pos; exact HP).
    set (qq := inject_Z q) in *. set (qm := inject_Z (Zpos m)) in *.
    set (qp := inject_Z p) in *. set (qP := inject_Z P) in *.
    assert (Hinv : qm * / qP * qp * qP == qm * qp) by (field; lra).
    set (Y := qm * / qP * qp) in *. clearbody Y qq qm qp qP. split.
    + destruct (Qlt_le_dec (2 * Y) (2 * qq - 1)) as [Hc|Hc]; [exfalso|exact Hc].
      assert (0 < (2 * qq - 1 - 2 * Y) * qP) by (apply Qmult_lt_0_compat; lra). nra.
    + destruct (Qlt_le_dec (2 * Y) (2 * qq + 1)) as [Hc|Hc]; [exact Hc|exfalso].
      assert (0 <= (2 * Y - (2 * qq + 1)) * qP) by (apply Qmult_le_0_compat; lra). nra.
Qed.

Lemma at_least_1e21_false m e :
  inject_Z (Zpos m) * 2 ^ e < inject_Z (10 ^ 21) -> at_least_1e21 m e = false.
Proof.
  intros H. unfold at_least_1e21. destruct (Z.leb_spec 0 e) as [He|He].
  - apply Z.leb_gt. rewrite (pow2Q_Z e He), <- inject_Z_mult, <- Zlt_Qlt in H. exact H.
  - apply Z.leb_gt. rewrite (pow2Q_neg e He) in H.
    assert (HP : 0 < inject_Z (2 ^ (- e))).
    { apply inject_Z_pos. apply Z.pow_pos_nonneg; lia. }
    rewrite Zlt_Qlt, inject_Z_mult.
    set (P := inject_Z (2 ^ (- e))) in *. set (M := inject_Z (Zpos m)) in *.
    set (T := inject_Z (10 ^ 21)) in *.
    assert (Hinv : M * / P * P == M) by (field; lra).
    set (Y := M * / P) in *. clearbody Y M P T.
    assert (0 < (T - Y) * P) by (apply Qmult_lt_0_compat; lra). nra.
Qed.

Lemma toFixed_within lo hi x f :
  within lo hi x -> hi < inject_Z (10 ^ 21) ->
  exists n : N,
    toFixed x f = Fixed_digits false n f /\
    2 * inject_Z (Z.of_N n) - 1 <= 2 * (SF2Q x * inject_Z (10 ^ Z.of_nat f)) /\
    2 * (SF2Q x * inject_Z (10 ^ Z.of_nat f)) < 2 * inject_Z (Z.of_N n) + 1.
Proof.
  intros ([Hv Hf] & Hs & H1 & H2) Hhi.
  destruct x as [s|s| |s m e]; try discriminate; cbn [sgn] in Hs; subst s.
  - exists 0%N. split; [reflexivity|]. rewrite SF2Q_zero. split.
    + cbn. discriminate.
    + cbn. reflexivity.
  - assert (Hval : SF2Q (S754_finite false m e) == inject_Z (Zpos m) * 2 ^ e) by reflexivity.
    exists (fixed_digits m e f). cbn [toFixed].
    rewrite at_least_1e21_false by (rewrite <- Hval; lra).
    split; [reflexivity|]. rewrite Hval. apply fixed_digits_spec.
Qed.

Lemma of_decimal_2_zero : of_decimal false 0 2 = S754_zero false.
Proof. reflexivity. Qed.

Lemma of_decimal_2_rounds (p : positive) :
  inject_Z (Zpos p) < 2 ^ 1000 ->
  rounds (inject_Z (Zpos p) / 100) (of_decimal false (Npos p) 2) /\
  sgn (of_decimal false (Npos p) 2) = false.
Proof.
  intros Hp. cbn [of_decimal].
  change (Z.to_pos (10 ^ Z.of_nat 2)) with 100%positive.
  set (x := S754_finite false p 0). set (y := S754_finite false 100 0).
  assert (Hx : SF2Q x == inject_Z (Zpos p)) by (unfold x, SF2Q; cbn [sgn mag]; change (2 ^ 0) with 1; ring).
  assert (Hy : SF2Q y == 100) by reflexivity.
  assert (Hp1 : 1 <= inject_Z (Zpos p)) by (rewrite <- (Zle_Qle 1); lia).
  assert (HX : SF2Q x / SF2Q y == inject_Z (Zpos p) / 100) by (rewrite Hx, Hy; reflexivity).
  assert (HX0 : 1 / 100 <= inject_Z (Zpos p) / 100).
  { apply Qmult_le_compat_r; [exact Hp1|discriminate]. }
  assert (HX1 : inject_Z (Zpos p) / 100 <= inject_Z (Zpos p)).
  { apply Qle_shift_div_r; [reflexivity|]. lra. }
  assert (HXnn : 0 <= inject_Z (Zpos p) / 100).
  { apply (Qle_trans _ (1 / 100)); [discriminate|exact HX0]. }
  assert (Hr : rounds (SF2Q x / SF2Q y) (SFdiv prec emax x y)).
  { apply SFdiv_rounds; try reflexivity.
    - rewrite Hy. discriminate.
    - right. rewrite HX, Qabs_pos by exact HXnn.
      apply (Qle_trans _ (1 / 100)); [discriminate|exact HX0].
    - rewrite HX, Qabs_pos by exact HXnn.
      apply (Qle_lt_trans _ (inject_Z (Zpos p))); [exact HX1|].
      apply (Qlt_trans _ (2 ^ 1000)); [exact Hp|reflexivity]. }
  apply (rounds_ext _ (inject_Z (Zpos p) / 100)) in Hr; [|exact HX].
  split; [exact Hr|]. apply (rounds_pos_sgn _ _ Hr).
  apply (Qle_trans _ (1 / 100)); [discriminate|exact HX0].
Qed.

(** [parseFloat(x.toFixed(2))] on a number of positive sign below 10^15. *)
Lemma round2_within lo hi x :
  within lo hi x -> hi < inject_Z (10 ^ 15) ->
  exists n : N,
    parseFloat (toFixed x 2) = of_decimal false n 2 /\
    2 * inject_Z (Z.of_N n) - 1 <= 200 * SF2Q x /\
    200 * SF2Q x < 2 * inject_Z (Z.of_N n) + 1 /\
    within (inject_Z (Z.of_N n) / 100 * (1 - u) - eta)
           (inject_Z (Z.of_N n) / 100 * (1 + u) + eta) (of_decimal false n 2).
Proof.
  intros Hw Hhi. assert (Hw' := Hw). destruct Hw' as (Hfx & Hsx & Hx1 & Hx2).
  assert (H21 : hi < inject_Z (10 ^ 21)).
  { apply (Qlt_trans _ (inject_Z (10 ^ 15))); [exact Hhi|reflexivity]. }
  destruct (toFixed_within lo hi x 2 Hw H21) as (n & Hn & Hn1 & Hn2).
  change (inject_Z (10 ^ Z.of_nat 2)) with 100 in Hn1, Hn2.
  exists n. rewrite Hn. cbn [parseFloat]. split; [reflexivity|].
  split; [lra|]. split; [lra|].
  pose proof u_pos. pose proof u_lt_1. pose proof eta_pos.
  destruct n as [|p].
  - rewrite of_decimal_2_zero. split; [split; reflexivity|]. split; [reflexivity|].
    rewrite SF2Q_zero. change (inject_Z (Z.of_N 0) / 100) with (0 # 100).
    setoid_replace (0 # 100) with 0 by reflexivity. split; lra.
  - change (Z.of_N (N.pos p)) with (Zpos p) in *.
    assert (Hp : inject_Z (Zpos p) < 2 ^ 1000).
    { apply (Qlt_trans _ (inject_Z (10 ^ 18))); [|reflexivity].
      change (inject_Z (10 ^ 15)) with (1000000000000000 # 1) in Hhi.
      change (inject_Z (10 ^ 18)) with (1000000000000000000 # 1). lra. }
    destruct (of_decimal_2_rounds p Hp) as [Hr Hs].
    assert (HX0 : 0 <= inject_Z (Zpos p) / 100).
    { apply Qle_shift_div_l; [reflexivity|]. rewrite Qmult_0_l. discriminate. }
    destruct (rounds_bounds _ _ Hr HX0) as [Hb1 Hb2].
    split; [exact (rounds_finite _ _ Hr)|]. split; [exact Hs|]. split; assumption.
Qed.

Local Open Scope Z_scope.
Local Open Scope Q_scope.

(** ** Random integers and random two-decimal numbers *)

Ltac qle := apply Qle_bool_imp_le; vm_compute; reflexivity.
Ltac qlt := rewrite Qlt_alt; vm_compute; reflexivity.

Lemma within_raise0 lo hi x : within lo hi x -> within 0 hi x.
Proof.
  intros Hw. pose proof (within_nonneg _ _ _ Hw) as H0.
  destruct Hw as (Hf & Hs & H1 & H2).
  split; [exact Hf|]. split; [exact Hs|]. split; assumption.
Qed.

Lemma within_ofZ z : (0 <= z < 2 ^ 53)%Z -> within (inject_Z z) (inject_Z z) (ofZ z).
Proof.
  intros Hz. destruct (ofZ_spec z ltac:(lia)) as (Hf & Hv & Hs).
  split; [exact Hf|]. split.
  - rewrite Hs. apply Z.ltb_ge. lia.
  - rewrite Hv. split; apply Qle_refl.
Qed.

Lemma num_add_nonneg_int a b :
  (0 <= a)%Z -> (0 <= b)%Z -> (a + b < 2 ^ 53)%Z ->
  num_add (ofZ a) (ofZ b) = ofZ (a + b).
Proof.
  intros Ha Hb Hab.
  destruct (Z.eq_dec (a + b) 0) as [Hz|Hnz].
  - assert (a = 0%Z) by lia. assert (b = 0%Z) by lia. subst a b. reflexivity.
  - destruct (ofZ_spec a ltac:(lia)) as (Hfa & Hva & _).
    destruct (ofZ_spec b ltac:(lia)) as (Hfb & Hvb & _).
    assert (HX : SF2Q (ofZ a) + SF2Q (ofZ b) == inject_Z (a + b)).
    { rewrite Hva, Hvb, inject_Z_plus. reflexivity. }
    apply (rounds_int (SF2Q (ofZ a) + SF2Q (ofZ b))); try assumption; try lia.
    apply SFadd_rounds; try assumption.
    rewrite HX, Qabs_inject_Z. apply (Qlt_trans _ (inject_Z (2 ^ 53))); [|exact pow2_53_lt_1023].
    rewrite <- Zlt_Qlt. lia.
Qed.

Lemma unit_times_int r w :
  unit_ok r = true -> (1 <= w < 2 ^ 31)%Z ->
  finite64 (num_mul r (ofZ w)) /\ sgn (num_mul r (ofZ w)) = false /\
  0 <= SF2Q (num_mul r (ofZ w)) /\ SF2Q (num_mul r (ofZ w)) < inject_Z w.
Proof.
  intros Hr Hw. destruct (unit_ok_bound r Hr) as (Hfr & Hsr & Hr0 & Hr1).
  destruct (within_ofZ w ltac:(lia)) as (Hfw & Hsw & Hw1 & Hw2).
  assert (Hwq : 1 <= inject_Z w) by (rewrite <- (Zle_Qle 1); lia).
  assert (Hwq2 : inject_Z w < inject_Z (2 ^ 31)) by (rewrite <- Zlt_Qlt; lia).
  change (inject_Z (2 ^ 31)) with (2147483648 # 1) in Hwq2.
  set (W := inject_Z w) in *.
  assert (HWv : SF2Q (ofZ w) == W) by (apply Qle_antisym; assumption).
  pose proof u_pos as Hu. pose proof u_lt_1 as Hu1. pose proof eta_pos as He.
  assert (HX0 : 0 <= SF2Q r * SF2Q (ofZ w)) by (apply Qmult_le_0_compat; lra).
  assert (HX1 : SF2Q r * SF2Q (ofZ w) <= (1 - u) * W).
  { rewrite HWv. apply Qmult_le_compat_r; lra. }
  assert (Hlt : Qabs (SF2Q r * SF2Q (ofZ w)) < 2 ^ 1023).
  { rewrite Qabs_pos by exact HX0. apply (Qle_lt_trans _ ((1 - u) * W)); [exact HX1|].
    apply (Qlt_trans _ (2147483648 # 1)); [|reflexivity].
    assert (0 <= u * W) by (apply Qmult_le_0_compat; lra). lra. }
  pose proof (SFmul_rounds r (ofZ w) Hfr Hfw Hlt) as Hrd.
  pose proof (SFmul_sgn r (ofZ w) Hfr Hfw Hlt) as Hs. rewrite Hsr, Hsw in Hs.
  destruct (rounds_bounds _ _ Hrd HX0) as [_ Hb2].
  split; [exact (rounds_finite _ _ Hrd)|]. split; [exact Hs|]. unfold num_mul. split.
  - unfold SF2Q. change (sgn (SFmul prec emax r (ofZ w))) with (sgn (SFmul prec emax r (ofZ w))).
    rewrite Hs. apply mag_nonneg.
  - assert (H1 : SF2Q r * SF2Q (ofZ w) * (1 + u) <= (1 - u) * W * (1 + u)).
    { apply Qmult_le_compat_r; lra. }
    assert (H2 : eta < u * u) by qlt.
    assert (H3 : u * u <= u * u * W).
    { assert (0 <= u * u * (W - 1)); [|lra]. apply Qmult_le_0_compat; [|lra].
      apply Qmult_le_0_compat; lra. }
    assert (H4 : u * 1 <= u * W) by (apply Qmult_le_l; lra).
    assert (H5 : (1 - u) * W * (1 + u) == W - u * u * W) by ring.
    assert (H6 : u * u <= u) by (assert (0 <= u * (1 - u)); [apply Qmult_le_0_compat; lra|lra]).
    lra.
Qed.

Lemma random_int_core r w a :
  unit_ok r = true -> (1 <= w < 2 ^ 31)%Z -> (0 <= a < 2 ^ 31)%Z ->
  exists j, (0 <= j < w)%Z /\
    num_add (Math_floor (num_mul r (ofZ w))) (ofZ a) = ofZ (j + a).
Proof.
  intros Hr Hw Ha. pose proof (unit_times_int r w Hr Hw) as (Hf & Hs & H0 & H1).
  set (v := num_mul r (ofZ w)) in *.
  pose proof u_pos as Hu.
  assert (Hwq2 : inject_Z w < inject_Z (2 ^ 31)) by (rewrite <- Zlt_Qlt; lia).
  destruct (floorZ_spec v (proj2 Hf)) as [Hj1 Hj2].
  set (j := floorZ v) in *.
  assert (Hj0 : (0 <= j)%Z).
  { assert (0 < inject_Z j + 1) by lra. change 1 with (inject_Z 1) in H.
    rewrite <- inject_Z_plus in H. change 0 with (inject_Z 0) in H.
    rewrite <- Zlt_Qlt in H. lia. }
  assert (Hjw : (j < w)%Z).
  { rewrite Zlt_Qlt. lra. }
  exists j. split; [lia|].
  rewrite (Math_floor_ofZ v Hf Hs); fold j.
  - apply num_add_nonneg_int; lia.
  - apply (Qlt_trans _ (inject_Z (2 ^ 31))); [|reflexivity]. lra.
Qed.

(** [randomBetween(a, b)] for integer literals whose width [b - a + 1]
    has been computed. *)
Lemma randomBetween_spec h a b w n :
  num_add (num_sub (ofZ b) (ofZ a)) (ofZ 1) = ofZ w ->
  (1 <= w < 2 ^ 31)%Z -> (0 <= a < 2 ^ 31)%Z ->
  exists j, (0 <= j < w)%Z /\
    randomBetween h (ofZ a) (ofZ b) n = Return (ofZ (j + a), S n).
Proof.
  intros Hwd Hw Ha.
  destruct (random_int_core (host_random h n) w a (ud_ok (host_random h n)) Hw Ha)
    as (j & Hj & Heq).
  exists j. split; [exact Hj|].
  unfold randomBetween, bind, Math_random, ret. rewrite Hwd, Heq. reflexivity.
Qed.

(** [randomFloat(min, max)] for literals: the number drawn is a two-decimal
    value between the cent counts [klo] and [khi]. *)
Lemma randomFloat_core r c mn c2 m1 m2 klo khi :
  unit_ok r = true ->
  within 0 c2 c -> within m1 m2 mn -> 0 <= m1 ->
  c2 + m2 < 1000 ->
  inject_Z (2 * (klo - 1)) <= 200 * (m1 * (1 - u) - eta) - 1 ->
  200 * ((c2 * (1 + u) + eta + m2) * (1 + u) + eta) + 1 < inject_Z (2 * (khi + 1)) ->
  exists k, (klo <= k <= khi)%Z /\ (0 <= k)%Z /\
    parseFloat (toFixed (num_add (num_mul r c) mn) 2) = of_decimal false (Z.to_N k) 2.
Proof.
  intros Hr Hc Hm Hm1 Hsum Hlo Hhi.
  destruct (unit_ok_bound r Hr) as (Hfr & Hsr & Hr0 & Hr1).
  pose proof u_pos as Hu. pose proof u_lt_1 as Hu1. pose proof eta_pos as He.
  assert (He1 : eta < 1) by qlt.
  assert (Hc2 : 0 <= c2) by (destruct Hc as (_ & _ & ? & ?); lra).
  assert (Hm2 : m1 <= m2) by (destruct Hm as (_ & _ & ? & ?); lra).
  assert (Hrw : within 0 1 r) by (split; [exact Hfr|]; split; [exact Hsr|]; split; lra).
  assert (Hp : within 0 (c2 * (1 + u) + eta) (num_mul r c)).
  { apply within_raise0 with (lo := 0 * 0 * (1 - u) - eta).
    apply (mul_within 0 1 0 c2); try assumption; try apply Qle_refl.
    - apply (Qlt_trans _ 1000); [lra|reflexivity].
    - lra. }
  assert (Hcu : c2 * u <= c2) by (assert (0 <= c2 * (1 - u)); [apply Qmult_le_0_compat; lra|lra]).
  assert (Hv : within ((0 + m1) * (1 - u) - eta)
                      ((c2 * (1 + u) + eta + m2) * (1 + u) + eta)
                      (num_add (num_mul r c) mn)).
  { apply (add_within 0 (c2 * (1 + u) + eta) m1 m2); try assumption; try apply Qle_refl.
    apply (Qlt_trans _ 2001); [|reflexivity]. lra. }
  assert (Hcu0 : 0 <= c2 * u) by (apply Qmult_le_0_compat; lra).
  set (S := c2 * (1 + u) + eta + m2) in *.
  assert (HS : S <= 2001) by (unfold S; lra).
  assert (HS0 : 0 <= S) by (unfold S; lra).
  assert (HSu : S * u <= S) by (assert (0 <= S * (1 - u)); [apply Qmult_le_0_compat; lra|lra]).
  destruct (round2_within _ _ _ Hv) as (n & Hn & Hn1 & Hn2 & _).
  { apply (Qlt_trans _ 5000); [lra|reflexivity]. }
  destruct Hv as (_ & _ & Hv1 & Hv2).
  set (vv := SF2Q (num_add (num_mul r c) mn)) in *.
  exists (Z.of_N n). rewrite N2Z.id. split; [|split; [lia|exact Hn]].
  assert (Ha : inject_Z (2 * (klo - 1)) < inject_Z (2 * Z.of_N n)).
  { rewrite (inject_Z_mult 2 (Z.of_N n)). change (inject_Z 2) with 2. lra. }
  assert (Hb : inject_Z (2 * Z.of_N n) < inject_Z (2 * (khi + 1))).
  { rewrite (inject_Z_mult 2 (Z.of_N n)). change (inject_Z 2) with 2. lra. }
  rewrite <- Zlt_Qlt in Ha, Hb. lia.
Qed.

Local Open Scope string_scope.
Local Open Scope Z_scope.

(** ** The calendar *)

Lemma year_index r :
  0 <= r < 146097 ->
  let n100 := Z.min (r / 36524) 3 in
  let r1 := r - n100 * 36524 in
  let n4 := r1 / 1461 in
  let r2 := r1 mod 1461 in
  let n1 := Z.min (r2 / 365) 3 in
  0 <= n100 <= 3 /\ 0 <= n4 <= 24 /\ 0 <= n1 <= 3 /\
  r = 36524 * n100 + 1461 * n4 + 365 * n1 + (r2 - 365 * n1) /\
  0 <= r2 - 365 * n1 /\
  (r2 - 365 * n1 < 365 \/ (r2 - 365 * n1 = 365 /\ n1 = 3 /\ (n4 < 24 \/ n100 = 3))).
Proof.
  intros Hr n100 r1 n4 r2 n1.
  pose proof (Z.div_mod r 36524 ltac:(lia)) as H1.
  pose proof (Z.mod_pos_bound r 36524 ltac:(lia)) as H2.
  pose proof (Z.min_spec (r / 36524) 3) as H3. fold n100 in H3.
  assert (Hn100 : 0 <= n100 <= 3) by lia.
  assert (Hr1 : 0 <= r1 <= 36524) by (unfold r1; lia).
  pose proof (Z.div_mod r1 1461 ltac:(lia)) as H4. fold n4 r2 in H4.
  pose proof (Z.mod_pos_bound r1 1461 ltac:(lia)) as H5. fold r2 in H5.
  pose proof (Z.div_mod r2 365 ltac:(lia)) as H6.
  pose proof (Z.mod_pos_bound r2 365 ltac:(lia)) as H7.
  pose proof (Z.min_spec (r2 / 365) 3) as H8. fold n1 in H8.
  assert (Hn4 : 0 <= n4 <= 24) by lia.
  assert (Hn1 : 0 <= n1 <= 3) by lia.
  repeat split; lia.
Qed.

Lemma DayFromYear_index a b c e :
  0 <= b <= 3 -> 0 <= c <= 24 -> 0 <= e <= 3 ->
  DayFromYear (1601 + 400 * a + 100 * b + 4 * c + e)
  = 146097 * a + 36524 * b + 1461 * c + 365 * e - 134774.
Proof. intros. unfold DayFromYear. Z.div_mod_to_equations. lia. Qed.

Lemma DaysInYear_index a b c e :
  0 <= b <= 3 -> 0 <= c <= 24 -> 0 <= e <= 3 ->
  DaysInYear (1601 + 400 * a + 100 * b + 4 * c + e)
  = if (e =? 3) && ((c <? 24) || (b =? 3)) then 366 else 365.
Proof.
  intros Hb Hc He. unfold DaysInYear.
  set (y := 1601 + 400 * a + 100 * b + 4 * c + e).
  assert (H4 : y mod 4 = (e + 1) mod 4).
  { unfold y. replace (1601 + 400 * a + 100 * b + 4 * c + e)
      with ((e + 1) + (400 + 100 * a + 25 * b + c) * 4) by lia.
    apply Z.mod_add. lia. }
  assert (H100 : y mod 100 = (4 * c + e + 1) mod 100).
  { unfold y. replace (1601 + 400 * a + 100 * b + 4 * c + e)
      with ((4 * c + e + 1) + (16 + 4 * a + b) * 100) by lia.
    apply Z.mod_add. lia. }
  assert (H400 : y mod 400 = (100 * b + 4 * c + e + 1) mod 400).
  { unfold y. replace (1601 + 400 * a + 100 * b + 4 * c + e)
      with ((100 * b + 4 * c + e + 1) + (4 + a) * 400) by lia.
    apply Z.mod_add. lia. }
  rewrite H4, H100, H400.
  destruct (Z.eqb_spec e 3) as [E3|E3]; cbn [andb].
  - subst e. change ((3 + 1) mod 4) with 0. cbn [Z.eqb negb].
    destruct (Z.ltb_spec c 24) as [C|C]; cbn [orb].
    + replace ((4 * c + 3 + 1) mod 100 =? 0) with false; [reflexivity|].
      symmetry. apply Z.eqb_neq. rewrite Z.mod_small by lia. lia.
    + assert (c = 24) by lia. subst c. change ((4 * 24 + 3 + 1) mod 100) with 0.
      cbn [Z.eqb negb].
      destruct (Z.eqb_spec b 3) as [B|B].
      * subst b. reflexivity.
      * replace ((100 * b + 4 * 24 + 3 + 1) mod 400 =? 0) with false; [reflexivity|].
        symmetry. apply Z.eqb_neq. rewrite Z.mod_small by lia. lia.
  - replace ((e + 1) mod 4 =? 0) with false; [reflexivity|].
    symmetry. apply Z.eqb_neq. rewrite Z.mod_small by lia. lia.
Qed.

(** The year of a day, and the day's place within it. *)
Lemma YearFromDay_spec d :
  let y := YearFromDay d in
  DayFromYear y <= d /\ d - DayFromYear y < DaysInYear y /\
  (365 <= DaysInYear y <= 366).
Proof.
  unfold YearFromDay. cbv zeta.
  set (n := d + 134774).
  pose proof (Z.div_mod n 146097 ltac:(lia)) as Hn.
  pose proof (Z.mod_pos_bound n 146097 ltac:(lia)) as Hr.
  set (a := n / 146097) in *. set (r := n mod 146097) in *.
  pose proof (year_index r Hr) as H. cbv zeta in H.
  set (b := Z.min (r / 36524) 3) in *.
  set (r1 := r - b * 36524) in *.
  set (c := r1 / 1461) in *.
  set (r2 := r1 mod 1461) in *.
  set (e := Z.min (r2 / 365) 3) in *.
  destruct H as (Hb & Hc & He & Hsum & Hlo & Hhi).
  rewrite (DayFromYear_index a b c e Hb Hc He).
  rewrite (DaysInYear_index a b c e Hb Hc He).
  split; [lia|]. split.
  - destruct (Z.eqb_spec e 3) as [E|E]; cbn [andb].
    + destruct (Z.ltb_spec c 24) as [C|C]; cbn [orb]; [lia|].
      destruct (Z.eqb_spec b 3) as [B|B]; lia.
    + lia.
  - destruct ((e =? 3) && ((c <? 24) || (b =? 3))); lia.
Qed.

Lemma YearFromDay_bounds d :
  -100000000 <= d <= 100000000 -> -271821 <= YearFromDay d <= 275760.
Proof.
  intros Hd. unfold YearFromDay. cbv zeta.
  set (n := d + 134774).
  pose proof (Z.div_mod n 146097 ltac:(lia)) as Hn.
  pose proof (Z.mod_pos_bound n 146097 ltac:(lia)) as Hr.
  set (a := n / 146097) in *. set (r := n mod 146097) in *.
  pose proof (year_index r Hr) as H. cbv zeta in H.
  set (b := Z.min (r / 36524) 3) in *.
  set (r1 := r - b * 36524) in *.
  set (c := r1 / 1461) in *.
  set (r2 := r1 mod 1461) in *.
  set (e := Z.min (r2 / 365) 3) in *.
  destruct H as (Hb & Hc & He & Hsum & Hlo & Hhi).
  unfold n in Hn. lia.
Qed.

Lemma DayWithinYear_range t :
  0 <= DayWithinYear t < 365 + InLeapYear t /\ (InLeapYear t = 0 \/ InLeapYear t = 1).
Proof.
  unfold DayWithinYear, InLeapYear, YearFromTime.
  pose proof (YearFromDay_spec (Day t)) as H. cbv zeta in H.
  destruct H as (H1 & H2 & H3).
  destruct (Z.eqb_spec (DaysInYear (YearFromDay (Day t))) 366); lia.
Qed.

Lemma MonthFromTime_range t : 0 <= MonthFromTime t <= 11.
Proof.
  unfold MonthFromTime. cbv zeta.
  repeat match goal with |- context [if ?c then _ else _] => destruct c end; lia.
Qed.

Lemma DateFromTime_range t : 1 <= DateFromTime t <= 31.
Proof.
  pose proof (DayWithinYear_range t) as [Hd Hl].
  unfold DateFromTime, MonthFromTime. cbv zeta.
  set (d := DayWithinYear t) in *. set (l := InLeapYear t) in *.
  repeat match goal with
         | |- context [if ?a <? ?b then _ else _] => destruct (Z.ltb_spec a b)
         end; cbn [month_start]; lia.
Qed.

(** The day number rebuilt from the year, month and date of a time value. *)
Lemma MakeDay_fields t k :
  MakeDay (YearFromTime t) (MonthFromTime t) (DateFromTime t + k) = Day t + k.
Proof.
  pose proof (MonthFromTime_range t) as Hm.
  unfold MakeDay. cbv zeta.
  rewrite (Z.div_small (MonthFromTime t) 12) by lia.
  rewrite (Z.mod_small (MonthFromTime t) 12) by lia.
  rewrite Z.add_0_r.
  change (if DaysInYear (YearFromTime t) =? 366 then 1 else 0) with (InLeapYear t).
  unfold DateFromTime, DayWithinYear. lia.
Qed.

Lemma Day_decompose t : t = Day t * msPerDay + TimeWithinDay t.
Proof.
  unfold Day, TimeWithinDay. pose proof (Z.div_mod t msPerDay ltac:(unfold msPerDay; lia)). lia.
Qed.

Lemma Day_shift t k : Day (t + k * msPerDay) = Day t + k.
Proof. unfold Day. apply Z.div_add. unfold msPerDay. lia. Qed.

Lemma Day_exact d : Day (d * msPerDay) = d.
Proof. unfold Day. apply Z.div_mul. unfold msPerDay. lia. Qed.

Lemma TimeClip_Some t : Z.abs t <= 8640000000000000 -> TimeClip t = Some t.
Proof. intros H. unfold TimeClip. apply Z.leb_le in H. rewrite H. reflexivity. Qed.

Lemma TimeClip_inv t t' : TimeClip t = Some t' -> t' = t /\ Z.abs t <= 8640000000000000.
Proof.
  unfold TimeClip. destruct (Z.leb_spec (Z.abs t) 8640000000000000) as [Hle|Hgt]; [|discriminate].
  intros Heq. injection Heq as <-. split; [reflexivity|assumption].
Qed.

Lemma Day_range t :
  Z.abs t <= 8640000000000000 -> -100000000 <= Day t <= 100000000.
Proof.
  intros H. unfold Day, msPerDay. Z.div_mod_to_equations. lia.
Qed.

Local Open Scope string_scope.
Local Open Scope Z_scope.

(** ** Date texts *)

Lemma mod10_range x : 0 <= x mod 10 <= 9.
Proof. pose proof (Z.mod_pos_bound x 10 ltac:(lia)). lia. Qed.

Lemma digit_char_cases d :
  0 <= d <= 9 ->
  In (digit_char d) ["0"; "1"; "2"; "3"; "4"; "5"; "6"; "7"; "8"; "9"]%char.
Proof.
  intros H.
  assert (Hc : d = 0 \/ d = 1 \/ d = 2 \/ d = 3 \/ d = 4 \/ d = 5 \/ d = 6 \/ d = 7 \/ d = 8 \/ d = 9) by lia.
  repeat (destruct Hc as [->|Hc]; [cbn; tauto|]). subst d. cbn. tauto.
Qed.

Lemma is_digit_digit_char d : 0 <= d <= 9 -> is_digit (digit_char d) = true.
Proof.
  intros H.
  assert (Hc : d = 0 \/ d = 1 \/ d = 2 \/ d = 3 \/ d = 4 \/ d = 5 \/ d = 6 \/ d = 7 \/ d = 8 \/ d = 9) by lia.
  repeat (destruct Hc as [->|Hc]; [reflexivity|]). subst d. reflexivity.
Qed.

Lemma digit_value_digit_char d : 0 <= d <= 9 -> digit_value (digit_char d) = d.
Proof.
  intros H.
  assert (Hc : d = 0 \/ d = 1 \/ d = 2 \/ d = 3 \/ d = 4 \/ d = 5 \/ d = 6 \/ d = 7 \/ d = 8 \/ d = 9) by lia.
  repeat (destruct Hc as [->|Hc]; [reflexivity|]). subst d. reflexivity.
Qed.

Lemma digit_char_neq d sep :
  0 <= d <= 9 -> is_digit sep = false -> Ascii.eqb (digit_char d) sep = false.
Proof.
  intros Hd Hs. destruct (Ascii.eqb_spec (digit_char d) sep) as [E|E]; [|reflexivity].
  rewrite <- E, is_digit_digit_char in Hs by exact Hd. discriminate.
Qed.

Lemma avoids_app sep a b : avoids sep (a ++ b) = avoids sep a && avoids sep b.
Proof.
  induction a as [|c a IH]; cbn [append avoids]; [reflexivity|].
  rewrite IH, andb_assoc. reflexivity.
Qed.

Lemma avoids_fixed_width sep w n :
  is_digit sep = false -> avoids sep (fixed_width w n) = true.
Proof.
  intros Hs. induction w as [|w IH]; cbn [fixed_width avoids]; [reflexivity|].
  rewrite IH, digit_char_neq; [reflexivity| |exact Hs].
  apply mod10_range.
Qed.

Lemma split_first_avoids sep a b :
  avoids sep a = true -> split_first sep (a ++ String sep b) = a.
Proof.
  induction a as [|c a IH]; cbn [append avoids split_first]; intros H.
  - rewrite Ascii.eqb_refl. reflexivity.
  - apply andb_true_iff in H. destruct H as [Hc Ha]. apply negb_true_iff in Hc.
    rewrite Hc, IH by exact Ha. reflexivity.
Qed.

Lemma avoids_year_text sep y :
  is_digit sep = false -> sep <> "-"%char -> sep <> "+"%char ->
  avoids sep (year_text y) = true.
Proof.
  intros Hd Hm Hp. unfold year_text.
  destruct ((0 <=? y) && (y <=? 9999)).
  - apply avoids_fixed_width. exact Hd.
  - cbn [avoids]. rewrite avoids_fixed_width by exact Hd.
    destruct (y <? 0).
    + destruct (Ascii.eqb_spec "-"%char sep) as [E|E]; [congruence|reflexivity].
    + destruct (Ascii.eqb_spec "+"%char sep) as [E|E]; [congruence|reflexivity].
Qed.

Lemma avoids_date_text sep t :
  is_digit sep = false -> sep <> "-"%char -> sep <> "+"%char ->
  avoids sep (date_text t) = true.
Proof.
  intros Hd Hm Hp. unfold date_text.
  rewrite !avoids_app, avoids_year_text, !avoids_fixed_width by assumption.
  cbn [avoids]. destruct (Ascii.eqb_spec "-"%char sep) as [E|E]; [congruence|reflexivity].
Qed.

Lemma formatDate_Some t : formatDate (Some t) = Return (date_text t).
Proof.
  unfold formatDate, toISOString. f_equal.
  apply split_first_avoids. apply avoids_date_text; [reflexivity|discriminate|discriminate].
Qed.

Lemma formatDate_inv d s : formatDate d = Return s -> exists t, d = Some t /\ s = date_text t.
Proof.
  destruct d as [t|]; [|discriminate]. rewrite formatDate_Some. intros H.
  injection H as <-. exists t. split; reflexivity.
Qed.

(** Reading back two, four and six digits. *)
Lemma fixed_width_2 n :
  fixed_width 2 n = String (digit_char ((n / 10) mod 10)) (String (digit_char ((n / 1) mod 10)) "").
Proof. reflexivity. Qed.

Lemma fixed_width_4 n :
  fixed_width 4 n =
  String (digit_char ((n / 1000) mod 10)) (String (digit_char ((n / 100) mod 10))
    (String (digit_char ((n / 10) mod 10)) (String (digit_char ((n / 1) mod 10)) ""))).
Proof. reflexivity. Qed.

Lemma fixed_width_6 n :
  fixed_width 6 n =
  String (digit_char ((n / 100000) mod 10)) (String (digit_char ((n / 10000) mod 10))
    (String (digit_char ((n / 1000) mod 10)) (String (digit_char ((n / 100) mod 10))
      (String (digit_char ((n / 10) mod 10)) (String (digit_char ((n / 1) mod 10)) ""))))).
Proof. reflexivity. Qed.

Lemma parse_digits_step acc d s :
  0 <= d <= 9 ->
  parse_digits acc (String (digit_char d) s) = parse_digits (10 * acc + d) s.
Proof.
  intros H. cbn [parse_digits]. rewrite is_digit_digit_char, digit_value_digit_char by exact H.
  reflexivity.
Qed.

Lemma parse_fixed_width_2 n : 0 <= n <= 99 -> parse_digits 0 (fixed_width 2 n) = Some n.
Proof.
  intros H. rewrite fixed_width_2, !parse_digits_step by apply mod10_range.
  cbn [parse_digits]. f_equal. Z.div_mod_to_equations. lia.
Qed.

Lemma parse_fixed_width_4 n : 0 <= n <= 9999 -> parse_digits 0 (fixed_width 4 n) = Some n.
Proof.
  intros H. rewrite fixed_width_4, !parse_digits_step by apply mod10_range.
  cbn [parse_digits]. f_equal. Z.div_mod_to_equations. lia.
Qed.

Lemma parse_fixed_width_6 n : 0 <= n <= 999999 -> parse_digits 0 (fixed_width 6 n) = Some n.
Proof.
  intros H. rewrite fixed_width_6, !parse_digits_step by apply mod10_range.
  cbn [parse_digits]. f_equal. Z.div_mod_to_equations. lia.
Qed.

Lemma length_fixed_width w n : String.length (fixed_width w n) = w.
Proof. induction w as [|w IH]; cbn [fixed_width String.length]; [reflexivity|]. rewrite IH. reflexivity. Qed.

Lemma parse_date_only_plain a b c :
  String.length a = 4%nat -> String.length b = 2%nat -> String.length c = 2%nat ->
  parse_date_only (a ++ "-" ++ b ++ "-" ++ c) =
  match parse_digits 0 a, parse_digits 0 b, parse_digits 0 c with
  | Some y, Some m, Some d => ymd_time y m d
  | _, _, _ => None
  end.
Proof.
  intros Ha Hb Hc.
  destruct a as [|a1 [|a2 [|a3 [|a4 [|a5 a]]]]]; try discriminate.
  destruct b as [|b1 [|b2 [|b3 b]]]; try discriminate.
  destruct c as [|c1 [|c2 [|c3 c]]]; try discriminate.
  reflexivity.
Qed.

Lemma parse_date_only_plus a b c :
  String.length a = 6%nat -> String.length b = 2%nat -> String.length c = 2%nat ->
  parse_date_only (String "+" a ++ "-" ++ b ++ "-" ++ c) =
  match parse_digits 0 a, parse_digits 0 b, parse_digits 0 c with
  | Some y, Some m, Some d => ymd_time y m d
  | _, _, _ => None
  end.
Proof.
  intros Ha Hb Hc.
  destruct a as [|a1 [|a2 [|a3 [|a4 [|a5 [|a6 [|a7 a]]]]]]]; try discriminate.
  destruct b as [|b1 [|b2 [|b3 b]]]; try discriminate.
  destruct c as [|c1 [|c2 [|c3 c]]]; try discriminate.
  reflexivity.
Qed.

Lemma parse_date_only_minus a b c :
  String.length a = 6%nat -> String.length b = 2%nat -> String.length c = 2%nat ->
  parse_date_only (String "-" a ++ "-" ++ b ++ "-" ++ c) =
  match parse_digits 0 a, parse_digits 0 b, parse_digits 0 c with
  | Some y, Some m, Some d => if y =? 0 then None else ymd_time (- y) m d
  | _, _, _ => None
  end.
Proof.
  intros Ha Hb Hc.
  destruct a as [|a1 [|a2 [|a3 [|a4 [|a5 [|a6 [|a7 a]]]]]]]; try discriminate.
  destruct b as [|b1 [|b2 [|b3 b]]]; try discriminate.
  destruct c as [|c1 [|c2 [|c3 c]]]; try discriminate.
  reflexivity.
Qed.

Lemma ymd_time_fields t :
  ymd_time (YearFromTime t) (MonthFromTime t + 1) (DateFromTime t) = Some (Day t * msPerDay).
Proof.
  pose proof (MonthFromTime_range t) as Hm. pose proof (DateFromTime_range t) as Hd.
  unfold ymd_time.
  replace ((1 <=? MonthFromTime t + 1) && (MonthFromTime t + 1 <=? 12)
           && (1 <=? DateFromTime t) && (DateFromTime t <=? 31)) with true.
  - replace (MonthFromTime t + 1 - 1) with (MonthFromTime t) by lia.
    pose proof (MakeDay_fields t 0) as H. rewrite !Z.add_0_r in H. rewrite H.
    unfold MakeDate. f_equal. lia.
  - symmetry. rewrite !andb_true_iff, !Z.leb_le. lia.
Qed.

(** A date text reads back as the start of its day. *)
Lemma parse_date_text t :
  Z.abs t <= 8640000000000000 ->
  parse_date_only (date_text t) = Some (Day t * msPerDay).
Proof.
  intros Ht. pose proof (Day_range t Ht) as Hday.
  pose proof (YearFromDay_bounds (Day t) Hday) as Hy. fold (YearFromTime t) in Hy.
  pose proof (MonthFromTime_range t) as Hm. pose proof (DateFromTime_range t) as Hd.
  unfold date_text, year_text.
  destruct (Z.leb_spec 0 (YearFromTime t)) as [H0|H0];
    [destruct (Z.leb_spec (YearFromTime t) 9999) as [H1|H1]|]; cbn [andb].
  - rewrite parse_date_only_plain by apply length_fixed_width.
    rewrite parse_fixed_width_4, !parse_fixed_width_2 by lia.
    apply ymd_time_fields.
  - destruct (Z.ltb_spec (YearFromTime t) 0) as [Hn|Hn]; [lia|].
    rewrite parse_date_only_plus by apply length_fixed_width.
    rewrite parse_fixed_width_6, !parse_fixed_width_2 by lia.
    rewrite Z.abs_eq by lia. apply ymd_time_fields.
  - destruct (Z.ltb_spec (YearFromTime t) 0) as [Hn|Hn]; [|lia].
    rewrite parse_date_only_minus by apply length_fixed_width.
    rewrite parse_fixed_width_6, !parse_fixed_width_2 by lia.
    destruct (Z.eqb_spec (Z.abs (YearFromTime t)) 0) as [E|E]; [lia|].
    replace (- Z.abs (YearFromTime t)) with (YearFromTime t) by lia.
    apply ymd_time_fields.
Qed.

Lemma Day_msPerDay_clip t :
  Z.abs t <= 8640000000000000 -> Z.abs (Day t * msPerDay) <= 8640000000000000.
Proof. intros H. unfold Day, msPerDay. Z.div_mod_to_equations. lia. Qed.

Lemma Date_parse_date_text h t :
  Z.abs t <= 8640000000000000 ->
  Date_parse h (date_text t) = Some (Day t * msPerDay).
Proof.
  intros Ht. unfold Date_parse. rewrite parse_date_text by exact Ht.
  apply TimeClip_Some. apply Day_msPerDay_clip. exact Ht.
Qed.

(** ** Adding days *)

Lemma addDays_Some h t k :
  fixed_offset h -> 0 <= k < 2 ^ 31 ->
  addDays h (Some t) (ofZ k) = TimeClip (t + k * msPerDay).
Proof.
  intros Hfix Hk. unfold addDays, getDate, setDate, LocalTime, UTC.
  set (c := host_localTZA h t true).
  pose proof (DateFromTime_range (t + c)) as Hd.
  rewrite num_add_nonneg_int by lia.
  destruct (ofZ_spec (DateFromTime (t + c) + k) ltac:(lia)) as ([Hv Hf] & Hval & _).
  rewrite Hf. rewrite (truncZ_int _ (DateFromTime (t + c) + k) Hf Hval).
  rewrite MakeDay_fields. rewrite (Hfix _ t _ true). fold c.
  unfold MakeDate. f_equal.
  pose proof (Day_decompose (t + c)). lia.
Qed.

Lemma addDays_None h x : addDays h None x = None.
Proof. reflexivity. Qed.

Local Open Scope list_scope.
Local Open Scope string_scope.
Local Open Scope Z_scope.

(** ** Distinct entries *)

Lemma string_mem_In x l : string_mem x l = true <-> In x l.
Proof.
  induction l as [|y l IH]; cbn [string_mem In].
  - split; [discriminate|tauto].
  - rewrite orb_true_iff, IH, String.eqb_eq. split; intros [H|H]; auto.
Qed.

Lemma dedupe_from_In seen l x :
  In x (dedupe_from seen l) <-> In x l /\ ~ In x seen.
Proof.
  revert seen. induction l as [|y l IH]; intros seen; cbn [dedupe_from In].
  - tauto.
  - destruct (string_mem y seen) eqn:Hm.
    + apply string_mem_In in Hm. rewrite IH. split.
      * intros [H1 H2]. auto.
      * intros [[->|H1] H2]; [contradiction|auto].
    + assert (Hn : ~ In y seen) by (rewrite <- string_mem_In, Hm; discriminate).
      cbn [In]. rewrite IH. cbn [In]. split.
      * intros [->|[H1 H2]]; [auto|]. split; [auto|]. intro; apply H2; auto.
      * intros [[->|H1] H2]; [auto|].
        destruct (string_dec y x) as [->|Hne]; [auto|]. right. split; [exact H1|].
        intros [E|E]; [exact (Hne E)|exact (H2 E)].
Qed.

Lemma dedupe_from_NoDup seen l : NoDup (dedupe_from seen l).
Proof.
  revert seen. induction l as [|y l IH]; intros seen; cbn [dedupe_from].
  - constructor.
  - destruct (string_mem y seen); [apply IH|].
    constructor; [|apply IH]. rewrite dedupe_from_In. cbn [In]. tauto.
Qed.

Lemma dedupe_In l x : In x (dedupe l) <-> In x l.
Proof. unfold dedupe. rewrite dedupe_from_In. cbn [In]. tauto. Qed.

Lemma dedupe_NoDup l : NoDup (dedupe l).
Proof. apply dedupe_from_NoDup. Qed.

(** ** Order of texts *)

Lemma localeCompare_refl a : localeCompare a a = Eq.
Proof.
  induction a as [|c a IH]; cbn [localeCompare]; [reflexivity|].
  rewrite N.compare_refl. exact IH.
Qed.

Lemma localeCompare_antisym a : forall b, localeCompare b a = CompOpp (localeCompare a b).
Proof.
  induction a as [|x a IH]; intros [|y b]; cbn [localeCompare CompOpp]; try reflexivity.
  rewrite (N.compare_antisym (collation_weight y) (collation_weight x)).
  destruct (collation_weight y ?= collation_weight x)%N; cbn [CompOpp]; try reflexivity.
  apply IH.
Qed.

Lemma collation_le_trans a b c : collation_le a b -> collation_le b c -> collation_le a c.
Proof.
  unfold collation_le. revert b c.
  induction a as [|x a IH]; intros [|y b] [|z c]; cbn [localeCompare];
    try congruence; try discriminate.
  destruct (collation_weight x ?= collation_weight y)%N eqn:Hxy; [| |congruence].
  - apply N.compare_eq_iff in Hxy. rewrite Hxy.
    destruct (collation_weight y ?= collation_weight z)%N eqn:Hyz; [apply IH| |]; congruence.
  - destruct (collation_weight y ?= collation_weight z)%N eqn:Hyz; [| |congruence]; intros _ _.
    + apply N.compare_eq_iff in Hyz. rewrite <- Hyz, Hxy. discriminate.
    + rewrite N.compare_lt_iff in Hxy, Hyz.
      assert (Hxz : (collation_weight x ?= collation_weight z)%N = Lt)
        by (apply N.compare_lt_iff; lia).
      rewrite Hxz. discriminate.
Qed.

Lemma collation_le_total a b : ~ collation_le a b -> collation_le b a.
Proof.
  unfold collation_le. rewrite (localeCompare_antisym a b).
  destruct (localeCompare a b); cbn [CompOpp]; intros H; try discriminate.
  exfalso. apply H. discriminate.
Qed.

Lemma row_le_spec a b : row_le a b = true <-> collation_le (row_key a) (row_key b).
Proof.
  unfold row_le, collation_le, row_key.
  destruct (localeCompare (split_first ";" a) (split_first ";" b));
    split; congruence || discriminate.
Qed.

Lemma row_le_false a b :
  row_le a b = false -> collation_le (row_key b) (row_key a) /\ row_key a <> row_key b.
Proof.
  intros H. split.
  - apply collation_le_total. rewrite <- row_le_spec, H. discriminate.
  - intros E. assert (row_le a b = true); [|congruence].
    apply row_le_spec. unfold collation_le. rewrite E, localeCompare_refl. discriminate.
Qed.

(** On texts of digits and hyphens the collation is the order of the code
    units. *)
Lemma code_N c : N.of_nat (code c) = N_of_ascii c.
Proof. unfold code, nat_of_ascii. apply Nnat.N2Nat.id. Qed.

Lemma plain_weight_compare x y :
  (is_digit x || Ascii.eqb x "-") = true -> (is_digit y || Ascii.eqb y "-") = true ->
  (collation_weight x ?= collation_weight y)%N = Ascii.compare x y.
Proof.
  assert (Hw : forall c, (is_digit c || Ascii.eqb c "-") = true ->
             (Ascii.eqb c "-" = true /\ collation_weight c = 0%N /\ N_of_ascii c = 45%N) \/
             (collation_weight c = (N_of_ascii c - 46)%N /\ (48 <= N_of_ascii c)%N)).
  { intros c Hc. destruct (Ascii.eqb_spec c "-") as [E|Hne].
    - subst c. left. repeat split.
    - right. rewrite orb_false_r in Hc. unfold collation_weight.
      destruct (Ascii.eqb_spec c "-") as [E|_]; [contradiction|].
      destruct (Ascii.eqb_spec c "+") as [E|_]; [subst c; discriminate Hc|].
      rewrite Hc, code_N. split; [reflexivity|].
      unfold is_digit in Hc. apply andb_true_iff in Hc. destruct Hc as [Hc _].
      apply Nat.leb_le in Hc. rewrite <- code_N. lia. }
  intros Hx Hy. unfold Ascii.compare.
  destruct (Hw x Hx) as [(_ & Wx & Cx)|(Wx & Cx)];
    destruct (Hw y Hy) as [(_ & Wy & Cy)|(Wy & Cy)]; rewrite Wx, Wy.
  - rewrite Cx, Cy. reflexivity.
  - rewrite Cx. transitivity Lt; [|symmetry]; apply N.compare_lt_iff; lia.
  - rewrite Cy. transitivity Gt; [|symmetry]; apply N.compare_gt_iff; lia.
  - destruct (N.compare_spec (N_of_ascii x) (N_of_ascii y)) as [E|E|E].
    + rewrite E. apply N.compare_refl.
    + apply N.compare_lt_iff. lia.
    + apply N.compare_gt_iff. lia.
Qed.

Lemma localeCompare_plain a :
  forall b, plain_text a = true -> plain_text b = true ->
            localeCompare a b = String.compare a b.
Proof.
  induction a as [|x a IH]; intros [|y b] Ha Hb; cbn [localeCompare String.compare];
    try reflexivity.
  cbn [plain_text] in Ha, Hb.
  apply andb_true_iff in Ha. destruct Ha as [Hx Ha].
  apply andb_true_iff in Hb. destruct Hb as [Hy Hb].
  rewrite (plain_weight_compare x y Hx Hy).
  destruct (Ascii.compare x y); try reflexivity. exact (IH b Ha Hb).
Qed.

Lemma plain_text_app a b : plain_text (a ++ b) = plain_text a && plain_text b.
Proof.
  induction a as [|c a IH]; cbn [append plain_text]; [reflexivity|].
  rewrite IH. apply andb_assoc.
Qed.

Lemma plain_fixed_width w n : plain_text (fixed_width w n) = true.
Proof.
  induction w as [|w IH]; cbn [fixed_width plain_text]; [reflexivity|].
  rewrite IH, is_digit_digit_char by apply mod10_range. reflexivity.
Qed.

Lemma length_app_string a b :
  String.length (a ++ b) = (String.length a + String.length b)%nat.
Proof. induction a as [|c a IH]; cbn [append String.length]; [reflexivity|]. rewrite IH. reflexivity. Qed.

(** A date text of ten characters is made of digits and hyphens. *)
Lemma plain_date_text t : fixed_width_date (date_text t) -> plain_text (date_text t) = true.
Proof.
  unfold fixed_width_date, date_text, year_text. intros Hlen.
  destruct ((0 <=? YearFromTime t) && (YearFromTime t <=? 9999)).
  - rewrite !plain_text_app, !plain_fixed_width. reflexivity.
  - exfalso. cbn [append String.length] in Hlen.
    rewrite !length_app_string, !length_fixed_width in Hlen.
    cbn [String.length] in Hlen.
    rewrite ?length_app_string, ?length_fixed_width in Hlen.
    cbn [String.length] in Hlen. rewrite ?length_fixed_width in Hlen. lia.
Qed.

(** ** The stable sort *)

Lemma insert_row_perm le x l : Permutation (insert_row le x l) (x :: l).
Proof.
  induction l as [|y l IH]; cbn [insert_row]; [reflexivity|].
  destruct (le x y); [reflexivity|].
  rewrite IH. apply perm_swap.
Qed.

Lemma sort_rows_perm le l : Permutation (sort_rows le l) l.
Proof.
  induction l as [|x l IH]; cbn [sort_rows]; [reflexivity|].
  rewrite insert_row_perm. constructor. exact IH.
Qed.

Lemma sort_rows_length le l : List.length (sort_rows le l) = List.length l.
Proof. apply Permutation_length, sort_rows_perm. Qed.

Lemma insert_row_sorted x l :
  StronglySorted rows_collated l -> StronglySorted rows_collated (insert_row row_le x l).
Proof.
  induction 1 as [|y l Hs IH Hall]; cbn [insert_row].
  - constructor; constructor.
  - destruct (row_le x y) eqn:Hxy.
    + apply row_le_spec in Hxy. constructor; [constructor; assumption|].
      constructor; [exact Hxy|].
      eapply Forall_impl; [|exact Hall]. intros z Hz. exact (collation_le_trans _ _ _ Hxy Hz).
    + apply row_le_false in Hxy. constructor; [exact IH|].
      apply (Permutation_Forall (x := x :: l)); [symmetry; apply insert_row_perm|].
      constructor; [exact (proj1 Hxy)|exact Hall].
Qed.

Lemma sort_rows_sorted l : StronglySorted rows_collated (sort_rows row_le l).
Proof.
  induction l as [|x l IH]; cbn [sort_rows]; [constructor|].
  apply insert_row_sorted. exact IH.
Qed.

Lemma insert_row_dated d x l :
  rows_dated d (insert_row row_le x l) = rows_dated d (x :: l).
Proof.
  unfold rows_dated. induction l as [|y l IH]; cbn [insert_row]; [reflexivity|].
  destruct (row_le x y) eqn:Hxy; [reflexivity|].
  apply row_le_false in Hxy. destruct Hxy as [_ Hne].
  cbn [filter] in *. rewrite IH.
  destruct (String.eqb_spec (row_key x) d) as [Ex|Ex];
    destruct (String.eqb_spec (row_key y) d) as [Ey|Ey]; try reflexivity.
  congruence.
Qed.

Lemma sort_rows_dated d l : rows_dated d (sort_rows row_le l) = rows_dated d l.
Proof.
  induction l as [|x l IH]; cbn [sort_rows]; [reflexivity|].
  rewrite insert_row_dated. unfold rows_dated in *. cbn [filter]. rewrite IH. reflexivity.
Qed.

Local Open Scope Z_scope.
Local Open Scope Q_scope.

(** ** Comparison of numbers of positive sign *)

Lemma num_lt_pos x y :
  finite64 x -> finite64 y -> sgn x = false -> sgn y = false ->
  SF2Q x < SF2Q y -> num_lt x y = true.
Proof.
  intros [Hvx Hfx] [Hvy Hfy] Hsx Hsy Hlt.
  destruct x as [sx|sx| |sx mx ex]; try discriminate;
  destruct y as [sy|sy| |sy my ey]; try discriminate;
  cbn [sgn] in Hsx, Hsy; subst; unfold SF2Q in Hlt; cbn [sgn mag] in Hlt.
  - exfalso. lra.
  - reflexivity.
  - exfalso. pose proof (mag_pos_finite false mx ex) as H. cbn [mag] in H. lra.
  - unfold num_lt, SFltb. cbn [SFcompare].
    cbn [valid_binary] in Hvx, Hvy.
    destruct (bounded_canonical _ _ Hvx) as [Hc1 _].
    destruct (bounded_canonical _ _ Hvy) as [Hc2 _].
    rewrite fexp_eq in Hc1, Hc2.
    change (Zpos (digits2_pos mx)) with (Zdigits2 (Zpos mx)) in Hc1.
    change (Zpos (digits2_pos my)) with (Zdigits2 (Zpos my)) in Hc2.
    destruct (mantissa_binade mx ex) as [Ha1 Ha2].
    destruct (mantissa_binade my ey) as [Hb1 Hb2].
    destruct (Z.compare_spec ex ey) as [E|E|E].
    + subst ey. pose proof (pow2Q_pos ex) as Hp.
      assert (Hm : inject_Z (Zpos mx) < inject_Z (Zpos my)).
      { apply Qnot_le_lt. intros Hc.
        assert (inject_Z (Zpos my) * 2 ^ ex <= inject_Z (Zpos mx) * 2 ^ ex)
          by (apply Qmult_le_compat_r; lra). lra. }
      rewrite <- Zlt_Qlt in Hm.
      change (Pos.compare_cont Eq mx my) with (Pos.compare mx my).
      apply Pos2Z.pos_lt_pos in Hm. rewrite (proj2 (Pos.compare_lt_iff mx my) Hm). reflexivity.
    + reflexivity.
    + exfalso.
      assert (Hle : (Zdigits2 (Zpos my) + ey <= Zdigits2 (Zpos mx) + ex - 1)%Z) by lia.
      pose proof (pow2Q_le _ _ Hle). lra.
Qed.

(** ** Amounts: absolute error *)

Lemma tol_scale X : 0 <= X -> X <= 10000000000 -> X * u + eta <= tol.
Proof.
  intros H0 H1. pose proof u_pos as Hu.
  assert (H2 : X * u <= 10000000000 * u) by (apply Qmult_le_compat_r; lra).
  assert (H3 : 10000000000 * u + eta <= tol) by qle.
  lra.
Qed.

Lemma tol_pos : 0 < tol.
Proof. reflexivity. Qed.

Lemma mul_abs a b c d x y :
  within a b x -> within c d y -> 0 <= a -> 0 <= c -> b * d <= 10000000000 ->
  within (a * c - tol) (b * d + tol) (num_mul x y).
Proof.
  intros Hx Hy Ha Hc Hbd.
  assert (Hab : a <= b) by (destruct Hx as (_ & _ & ? & ?); lra).
  assert (Hcd : c <= d) by (destruct Hy as (_ & _ & ? & ?); lra).
  destruct (Qmult_interval a b c d a c Ha Hc (Qle_refl a) Hab (Qle_refl c) Hcd) as [_ Hpr].
  assert (HP0 : 0 <= a * c) by (apply Qmult_le_0_compat; assumption).
  pose proof (tol_scale (a * c) HP0 ltac:(lra)) as H1.
  pose proof (tol_scale (b * d) ltac:(lra) Hbd) as H2.
  apply (mul_within a b c d); try assumption.
  - apply (Qle_lt_trans _ 10000000000); [exact Hbd|reflexivity].
  - assert (E : a * c * (1 - u) - eta == a * c - (a * c * u + eta)) by ring.
    rewrite E. lra.
  - assert (E : b * d * (1 + u) + eta == b * d + (b * d * u + eta)) by ring.
    rewrite E. lra.
Qed.

Lemma add_abs a b c d x y :
  within a b x -> within c d y -> 0 <= a -> 0 <= c -> b + d <= 10000000000 ->
  within (a + c - tol) (b + d + tol) (num_add x y).
Proof.
  intros Hx Hy Ha Hc Hbd.
  assert (Hab : a <= b) by (destruct Hx as (_ & _ & ? & ?); lra).
  assert (Hcd : c <= d) by (destruct Hy as (_ & _ & ? & ?); lra).
  pose proof (tol_scale (a + c) ltac:(lra) ltac:(lra)) as H1.
  pose proof (tol_scale (b + d) ltac:(lra) Hbd) as H2.
  apply (add_within a b c d); try assumption.
  - apply (Qle_lt_trans _ 10000000000); [exact Hbd|reflexivity].
  - assert (E : (a + c) * (1 - u) - eta == a + c - ((a + c) * u + eta)) by ring.
    rewrite E. lra.
  - assert (E : (b + d) * (1 + u) + eta == b + d + ((b + d) * u + eta)) by ring.
    rewrite E. lra.
Qed.

Lemma div100_abs a b x :
  within a b x -> (SF2Q x == 0 \/ 2 ^ (-900) <= a) -> 0 <= a -> b <= 10000000000 ->
  within (a / 100 - tol) (b / 100 + tol) (num_div x (ofZ 100)).
Proof.
  intros Hx Hz Ha Hb.
  assert (Hab : a <= b) by (destruct Hx as (_ & _ & ? & ?); lra).
  assert (Ea : a / 100 == a * (1 # 100)) by (field).
  assert (Eb : b / 100 == b * (1 # 100)) by (field).
  pose proof (tol_scale (a / 100) ltac:(lra) ltac:(lra)) as H1.
  pose proof (tol_scale (b / 100) ltac:(lra) ltac:(lra)) as H2.
  apply (div100_within a b); try assumption.
  - apply (Qle_lt_trans _ 10000000000); [exact Hb|reflexivity].
  - assert (E : a / 100 * (1 - u) - eta == a / 100 - (a / 100 * u + eta)) by ring.
    rewrite E. lra.
  - assert (E : b / 100 * (1 + u) + eta == b / 100 + (b / 100 * u + eta)) by ring.
    rewrite E. lra.
Qed.

Lemma cents_within n :
  (0 <= n <= 10 ^ 12)%Z ->
  within (inject_Z n / 100 - tol) (inject_Z n / 100 + tol) (cents n).
Proof.
  intros Hn. unfold cents. pose proof tol_pos as Ht.
  destruct n as [|p|p]; [| |lia].
  - cbn [Z.to_N]. rewrite of_decimal_2_zero. split; [split; reflexivity|]. split; [reflexivity|].
    rewrite SF2Q_zero. change (inject_Z 0 / 100) with (0 # 100).
    setoid_replace (0 # 100) with 0 by reflexivity. split; lra.
  - cbn [Z.to_N].
    assert (Hq : inject_Z (Zpos p) <= 1000000000000).
    { change 1000000000000 with (inject_Z (10 ^ 12)). rewrite <- Zle_Qle. lia. }
    assert (Hq0 : 0 < inject_Z (Zpos p)) by reflexivity.
    assert (Hp : inject_Z (Zpos p) < 2 ^ 1000).
    { apply (Qle_lt_trans _ 1000000000000); [exact Hq|reflexivity]. }
    destruct (of_decimal_2_rounds p Hp) as [Hr Hs].
    assert (E : inject_Z (Zpos p) / 100 == inject_Z (Zpos p) * (1 # 100)) by field.
    assert (HX0 : 0 <= inject_Z (Zpos p) / 100) by lra.
    destruct (rounds_bounds _ _ Hr HX0) as [Hb1 Hb2].
    pose proof (tol_scale (inject_Z (Zpos p) / 100) HX0 ltac:(lra)) as H1.
    split; [exact (rounds_finite _ _ Hr)|]. split; [exact Hs|].
    set (X := inject_Z (Zpos p) / 100) in *.
    assert (E1 : X * (1 - u) - eta == X - (X * u + eta)) by ring.
    assert (E2 : X * (1 + u) + eta == X + (X * u + eta)) by ring.
    rewrite E1 in Hb1. rewrite E2 in Hb2. split; lra.
Qed.

(** [parseFloat(x.toFixed(2))] on an amount: the nearest number of cents. *)
Lemma round2_abs lo hi x :
  within lo hi x -> 0 <= lo -> hi <= 10000000000 - 1 ->
  exists n : Z, (0 <= n <= 10 ^ 12)%Z /\
    parseFloat (toFixed x 2) = cents n /\
    2 * inject_Z n - 1 <= 200 * SF2Q x /\ 200 * SF2Q x < 2 * inject_Z n + 1 /\
    within (inject_Z n / 100 - tol) (inject_Z n / 100 + tol) (cents n).
Proof.
  intros Hw Hlo Hhi.
  destruct (round2_within lo hi x Hw) as (n & Hn & Hn1 & Hn2 & _).
  { apply (Qle_lt_trans _ (10000000000 - 1)); [exact Hhi|reflexivity]. }
  destruct Hw as (_ & _ & Hx1 & Hx2).
  assert (Hnz : (0 <= Z.of_N n <= 10 ^ 12)%Z).
  { split; [lia|].
    assert (H : inject_Z (2 * Z.of_N n) < inject_Z (2 * 10 ^ 12 + 1)).
    { rewrite (inject_Z_mult 2 (Z.of_N n)). change (inject_Z 2) with 2.
      change (inject_Z (2 * 10 ^ 12 + 1)) with 2000000000001. lra. }
    rewrite <- Zlt_Qlt in H. lia. }
  exists (Z.of_N n). split; [exact Hnz|].
  unfold cents at 1. rewrite N2Z.id. split; [exact Hn|].
  split; [exact Hn1|]. split; [exact Hn2|]. apply cents_within. exact Hnz.
Qed.

Local Open Scope list_scope.
Local Open Scope Z_scope.

(** ** Computations that draw *)

Lemma bind_Return {A B : Type} (g : Gen A) (k : A -> Gen B) n a n' :
  g n = Return (a, n') -> bind g k n = k a n'.
Proof. intros H. unfold bind. rewrite H. reflexivity. Qed.

Lemma bind_inv {A B : Type} (g : Gen A) (k : A -> Gen B) n r :
  bind g k n = Return r -> exists a n', g n = Return (a, n') /\ k a n' = Return r.
Proof.
  unfold bind. destruct (g n) as [[a n']|e|]; [|discriminate|discriminate].
  intros H. exists a, n'. split; [reflexivity|exact H].
Qed.

Lemma lift_inv {A : Type} (o : Outcome A) n r :
  lift o n = Return r -> exists a, o = Return a /\ r = (a, n).
Proof.
  unfold lift. destruct o as [a|e|]; [|discriminate|discriminate].
  intros H. injection H as <-. exists a. split; reflexivity.
Qed.

Lemma repeatM_spec {A : Type} (P : A -> Prop) (g : Gen A) :
  (forall n, exists a n', g n = Return (a, n') /\ P a) ->
  forall k n, exists l n', repeatM k g n = Return (l, n') /\ Forall P l /\ List.length l = k.
Proof.
  intros Hg. induction k as [|k IH]; intros n; cbn [repeatM].
  - exists [], n. split; [reflexivity|]. split; [constructor|reflexivity].
  - destruct (Hg n) as (a & n1 & Ha & HP). destruct (IH n1) as (l & n2 & Hl & HF & Hlen).
    exists (a :: l), n2. rewrite (bind_Return _ _ _ _ _ Ha), (bind_Return _ _ _ _ _ Hl).
    split; [reflexivity|]. split; [constructor; assumption|]. cbn [List.length]. congruence.
Qed.

Lemma mapM_spec {A B : Type} (Q : A -> Prop) (P : B -> Prop) (f : A -> Gen B) :
  (forall a, Q a -> forall n, exists b n', f a n = Return (b, n') /\ P b) ->
  forall l, Forall Q l ->
  forall n, exists bs n', mapM f l n = Return (bs, n') /\ Forall P bs /\
                          List.length bs = List.length l.
Proof.
  intros Hf. induction 1 as [|a l Ha Hl IH]; intros n; cbn [mapM].
  - exists [], n. split; [reflexivity|]. split; [constructor|reflexivity].
  - destruct (Hf a Ha n) as (b & n1 & Hb & HP). destruct (IH n1) as (bs & n2 & Hbs & HF & Hlen).
    exists (b :: bs), n2. rewrite (bind_Return _ _ _ _ _ Hb), (bind_Return _ _ _ _ _ Hbs).
    split; [reflexivity|]. split; [constructor; assumption|]. cbn [List.length]. congruence.
Qed.

Lemma mapM_inv {A B : Type} (P : A -> B -> Prop) (f : A -> Gen B) :
  (forall a n b n', f a n = Return (b, n') -> P a b) ->
  forall l n bs n', mapM f l n = Return (bs, n') -> Forall2 P l bs.
Proof.
  intros Hf. induction l as [|a l IH]; intros n bs n' H; cbn [mapM] in H.
  - injection H as <- _. constructor.
  - apply bind_inv in H. destruct H as (b & n1 & Hb & H).
    apply bind_inv in H. destruct H as (bs' & n2 & Hbs & H).
    injection H as <- _. constructor; [exact (Hf _ _ _ _ Hb)|exact (IH _ _ _ Hbs)].
Qed.

Lemma arrayElement_spec h {A : Type} (x : A) (l : list A) n :
  exists y, arrayElement h (x :: l) n = Return (y, S n) /\ In y (x :: l).
Proof.
  unfold arrayElement. eexists. split; [reflexivity|].
  apply nth_In. apply Nat.mod_upper_bound. discriminate.
Qed.

Lemma faker_int_spec h lo hi n :
  lo <= hi -> exists z, lo <= z <= hi /\ faker_int h lo hi n = Return (z, S n).
Proof.
  intros H. unfold faker_int. eexists. split; [|reflexivity].
  pose proof (Z.mod_pos_bound (Z.of_nat (host_fakerNat h n)) (hi - lo + 1) ltac:(lia)). lia.
Qed.

(** ** Products *)

Lemma PRODUCTS_ok : Forall product_ok PRODUCTS.
Proof.
  unfold PRODUCTS.
  repeat (constructor; [eexists; split; [|reflexivity]; lia|]). constructor.
Qed.

Lemma product_text_total h c n : exists s n', product_text h c n = Return (s, n').
Proof.
  unfold product_text.
  repeat match goal with |- context [if ?b then _ else _] => destruct b end;
    eexists; eexists; reflexivity.
Qed.

Lemma generateProduct_spec h n :
  exists p n', generateProduct h n = Return (p, n') /\ product_ok p.
Proof.
  unfold generateProduct. unfold bind at 1. unfold Math_random.
  destruct (num_lt _ _).
  - destruct (arrayElement_spec h
      (Build_Product "Software License - Enterprise" (ofZ 5000) "software") (tl PRODUCTS) (S n))
      as (y & Hy & Hin).
    exists y, (S (S n)). split; [exact Hy|].
    exact (proj1 (Forall_forall _ _) PRODUCTS_ok y Hin).
  - destruct (arrayElement_spec h "software"%string
        ["services"; "hardware"; "supplies"; "support"]%string (S n)) as (c & Hc & _).
    rewrite (bind_Return _ _ _ _ _ Hc).
    destruct (product_text_total h c (S (S n))) as (s & n1 & Hs).
    rewrite (bind_Return _ _ _ _ _ Hs).
    destruct (faker_int_spec h 50 5000 n1 ltac:(lia)) as (z & Hz & Hf).
    rewrite (bind_Return _ _ _ _ _ Hf).
    eexists; eexists. split; [reflexivity|]. exists z. cbn [basePrice]. split; [lia|reflexivity].
Qed.

Local Open Scope list_scope.
Local Open Scope Z_scope.
Local Open Scope Q_scope.

(** ** Invoice items *)

Ltac within_closed :=
  split; [split; vm_compute; reflexivity|split; [vm_compute; reflexivity|split; qle]].

Lemma iterations_ofZ c : (0 <= c < 2 ^ 53)%Z -> iterations (ofZ c) = Some (Z.to_nat c).
Proof.
  intros Hc. destruct (ofZ_spec c ltac:(lia)) as ([_ Hf] & Hv & _).
  apply iterations_int; [assumption|assumption|lia].
Qed.

(** The price variation [randomFloat(0.8, 1.2)]. *)
Lemma randomFloat_variation h n :
  exists k, (80 <= k <= 120)%Z /\
    randomFloat h (of_decimal false 8 1) (of_decimal false 12 1) 2 n = Return (cents k, S n).
Proof.
  unfold randomFloat, bind, Math_random, ret.
  destruct (randomFloat_core (host_random h n)
             (num_sub (of_decimal false 12 1) (of_decimal false 8 1)) (of_decimal false 8 1)
             (4001 # 10000) (7999 # 10000) (8001 # 10000) 80 120) as (k & Hk & Hk0 & Heq).
  - apply ud_ok.
  - within_closed.
  - within_closed.
  - discriminate.
  - reflexivity.
  - qle.
  - qlt.
  - exists k. split; [lia|]. unfold cents. rewrite Heq. reflexivity.
Qed.

(** The rate [randomFloat(0.95, 0.99)] of an FX gain. *)
Lemma randomFloat_gain h n :
  exists k, (95 <= k <= 99)%Z /\
    randomFloat h (of_decimal false 95 2) (of_decimal false 99 2) 2 n = Return (cents k, S n).
Proof.
  unfold randomFloat, bind, Math_random, ret.
  destruct (randomFloat_core (host_random h n)
             (num_sub (of_decimal false 99 2) (of_decimal false 95 2)) (of_decimal false 95 2)
             (401 # 10000) (9499 # 10000) (9501 # 10000) 95 99) as (k & Hk & Hk0 & Heq).
  - apply ud_ok.
  - within_closed.
  - within_closed.
  - discriminate.
  - reflexivity.
  - qle.
  - qlt.
  - exists k. split; [lia|]. unfold cents. rewrite Heq. reflexivity.
Qed.

Lemma within_int z a b :
  (a <= z <= b)%Z -> (0 <= a)%Z -> (b < 2 ^ 53)%Z ->
  within (inject_Z a) (inject_Z b) (ofZ z).
Proof.
  intros Hz Ha Hb. apply (within_weaken (inject_Z z) (inject_Z z)).
  - apply within_ofZ. lia.
  - rewrite <- Zle_Qle. lia.
  - rewrite <- Zle_Qle. lia.
Qed.

Lemma cents_range n a b lo hi :
  (a <= n <= b)%Z -> (0 <= a)%Z -> (b <= 10 ^ 12)%Z ->
  lo <= inject_Z a / 100 - tol -> inject_Z b / 100 + tol <= hi ->
  within lo hi (cents n).
Proof.
  intros Hn Ha Hb Hlo Hhi.
  apply (within_weaken _ _ _ _ _ (cents_within n ltac:(lia))).
  - assert (inject_Z a <= inject_Z n) by (rewrite <- Zle_Qle; lia).
    assert (E1 : inject_Z a / 100 == inject_Z a * (1 # 100)) by field.
    assert (E2 : inject_Z n / 100 == inject_Z n * (1 # 100)) by field.
    lra.
  - assert (inject_Z n <= inject_Z b) by (rewrite <- Zle_Qle; lia).
    assert (E1 : inject_Z b / 100 == inject_Z b * (1 # 100)) by field.
    assert (E2 : inject_Z n / 100 == inject_Z n * (1 # 100)) by field.
    lra.
Qed.

(** From the half-cent bracket of a rounding to bounds on the cents. *)
Lemma cents_bracket n X lo hi (a b : Z) :
  2 * inject_Z n - 1 <= 200 * X -> 200 * X < 2 * inject_Z n + 1 ->
  lo <= X -> X <= hi ->
  inject_Z (2 * a - 1) <= 200 * lo -> 200 * hi < inject_Z (2 * b + 1) ->
  (a <= n <= b)%Z.
Proof.
  intros H1 H2 Hlo Hhi Ha Hb.
  assert (Ha' : inject_Z (2 * a - 1) < inject_Z (2 * n + 1)).
  { rewrite (inject_Z_plus (2 * n)), (inject_Z_mult 2 n).
    change (inject_Z 2) with 2. change (inject_Z 1) with 1. lra. }
  assert (Hb' : inject_Z (2 * n - 1) < inject_Z (2 * b + 1)).
  { replace (2 * n - 1)%Z with (2 * n + -1)%Z by lia.
    rewrite (inject_Z_plus (2 * n)), (inject_Z_mult 2 n).
    change (inject_Z 2) with 2. change (inject_Z (-1)) with (-1). lra. }
  rewrite <- Zlt_Qlt in Ha', Hb'. lia.
Qed.

Lemma item_step h product n :
  product_ok product ->
  exists it n',
    (quantity' <- randomBetween h (ofZ 1) (ofZ 10) ;;
     priceVariation <- randomFloat h (of_decimal false 8 1) (of_decimal false 12 1) 2 ;;
     let price' := parseFloat (toFixed (num_mul (basePrice product) priceVariation) 2) in
     t <- randomBetween h (ofZ 0) (ofZ 2) ;;
     let tax' := if num_eq t (ofZ 0) then ofZ 0 else ofZ 19 in
     ret {| item_name := prod_name product; quantity := quantity';
            price := price'; tax := tax' |})%gen n = Return (it, n') /\ item_ok it.
Proof.
  intros (z & Hz & Hbp).
  destruct (randomBetween_spec h 1 10 10 n ltac:(vm_compute; reflexivity) ltac:(lia) ltac:(lia))
    as (j & Hj & Hq).
  rewrite (bind_Return _ _ _ _ _ Hq).
  destruct (randomFloat_variation h (S n)) as (k & Hk & Hv).
  rewrite (bind_Return _ _ _ _ _ Hv).
  destruct (randomBetween_spec h 0 2 3 (S (S n)) ltac:(vm_compute; reflexivity) ltac:(lia) ltac:(lia))
    as (t & Ht & Htx).
  rewrite (bind_Return _ _ _ _ _ Htx).
  unfold ret. eexists; eexists. split; [reflexivity|].
  split; [|split]; cbn [quantity price tax].
  - exists (j + 1)%Z. split; [lia|reflexivity].
  - rewrite Hbp.
    pose proof (within_int z 25 5000 Hz ltac:(lia) ltac:(lia)) as Hb.
    change (inject_Z 25) with 25 in Hb. change (inject_Z 5000) with 5000 in Hb.
    assert (Hvar : within (79999 # 100000) (120001 # 100000) (cents k)).
    { apply (cents_range k 80 120); try lia; qle. }
    pose proof (mul_abs _ _ _ _ _ _ Hb Hvar ltac:(discriminate) ltac:(discriminate) ltac:(qle)) as Hp.
    destruct (round2_abs _ _ _ Hp ltac:(qle) ltac:(qle)) as (m & Hm & Heq & H1 & H2 & _).
    exists m. split; [|exact Heq].
    destruct Hp as (_ & _ & Hp1 & Hp2).
    apply (cents_bracket m _ _ _ 2000 600005 H1 H2 Hp1 Hp2); qle || qlt.
  - assert (Hc : (t = 0 \/ t = 1 \/ t = 2)%Z) by lia.
    destruct Hc as [->|[->| ->]]; [left|right|right]; vm_compute; reflexivity.
Qed.

Lemma generateInvoiceItems_spec h c n :
  (1 <= c <= 5)%Z ->
  exists its n', generateInvoiceItems h (ofZ c) n = Return (its, n') /\
    Forall item_ok its /\ List.length its = Z.to_nat c.
Proof.
  intros Hc. unfold generateInvoiceItems, getRandomProducts.
  rewrite iterations_ofZ by lia.
  destruct (repeatM_spec product_ok (generateProduct h) (generateProduct_spec h) (Z.to_nat c) n)
    as (ps & n1 & Hps & HF & Hlen).
  rewrite (bind_Return _ _ _ _ _ Hps).
  destruct (mapM_spec product_ok item_ok _ (fun p Hp n0 => item_step h p n0 Hp) ps HF n1)
    as (its & n2 & Hits & HFi & Hleni).
  exists its, n2. split; [exact Hits|]. split; [exact HFi|]. congruence.
Qed.

Local Open Scope list_scope.
Local Open Scope Z_scope.
Local Open Scope Q_scope.

(** ** Totals of an invoice *)

Lemma num_mul_zero_r x :
  finite64 x -> sgn x = false -> num_mul x (ofZ 0) = S754_zero false.
Proof.
  intros [Hv Hf] Hs. destruct x as [s|s| |s m e]; try discriminate;
    cbn [sgn] in Hs; subst s; reflexivity.
Qed.

Lemma within_zero : within 0 0 (S754_zero false).
Proof. split; [split; reflexivity|]. split; [reflexivity|]. split; discriminate. Qed.

Lemma item_amounts it :
  item_ok it ->
  within 19 60001 (num_mul (quantity it) (price it)) /\
  within 0 11401 (num_div (num_mul (num_mul (quantity it) (price it)) (tax it)) (ofZ 100)).
Proof.
  intros ((q & Hq & Eq) & (n & Hn & En) & Ht). rewrite Eq, En.
  pose proof (within_int q 1 10 Hq ltac:(lia) ltac:(lia)) as Hwq.
  change (inject_Z 1) with 1 in Hwq. change (inject_Z 10) with 10 in Hwq.
  assert (Hwp : within (1999999 # 100000) (600005001 # 100000) (cents n)).
  { apply (cents_range n 2000 600005); try lia; qle. }
  pose proof (mul_abs _ _ _ _ _ _ Hwq Hwp ltac:(discriminate) ltac:(discriminate) ltac:(qle)) as Hs.
  assert (Hs' : within 19 60001 (num_mul (ofZ q) (cents n))).
  { apply (within_weaken _ _ _ _ _ Hs); qle. }
  split; [exact Hs'|].
  destruct Ht as [-> | ->].
  - rewrite num_mul_zero_r; [|exact (proj1 Hs')|exact (proj1 (proj2 Hs'))].
    change (num_div (S754_zero false) (ofZ 100)) with (S754_zero false).
    apply (within_weaken _ _ _ _ _ within_zero); discriminate.
  - pose proof (within_int 19 19 19 ltac:(lia) ltac:(lia) ltac:(lia)) as Hw19.
    change (inject_Z 19) with 19 in Hw19.
    pose proof (mul_abs _ _ _ _ _ _ Hs' Hw19 ltac:(discriminate) ltac:(discriminate) ltac:(qle)) as Hm.
    assert (Hlow : 2 ^ (-900) <= 19 * 19 - tol) by qle.
    pose proof (div100_abs _ _ _ Hm (or_intror Hlow) ltac:(qle) ltac:(qle)) as Hd.
    apply (within_weaken _ _ _ _ _ Hd); qle.
Qed.

Lemma inject_Z_succ (l : nat) : inject_Z (Z.of_nat (S l)) == inject_Z (Z.of_nat l) + 1.
Proof. rewrite Nat2Z.inj_succ. unfold Z.succ. rewrite inject_Z_plus. reflexivity. Qed.

Lemma sum_items_within its :
  Forall item_ok its ->
  forall s t lo a b,
    within lo a s -> within 0 b t -> 0 <= lo -> lo <= 18 ->
    a + 60002 * inject_Z (Z.of_nat (List.length its)) <= 1000000000 ->
    b + 11402 * inject_Z (Z.of_nat (List.length its)) <= 1000000000 ->
    within lo (a + 60002 * inject_Z (Z.of_nat (List.length its))) (fst (sum_items its s t)) /\
    within 0 (b + 11402 * inject_Z (Z.of_nat (List.length its))) (snd (sum_items its s t)).
Proof.
  induction 1 as [|it its Hit HF IH]; intros s t lo a b Hs Ht Hlo0 Hlo Ha Hb;
    cbn [sum_items List.length] in *.
  - change (inject_Z (Z.of_nat 0)) with 0 in *. split.
    + apply (within_weaken _ _ _ _ _ Hs); lra.
    + apply (within_weaken _ _ _ _ _ Ht); lra.
  - rewrite inject_Z_succ in Ha, Hb.
    assert (HL : 0 <= inject_Z (Z.of_nat (List.length its))).
    { rewrite <- (Zle_Qle 0). lia. }
    set (L := inject_Z (Z.of_nat (List.length its))) in *.
    destruct (item_amounts it Hit) as [Hi1 Hi2].
    assert (Hab : lo <= a) by (destruct Hs as (_ & _ & ? & ?); lra).
    assert (Hb0 : 0 <= b) by (destruct Ht as (_ & _ & ? & ?); lra).
    pose proof tol_pos as Htol. assert (Htol1 : tol <= 1) by qle.
    pose proof (add_abs _ _ _ _ _ _ Hs Hi1 Hlo0 ltac:(discriminate) ltac:(lra)) as Hs1.
    pose proof (add_abs _ _ _ _ _ _ Ht Hi2 ltac:(discriminate) ltac:(discriminate) ltac:(lra)) as Ht1.
    assert (Hs2 : within lo (a + 60002) (num_add s (num_mul (quantity it) (price it)))).
    { apply (within_weaken _ _ _ _ _ Hs1); lra. }
    assert (Ht2 : within 0 (b + 11402)
              (num_add t (num_div (num_mul (num_mul (quantity it) (price it)) (tax it)) (ofZ 100)))).
    { apply (within_raise0 (0 + 0 - tol)). apply (within_weaken _ _ _ _ _ Ht1); lra. }
    destruct (IH _ _ _ _ _ Hs2 Ht2 Hlo0 Hlo ltac:(fold L; lra) ltac:(fold L; lra)) as [R1 R2].
    fold L in R1, R2. split.
    + apply (within_weaken _ _ _ _ _ R1); [lra|]. rewrite inject_Z_succ. fold L. lra.
    + apply (within_weaken _ _ _ _ _ R2); [lra|]. rewrite inject_Z_succ. fold L. lra.
Qed.

(** The unrounded sums of one to five items. *)
Lemma sum_items_bounds its :
  Forall item_ok its -> (1 <= List.length its <= 5)%nat ->
  within 18 300010 (fst (sum_items its (ofZ 0) (ofZ 0))) /\
  within 0 57010 (snd (sum_items its (ofZ 0) (ofZ 0))).
Proof.
  intros HF Hlen. destruct HF as [|it its Hit HF]; [cbn in Hlen; lia|].
  cbn [sum_items List.length] in *.
  destruct (item_amounts it Hit) as [Hi1 Hi2].
  pose proof tol_pos as Htol. assert (Htol1 : tol <= 1) by qle.
  pose proof (add_abs _ _ _ _ _ _ within_zero Hi1 ltac:(discriminate) ltac:(discriminate) ltac:(qle)) as Hs1.
  pose proof (add_abs _ _ _ _ _ _ within_zero Hi2 ltac:(discriminate) ltac:(discriminate) ltac:(qle)) as Ht1.
  change (ofZ 0) with (S754_zero false).
  assert (Hs2 : within 18 60002 (num_add (S754_zero false) (num_mul (quantity it) (price it)))).
  { apply (within_weaken _ _ _ _ _ Hs1); lra. }
  assert (Ht2 : within 0 11402 (num_add (S754_zero false)
              (num_div (num_mul (num_mul (quantity it) (price it)) (tax it)) (ofZ 100)))).
  { apply (within_raise0 (0 + 0 - tol)). apply (within_weaken _ _ _ _ _ Ht1); lra. }
  assert (HL0 : 0 <= inject_Z (Z.of_nat (List.length its))) by (rewrite <- (Zle_Qle 0); lia).
  assert (HL4 : inject_Z (Z.of_nat (List.length its)) <= 4).
  { change 4 with (inject_Z 4). rewrite <- Zle_Qle. lia. }
  destruct (sum_items_within its HF _ _ _ _ _ Hs2 Ht2 ltac:(discriminate) ltac:(apply Qle_refl)
              ltac:(lra) ltac:(lra)) as [R1 R2].
  split.
  - apply (within_weaken _ _ _ _ _ R1); lra.
  - apply (within_weaken _ _ _ _ _ R2); lra.
Qed.

(** The three rounded totals, in cents: the total is within one cent of the
    sum of the other two. *)
Lemma totals_cents s t :
  within 18 300010 s -> within 0 57010 t ->
  exists n1 n2 n3 : Z,
    parseFloat (toFixed s 2) = cents n1 /\
    parseFloat (toFixed t 2) = cents n2 /\
    parseFloat (toFixed (num_add s t) 2) = cents n3 /\
    (1800 <= n1 <= 30001000)%Z /\ (0 <= n2 <= 5701000)%Z /\ (1799 <= n3 <= 35702001)%Z /\
    (n1 + n2 - 1 <= n3 <= n1 + n2 + 1)%Z.
Proof.
  intros Hs Ht.
  pose proof tol_pos as Htol. assert (Htol1 : tol <= 1 # 1000) by qle.
  destruct (round2_abs _ _ _ Hs ltac:(discriminate) ltac:(qle)) as (n1 & _ & E1 & A1 & B1 & _).
  destruct (round2_abs _ _ _ Ht ltac:(discriminate) ltac:(qle)) as (n2 & Hn2 & E2 & A2 & B2 & _).
  assert (Hs' := Hs). destruct Hs' as (Hfs & Hss & Hs1 & Hs2).
  assert (Ht' := Ht). destruct Ht' as (Hft & Hst & Ht1 & Ht2).
  pose proof (add_abs _ _ _ _ _ _ (within_value s Hfs Hss) (within_value t Hft Hst)
                ltac:(lra) ltac:(lra) ltac:(lra)) as Hv.
  destruct (round2_abs _ _ _ Hv ltac:(lra) ltac:(lra)) as (n3 & _ & E3 & A3 & B3 & _).
  destruct Hv as (_ & _ & Hv1 & Hv2).
  set (S := SF2Q s) in *. set (T := SF2Q t) in *. set (V := SF2Q (num_add s t)) in *.
  exists n1, n2, n3. split; [exact E1|]. split; [exact E2|]. split; [exact E3|].
  assert (R1 : (1800 <= n1 <= 30001000)%Z).
  { apply (cents_bracket n1 S 18 300010 1800 30001000 A1 B1 Hs1 Hs2); qle || qlt. }
  assert (R3 : (n1 + n2 - 1 <= n3 <= n1 + n2 + 1)%Z).
  { assert (Ha' : inject_Z (2 * (n1 + n2) + -4) < inject_Z (2 * n3)).
    { repeat first [rewrite inject_Z_plus | rewrite inject_Z_mult].
      change (inject_Z 2) with 2. change (inject_Z (-4)) with (-4). lra. }
    assert (Hb' : inject_Z (2 * n3) < inject_Z (2 * (n1 + n2) + 4)).
    { repeat first [rewrite inject_Z_plus | rewrite inject_Z_mult].
      change (inject_Z 2) with 2. change (inject_Z 4) with 4. lra. }
    rewrite <- Zlt_Qlt in Ha', Hb'. lia. }
  assert (R2 : (n2 <= 5701000)%Z).
  { apply (cents_bracket n2 T 0 57010 0 5701000 A2 B2 Ht1 Ht2); qle || qlt. }
  repeat split; lia.
Qed.

Lemma calculateInvoiceTotals_spec its :
  Forall item_ok its -> (1 <= List.length its <= 5)%nat ->
  exists n1 n2 n3 : Z,
    totals_subtotal (calculateInvoiceTotals its) = cents n1 /\
    totals_taxTotal (calculateInvoiceTotals its) = cents n2 /\
    totals_total (calculateInvoiceTotals its) = cents n3 /\
    (1800 <= n1 <= 30001000)%Z /\ (0 <= n2 <= 5701000)%Z /\ (1799 <= n3 <= 35702001)%Z /\
    (n1 + n2 - 1 <= n3 <= n1 + n2 + 1)%Z.
Proof.
  intros HF Hlen. destruct (sum_items_bounds its HF Hlen) as [Hs Ht].
  unfold calculateInvoiceTotals.
  destruct (sum_items its (ofZ 0) (ofZ 0)) as [s t]. cbn [fst snd] in Hs, Ht.
  cbn [totals_subtotal totals_taxTotal totals_total].
  exact (totals_cents s t Hs Ht).
Qed.

Local Open Scope list_scope.
Local Open Scope string_scope.
Local Open Scope Z_scope.

(** ** Generated invoices *)

Lemma addDays_inv h d x t : addDays h d x = Some t -> Z.abs t <= maxTime.
Proof.
  unfold addDays, setDate. destruct d as [t0|]; [|discriminate].
  destruct (is_finite _); [|discriminate].
  intros H. apply TimeClip_inv in H. destruct H as [-> H]. exact H.
Qed.

(** A draw [randomBetween(a, b)] between integer literals. *)
Lemma randomBetween_inv h a b w n x n' :
  num_add (num_sub (ofZ b) (ofZ a)) (ofZ 1) = ofZ w ->
  1 <= w < 2 ^ 31 -> 0 <= a < 2 ^ 31 ->
  randomBetween h (ofZ a) (ofZ b) n = Return (x, n') ->
  n' = S n /\ exists k, a <= k < a + w /\ x = ofZ k.
Proof.
  intros Hw Hw1 Ha H.
  destruct (randomBetween_spec h a b w n Hw Hw1 Ha) as (j & Hj & Hr).
  rewrite Hr in H. injection H as <- <-. split; [reflexivity|].
  exists (j + a). split; [lia|reflexivity].
Qed.

Ltac bind_step H x n Hx :=
  apply bind_inv in H; destruct H as (x & n & Hx & H).

Lemma generateInvoice_inv h range_start range_end sup cus sequence direction n inv n' :
  generateInvoice h range_start range_end sup cus sequence direction n = Return (inv, n') ->
  invoice_generated sup cus inv.
Proof.
  unfold generateInvoice. intros H.
  bind_step H randomDays n1 H1.
  bind_step H terms n2 H2.
  bind_step H itemCount n3 H3.
  bind_step H items' n4 H4.
  bind_step H id' n5 H5.
  bind_step H date' n6 H6.
  bind_step H due' n7 H7.
  apply lift_inv in H6. destruct H6 as (d1 & Hd1 & E6). injection E6 as <- <-.
  apply lift_inv in H7. destruct H7 as (d2 & Hd2 & E7). injection E7 as <- <-.
  unfold ret in H. injection H as <- <-.
  apply (randomBetween_inv h 14 30 17) in H2; [|vm_compute; reflexivity|lia|lia].
  destruct H2 as (-> & k & Hk & ->).
  apply (randomBetween_inv h 1 5 5) in H3; [|vm_compute; reflexivity|lia|lia].
  destruct H3 as (-> & c & Hc & ->).
  destruct (generateInvoiceItems_spec h c (S (S n1)) ltac:(lia)) as (its & n9 & Hits & HF & Hlen).
  rewrite Hits in H4. injection H4 as <- <-.
  apply formatDate_inv in Hd1. destruct Hd1 as (t & Ht & ->).
  apply formatDate_inv in Hd2. destruct Hd2 as (t2 & Ht2 & ->).
  pose proof (addDays_inv _ _ _ _ Ht) as Hbound.
  unfold invoice_generated. cbn [supplier customer date dueDate items subtotal taxTotal total].
  split; [reflexivity|]. split; [reflexivity|]. split.
  - exists t. split; [exact Hbound|reflexivity].
  - split; [exact HF|]. split; [lia|]. repeat split.
Qed.

(** The due date of a generated invoice, on a host of fixed offset. *)
Lemma generateInvoice_due h range_start range_end sup cus sequence direction n inv n' :
  fixed_offset h ->
  generateInvoice h range_start range_end sup cus sequence direction n = Return (inv, n') ->
  exists t k,
    Z.abs t <= maxTime /\ Z.abs (t + k * msPerDay) <= maxTime /\ 14 <= k <= 30 /\
    date inv = date_text t /\ dueDate inv = date_text (t + k * msPerDay).
Proof.
  unfold generateInvoice. intros Hfix H.
  bind_step H randomDays n1 H1.
  bind_step H terms n2 H2.
  bind_step H itemCount n3 H3.
  bind_step H items' n4 H4.
  bind_step H id' n5 H5.
  bind_step H date' n6 H6.
  bind_step H due' n7 H7.
  apply lift_inv in H6. destruct H6 as (d1 & Hd1 & E6). injection E6 as <- <-.
  apply lift_inv in H7. destruct H7 as (d2 & Hd2 & E7). injection E7 as <- <-.
  unfold ret in H. injection H as <- <-.
  apply (randomBetween_inv h 14 30 17) in H2; [|vm_compute; reflexivity|lia|lia].
  destruct H2 as (-> & k & Hk & ->).
  apply formatDate_inv in Hd1. destruct Hd1 as (t & Ht & ->).
  apply formatDate_inv in Hd2. destruct Hd2 as (t2 & Ht2 & ->).
  pose proof (addDays_inv _ _ _ _ Ht) as Hbound.
  rewrite Ht in Ht2. rewrite (addDays_Some h t k Hfix) in Ht2 by lia.
  apply TimeClip_inv in Ht2. destruct Ht2 as [-> Hbound2].
  exists t, k. cbn [date dueDate]. unfold maxTime in *.
  repeat split; try assumption; lia.
Qed.

(** The totals of a generated invoice, in cents. *)
Lemma invoice_generated_totals sup cus inv :
  invoice_generated sup cus inv ->
  exists n1 n2 n3 : Z,
    subtotal inv = cents n1 /\ taxTotal inv = cents n2 /\ total inv = cents n3 /\
    1800 <= n1 <= 30001000 /\ 0 <= n2 <= 5701000 /\ 1799 <= n3 <= 35702001 /\
    n1 + n2 - 1 <= n3 <= n1 + n2 + 1.
Proof.
  intros (_ & _ & _ & HF & Hlen & -> & -> & ->).
  exact (calculateInvoiceTotals_spec _ HF Hlen).
Qed.

Lemma YearFromTime_day t : YearFromTime (Day t * msPerDay) = YearFromTime t.
Proof. unfold YearFromTime. rewrite Day_exact. reflexivity. Qed.

Lemma DayWithinYear_day t : DayWithinYear (Day t * msPerDay) = DayWithinYear t.
Proof. unfold DayWithinYear. rewrite YearFromTime_day, Day_exact. reflexivity. Qed.

Lemma InLeapYear_day t : InLeapYear (Day t * msPerDay) = InLeapYear t.
Proof. unfold InLeapYear. rewrite YearFromTime_day. reflexivity. Qed.

Lemma MonthFromTime_day t : MonthFromTime (Day t * msPerDay) = MonthFromTime t.
Proof. unfold MonthFromTime. rewrite DayWithinYear_day, InLeapYear_day. reflexivity. Qed.

Lemma DateFromTime_day t : DateFromTime (Day t * msPerDay) = DateFromTime t.
Proof.
  unfold DateFromTime. rewrite DayWithinYear_day, InLeapYear_day, MonthFromTime_day. reflexivity.
Qed.

Lemma date_text_day t : date_text (Day t * msPerDay) = date_text t.
Proof.
  unfold date_text. rewrite YearFromTime_day, MonthFromTime_day, DateFromTime_day. reflexivity.
Qed.

(** The issue date of a generated invoice reads back as the start of a day. *)
Lemma invoice_generated_dates h sup cus inv :
  invoice_generated sup cus inv ->
  exists iss,
    Z.abs (iss * msPerDay) <= maxTime /\
    date inv = date_text (iss * msPerDay) /\
    parse_date_only (date inv) = Some (iss * msPerDay) /\
    Date_parse h (date inv) = Some (iss * msPerDay).
Proof.
  intros (_ & _ & (t & Ht & Hd) & _).
  unfold maxTime in *.
  exists (Day t). split; [apply Day_msPerDay_clip; exact Ht|].
  rewrite Hd. split; [|split].
  - symmetry. apply date_text_day.
  - apply parse_date_text. exact Ht.
  - apply Date_parse_date_text. exact Ht.
Qed.

Local Open Scope list_scope.
Local Open Scope string_scope.
Local Open Scope Z_scope.

(** ** Transactions *)

Lemma Return_pair_inv {A S : Type} (a a' : A) (n n' : S) :
  Return (a, n) = Return (a', n') -> a = a' /\ n = n'.
Proof.
  intros H. split.
  - exact (f_equal (fun o => match o with Return (x, _) => x | _ => a end) H).
  - exact (f_equal (fun o => match o with Return (_, y) => y | _ => n end) H).
Qed.

Lemma pair_inv {A B : Type} (a a' : A) (b b' : B) : (a, b) = (a', b') -> a = a' /\ b = b'.
Proof. intros H. split; [exact (f_equal fst H)|exact (f_equal snd H)]. Qed.

Ltac ret_inv H x y :=
  unfold ret in H; apply Return_pair_inv in H; destruct H as [H _];
  apply pair_inv in H; destruct H as [x y].

Lemma within_bound lo hi x :
  within lo hi x -> (hi <= 10000000000)%Q -> (Qabs (SF2Q x) < 2 ^ 1023)%Q.
Proof.
  intros Hw Hhi. pose proof (within_nonneg _ _ _ Hw) as H0.
  destruct Hw as (_ & _ & _ & H2). rewrite Qabs_pos by exact H0.
  apply (Qle_lt_trans _ 10000000000); [lra|reflexivity].
Qed.

(** Applying the sign of the direction to a magnitude, and taking it off again. *)
Lemma signed_amount direction lo hi x :
  within lo hi x -> (hi <= 10000000000)%Q ->
  num_mul (amountSignOf direction) x = signed direction x /\
  Math_abs (signed direction x) = x.
Proof.
  intros Hw Hhi. pose proof (within_bound _ _ _ Hw Hhi) as Hb.
  destruct Hw as (Hf & Hs & _).
  destruct direction; cbn [amountSignOf direction_eqb signed]; split.
  - apply num_mul_minus_one; assumption.
  - apply Math_abs_opp_nonneg; [exact Hs|exact (proj2 Hf)].
  - apply num_mul_one; assumption.
  - apply Math_abs_nonneg; [exact Hs|exact (proj2 Hf)].
Qed.

Lemma cents_amount c :
  0 <= c <= 10 ^ 9 ->
  within 0 (inject_Z c / 100 + tol) (cents c) /\
  within (inject_Z c / 100 - tol) (inject_Z c / 100 + tol) (cents c) /\
  (inject_Z c / 100 + tol <= 10000001)%Q /\ (0 <= inject_Z c)%Q.
Proof.
  intros Hc. pose proof (cents_within c ltac:(lia)) as Hw.
  split; [exact (within_raise0 _ _ _ Hw)|]. split; [exact Hw|].
  assert (H1 : (inject_Z c <= 1000000000)%Q).
  { change 1000000000%Q with (inject_Z (10 ^ 9)). rewrite <- Zle_Qle. lia. }
  assert (H0 : (0 <= inject_Z c)%Q) by (rewrite <- (Zle_Qle 0); lia).
  assert (E : (inject_Z c / 100 == inject_Z c * (1 # 100))%Q) by field.
  assert (Ht : (tol <= 1)%Q) by qle.
  split; [lra|exact H0].
Qed.

Lemma discount_factor k :
  1 <= k <= 3 ->
  of_decimal false (Z.to_N (100 - k)) 2 = num_sub (ofZ 1) (num_div (ofZ k) (ofZ 100)) /\
  within (96 # 100) 1 (of_decimal false (Z.to_N (100 - k)) 2).
Proof.
  intros Hk. assert (Hc : k = 1 \/ k = 2 \/ k = 3) by lia.
  destruct Hc as [->|[->| ->]]; (split; [vm_compute; reflexivity|within_closed]).
Qed.

Lemma discount_case_inv h inv invoiceDate amountSign k factor base n r n' :
  discount_case h inv invoiceDate amountSign k factor base n = Return (r, n') ->
  exists offset,
    r = (addDays h invoiceDate offset,
         num_mul amountSign (round2 (num_mul (total inv) factor)),
         inv_number inv ++ " Payment " ++ Z_to_string k ++ "% early discount",
         {| originalAmount := originalAmount base;
            adjustedAmount := Math_abs (num_mul amountSign (round2 (num_mul (total inv) factor)));
            adjustmentReason := Some (Z_to_string k ++ "% early payment discount");
            discountPercent := Some (ofZ k);
            fxRate := None;
            matchingFields := ["counterparty"; "invoice_number"; "date_proximity"];
            mismatchedFields := ["amount (" ++ Z_to_string k ++ "% discount applied)"];
            groupedInvoiceCount := None |}).
Proof.
  unfold discount_case. intros H. bind_step H offset n1 H1.
  unfold ret in H. injection H as <- <-. exists offset. reflexivity.
Qed.

(** Early-payment discounts, for an invoice total of [c] cents. *)
Lemma discount_transaction h inv type k direction n tx md n' c :
  discount_percent type = Some k ->
  0 <= c <= 10 ^ 9 -> total inv = cents c ->
  generateTransaction h inv type direction n = Return ((tx, md), n') ->
  let adjusted :=
    round2 (num_mul (total inv) (num_sub (ofZ 1) (num_div (ofZ k) (ofZ 100)))) in
  adjustedAmount md = adjusted /\
  discountPercent md = Some (ofZ k) /\
  amount_eur tx = signed direction adjusted /\
  exists m, 0 <= m <= c /\ adjusted = cents m.
Proof.
  intros Hk Hc Htot H. unfold generateTransaction in H.
  bind_step H cp n1 H1. bind_step H r n2 H2.
  assert (Hr : 1 <= k <= 3 /\
               discount_case h inv (Date_parse h (date inv)) (amountSignOf direction) k
                 (of_decimal false (Z.to_N (100 - k)) 2)
                 {| originalAmount := total inv; adjustedAmount := total inv;
                    adjustmentReason := None; discountPercent := None; fxRate := None;
                    matchingFields := []; mismatchedFields := [];
                    groupedInvoiceCount := None |} n1 = Return (r, n2)).
  { destruct type; try discriminate Hk; injection Hk as <-; (split; [lia|exact H2]). }
  clear H2. destruct Hr as [Hk13 H2].
  destruct (discount_factor k Hk13) as [Ef Hwf].
  set (factor := of_decimal false (Z.to_N (100 - k)) 2) in *. clearbody factor.
  apply discount_case_inv in H2. destruct H2 as (offset & ->).
  bind_step H d n3 H3. ret_inv H Etx Emd. subst tx md.
  lazy beta iota delta [adjustedAmount discountPercent amount_eur]. rewrite <- Ef.
  destruct (cents_amount c Hc) as (Hw0 & _ & Hhi & Hc0).
  rewrite Htot.
  pose proof (mul_abs _ _ _ _ _ _ Hw0 Hwf ltac:(discriminate) ltac:(discriminate)) as Hm.
  assert (Htol : (0 < tol)%Q) by reflexivity. assert (Htol1 : (tol <= 1 # 1000)%Q) by qle.
  specialize (Hm ltac:(lra)).
  apply within_raise0 in Hm.
  destruct (round2_abs _ _ _ Hm ltac:(discriminate) ltac:(lra)) as (m & Hm0 & Em & A1 & B1 & Hwm).
  fold (round2 (num_mul (cents c) factor)) in Em. rewrite Em.
  assert (Hmc : m <= c).
  { destruct Hm as (_ & _ & _ & Hx2).
    assert (E : (inject_Z c / 100 == inject_Z c * (1 # 100))%Q) by field.
    assert (Hlt : (inject_Z (2 * m) < inject_Z (2 * c + 2))%Q).
    { rewrite inject_Z_plus, !inject_Z_mult. change (inject_Z 2) with 2%Q. lra. }
    rewrite <- Zlt_Qlt in Hlt. lia. }
  destruct (cents_amount m ltac:(lia)) as (_ & _ & Hhim & _).
  destruct (signed_amount direction _ _ _ Hwm ltac:(lra)) as [Es Ea].
  rewrite Es, Ea. split; [reflexivity|]. split; [reflexivity|]. split; [reflexivity|].
  exists m. split; [lia|reflexivity].
Qed.

Lemma fx_case_inv h inv invoiceDate amountSign direction lo hi kind base n r n' :
  fx_case h inv invoiceDate amountSign direction lo hi kind base n = Return (r, n') ->
  exists offset rate n1 n2,
    randomFloat h lo hi 2 n1 = Return (rate, n2) /\
    r = (addDays h invoiceDate offset,
         num_mul amountSign
           (round2 (num_mul (total inv)
                      (if direction_eqb direction payables then rate else num_sub (ofZ 2) rate))),
         inv_number inv ++ " FX Payment",
         {| originalAmount := originalAmount base;
            adjustedAmount :=
              Math_abs (num_mul amountSign
                (round2 (num_mul (total inv)
                   (if direction_eqb direction payables then rate else num_sub (ofZ 2) rate))));
            adjustmentReason :=
              Some ("FX " ++ kind ++ " (rate: " ++ fixed_to_string h (toFixed rate 4) ++ ")");
            discountPercent := None;
            fxRate := Some rate;
            matchingFields := ["counterparty"; "invoice_number"];
            mismatchedFields := ["amount (FX " ++ kind ++ ")"];
            groupedInvoiceCount := None |}).
Proof.
  unfold fx_case. intros H. bind_step H offset n1 H1. bind_step H rate n2 H2.
  unfold ret in H. injection H as <- <-. exists offset, rate, n1, n2.
  split; [exact H2|reflexivity].
Qed.

Lemma gain_multiplier r :
  95 <= r <= 99 -> within (10099 # 10000) (10501 # 10000) (num_sub (ofZ 2) (cents r)).
Proof.
  intros Hr. assert (Hc : r = 95 \/ r = 96 \/ r = 97 \/ r = 98 \/ r = 99) by lia.
  destruct Hc as [->|[->|[->|[->| ->]]]]; within_closed.
Qed.

Lemma cents_lt a b :
  0 <= a -> a < b -> b <= 10 ^ 12 -> num_lt (cents a) (cents b) = true.
Proof.
  intros Ha Hab Hb.
  destruct (cents_within a ltac:(lia)) as (Hfa & Hsa & _ & Ha2).
  destruct (cents_within b ltac:(lia)) as (Hfb & Hsb & Hb1 & _).
  apply num_lt_pos; try assumption.
  assert (H : (inject_Z a + 1 <= inject_Z b)%Q).
  { change 1%Q with (inject_Z 1). rewrite <- inject_Z_plus, <- Zle_Qle. lia. }
  assert (E1 : (inject_Z a / 100 == inject_Z a * (1 # 100))%Q) by field.
  assert (E2 : (inject_Z b / 100 == inject_Z b * (1 # 100))%Q) by field.
  assert (Ht : (tol <= 1 # 1000)%Q) by qle.
  lra.
Qed.

(** FX gains on receivables, for an invoice total of [c] cents. *)
Lemma fx_gain_transaction h inv n tx md n' c :
  100 <= c <= 10 ^ 8 -> total inv = cents c ->
  generateTransaction h inv fx_gain receivables n = Return ((tx, md), n') ->
  exists r,
    95 <= r <= 99 /\ fxRate md = Some (cents r) /\
    amount_eur tx = round2 (num_mul (total inv) (num_sub (ofZ 2) (cents r))) /\
    adjustedAmount md = amount_eur tx /\
    sgn (amount_eur tx) = false /\
    num_lt (total inv) (amount_eur tx) = true.
Proof.
  intros Hc Htot H. unfold generateTransaction in H.
  bind_step H cp n1 H1. bind_step H r n2 H2.
  apply fx_case_inv in H2. destruct H2 as (offset & rate & n3 & n4 & Hrate & ->).
  bind_step H d n5 H3. ret_inv H Etx Emd. subst tx md.
  destruct (randomFloat_gain h n3) as (k & Hk & Hg). rewrite Hg in Hrate.
  injection Hrate as <- _.
  lazy beta iota delta [direction_eqb fxRate amount_eur adjustedAmount amountSignOf]. rewrite Htot.
  exists k. split; [exact Hk|]. split; [reflexivity|].
  destruct (cents_amount c ltac:(lia)) as (_ & Hwc & Hhi & Hc0).
  pose proof (gain_multiplier k Hk) as Hwm.
  assert (Htol : (0 < tol)%Q) by reflexivity. assert (Htol1 : (tol <= 1 # 100000)%Q) by qle.
  assert (Hc100 : (100 <= inject_Z c)%Q).
  { change 100%Q with (inject_Z 100). rewrite <- Zle_Qle. lia. }
  assert (E : (inject_Z c / 100 == inject_Z c * (1 # 100))%Q) by field.
  pose proof (mul_abs _ _ _ _ _ _ Hwc Hwm ltac:(lra) ltac:(discriminate) ltac:(lra)) as Hm.
  destruct (round2_abs _ _ _ Hm ltac:(lra) ltac:(lra)) as (m & Hm0 & Em & A1 & B1 & Hwr).
  fold (round2 (num_mul (cents c) (num_sub (ofZ 2) (cents k)))) in Em. rewrite Em.
  assert (Hcm : c < m <= 2 * c).
  { destruct Hm as (_ & _ & Hx1 & Hx2).
    assert (Hlo : (inject_Z (2 * c + 1) < inject_Z (2 * m + 1))%Q).
    { rewrite !inject_Z_plus, !inject_Z_mult. change (inject_Z 2) with 2%Q.
      change (inject_Z 1) with 1%Q. lra. }
    assert (Hup : (inject_Z (2 * m) < inject_Z (4 * c))%Q).
    { rewrite !inject_Z_mult. change (inject_Z 2) with 2%Q. change (inject_Z 4) with 4%Q. lra. }
    rewrite <- Zlt_Qlt in Hlo, Hup. lia. }
  destruct (cents_amount m ltac:(lia)) as (_ & _ & Hhim & _).
  destruct (signed_amount receivables _ _ _ Hwr ltac:(lra)) as [Es Ea].
  change (amountSignOf receivables) with (ofZ 1) in Es.
  change (signed receivables (cents m)) with (cents m) in Es, Ea. rewrite Es.
  split; [reflexivity|]. split; [exact Ea|]. split; [exact (proj1 (proj2 Hwr))|].
  apply cents_lt; lia.
Qed.

(** ** Test cases *)

Lemma generateTestCase_inv h type direction range_start range_end our sequence n tc n' :
  generateTestCase h type direction range_start range_end our sequence n = Return (tc, n') ->
  tc_type tc = type /\ tc_direction tc = direction /\ invoices tc = None /\
  own_company direction (invoice tc) = our /\
  (exists other, invoice_generated
     (if direction_eqb direction payables then other else our)
     (if direction_eqb direction payables then our else other) (invoice tc)) /\
  exists n1 n2,
    generateTransaction h (invoice tc) type direction n1
    = Return ((transaction tc, metadata tc), n2).
Proof.
  unfold generateTestCase. intros H.
  bind_step H other n1 H1. bind_step H inv n2 H2. bind_step H r n3 H3.
  destruct r as [tx md]. bind_step H id' n4 H4.
  unfold ret in H. injection H as <- _.
  cbn [tc_type tc_direction invoices invoice transaction metadata].
  apply generateInvoice_inv in H2.
  split; [reflexivity|]. split; [reflexivity|]. split; [reflexivity|]. split.
  - destruct H2 as (Hs & Hcu & _). destruct direction; cbn [own_company direction_eqb] in *; assumption.
  - split; [exists other; exact H2|]. exists n2, n3. exact H3.
Qed.

Local Open Scope list_scope.
Local Open Scope string_scope.
Local Open Scope Z_scope.

(** ** Group payments *)

Lemma binary_round_aux_opp s m e l :
  SFopp (binary_round_aux prec emax s m e l) = binary_round_aux prec emax (negb s) m e l.
Proof.
  unfold binary_round_aux.
  destruct (shr_fexp prec emax m e l) as [mrs' e'].
  destruct (shr_fexp prec emax _ e' loc_Exact) as [mrs'' e''].
  destruct (shr_m mrs'') as [|p|p]; try reflexivity.
  destruct (e'' <=? emax - prec); reflexivity.
Qed.

Lemma of_decimal_opp neg n f : SFopp (of_decimal neg n f) = of_decimal (negb neg) n f.
Proof.
  destruct n as [|p]; cbn [of_decimal SFopp]; [reflexivity|].
  cbn [SFdiv]. destruct (SFdiv_core_binary _ _ _ _ _ _) as [[mz ez] lz].
  rewrite binary_round_aux_opp. destruct neg; reflexivity.
Qed.

(** Rounding to cents commutes with a change of sign, zero apart. *)
Lemma round2_opp s m e :
  round2 (SFopp (S754_finite s m e)) = SFopp (round2 (S754_finite s m e)).
Proof.
  unfold round2. cbn [SFopp toFixed]. destruct (at_least_1e21 m e); cbn [parseFloat].
  - reflexivity.
  - symmetry. apply of_decimal_opp.
Qed.

Lemma within_pos_finite lo hi x :
  within lo hi x -> (0 < lo)%Q -> exists m e, x = S754_finite false m e.
Proof.
  intros ([Hv Hf] & Hs & H1 & _) Hlo.
  destruct x as [s|s| |s m e]; try discriminate; cbn [sgn] in Hs; subst s.
  - exfalso. rewrite SF2Q_zero in H1. lra.
  - exists m, e. reflexivity.
Qed.

(** The signed sum of a group, rounded once. *)
Lemma signed_round2 direction lo hi x :
  within lo hi x -> (0 < lo)%Q -> (hi <= 10000000000)%Q ->
  round2 (num_mul (amountSignOf direction) x) = signed direction (round2 x).
Proof.
  intros Hw Hlo Hhi. destruct (signed_amount direction _ _ _ Hw Hhi) as [-> _].
  destruct (within_pos_finite _ _ _ Hw Hlo) as (m & e & ->).
  destruct direction; cbn [signed]; [apply round2_opp|reflexivity].
Qed.

Lemma mapM_inv_Forall {A B : Type} (P : B -> Prop) (f : A -> Gen B) :
  (forall a n b n', f a n = Return (b, n') -> P b) ->
  forall l n bs n', mapM f l n = Return (bs, n') ->
    Forall P bs /\ List.length bs = List.length l.
Proof.
  intros Hf. induction l as [|a l IH]; intros n bs n' H; cbn [mapM] in H.
  - unfold ret in H. injection H as <- _. split; [constructor|reflexivity].
  - bind_step H b n1 Hb. bind_step H bs' n2 Hbs.
    unfold ret in H. injection H as <- _.
    destruct (IH _ _ _ Hbs) as [HF Hlen].
    split; [constructor; [exact (Hf _ _ _ _ Hb)|exact HF]|].
    cbn [List.length]. congruence.
Qed.

(** The latest date of a group is the maximum of the issue dates. *)
Lemma latestDate_spec h invs ts s :
  Forall2 (fun inv t => Date_parse h (date inv) = Some t) invs ts ->
  latestDate h invs (Some s) = Some (fold_left Z.max ts s).
Proof.
  unfold latestDate. intros HF. revert s.
  induction HF as [|inv t invs ts Ht HF IH]; intros s; cbn [fold_left]; [reflexivity|].
  rewrite Ht. cbn [date_gt].
  destruct (Z.ltb_spec s t) as [Hlt|Hge].
  - rewrite IH. f_equal. f_equal. lia.
  - rewrite IH. f_equal. f_equal. lia.
Qed.

Lemma fold_max_spec ts s :
  let r := fold_left Z.max ts s in
  s <= r /\ (forall t, In t ts -> t <= r) /\ In r (s :: ts).
Proof.
  revert s. induction ts as [|t ts IH]; intros s; cbn [fold_left].
  - split; [lia|]. split; [intros t []|left; reflexivity].
  - destruct (IH (Z.max s t)) as (H1 & H2 & H3). split; [lia|]. split.
    + intros x [<-|Hx]; [lia|exact (H2 x Hx)].
    + destruct H3 as [H3|H3].
      * destruct (Z.max_spec s t) as [[_ E]|[_ E]].
        -- right. left. rewrite <- H3. symmetry. exact E.
        -- left. rewrite <- H3. symmetry. exact E.
      * right. right. exact H3.
Qed.

(** The sum of two or three totals of generated invoices, in cents. *)
Lemma sum_totals_cents invs ns :
  Forall2 (fun inv n => total inv = cents n /\ 1799 <= n <= 35702001) invs ns ->
  (2 <= List.length invs <= 3)%nat ->
  within (inject_Z (Zsum ns) / 100 - (1 # 1000)) (inject_Z (Zsum ns) / 100 + (1 # 1000))
    (sum_totals invs) /\
  round2 (sum_totals invs) = cents (Zsum ns) /\ 3598 <= Zsum ns <= 107106003.
Proof.
  intros HF Hlen.
  assert (Hstep : forall acc A e n x,
            within (inject_Z A / 100 - e) (inject_Z A / 100 + e) acc ->
            (0 <= e)%Q -> (e <= 1 # 10000)%Q -> (A = 0 /\ (e == 0)%Q \/ 1799 <= A) -> A <= 10 ^ 9 ->
            x = cents n -> 1799 <= n <= 35702001 ->
            within (inject_Z (A + n) / 100 - (e + 2 * tol)) (inject_Z (A + n) / 100 + (e + 2 * tol))
              (num_add acc x)).
  { intros acc A e n x Hacc He0 He HA HA9 -> Hn.
    destruct (cents_amount n ltac:(lia)) as (_ & Hwn & _ & _).
    assert (Htol : (tol == 1 # 100000)%Q) by reflexivity.
    assert (En : (inject_Z n / 100 == inject_Z n * (1 # 100))%Q) by field.
    assert (EA : (inject_Z A / 100 == inject_Z A * (1 # 100))%Q) by field.
    assert (EAn : (inject_Z (A + n) / 100 == inject_Z A * (1 # 100) + inject_Z n * (1 # 100))%Q).
    { rewrite inject_Z_plus. field. }
    assert (Hn1 : (1799 <= inject_Z n)%Q) by (change 1799%Q with (inject_Z 1799); rewrite <- Zle_Qle; lia).
    assert (Hn2 : (inject_Z n <= 35702001)%Q)
      by (change 35702001%Q with (inject_Z 35702001); rewrite <- Zle_Qle; lia).
    assert (HA2 : (inject_Z A <= 1000000000)%Q)
      by (change 1000000000%Q with (inject_Z (10 ^ 9)); rewrite <- Zle_Qle; lia).
    assert (HA0 : (0 <= inject_Z A / 100 - e)%Q).
    { destruct HA as [[-> He00]|HA].
      - rewrite He00. discriminate.
      - assert ((1799 <= inject_Z A)%Q)
          by (change 1799%Q with (inject_Z 1799); rewrite <- Zle_Qle; lia). lra. }
    pose proof (add_abs _ _ _ _ _ _ Hacc Hwn HA0 ltac:(lra) ltac:(lra)) as Hs.
    apply (within_weaken _ _ _ _ _ Hs); lra. }
  assert (H0 : within (inject_Z 0 / 100 - 0) (inject_Z 0 / 100 + 0) (ofZ 0)).
  { apply (within_weaken _ _ _ _ _ within_zero); qle. }
  assert (Hfin : forall A e x,
            within (inject_Z A / 100 - e) (inject_Z A / 100 + e) x ->
            (0 <= e)%Q -> (e <= 1 # 1000)%Q -> 3598 <= A <= 10 ^ 9 ->
            round2 x = cents A).
  { intros A e x Hx He0 He HA.
    assert (EA : (inject_Z A / 100 == inject_Z A * (1 # 100))%Q) by field.
    assert (HA1 : (3598 <= inject_Z A)%Q) by (change 3598%Q with (inject_Z 3598); rewrite <- Zle_Qle; lia).
    assert (HA2 : (inject_Z A <= 1000000000)%Q)
      by (change 1000000000%Q with (inject_Z (10 ^ 9)); rewrite <- Zle_Qle; lia).
    destruct (round2_abs _ _ _ Hx ltac:(lra) ltac:(lra)) as (m & _ & Em & A1 & B1 & _).
    destruct Hx as (_ & _ & Hx1 & Hx2).
    unfold round2. rewrite Em. f_equal.
    assert (Ha : (inject_Z (2 * A) < inject_Z (2 * m + 2))%Q).
    { rewrite !inject_Z_plus, !inject_Z_mult. change (inject_Z 2) with 2%Q. lra. }
    assert (Hb : (inject_Z (2 * m) < inject_Z (2 * A + 2))%Q).
    { rewrite !inject_Z_plus, !inject_Z_mult. change (inject_Z 2) with 2%Q. lra. }
    rewrite <- Zlt_Qlt in Ha, Hb. lia. }
  assert (Htol : (tol == 1 # 100000)%Q) by reflexivity.
  unfold sum_totals.
  destruct HF as [|i1 n1 invs ns [E1 R1] HF]; [cbn in Hlen; lia|].
  destruct HF as [|i2 n2 invs ns [E2 R2] HF]; [cbn in Hlen; lia|].
  cbn [fold_left].
  pose proof (Hstep _ 0 0%Q n1 _ H0 ltac:(lra) ltac:(lra)
                ltac:(left; split; reflexivity) ltac:(lia) E1 R1) as S1.
  pose proof (Hstep _ _ _ n2 _ S1 ltac:(lra) ltac:(lra) ltac:(lia) ltac:(lia) E2 R2) as S2.
  destruct HF as [|i3 n3 invs ns [E3 R3] HF].
  - cbn [fold_left Zsum fold_right]. replace (n1 + (n2 + 0)) with (0 + n1 + n2) by lia.
    split; [apply (within_weaken _ _ _ _ _ S2); lra|]. split; [|lia].
    apply (Hfin _ _ _ S2); try lra; lia.
  - destruct HF as [|i4 n4 invs ns _ HF]; [|cbn in Hlen; lia].
    pose proof (Hstep _ _ _ n3 _ S2 ltac:(lra) ltac:(lra) ltac:(lia) ltac:(lia) E3 R3) as S3.
    cbn [fold_left Zsum fold_right]. replace (n1 + (n2 + (n3 + 0))) with (0 + n1 + n2 + n3) by lia.
    split; [apply (within_weaken _ _ _ _ _ S3); lra|]. split; [|lia].
    apply (Hfin _ _ _ S3); try lra; lia.
Qed.

Lemma generateGroupPaymentTestCase_inv h direction range_start range_end our sequence n tc cnt n' :
  generateGroupPaymentTestCase h direction range_start range_end our sequence n
  = Return ((tc, cnt), n') ->
  exists invs N d other,
    tc_type tc = group_payment /\ tc_direction tc = direction /\
    invoices tc = Some invs /\ 2 <= N <= 3 /\ List.length invs = Z.to_nat N /\
    cnt = ofZ N /\ groupedInvoiceCount (metadata tc) = Some (ofZ N) /\
    In (invoice tc) invs /\
    Forall (invoice_generated
              (if direction_eqb direction payables then other else our)
              (if direction_eqb direction payables then our else other)) invs /\
    amount_eur (transaction tc)
    = round2 (num_mul (amountSignOf direction) (sum_totals invs)) /\
    1 <= d <= 7 /\
    formatDate (addDays h (latestDate h invs (Date_parse h (date (invoice tc)))) (ofZ d))
    = Return (tx_date (transaction tc)).
Proof.
  unfold generateGroupPaymentTestCase. intros H.
  bind_step H other n1 H1. bind_step H invoiceCount n2 H2. bind_step H invoices' n3 H3.
  apply (randomBetween_inv h 2 3 2) in H2; [|vm_compute; reflexivity|lia|lia].
  destruct H2 as (-> & N & HN & ->).
  rewrite iterations_ofZ in H3 by lia.
  apply (mapM_inv_Forall
           (invoice_generated (if direction_eqb direction payables then other else our)
                              (if direction_eqb direction payables then our else other))) in H3.
  2:{ intros a m b m' Hg. exact (generateInvoice_inv _ _ _ _ _ _ _ _ _ _ Hg). }
  destruct H3 as [HF Hlen]. rewrite length_seq in Hlen.
  destruct invoices' as [|first rest]; [discriminate H|].
  bind_step H offset n4 H4.
  apply (randomBetween_inv h 1 7 7) in H4; [|vm_compute; reflexivity|lia|lia].
  destruct H4 as (-> & d & Hd & ->).
  bind_step H cp n5 H5. bind_step H date' n6 H6. bind_step H id' n7 H7.
  apply lift_inv in H6. destruct H6 as (dt & Hdt & E6).
  apply pair_inv in E6. destruct E6 as [<- _].
  ret_inv H Etc Ecnt. subst tc cnt.
  exists (first :: rest), N, d, other.
  lazy beta iota delta [tc_type tc_direction invoices metadata groupedInvoiceCount invoice
                        transaction amount_eur tx_date].
  repeat split; try reflexivity; try lia; try assumption.
  left. reflexivity.
Qed.

(** The date of a group payment: the latest issue date plus one to seven days. *)
Lemma group_payment_date h sup cus invs first d text :
  fixed_offset h ->
  Forall (invoice_generated sup cus) invs -> In first invs -> 1 <= d <= 7 ->
  formatDate (addDays h (latestDate h invs (Date_parse h (date first))) (ofZ d)) = Return text ->
  exists latest,
    (exists inv, In inv invs /\ issue_time inv = Some latest) /\
    (forall inv, In inv invs -> exists t, issue_time inv = Some t /\ t <= latest) /\
    parse_date_only text = Some (latest + d * msPerDay).
Proof.
  intros Hfix HF Hin Hd Hfmt.
  assert (Hts : exists ts,
            Forall2 (fun inv t => Date_parse h (date inv) = Some t /\ issue_time inv = Some t /\
                                  exists i, t = i * msPerDay) invs ts).
  { clear Hin Hfmt. induction HF as [|inv invs Hinv HF IH].
    - exists []. constructor.
    - destruct IH as (ts & IH).
      destruct (invoice_generated_dates h _ _ _ Hinv) as (iss & _ & _ & Hp & Hdp).
      exists (iss * msPerDay :: ts). constructor; [|exact IH].
      split; [exact Hdp|]. split; [exact Hp|]. exists iss. reflexivity. }
  destruct Hts as (ts & Hts).
  assert (Hfirst : exists s, Date_parse h (date first) = Some s /\ In s ts).
  { clear Hfmt HF. induction Hts as [|inv t invs ts (H1 & _) Hts IH]; [destruct Hin|].
    destruct Hin as [<-|Hin].
    - exists t. split; [exact H1|left; reflexivity].
    - destruct (IH Hin) as (s & Hs & Hsin). exists s. split; [exact Hs|right; exact Hsin]. }
  destruct Hfirst as (s & Hs & Hsin). rewrite Hs in Hfmt.
  rewrite (latestDate_spec h invs ts s) in Hfmt.
  2:{ eapply Forall2_impl; [|exact Hts]. intros a b (H1 & _). exact H1. }
  destruct (fold_max_spec ts s) as (Hge & Hmax & Hmem).
  set (latest := fold_left Z.max ts s) in *.
  assert (Hlin : In latest ts) by (destruct Hmem as [<-|Hm]; assumption).
  clearbody latest.
  rewrite (addDays_Some h _ _ Hfix) in Hfmt by lia.
  apply formatDate_inv in Hfmt. destruct Hfmt as (t & Ht & ->).
  apply TimeClip_inv in Ht. destruct Ht as [-> Hclip].
  exists latest. split; [|split].
  - clear - Hts Hlin. induction Hts as [|inv t invs ts (_ & H2 & _) Hts IH]; [destruct Hlin|].
    destruct Hlin as [<-|Hl].
    + exists inv. split; [left; reflexivity|exact H2].
    + destruct (IH Hl) as (inv' & Hi & Hp). exists inv'. split; [right; exact Hi|exact Hp].
  - intros inv Hi. clear - Hts Hi Hmax.
    induction Hts as [|inv0 t invs ts (_ & H2 & _) Hts IH]; [destruct Hi|].
    destruct Hi as [<-|Hi].
    + exists t. split; [exact H2|]. apply Hmax. left. reflexivity.
    + apply IH; [|exact Hi]. intros x Hx. apply Hmax. right. exact Hx.
  - assert (Hmul : exists i, latest = i * msPerDay).
    { clear - Hts Hlin. induction Hts as [|inv t invs ts (_ & _ & H3) Hts IH]; [destruct Hlin|].
      destruct Hlin as [<-|Hl]; [exact H3|exact (IH Hl)]. }
    destruct Hmul as (i & Hi).
    rewrite parse_date_text by exact Hclip. rewrite Day_shift, Hi, Day_exact. f_equal. lia.
Qed.

Local Open Scope list_scope.
Local Open Scope string_scope.
Local Open Scope Z_scope.

(** ** Test suites *)

Lemma generateTransaction_date h inv type direction n tx md n' :
  generateTransaction h inv type direction n = Return ((tx, md), n') ->
  exists t, tx_date tx = date_text t.
Proof.
  unfold generateTransaction. intros H.
  bind_step H cp n1 H1. bind_step H r n2 H2. destruct r as [[[td am] ds] me].
  bind_step H d n3 H3. apply lift_inv in H3. destruct H3 as (d' & Hd & E).
  apply pair_inv in E. destruct E as [<- _].
  ret_inv H Etx Emd. subst tx.
  apply formatDate_inv in Hd. destruct Hd as (t & _ & ->). exists t. reflexivity.
Qed.

Lemma invoice_generated_own our other direction inv :
  invoice_generated (if direction_eqb direction payables then other else our)
                    (if direction_eqb direction payables then our else other) inv ->
  own_company direction inv = our.
Proof. intros (Hs & Hc & _). destruct direction; cbn [own_company direction_eqb] in *; assumption. Qed.

Lemma generateTestCase_generated h type direction range_start range_end our sequence n tc n' :
  generateTestCase h type direction range_start range_end our sequence n = Return (tc, n') ->
  case_generated our direction tc.
Proof.
  intros H. destruct (generateTestCase_inv _ _ _ _ _ _ _ _ _ _ H)
    as (_ & Hd & Hnone & Hown & _ & n1 & n2 & Htx).
  split; [exact Hd|]. split; [exact Hown|]. split.
  - intros invs E. rewrite Hnone in E. discriminate E.
  - exact (generateTransaction_date _ _ _ _ _ _ _ _ Htx).
Qed.

Lemma generateGroupPaymentTestCase_generated h direction range_start range_end our sequence
    n tc cnt n' :
  generateGroupPaymentTestCase h direction range_start range_end our sequence n
  = Return ((tc, cnt), n') ->
  case_generated our direction tc.
Proof.
  intros H. destruct (generateGroupPaymentTestCase_inv _ _ _ _ _ _ _ _ _ _ H)
    as (invs & N & d & other & _ & Hd & Hinvs & _ & _ & _ & _ & Hin & HF & _ & _ & Hfmt).
  assert (Hall : Forall (fun inv => own_company direction inv = our) invs).
  { eapply Forall_impl; [|exact HF]. intros inv. apply invoice_generated_own. }
  split; [exact Hd|]. split; [exact (proj1 (Forall_forall _ _) Hall _ Hin)|]. split.
  - intros invs' E. rewrite Hinvs in E. injection E as <-. exact Hall.
  - apply formatDate_inv in Hfmt. destruct Hfmt as (t & _ & ->). exists t. reflexivity.
Qed.

Lemma generate_units_inv h k type direction range_start range_end our :
  forall acc sequence n cases' sequence' n',
    generate_units h k type direction range_start range_end our acc sequence n
    = Return ((cases', sequence'), n') ->
    Forall (case_generated our direction) acc ->
    Forall (case_generated our direction) cases' /\
    List.length cases' = (List.length acc + k)%nat.
Proof.
  induction k as [|k IH]; intros acc sequence n cases' sequence' n' H Hacc;
    cbn [generate_units] in H.
  - unfold ret in H. apply Return_pair_inv in H. destruct H as [H _].
    apply pair_inv in H. destruct H as [<- _]. split; [exact Hacc|lia].
  - assert (Hstep : exists tc sq n1,
              case_generated our direction tc /\
              generate_units h k type direction range_start range_end our (acc ++ [tc]) sq n1
              = Return ((cases', sequence'), n')).
    { destruct type;
        try (bind_step H tc n1 H1; exists tc; eexists; exists n1;
             split; [exact (generateTestCase_generated _ _ _ _ _ _ _ _ _ _ H1)|exact H]).
      bind_step H r n1 H1. destruct r as [tc cnt]. exists tc; eexists; exists n1.
      split; [exact (generateGroupPaymentTestCase_generated _ _ _ _ _ _ _ _ _ _ H1)|exact H]. }
    destruct Hstep as (tc & sq & n1 & Htc & Hrest).
    destruct (IH _ _ _ _ _ _ Hrest) as [HF Hlen].
    + apply Forall_app. split; [exact Hacc|]. constructor; [exact Htc|constructor].
    + split; [exact HF|]. rewrite Hlen, length_app. cbn [List.length]. lia.
Qed.

(** A loop that never exits does not return. *)
Lemma generate_unending_never h fuel type direction range_start range_end our :
  forall acc sequence n r,
    generate_unending h fuel type direction range_start range_end our acc sequence n
    <> Return r.
Proof.
  induction fuel as [|fuel IH]; intros acc sequence n r H; cbn [generate_unending] in H;
    [discriminate H|].
  destruct type;
    try (bind_step H tc n1 H1; exact (IH _ _ _ _ H)).
  bind_step H p n1 H1. destruct p as [tc cnt]. exact (IH _ _ _ _ H).
Qed.

(** A run of the outer loop that returns has gone through the inner loop of
    its first configuration, which exits. *)
Lemma generate_configs_cons h fuel config rest direction range_start range_end our
    acc sequence n cases' n' :
  generate_configs h fuel (config :: rest) direction range_start range_end our acc sequence n
  = Return (cases', n') ->
  exists k acc' sequence' n1,
    iterations (cfg_quantity config) = Some k /\
    generate_units h k (cfg_type config) direction range_start range_end our acc sequence n
    = Return ((acc', sequence'), n1) /\
    generate_configs h fuel rest direction range_start range_end our acc' sequence' n1
    = Return (cases', n').
Proof.
  cbn [generate_configs]. intros H. bind_step H r n1 H1. destruct r as [acc' seq'].
  destruct (iterations (cfg_quantity config)) as [k|].
  - exists k, acc', seq', n1. split; [reflexivity|]. split; [exact H1|exact H].
  - exfalso. exact (generate_unending_never _ _ _ _ _ _ _ _ _ _ _ H1).
Qed.

Lemma requested_cons config configs k :
  iterations (cfg_quantity config) = Some k ->
  requested (config :: configs)
  = match requested configs with Some a => Some (k + a)%nat | None => None end.
Proof. intros E. cbn [requested fold_right]. rewrite E. reflexivity. Qed.

Lemma generate_configs_inv h fuel direction range_start range_end our configs :
  forall acc sequence n cases' n',
    generate_configs h fuel configs direction range_start range_end our acc sequence n
    = Return (cases', n') ->
    Forall (case_generated our direction) acc ->
    Forall (case_generated our direction) cases' /\
    exists k, requested configs = Some k /\
              List.length cases' = (List.length acc + k)%nat.
Proof.
  induction configs as [|config configs IH]; intros acc sequence n cases' n' H Hacc.
  - cbn [generate_configs] in H.
    unfold ret in H. apply Return_pair_inv in H. destruct H as [<- _].
    split; [exact Hacc|]. exists O. split; [reflexivity|lia].
  - apply generate_configs_cons in H.
    destruct H as (k & acc' & seq' & n1 & Ek & H1 & H).
    destruct (generate_units_inv _ _ _ _ _ _ _ _ _ _ _ _ _ H1 Hacc) as [HF Hlen].
    destruct (IH _ _ _ _ _ H HF) as (HF' & k' & Ek' & Hlen').
    split; [exact HF'|]. exists (k + k')%nat. rewrite (requested_cons _ _ _ Ek), Ek'.
    split; [reflexivity|lia].
Qed.

Lemma generateTestSuite_inv h fuel now configs direction start' end' overrides n suite n' :
  generateTestSuite h fuel now configs direction start' end' overrides n = Return (suite, n') ->
  suite_direction suite = direction /\
  csvContent suite = generateCSV h (cases suite) /\
  Forall (case_generated (merge_company (DEFAULT_COMPANY) overrides) direction) (cases suite) /\
  requested configs = Some (List.length (cases suite)).
Proof.
  unfold generateTestSuite. intros H.
  bind_step H sq n1 H1. bind_step H tcs n2 H2. bind_step H id' n3 H3. bind_step H cr n4 H4.
  unfold ret in H. apply Return_pair_inv in H. destruct H as [<- _].
  lazy beta iota delta [suite_direction csvContent cases].
  destruct (generate_configs_inv _ _ _ _ _ _ _ _ _ _ _ _ H2 (Forall_nil _))
    as (HF & k & Ek & Hlen).
  split; [reflexivity|]. split; [reflexivity|]. split; [exact HF|].
  rewrite Ek, Hlen. reflexivity.
Qed.

(** ** The CSV text *)

Lemma row_key_csv_row h tc t :
  tx_date (transaction tc) = date_text t -> row_key (csv_row h tc) = date_text t.
Proof.
  intros E. unfold row_key, csv_row. rewrite E.
  assert (Hsplit : forall a b, avoids ";" a = true -> split_first ";" (a ++ String ";" b) = a).
  { induction a as [|c a IH]; intros b Ha; cbn [append split_first] in *.
    - reflexivity.
    - apply andb_true_iff in Ha. destruct Ha as [Hc Ha].
      apply negb_true_iff in Hc. rewrite Hc. f_equal. exact (IH b Ha). }
  apply Hsplit. apply avoids_date_text; [reflexivity|discriminate|discriminate].
Qed.

Lemma StronglySorted_impl {A : Type} (R1 R2 : A -> A -> Prop) (P : A -> Prop) l :
  (forall a b, P a -> P b -> R1 a b -> R2 a b) ->
  Forall P l -> StronglySorted R1 l -> StronglySorted R2 l.
Proof.
  intros Himp HP HS. induction HS as [|a l HS IH Hall]; [constructor|].
  inversion HP as [|? ? Pa Pl]; subst. constructor; [exact (IH Pl)|].
  apply Forall_forall. intros b Hb.
  apply Himp; [exact Pa|exact (proj1 (Forall_forall _ _) Pl b Hb)|].
  exact (proj1 (Forall_forall _ _) Hall b Hb).
Qed.

(** The rows that [generateCSV] makes: the sort leaves them in the order of
    [localeCompare], which on date fields of ten characters is the order of
    strings. *)
Lemma generateCSV_spec h testCases :
  Forall (fun tc => exists t, tx_date (transaction tc) = date_text t) testCases ->
  exists rows,
    generateCSV h testCases = String.concat newline (csv_header :: rows) /\
    List.length rows = List.length testCases /\
    Permutation rows (map (csv_row h) testCases) /\
    StronglySorted rows_collated rows /\
    (Forall (fun tc => fixed_width_date (tx_date (transaction tc))) testCases ->
     StronglySorted rows_le rows) /\
    forall d, rows_dated d rows = rows_dated d (map (csv_row h) testCases).
Proof.
  intros Hdates.
  exists (sort_rows row_le (map (csv_row h) testCases)).
  split; [reflexivity|]. split; [|split; [|split; [|split]]].
  - rewrite sort_rows_length, length_map. reflexivity.
  - apply sort_rows_perm.
  - apply sort_rows_sorted.
  - intros Hfix.
    apply (StronglySorted_impl rows_collated rows_le
             (fun r => plain_text (row_key r) = true)); [| |apply sort_rows_sorted].
    + intros a b Ha Hb Hab. unfold rows_le, text_le. unfold rows_collated, collation_le in Hab.
      rewrite <- (localeCompare_plain _ _ Ha Hb). exact Hab.
    + apply (Permutation_Forall (x := map (csv_row h) testCases));
        [symmetry; apply sort_rows_perm|].
      apply Forall_map. apply Forall_forall. intros tc Hin.
      destruct (proj1 (Forall_forall _ _) Hdates tc Hin) as (t & Ht).
      pose proof (proj1 (Forall_forall _ _) Hfix tc Hin) as Hw. cbv beta in Hw.
      rewrite (row_key_csv_row h tc t Ht). apply plain_date_text. rewrite <- Ht. exact Hw.
  - intros d. apply sort_rows_dated.
Qed.

Local Open Scope list_scope.
Local Open Scope string_scope.
Local Open Scope Z_scope.

(** ** Companies *)

Lemma generateBusinessName_total h n :
  exists s n', generateBusinessName h n = Return (s, n').
Proof.
  unfold generateBusinessName. unfold bind at 1. unfold faker_int.
  destruct (0 + Z.of_nat (host_fakerNat h n) mod (3 - 0 + 1)) as [|p|p];
    [|destruct p as [p|p|]; [|destruct p as [p|p|]|]|];
    cbv beta iota delta [bind arrayElement faker_text ret
                         BUSINESS_PREFIXES BUSINESS_SUFFIXES BUSINESS_INDUSTRIES];
    eexists; eexists; reflexivity.
Qed.

Lemma EU_COUNTRIES_lists :
  Forall (fun c => suffix c <> [] /\ bankNames c <> []) EU_COUNTRIES.
Proof. unfold EU_COUNTRIES. repeat (constructor; [split; discriminate|]). constructor. Qed.

Lemma generateCompany_spec h n :
  exists c n' baseName legalSuffix,
    generateCompany h n = Return (c, n') /\
    name c = baseName ++ " " ++ legalSuffix /\
    nameVariations c = Some (generateNameVariations h baseName legalSuffix).
Proof.
  unfold generateCompany.
  assert (Hne : exists c0 cs, EU_COUNTRIES = c0 :: cs) by (eexists; eexists; reflexivity).
  destruct Hne as (c0 & cs & Hne). rewrite Hne.
  destruct (arrayElement_spec h c0 cs n) as (country & Hc & Hin).
  rewrite (bind_Return _ _ _ _ _ Hc). rewrite <- Hne in Hin.
  destruct (proj1 (Forall_forall _ _) EU_COUNTRIES_lists country Hin) as [Hs Hb].
  destruct (generateBusinessName_total h (S n)) as (baseName & n1 & Hbn).
  rewrite (bind_Return _ _ _ _ _ Hbn).
  destruct (suffix country) as [|s0 ss] eqn:Esuf; [contradiction|].
  destruct (arrayElement_spec h s0 ss n1) as (legalSuffix & Hls & _).
  rewrite (bind_Return _ _ _ _ _ Hls).
  destruct (bankNames country) as [|b0 bs] eqn:Ebank; [contradiction|].
  cbv beta iota delta [bind faker_text ret arrayElement].
  eexists; eexists; exists baseName, legalSuffix.
  split; [reflexivity|]. split; reflexivity.
Qed.

Lemma In_extend {A : Type} (x : A) (c : bool) l l' :
  In x l -> In x (if c then List.app l l' else l).
Proof. intros H. destruct c; [apply in_or_app; left|]; exact H. Qed.

Lemma generateNameVariations_spec h baseName legalSuffix :
  NoDup (generateNameVariations h baseName legalSuffix) /\
  In baseName (generateNameVariations h baseName legalSuffix) /\
  ((10 < js_length baseName)%nat ->
   In (toUpperCase h (js_prefix 10 baseName)) (generateNameVariations h baseName legalSuffix)).
Proof.
  unfold generateNameVariations. split; [apply dedupe_NoDup|]. split.
  - apply dedupe_In. cbv zeta. repeat apply In_extend. right. left. reflexivity.
  - intros Hlen. apply dedupe_In.
    apply Nat.ltb_lt in Hlen. rewrite Hlen.
    apply in_or_app. right. left. reflexivity.
Qed.

(** The company that [generateCompany] returns, with the draws it is made
    from: a country of the table, the base name drawn by
    [generateBusinessName] and a legal suffix of the country. *)
Lemma generateCompany_parts h n :
  exists c n' country baseName m legalSuffix,
    generateCompany h n = Return (c, n') /\
    In country EU_COUNTRIES /\
    generateBusinessName h (S n) = Return (baseName, m) /\
    In legalSuffix (suffix country) /\
    name c = baseName ++ " " ++ legalSuffix /\
    nameVariations c = Some (generateNameVariations h baseName legalSuffix).
Proof.
  unfold generateCompany.
  assert (Hne : exists c0 cs, EU_COUNTRIES = c0 :: cs) by (eexists; eexists; reflexivity).
  destruct Hne as (c0 & cs & Hne). rewrite Hne.
  destruct (arrayElement_spec h c0 cs n) as (country & Hc & Hin).
  rewrite (bind_Return _ _ _ _ _ Hc). rewrite <- Hne in Hin. rewrite <- Hne.
  destruct (proj1 (Forall_forall _ _) EU_COUNTRIES_lists country Hin) as [Hs Hb].
  destruct (generateBusinessName_total h (S n)) as (baseName & n1 & Hbn).
  rewrite (bind_Return _ _ _ _ _ Hbn).
  destruct (suffix country) as [|s0 ss] eqn:Esuf; [contradiction|].
  destruct (arrayElement_spec h s0 ss n1) as (legalSuffix & Hls & Hlin).
  rewrite (bind_Return _ _ _ _ _ Hls).
  destruct (bankNames country) as [|b0 bs] eqn:Ebank; [contradiction|].
  cbv beta iota delta [bind faker_text ret arrayElement].
  eexists; eexists; exists country, baseName, n1, legalSuffix.
  split; [reflexivity|]. split; [exact Hin|]. split; [exact Hbn|].
  split; [rewrite Esuf; exact Hlin|]. split; reflexivity.
Qed.

(** ** The number of an invoice, for the PDF *)

Lemma parse_digits_filter s :
  forall acc, exists z, parse_digits acc (string_filter is_digit s) = Some z.
Proof.
  induction s as [|c s IH]; intros acc; cbn [string_filter].
  - exists acc. reflexivity.
  - destruct (is_digit c) eqn:Hc; [|apply IH].
    cbn [parse_digits]. rewrite Hc. apply IH.
Qed.

Local Open Scope list_scope.
Local Open Scope string_scope.
Local Open Scope Z_scope.

(** ** Generation returns *)

Lemma num_sub_self x : finite64 x -> num_sub x x = S754_zero false.
Proof.
  intros [Hv Hf]. destruct x as [s|s| |s m e]; try discriminate.
  - destruct s; reflexivity.
  - unfold num_sub. cbn [SFsub]. rewrite Z.min_id.
    rewrite Z.sub_diag. reflexivity.
Qed.

Lemma num_sub_int a b :
  Z.abs a < 2 ^ 53 -> Z.abs b < 2 ^ 53 -> Z.abs (a - b) < 2 ^ 53 ->
  num_sub (ofZ a) (ofZ b) = ofZ (a - b).
Proof.
  intros Ha Hb Hab.
  destruct (ofZ_spec a ltac:(lia)) as (Hfa & Hva & _).
  destruct (ofZ_spec b ltac:(lia)) as (Hfb & Hvb & _).
  destruct (Z.eq_dec a b) as [->|Hne].
  - rewrite Z.sub_diag. apply num_sub_self. exact Hfb.
  - assert (HX : (SF2Q (ofZ a) - SF2Q (ofZ b) == inject_Z (a - b))%Q).
    { rewrite Hva, Hvb. unfold Z.sub. rewrite inject_Z_plus, inject_Z_opp. ring. }
    apply (rounds_int (SF2Q (ofZ a) - SF2Q (ofZ b))%Q); try assumption; try lia.
    apply SFsub_rounds; try assumption.
    rewrite HX, Qabs_inject_Z. apply (Qlt_trans _ (inject_Z (2 ^ 53))); [|exact pow2_53_lt_1023].
    rewrite <- Zlt_Qlt. lia.
Qed.

(** The number of whole days in a span of [D] milliseconds, as the generator
    computes it. *)
Lemma daysDiff_spec D :
  0 <= D <= 4 * 10 ^ 15 ->
  exists j, 0 <= j <= 50000000 /\
    Math_floor (num_div (ofZ D) msPerDayNumber) = ofZ j.
Proof.
  intros HD. change msPerDayNumber with (ofZ 86400000).
  destruct (Z.eq_dec D 0) as [->|Hne].
  { exists 0. split; [lia|]. vm_compute. reflexivity. }
  destruct (ofZ_spec D ltac:(lia)) as (Hfx & Hvx & _).
  destruct (ofZ_spec 86400000 ltac:(lia)) as (Hfy & Hvy & _).
  assert (HD1 : (1 <= inject_Z D)%Q) by (rewrite <- (Zle_Qle 1); lia).
  assert (HD2 : (inject_Z D <= 4000000000000000)%Q).
  { change 4000000000000000%Q with (inject_Z (4 * 10 ^ 15)). rewrite <- Zle_Qle. lia. }
  change (inject_Z 86400000) with 86400000%Q in Hvy.
  assert (HX : (SF2Q (ofZ D) / SF2Q (ofZ 86400000) == inject_Z D * (1 # 86400000))%Q).
  { rewrite Hvx, Hvy. field. }
  assert (HX0 : (0 <= SF2Q (ofZ D) / SF2Q (ofZ 86400000))%Q) by (rewrite HX; lra).
  assert (Hr : rounds (SF2Q (ofZ D) / SF2Q (ofZ 86400000))%Q (num_div (ofZ D) (ofZ 86400000))).
  { apply SFdiv_rounds.
    - exact (proj2 Hfx).
    - exact (proj2 Hfy).
    - rewrite Hvy. discriminate.
    - right. rewrite Qabs_pos by exact HX0. rewrite HX.
      apply (Qle_trans _ (1 # 86400000)); [qle|lra].
    - rewrite Qabs_pos by exact HX0. rewrite HX.
      apply (Qle_lt_trans _ 4000000000000000); [lra|reflexivity]. }
  set (q := num_div (ofZ D) (ofZ 86400000)) in *. clearbody q.
  assert (Hs : sgn q = false).
  { apply (rounds_pos_sgn _ _ Hr). rewrite HX. apply (Qle_trans _ (1 # 86400000)); [qle|lra]. }
  destruct (rounds_bounds _ _ Hr HX0) as [Hb1 Hb2].
  pose proof (rounds_finite _ _ Hr) as Hfq.
  rewrite HX in Hb1, Hb2.
  pose proof u_pos as Hu. pose proof u_lt_1 as Hu1. pose proof eta_pos as He.
  assert (He1 : (eta <= 1)%Q) by qle.
  assert (Hq2 : (SF2Q q <= 50000000)%Q).
  { assert ((inject_Z D * (1 # 86400000) * (1 + u) <= 46296298)%Q); [|lra].
    assert ((inject_Z D * (1 # 86400000) <= 46296297)%Q) by lra.
    apply (Qle_trans _ (46296297 * (1 + u))%Q).
    - apply Qmult_le_compat_r; lra.
    - qle. }
  assert (Hq0 : (0 <= SF2Q q)%Q) by (unfold SF2Q; rewrite Hs; apply mag_nonneg).
  destruct (floorZ_spec q (proj2 Hfq)) as [Hj1 Hj2].
  exists (floorZ q). split.
  - assert (H1 : (inject_Z (-1) < inject_Z (floorZ q))%Q).
    { change (inject_Z (-1)) with (-1)%Q. lra. }
    assert (H2 : (inject_Z (floorZ q) <= inject_Z 50000000)%Q).
    { change (inject_Z 50000000) with 50000000%Q. lra. }
    rewrite <- Zlt_Qlt in H1. rewrite <- Zle_Qle in H2. lia.
  - apply Math_floor_ofZ; [exact Hfq|exact Hs|].
    apply (Qle_lt_trans _ 50000000); [exact Hq2|reflexivity].
Qed.

Lemma randomBetween_returns h a b n :
  0 <= a -> a <= b -> b < 2 ^ 30 ->
  exists k, a <= k <= b /\ randomBetween h (ofZ a) (ofZ b) n = Return (ofZ k, S n).
Proof.
  intros Ha Hab Hb.
  destruct (randomBetween_spec h a b (b - a + 1) n) as (j & Hj & Hr).
  - rewrite num_sub_int by lia. apply num_add_nonneg_int; lia.
  - lia.
  - lia.
  - exists (j + a). split; [lia|exact Hr].
Qed.

(** For a range of dates in order, [generateInvoice] returns an invoice. *)
Lemma generateInvoice_returns h s e sup cus sequence direction n :
  fixed_offset h ->
  Z.abs s <= 4 * 10 ^ 15 -> 0 <= e - s <= 4 * 10 ^ 15 ->
  exists inv n',
    generateInvoice h (Some s) (Some e) sup cus sequence direction n = Return (inv, n').
Proof.
  intros Hfix Hs He. unfold generateInvoice. cbn [getTime].
  rewrite num_sub_int by lia.
  destruct (daysDiff_spec (e - s) He) as (j & Hj & ->).
  destruct (randomBetween_returns h 0 j n ltac:(lia) ltac:(lia) ltac:(lia)) as (i & Hi & Hr1).
  rewrite (bind_Return _ _ _ _ _ Hr1).
  destruct (randomBetween_returns h 14 30 (S n) ltac:(lia) ltac:(lia) ltac:(lia)) as (k & Hk & Hr2).
  rewrite (bind_Return _ _ _ _ _ Hr2).
  destruct (randomBetween_returns h 1 5 (S (S n)) ltac:(lia) ltac:(lia) ltac:(lia))
    as (c & Hc & Hr3).
  rewrite (bind_Return _ _ _ _ _ Hr3).
  destruct (generateInvoiceItems_spec h c (S (S (S n))) ltac:(lia)) as (its & n4 & Hits & _).
  rewrite (bind_Return _ _ _ _ _ Hits).
  rewrite (addDays_Some h s i Hfix) by lia.
  rewrite (TimeClip_Some (s + i * msPerDay)) by (unfold msPerDay; lia).
  rewrite (addDays_Some h _ k Hfix) by lia.
  rewrite (TimeClip_Some (s + i * msPerDay + k * msPerDay)) by (unfold msPerDay; lia).
  rewrite !formatDate_Some.
  cbv beta iota delta [bind uuidv4 faker_text lift ret].
  eexists; eexists. reflexivity.
Qed.

Local Open Scope list_scope.
Local Open Scope string_scope.
Local Open Scope Z_scope.

(** * The properties of the specification *)

Lemma sgn_signed direction x :
  is_finite x = true -> sgn x = false ->
  sgn (signed direction x) = direction_eqb direction payables.
Proof.
  intros Hf Hs. destruct direction; cbn [signed direction_eqb]; [|exact Hs].
  destruct x as [s|s| |s m e]; try discriminate; cbn [sgn SFopp] in *; subst s; reflexivity.
Qed.

Lemma sum_items_fold its :
  forall s t,
    sum_items its s t =
    (fold_left (fun acc it => num_add acc (item_subtotal it)) its s,
     fold_left (fun acc it => num_add acc (item_tax it)) its t).
Proof.
  induction its as [|it its IH]; intros s t; cbn [sum_items fold_left]; [reflexivity|].
  rewrite IH. reflexivity.
Qed.

Lemma calculateInvoiceTotals_sums its :
  totals_subtotal (calculateInvoiceTotals its) = round2 (sum_of item_subtotal its) /\
  totals_taxTotal (calculateInvoiceTotals its) = round2 (sum_of item_tax its) /\
  totals_total (calculateInvoiceTotals its)
  = round2 (num_add (sum_of item_subtotal its) (sum_of item_tax its)).
Proof.
  unfold calculateInvoiceTotals. rewrite sum_items_fold.
  repeat split.
Qed.

(** C1. For every test case of type [fx_gain] generated with direction
    [receivables]: the rate drawn is one of 0.95, 0.96, 0.97, 0.98 and 0.99;
    the amount of the transaction is the invoice total multiplied by
    [2 - rate], rounded to two decimals after the multiplication; the recorded
    magnitude is that amount; its sign is positive; and it is greater than
    the invoice total. *)
Theorem fx_gain_receivables_amount h range_start range_end our sequence n tc n' :
  generateTestCase h fx_gain receivables range_start range_end our sequence n
  = Return (tc, n') ->
  exists r,
    95 <= r <= 99 /\ fxRate (metadata tc) = Some (cents r) /\
    amount_eur (transaction tc)
    = round2 (num_mul (total (invoice tc)) (num_sub (ofZ 2) (cents r))) /\
    adjustedAmount (metadata tc) = amount_eur (transaction tc) /\
    sgn (amount_eur (transaction tc)) = false /\
    num_lt (total (invoice tc)) (amount_eur (transaction tc)) = true.
Proof.
  intros H.
  destruct (generateTestCase_inv _ _ _ _ _ _ _ _ _ _ H)
    as (_ & _ & _ & _ & (other & Hinv) & n1 & n2 & Htx).
  destruct (invoice_generated_totals _ _ _ Hinv) as (c1 & c2 & c & _ & _ & Ec & _ & _ & Hc & _).
  exact (fx_gain_transaction h _ n1 _ _ n2 c ltac:(lia) Ec Htx).
Qed.

Lemma fx_gain_receivables_sample :
  generateTestCase sample_host fx_gain receivables sample_start sample_end
    DEFAULT_COMPANY (ofZ 100) 0%nat = Return (sample_fx_case, sample_fx_next) /\
  exists r,
    95 <= r <= 99 /\ fxRate (metadata sample_fx_case) = Some (cents r) /\
    amount_eur (transaction sample_fx_case)
    = round2 (num_mul (total (invoice sample_fx_case)) (num_sub (ofZ 2) (cents r))) /\
    adjustedAmount (metadata sample_fx_case) = amount_eur (transaction sample_fx_case) /\
    sgn (amount_eur (transaction sample_fx_case)) = false /\
    num_lt (total (invoice sample_fx_case)) (amount_eur (transaction sample_fx_case)) = true.
Proof.
  split; [vm_compute; reflexivity|].
  apply (fx_gain_receivables_amount sample_host sample_start sample_end DEFAULT_COMPANY
           (ofZ 100) 0%nat sample_fx_case sample_fx_next).
  vm_compute; reflexivity.
Defined.

(** C2. For every test case of a discount type of [k] per cent, in either
    direction: the adjusted amount of the metadata is the invoice total
    multiplied by [1 - k/100] and rounded to two decimals, the discount
    percentage recorded is [k], and the amount of the transaction is that
    magnitude with a negative sign for payables and a positive sign for
    receivables.  For a payable of total 10000.00 and a discount of 2 per
    cent the amount is -9800.00. *)
Theorem discount_amounts h type k direction range_start range_end our sequence n tc n'
    inv m tx md m' :
  discount_percent type = Some k ->
  generateTestCase h type direction range_start range_end our sequence n = Return (tc, n') ->
  total inv = ofZ 10000 ->
  generateTransaction h inv discount_2_percent payables m = Return ((tx, md), m') ->
  let adjusted :=
    round2 (num_mul (total (invoice tc)) (num_sub (ofZ 1) (num_div (ofZ k) (ofZ 100)))) in
  (adjustedAmount (metadata tc) = adjusted /\
   discountPercent (metadata tc) = Some (ofZ k) /\
   amount_eur (transaction tc) = signed direction adjusted /\
   sgn adjusted = false /\
   sgn (amount_eur (transaction tc)) = direction_eqb direction payables) /\
  amount_eur tx = ofZ (-9800) /\ discountPercent md = Some (ofZ 2).
Proof.
  intros Hk H Htot Hex adjusted. split.
  - destruct (generateTestCase_inv _ _ _ _ _ _ _ _ _ _ H)
      as (_ & _ & _ & _ & (other & Hinv) & n1 & n2 & Htx).
    destruct (invoice_generated_totals _ _ _ Hinv) as (c1 & c2 & c & _ & _ & Ec & _ & _ & Hc & _).
    destruct (discount_transaction h _ type k direction n1 _ _ n2 c Hk ltac:(lia) Ec Htx)
      as (Ha & Hd & Hamt & a & Ha0 & Eadj).
    fold adjusted in Ha, Hamt, Eadj.
    destruct (cents_within a ltac:(lia)) as ((_ & Hfin) & Hsgn & _).
    rewrite <- Eadj in Hfin, Hsgn.
    split; [exact Ha|]. split; [exact Hd|]. split; [exact Hamt|]. split; [exact Hsgn|].
    rewrite Hamt. apply sgn_signed; assumption.
  - assert (Ec : total inv = cents 1000000) by (rewrite Htot; vm_compute; reflexivity).
    destruct (discount_transaction h inv discount_2_percent 2 payables m tx md m' 1000000
                eq_refl ltac:(lia) Ec Hex) as (_ & Hd & Hamt & _).
    split; [|exact Hd]. rewrite Hamt, Htot. vm_compute. reflexivity.
Qed.

Lemma discount_amounts_sample :
  let tc := sample_discount_case in
  let adjusted :=
    round2 (num_mul (total (invoice tc)) (num_sub (ofZ 1) (num_div (ofZ 2) (ofZ 100)))) in
  (adjustedAmount (metadata tc) = adjusted /\
   discountPercent (metadata tc) = Some (ofZ 2) /\
   amount_eur (transaction tc) = signed payables adjusted /\
   sgn adjusted = false /\
   sgn (amount_eur (transaction tc)) = direction_eqb payables payables) /\
  amount_eur sample_10000_transaction = ofZ (-9800) /\
  discountPercent sample_10000_metadata = Some (ofZ 2).
Proof.
  apply (discount_amounts sample_host discount_2_percent 2 payables sample_start sample_end
           DEFAULT_COMPANY (ofZ 100) 0%nat sample_discount_case sample_discount_next
           invoice_10000 0%nat sample_10000_transaction sample_10000_metadata sample_10000_next).
  - reflexivity.
  - vm_compute; reflexivity.
  - reflexivity.
  - vm_compute; reflexivity.
Defined.

Local Open Scope list_scope.
Local Open Scope string_scope.
Local Open Scope Z_scope.




(** C4. For every generated invoice: the subtotal is the sum over the items
    of quantity times price, rounded to two decimals; the tax total is the sum
    over the items of the item subtotal times the tax rate divided by 100,
    rounded to two decimals; the total is the sum of the two unrounded sums,
    rounded to two decimals; and, the three being rounded independently, the
    total is within one cent of subtotal plus tax total.  One unit at 20.50
    taxed at 19 per cent gives 20.50, 3.90 and 24.39: the total may differ. *)
Theorem invoice_totals_rounded h range_start range_end sup cus sequence direction n inv n' :
  generateInvoice h range_start range_end sup cus sequence direction n = Return (inv, n') ->
  subtotal inv = round2 (sum_of item_subtotal (items inv)) /\
  taxTotal inv = round2 (sum_of item_tax (items inv)) /\
  total inv
  = round2 (num_add (sum_of item_subtotal (items inv)) (sum_of item_tax (items inv))) /\
  (exists n1 n2 n3,
     subtotal inv = cents n1 /\ taxTotal inv = cents n2 /\ total inv = cents n3 /\
     0 <= n1 /\ 0 <= n2 /\ 0 <= n3 /\ Z.abs (n3 - (n1 + n2)) <= 1) /\
  (totals_subtotal (calculateInvoiceTotals [odd_cent_item]) = cents 2050 /\
   totals_taxTotal (calculateInvoiceTotals [odd_cent_item]) = cents 390 /\
   totals_total (calculateInvoiceTotals [odd_cent_item]) = cents 2439).
Proof.
  intros H. pose proof (generateInvoice_inv _ _ _ _ _ _ _ _ _ _ H) as Hinv.
  destruct (invoice_generated_totals _ _ _ Hinv)
    as (n1 & n2 & n3 & E1 & E2 & E3 & R1 & R2 & R3 & Hd).
  destruct Hinv as (_ & _ & _ & _ & _ & Es & Et & Eo).
  destruct (calculateInvoiceTotals_sums (items inv)) as (S1 & S2 & S3).
  split; [rewrite Es; exact S1|]. split; [rewrite Et; exact S2|].
  split; [rewrite Eo; exact S3|]. split.
  - exists n1, n2, n3. repeat split; try assumption; lia.
  - repeat split; vm_compute; reflexivity.
Qed.

Lemma invoice_totals_sample :
  generateInvoice sample_host sample_start sample_end DEFAULT_COMPANY DEFAULT_COMPANY
    (ofZ 100) payables 0%nat = Return (sample_invoice, sample_invoice_next) /\
  subtotal sample_invoice = round2 (sum_of item_subtotal (items sample_invoice)) /\
  taxTotal sample_invoice = round2 (sum_of item_tax (items sample_invoice)) /\
  total sample_invoice
  = round2 (num_add (sum_of item_subtotal (items sample_invoice))
                    (sum_of item_tax (items sample_invoice))) /\
  (exists n1 n2 n3,
     subtotal sample_invoice = cents n1 /\ taxTotal sample_invoice = cents n2 /\
     total sample_invoice = cents n3 /\
     0 <= n1 /\ 0 <= n2 /\ 0 <= n3 /\ Z.abs (n3 - (n1 + n2)) <= 1) /\
  (totals_subtotal (calculateInvoiceTotals [odd_cent_item]) = cents 2050 /\
   totals_taxTotal (calculateInvoiceTotals [odd_cent_item]) = cents 390 /\
   totals_total (calculateInvoiceTotals [odd_cent_item]) = cents 2439).
Proof.
  split; [vm_compute; reflexivity|].
  apply (invoice_totals_rounded sample_host sample_start sample_end DEFAULT_COMPANY
           DEFAULT_COMPANY (ofZ 100) payables 0%nat sample_invoice sample_invoice_next).
  vm_compute; reflexivity.
Defined.

(** C5, as the code has it. For every generated test suite, the CSV text
    is the header line [date;counterparty;description;amount_eur] followed
    by one row per test case, a group case giving one row, so that there are
    as many rows as cases asked for; the date field of the row of a case is
    the date of its transaction; rows of equal date keep the order of
    generation; the rows are in ascending order of their date field under
    [localeCompare]; and, when the dates of the transactions are texts of
    the fixed width of ten characters, [YYYY-MM-DD] (years 0 to 9999), the
    rows are in ascending order of their date field compared as strings. *)
Theorem csv_rows_sorted h fuel now configs direction start' end' overrides n suite n' :
  generateTestSuite h fuel now configs direction start' end' overrides n
  = Return (suite, n') ->
  csv_header = "date;counterparty;description;amount_eur" /\
  requested configs = Some (List.length (cases suite)) /\
  (forall tc, In tc (cases suite) -> row_key (csv_row h tc) = tx_date (transaction tc)) /\
  exists rows,
    csvContent suite = String.concat newline (csv_header :: rows) /\
    List.length rows = List.length (cases suite) /\
    Permutation rows (map (csv_row h) (cases suite)) /\
    (forall d, rows_dated d rows = rows_dated d (map (csv_row h) (cases suite))) /\
    StronglySorted rows_collated rows /\
    (Forall (fun tc => fixed_width_date (tx_date (transaction tc))) (cases suite) ->
     StronglySorted rows_le rows).
Proof.
  intros H. destruct (generateTestSuite_inv _ _ _ _ _ _ _ _ _ _ _ H) as (_ & Hcsv & HF & Hlen).
  assert (Hdates : Forall (fun tc => exists t, tx_date (transaction tc) = date_text t)
                     (cases suite)).
  { eapply Forall_impl; [|exact HF]. intros tc (_ & _ & _ & Ht). exact Ht. }
  split; [reflexivity|]. split; [exact Hlen|]. split.
  - intros tc Hin.
    destruct (proj1 (Forall_forall _ _) Hdates tc Hin) as (t & Ht).
    rewrite Ht. apply row_key_csv_row. exact Ht.
  - rewrite Hcsv.
    destruct (generateCSV_spec h (cases suite) Hdates)
      as (rows & H1 & H2 & H3 & H4 & H5 & H6).
    exists rows. split; [exact H1|]. split; [exact H2|]. split; [exact H3|].
    split; [exact H6|]. split; [exact H4|exact H5].
Qed.

Lemma csv_rows_sample :
  generateTestSuite sample_host 0 sample_now sample_configs payables "2025-01-01" "2025-12-31"
    None 0%nat = Return (sample_suite, sample_suite_next) /\
  Forall (fun tc => fixed_width_date (tx_date (transaction tc))) (cases sample_suite) /\
  csv_header = "date;counterparty;description;amount_eur" /\
  requested sample_configs = Some (List.length (cases sample_suite)) /\
  (forall tc, In tc (cases sample_suite) ->
     row_key (csv_row sample_host tc) = tx_date (transaction tc)) /\
  exists rows,
    csvContent sample_suite = String.concat newline (csv_header :: rows) /\
    List.length rows = List.length (cases sample_suite) /\
    Permutation rows (map (csv_row sample_host) (cases sample_suite)) /\
    (forall d,
       rows_dated d rows = rows_dated d (map (csv_row sample_host) (cases sample_suite))) /\
    StronglySorted rows_collated rows /\
    (Forall (fun tc => fixed_width_date (tx_date (transaction tc))) (cases sample_suite) ->
     StronglySorted rows_le rows).
Proof.
  split; [vm_compute; reflexivity|]. split; [repeat constructor|].
  apply (csv_rows_sorted sample_host 0%nat sample_now sample_configs payables "2025-01-01"
           "2025-12-31" None 0%nat sample_suite sample_suite_next).
  vm_compute; reflexivity.
Defined.

(** C5, as claimed for every suite, fails when the dates reach before the
    year 0 and after the year 9999: [localeCompare] puts the hyphen before
    the plus sign, the order of strings the plus sign before the hyphen.
    The suite of two cases made on a host in UTC for the range from
    -000001-01-01 to +010001-12-31 has its rows in the order of generation,
    the row dated -000001-01-08 before the row dated +010002-01-07, which
    is not their order as strings. *)
Lemma far_dates_unsorted :
  generateTestSuite far_host 0 sample_now [config_of perfect_match 2] payables
    "-000001-01-01" "+010001-12-31" None 0%nat = Return (far_suite, far_suite_next) /\
  map (fun tc => tx_date (transaction tc)) (cases far_suite)
  = ["-000001-01-08"; "+010002-01-07"] /\
  csvContent far_suite
  = String.concat newline (csv_header :: map (csv_row far_host) (cases far_suite)) /\
  ~ text_le "-000001-01-08" "+010002-01-07" /\
  ~ StronglySorted rows_le (map (csv_row far_host) (cases far_suite)).
Proof.
  split; [vm_compute; reflexivity|]. split; [vm_compute; reflexivity|].
  split; [vm_compute; reflexivity|].
  assert (Hnot : ~ text_le "-000001-01-08" "+010002-01-07").
  { intros H. apply H. vm_compute. reflexivity. }
  split; [exact Hnot|].
  intros HS.
  assert (E : exists r1 r2,
            map (csv_row far_host) (cases far_suite) = [r1; r2] /\
            row_key r1 = "-000001-01-08" /\ row_key r2 = "+010002-01-07").
  { eexists; eexists. split; [vm_compute; reflexivity|]. split; vm_compute; reflexivity. }
  destruct E as (r1 & r2 & E & K1 & K2). rewrite E in HS.
  inversion HS as [|? ? _ Hall]; subst.
  inversion Hall as [|? ? Hle _]; subst.
  unfold rows_le in Hle. rewrite K1, K2 in Hle. exact (Hnot Hle).
Qed.




Local Open Scope list_scope.
Local Open Scope string_scope.
Local Open Scope Z_scope.

Lemma post_generate_incomplete b :
  request_incomplete b ->
  exists message, forall h fuel now n,
    post_generate h fuel now b n = Some {| status := 400; body := ErrorBody message |}.
Proof.
  unfold request_incomplete, post_generate, truthy_text.
  intros [H|[H|[H|(r & Hr & H)]]].
  - rewrite H. eexists. reflexivity.
  - rewrite H. eexists. reflexivity.
  - rewrite H. destruct (body_cases b) as [[|c cs]|]; eexists; reflexivity.
  - rewrite Hr. destruct (body_cases b) as [[|c cs]|]; try (eexists; reflexivity).
    destruct H as [H|[H|[H|H]]]; rewrite H;
      try (eexists; reflexivity);
      destruct (range_start_text r) as [[|a s]|]; eexists; reflexivity.
Qed.

Lemma post_generate_complete h fuel now b n r :
  ~ request_incomplete b ->
  post_generate h fuel now b n = Some r -> status r = 200 \/ status r = 500.
Proof.
  unfold request_incomplete, post_generate, truthy_text. intros Hc.
  destruct (body_cases b) as [[|c cs]|]; [exfalso; apply Hc; tauto| |exfalso; apply Hc; tauto].
  destruct (body_dateRange b) as [rg|]; [|exfalso; apply Hc; tauto].
  destruct (range_start_text rg) as [[|a s]|] eqn:Es;
    [exfalso; apply Hc; right; right; right; exists rg; tauto
    | |exfalso; apply Hc; right; right; right; exists rg; tauto].
  destruct (range_end_text rg) as [[|a' s']|] eqn:Ee;
    [exfalso; apply Hc; right; right; right; exists rg; tauto
    | |exfalso; apply Hc; right; right; right; exists rg; tauto].
  destruct (generateTestSuite _ _ _ _ _ _ _ _ _) as [[suite m]|e|]; intros E;
    [left|right|discriminate E];
    apply (f_equal (fun o => match o with Some x => status x | None => 0 end)) in E;
    symmetry; exact E.
Qed.

Lemma request_incomplete_dec b : request_incomplete b \/ ~ request_incomplete b.
Proof.
  unfold request_incomplete.
  destruct (body_cases b) as [[|c cs]|]; [left; tauto| |left; tauto].
  destruct (body_dateRange b) as [r|]; [|left; tauto].
  destruct (range_start_text r) as [[|a s]|] eqn:Es;
    [left; right; right; right; exists r; tauto
    | |left; right; right; right; exists r; tauto].
  destruct (range_end_text r) as [[|a' s']|] eqn:Ee;
    [left; right; right; right; exists r; tauto
    | |left; right; right; right; exists r; tauto].
  right. intros [H|[H|[H|(r' & Hr & H)]]]; try discriminate H.
  injection Hr as <-. rewrite Es, Ee in H.
  destruct H as [H|[H|[H|H]]]; discriminate H.
Qed.

(** C7, as the handler has it. A request is answered with status 400 exactly
    when it is incomplete: the case list is missing or empty, or the date
    range, its start or its end is missing or empty.  The answer to an
    incomplete request is made before any generation begins: it depends
    neither on the host nor on its draws.  Every other request goes on to
    generation, whatever its dates are: when it is answered, it is with
    status 200 or 500. *)
Theorem post_generate_rejects h fuel now b n :
  ((exists r, post_generate h fuel now b n = Some r /\ status r = 400)
   <-> request_incomplete b) /\
  (request_incomplete b ->
   forall h' fuel' now' n',
     post_generate h' fuel' now' b n' = post_generate h fuel now b n) /\
  (~ request_incomplete b ->
   forall r, post_generate h fuel now b n = Some r -> status r = 200 \/ status r = 500).
Proof.
  split; [|split].
  - split.
    + intros (r & Hr & H400). destruct (request_incomplete_dec b) as [Hi|Hc]; [exact Hi|].
      destruct (post_generate_complete h fuel now b n r Hc Hr) as [E|E];
        rewrite E in H400; discriminate H400.
    + intros Hi. destruct (post_generate_incomplete b Hi) as (message & Hm).
      eexists. split; [apply Hm|reflexivity].
  - intros Hi h' fuel' now' n'. destruct (post_generate_incomplete b Hi) as (message & Hm).
    rewrite !Hm. reflexivity.
  - intros Hc r. apply post_generate_complete. exact Hc.
Qed.

(** C7, as claimed, fails: a request whose range ends before it starts is
    answered with status 200 and a suite of the two cases asked for, and a
    request whose dates cannot be read is answered with status 500. *)
Lemma backwards_request_accepted :
  (exists s e, Date_parse sample_host "2025-12-31" = Some s /\
               Date_parse sample_host "2025-01-01" = Some e /\ e < s) /\
  (exists suite,
     post_generate sample_host 0 sample_now backwards_request 5
     = Some {| status := 200; body := SuiteBody suite |} /\
     List.length (cases suite) = 2%nat) /\
  post_generate sample_host 0 sample_now unparsable_request 5
  = Some {| status := 500; body := ErrorBody "Failed to generate test cases" |}.
Proof.
  split; [|split].
  - eexists; eexists. split; [vm_compute; reflexivity|]. split; [vm_compute; reflexivity|].
    reflexivity.
  - eexists. split; [vm_compute; reflexivity|]. reflexivity.
  - vm_compute. reflexivity.
Qed.


(** C9, as the code has it. The number of the PDF data is read from the
    decimal digits of the invoice number taken together, with no fallback:
    it is NaN when the invoice number holds no digit; and the handler
    answers with status 200 in either case. *)
Theorem pdf_number_spec h inv :
  exists z,
    parse_digits 0 (string_filter is_digit (inv_number inv)) = Some z /\
    pdf_number (pdf_invoice (invoiceToPDFData h inv))
    = (if String.eqb (string_filter is_digit (inv_number inv)) "" then NaN else ofZ z) /\
    post_invoice_pdf_data h (Some inv)
    = {| status := 200; body := PdfBody (invoiceToPDFData h inv) |}.
Proof.
  destruct (parse_digits_filter (inv_number inv) 0) as (z & Hz).
  exists z. split; [exact Hz|]. split; [|reflexivity].
  unfold invoiceToPDFData. lazy beta iota zeta delta [pdf_invoice pdf_number].
  unfold parseInt_digits. rewrite Hz.
  destruct (string_filter is_digit (inv_number inv)); reflexivity.
Qed.

(** C9, as claimed, fails: for an invoice numbered [DRAFT] the number of the
    PDF data is NaN, which is no number, and it is sent with status 200. *)
Lemma draft_invoice_number :
  pdf_number (pdf_invoice (invoiceToPDFData sample_host draft_invoice)) = NaN /\
  is_finite (pdf_number (pdf_invoice (invoiceToPDFData sample_host draft_invoice))) = false /\
  post_invoice_pdf_data sample_host (Some draft_invoice)
  = {| status := 200; body := PdfBody (invoiceToPDFData sample_host draft_invoice) |}.
Proof. repeat split. Qed.

(** C10. For every request without the [myCompany] field, answered with a
    suite: the [customerCompany] field is not read, the response being that
    of the request without it; and the caller's own company, on every
    invoice of every case of the suite, is the default company. *)
Theorem customerCompany_ignored h fuel now b n suite :
  body_myCompany b = None ->
  post_generate h fuel now b n = Some {| status := 200; body := SuiteBody suite |} ->
  post_generate h fuel now (without_customerCompany b) n = post_generate h fuel now b n /\
  Forall (fun tc =>
            own_company (tc_direction tc) (invoice tc) = DEFAULT_COMPANY /\
            forall invs, invoices tc = Some invs ->
              Forall (fun inv => own_company (tc_direction tc) inv = DEFAULT_COMPANY) invs)
         (cases suite).
Proof.
  intros Hmy H. split; [reflexivity|].
  unfold post_generate in H. rewrite Hmy in H.
  destruct (body_cases b) as [[|c cs]|]; try discriminate H.
  destruct (body_dateRange b) as [r|]; try discriminate H.
  destruct (truthy_text (range_start_text r)) as [s|]; try discriminate H.
  destruct (truthy_text (range_end_text r)) as [e|]; try discriminate H.
  destruct (generateTestSuite _ _ _ _ _ _ _ _ _) as [[suite' m]|err|] eqn:Hg;
    try discriminate H.
  assert (Hs : suite' = suite).
  { exact (f_equal (fun o => match o with
                             | Some r => match body r with SuiteBody x => x | _ => suite' end
                             | None => suite'
                             end) H). }
  subst suite'.
  destruct (generateTestSuite_inv _ _ _ _ _ _ _ _ _ _ _ Hg) as (_ & _ & HF & _).
  eapply Forall_impl; [|exact HF].
  intros tc (Hd & Hown & Hall & _). rewrite Hd. split; [exact Hown|exact Hall].
Qed.

Lemma customerCompany_sample :
  body_customerCompany override_request = Some globex /\
  post_generate sample_host 0 sample_now (without_customerCompany override_request) 0
  = post_generate sample_host 0 sample_now override_request 0 /\
  Forall (fun tc =>
            own_company (tc_direction tc) (invoice tc) = DEFAULT_COMPANY /\
            forall invs, invoices tc = Some invs ->
              Forall (fun inv => own_company (tc_direction tc) inv = DEFAULT_COMPANY) invs)
         (cases override_suite).
Proof.
  split; [reflexivity|].
  apply (customerCompany_ignored sample_host 0%nat sample_now override_request 0
           override_suite).
  - reflexivity.
  - vm_compute; reflexivity.
Defined.

Local Open Scope list_scope.
Local Open Scope Z_scope.
Local Open Scope Q_scope.

(** * Further lemmas: utilities *)

(** The rate [randomFloat(1.01, 1.05)] of an FX loss. *)
Lemma randomFloat_loss h n :
  exists k, (101 <= k <= 105)%Z /\
    randomFloat h (of_decimal false 101 2) (of_decimal false 105 2) 2 n = Return (cents k, S n).
Proof.
  unfold randomFloat, bind, Math_random, ret.
  destruct (randomFloat_core (host_random h n)
             (num_sub (of_decimal false 105 2) (of_decimal false 101 2)) (of_decimal false 101 2)
             (401 # 10000) (10099 # 10000) (10101 # 10000) 101 105) as (k & Hk & Hk0 & Heq).
  - apply ud_ok.
  - within_closed.
  - within_closed.
  - discriminate.
  - reflexivity.
  - qle.
  - qlt.
  - exists k. split; [lia|]. unfold cents. rewrite Heq. reflexivity.
Qed.

(** The factor [randomFloat(0.99, 1.01)] of an amount mismatch. *)
Lemma randomFloat_mismatch h n :
  exists k, (99 <= k <= 101)%Z /\
    randomFloat h (of_decimal false 99 2) (of_decimal false 101 2) 2 n = Return (cents k, S n).
Proof.
  unfold randomFloat, bind, Math_random, ret.
  destruct (randomFloat_core (host_random h n)
             (num_sub (of_decimal false 101 2) (of_decimal false 99 2)) (of_decimal false 99 2)
             (201 # 10000) (9899 # 10000) (9901 # 10000) 99 101) as (k & Hk & Hk0 & Heq).
  - apply ud_ok.
  - within_closed.
  - within_closed.
  - discriminate.
  - reflexivity.
  - qle.
  - qlt.
  - exists k. split; [lia|]. unfold cents. rewrite Heq. reflexivity.
Qed.

(** Rounding a two-decimal amount to two decimals gives it back. *)
Lemma round2_cents n : (0 <= n <= 10 ^ 11)%Z -> round2 (cents n) = cents n.
Proof.
  intros Hn.
  pose proof (cents_within n ltac:(lia)) as Hw.
  assert (Hq0 : 0 <= inject_Z n) by (rewrite <- (Zle_Qle 0); lia).
  assert (Hq1 : inject_Z n <= inject_Z (10 ^ 11)) by (rewrite <- Zle_Qle; lia).
  change (inject_Z (10 ^ 11)) with 100000000000 in Hq1.
  assert (E : inject_Z n / 100 == inject_Z n * (1 # 100)) by field.
  assert (Ht : tol == 1 # 100000) by reflexivity.
  destruct (round2_abs 0 (inject_Z n / 100 + tol) (cents n)) as (m & Hm & Heq & Hlo & Hhi & _).
  - apply (within_raise0 _ _ _ Hw).
  - apply Qle_refl.
  - lra.
  - unfold round2. rewrite Heq. f_equal.
    destruct Hw as (_ & _ & Hv1 & Hv2).
    assert (n <= m <= n)%Z; [|lia].
    apply (cents_bracket m (SF2Q (cents n)) (inject_Z n / 100 - tol) (inject_Z n / 100 + tol));
      try assumption.
    + unfold Z.sub. rewrite inject_Z_plus, inject_Z_opp, inject_Z_mult.
      change (inject_Z 2) with 2. change (inject_Z 1) with 1. lra.
    + rewrite inject_Z_plus, inject_Z_mult. change (inject_Z 2) with 2.
      change (inject_Z 1) with 1. lra.
Qed.

Local Open Scope list_scope.
Local Open Scope string_scope.
Local Open Scope Z_scope.

(** * Further lemmas: the decimal text of integers *)

Ltac digit_value_eval :=
  match goal with
  | |- context [digit_value ?c] =>
      let v := eval vm_compute in (digit_value c) in change (digit_value c) with v
  end.

Ltac digit_step IH acc k :=
  cbn [NilEmpty.string_of_uint parse_digits];
  change (is_digit _) with true; cbv iota;
  replace (10 * Z.pos acc + digit_value _) with (Z.pos (k + 10 * acc))
    by (digit_value_eval; lia);
  apply IH.

Lemma parse_uint_acc u :
  forall acc, parse_digits (Z.pos acc) (NilEmpty.string_of_uint u)
              = Some (Z.pos (Pos.of_uint_acc u acc)).
Proof.
  induction u as [|u IH|u IH|u IH|u IH|u IH|u IH|u IH|u IH|u IH|u IH]; intros acc;
    cbn [Pos.of_uint_acc].
  - reflexivity.
  - cbn [NilEmpty.string_of_uint parse_digits].
    change (is_digit _) with true; cbv iota.
    replace (10 * Z.pos acc + digit_value _) with (Z.pos (10 * acc))
      by (digit_value_eval; lia).
    apply IH.
  - digit_step IH acc 1%positive.
  - digit_step IH acc 2%positive.
  - digit_step IH acc 3%positive.
  - digit_step IH acc 4%positive.
  - digit_step IH acc 5%positive.
  - digit_step IH acc 6%positive.
  - digit_step IH acc 7%positive.
  - digit_step IH acc 8%positive.
  - digit_step IH acc 9%positive.
Qed.

Lemma parse_uint u :
  parse_digits 0 (NilEmpty.string_of_uint u) = Some (Z.of_N (Pos.of_uint u)).
Proof.
  induction u as [|u IH|u IH|u IH|u IH|u IH|u IH|u IH|u IH|u IH|u IH];
    cbn [Pos.of_uint NilEmpty.string_of_uint parse_digits];
    try reflexivity; try exact IH;
    change (is_digit _) with true; cbv iota; apply parse_uint_acc.
Qed.

(** Reading the decimal text of a natural number gives the number back. *)
Lemma parse_Z_to_string z : 0 <= z -> parse_digits 0 (Z_to_string z) = Some z.
Proof.
  intros Hz. destruct z as [|p|p]; [reflexivity| |lia].
  unfold Z_to_string. cbn [Z.to_int NilZero.string_of_int].
  pose proof (DecimalPos.Unsigned.to_uint_nonnil p) as Hnil.
  pose proof (DecimalPos.Unsigned.of_to p) as Hp.
  unfold NilZero.string_of_uint.
  destruct (Pos.to_uint p) eqn:E; try congruence;
    rewrite parse_uint, Hp; reflexivity.
Qed.

Lemma parse_digits_app a :
  forall acc b,
    parse_digits acc (a ++ b)
    = match parse_digits acc a with Some v => parse_digits v b | None => None end.
Proof.
  induction a as [|c a IH]; intros acc b; cbn [append parse_digits]; [reflexivity|].
  destruct (is_digit c); [apply IH|reflexivity].
Qed.

Lemma parse_digits_all s :
  forall acc v, parse_digits acc s = Some v -> string_filter is_digit s = s.
Proof.
  induction s as [|c s IH]; intros acc v H; cbn [string_filter parse_digits] in *;
    [reflexivity|].
  destruct (is_digit c); [|discriminate]. f_equal. exact (IH _ _ H).
Qed.

Lemma string_length_app a b :
  String.length (a ++ b) = (String.length a + String.length b)%nat.
Proof. induction a as [|c a IH]; cbn [append String.length]; [reflexivity|]. rewrite IH. reflexivity. Qed.

Lemma string_filter_app p a b :
  string_filter p (a ++ b) = string_filter p a ++ string_filter p b.
Proof.
  induction a as [|c a IH]; cbn [append string_filter]; [reflexivity|].
  destruct (p c); cbn [append]; rewrite IH; reflexivity.
Qed.

(** The digits of the text of an integer are the text of its magnitude. *)
Lemma digits_Z_to_string z : string_filter is_digit (Z_to_string z) = Z_to_string (Z.abs z).
Proof.
  destruct z as [|p|p].
  - reflexivity.
  - apply (parse_digits_all _ 0 (Z.pos p)), parse_Z_to_string. lia.
  - change (Z_to_string (Z.neg p)) with (String "-" (Z_to_string (Z.pos p))).
    cbn [string_filter Z.abs]. change (is_digit "-") with false. cbv iota.
    apply (parse_digits_all _ 0 (Z.pos p)), parse_Z_to_string. lia.
Qed.

Lemma parse_fixed_width_4_acc acc n :
  0 <= n <= 9999 -> parse_digits acc (fixed_width 4 n) = Some (acc * 10000 + n).
Proof.
  intros H. rewrite fixed_width_4, !parse_digits_step by apply mod10_range.
  cbn [parse_digits]. f_equal. Z.div_mod_to_equations. lia.
Qed.

(** ** The text of an integer-valued number *)

Lemma is_integer_int x k :
  is_finite x = true -> (SF2Q x == inject_Z k)%Q -> is_integer x = true.
Proof.
  intros Hf Hk. destruct x as [s|s| |s m e]; try discriminate; [reflexivity|].
  cbn [is_integer]. destruct (Z.leb_spec 0 e) as [He|He]; [reflexivity|]. cbn [orb].
  apply Z.eqb_eq. rewrite SF2Q_signed, (pow2Q_neg e He) in Hk.
  assert (HP : 0 < 2 ^ (- e)) by (apply Z.pow_pos_nonneg; lia).
  set (P := 2 ^ (- e)) in *. clearbody P.
  assert (HPq : (0 < inject_Z P)%Q) by (apply inject_Z_pos; exact HP).
  assert (E : (inject_Z (cond_Zopp s (Z.pos m)) == inject_Z (k * P))%Q).
  { rewrite inject_Z_mult, <- Hk. field. intros H0. rewrite H0 in HPq. discriminate. }
  rewrite inject_Z_injective in E.
  destruct s; cbn [cond_Zopp] in E.
  - replace (Z.pos m) with ((- k) * P) by lia. apply Z.mod_mul. lia.
  - rewrite E. apply Z.mod_mul. lia.
Qed.

Lemma Number_toString_ofZ h z :
  Z.abs z < 2 ^ 53 -> Number_toString h (ofZ z) = Z_to_string z.
Proof.
  intros Hz. destruct (ofZ_spec z Hz) as ((Hv & Hf) & Hval & Hs).
  pose proof (truncZ_int _ _ Hf Hval) as Ht.
  pose proof (is_integer_int _ _ Hf Hval) as Hi.
  pose proof (SF2Q_abs_mag (ofZ z)) as Hm.
  destruct (ofZ z) as [s|s| |s m e]; try discriminate.
  - rewrite SF2Q_zero in Hval. change 0%Q with (inject_Z 0) in Hval.
    rewrite inject_Z_injective in Hval. subst z. reflexivity.
  - cbn [Number_toString]. rewrite Hi, Ht. rewrite at_least_1e21_false; [reflexivity|].
    cbn [mag] in Hm. rewrite <- Hm, Hval, Qabs_inject_Z, <- Zlt_Qlt. lia.
Qed.

(** ** Invoice numbers *)

(** Every text made of digits is the text of a decimal numeral. *)
Lemma digit_string_uint s :
  forall acc v, parse_digits acc s = Some v -> exists d, NilEmpty.string_of_uint d = s.
Proof.
  induction s as [|c s IH]; intros acc v H.
  - exists Decimal.Nil. reflexivity.
  - cbn [parse_digits] in H. destruct (is_digit c) eqn:Hc; [|discriminate].
    destruct (IH _ _ H) as (d & <-).
    destruct c as [[] [] [] [] [] [] [] []]; try discriminate Hc;
      first [exists (Decimal.D0 d); reflexivity | exists (Decimal.D1 d); reflexivity
            |exists (Decimal.D2 d); reflexivity | exists (Decimal.D3 d); reflexivity
            |exists (Decimal.D4 d); reflexivity | exists (Decimal.D5 d); reflexivity
            |exists (Decimal.D6 d); reflexivity | exists (Decimal.D7 d); reflexivity
            |exists (Decimal.D8 d); reflexivity | exists (Decimal.D9 d); reflexivity].
Qed.

(** The text of a natural number is its numeral without leading zeros. *)
Lemma Z_to_string_unorm d q :
  parse_digits 0 (NilEmpty.string_of_uint d) = Some q ->
  Z_to_string q = NilZero.string_of_uint (Decimal.unorm d).
Proof.
  rewrite parse_uint. intros H. injection H as <-.
  rewrite <- DecimalN.Unsigned.to_of. unfold N.of_uint.
  destruct (Pos.of_uint d); reflexivity.
Qed.

Lemma unorm_D0 d : Decimal.unorm (Decimal.D0 d) = Decimal.unorm d.
Proof. reflexivity. Qed.

Lemma unorm_length d :
  (String.length (NilZero.string_of_uint (Decimal.unorm d))
   <= Nat.max 1 (String.length (NilEmpty.string_of_uint d)))%nat.
Proof.
  induction d as [|d IH|d IH|d IH|d IH|d IH|d IH|d IH|d IH|d IH|d IH];
    try (cbn [Decimal.unorm Decimal.nzhead NilZero.string_of_uint NilEmpty.string_of_uint
              String.length]; lia).
  rewrite unorm_D0. cbn [NilEmpty.string_of_uint String.length]. lia.
Qed.

Lemma padStart_S s w c :
  (String.length s <= w)%nat -> padStart s (S w) c = String c (padStart s w c).
Proof.
  intros H. unfold padStart. replace (S w - String.length s)%nat
    with (S (w - String.length s)) by lia. reflexivity.
Qed.

Lemma padStart_full s c : padStart s (String.length s) c = s.
Proof. unfold padStart. rewrite Nat.sub_diag. reflexivity. Qed.

(** Padding the text of a number with zeros gives back a numeral with
    leading zeros. *)
Lemma padStart_unorm d :
  d <> Decimal.Nil ->
  padStart (NilZero.string_of_uint (Decimal.unorm d))
           (String.length (NilEmpty.string_of_uint d)) "0"
  = NilEmpty.string_of_uint d.
Proof.
  induction d as [|d IH|d IH|d IH|d IH|d IH|d IH|d IH|d IH|d IH|d IH]; intros Hd;
    try congruence;
    try (change (Decimal.unorm (?k d)) with (k d);
         change (NilZero.string_of_uint (?k d)) with (NilEmpty.string_of_uint (k d));
         apply padStart_full).
  rewrite unorm_D0. cbn [NilEmpty.string_of_uint String.length].
  destruct d as [|d|d|d|d|d|d|d|d|d|d]; [reflexivity|..];
    (rewrite padStart_S;
     [rewrite IH by discriminate; reflexivity
     |pose proof (unorm_length (Decimal.D0 d)) as H0;
      pose proof (unorm_length (Decimal.D1 d)) as H1;
      pose proof (unorm_length (Decimal.D2 d)) as H2;
      pose proof (unorm_length (Decimal.D3 d)) as H3;
      pose proof (unorm_length (Decimal.D4 d)) as H4;
      pose proof (unorm_length (Decimal.D5 d)) as H5;
      pose proof (unorm_length (Decimal.D6 d)) as H6;
      pose proof (unorm_length (Decimal.D7 d)) as H7;
      pose proof (unorm_length (Decimal.D8 d)) as H8;
      pose proof (unorm_length (Decimal.D9 d)) as H9;
      cbn [NilEmpty.string_of_uint String.length] in *; lia]).
Qed.

Lemma padStart_fixed_width q :
  0 <= q <= 9999 -> padStart (Z_to_string q) 4 "0" = fixed_width 4 q.
Proof.
  intros Hq. pose proof (parse_fixed_width_4 q Hq) as Hp.
  destruct (digit_string_uint _ _ _ Hp) as (d & Ed).
  rewrite <- Ed in Hp. rewrite (Z_to_string_unorm d q Hp).
  assert (Hlen : String.length (NilEmpty.string_of_uint d) = 4%nat)
    by (rewrite Ed; apply length_fixed_width).
  rewrite <- Ed, <- Hlen. apply padStart_unorm.
  intros ->. discriminate Hlen.
Qed.

Lemma generateInvoiceNumber_text h y q direction :
  Z.abs y < 2 ^ 53 -> 0 <= q <= 9999 ->
  generateInvoiceNumber h (ofZ y) (ofZ q) direction
  = (if direction_eqb direction receivables then "INV" else "BILL")
      ++ "-" ++ Z_to_string y ++ "-" ++ fixed_width 4 q.
Proof.
  intros Hy Hq. unfold generateInvoiceNumber.
  rewrite !Number_toString_ofZ by lia. rewrite padStart_fixed_width by exact Hq.
  reflexivity.
Qed.

(** The number that [invoiceToPDFData] reads back from an invoice number. *)
Lemma invoice_number_digits (prefix : string) y q :
  string_filter is_digit prefix = "" -> 0 <= q <= 9999 ->
  parseInt_digits (string_filter is_digit (prefix ++ "-" ++ Z_to_string y ++ "-" ++ fixed_width 4 q))
  = ofZ (Z.abs y * 10000 + q).
Proof.
  intros Hp Hq. rewrite !string_filter_app, Hp, digits_Z_to_string.
  change (string_filter is_digit "-") with "". cbn [append].
  rewrite (parse_digits_all (fixed_width 4 q) 0 q) by (apply parse_fixed_width_4; exact Hq).
  unfold parseInt_digits.
  rewrite parse_digits_app, parse_Z_to_string by lia.
  rewrite parse_fixed_width_4_acc by exact Hq.
  destruct (Z_to_string (Z.abs y) ++ fixed_width 4 q) eqn:E; [|reflexivity].
  apply (f_equal String.length) in E. rewrite string_length_app in E.
  rewrite length_fixed_width in E. cbn [String.length] in E. lia.
Qed.

Local Open Scope list_scope.
Local Open Scope string_scope.
Local Open Scope Z_scope.

(** * Further lemmas: invoices *)

(** The number of whole days in a span of [D] milliseconds is computed
    exactly. *)
Lemma daysDiff_exact D :
  0 <= D <= 4 * 10 ^ 15 ->
  Math_floor (num_div (ofZ D) msPerDayNumber) = ofZ (D / 86400000).
Proof.
  intros HD. change msPerDayNumber with (ofZ 86400000).
  destruct (Z.eq_dec D 0) as [->|Hne].
  { vm_compute. reflexivity. }
  destruct (ofZ_spec D ltac:(lia)) as (Hfx & Hvx & _).
  destruct (ofZ_spec 86400000 ltac:(lia)) as (Hfy & Hvy & _).
  assert (HD1 : (1 <= inject_Z D)%Q) by (rewrite <- (Zle_Qle 1); lia).
  assert (HD2 : (inject_Z D <= 4000000000000000)%Q).
  { change 4000000000000000%Q with (inject_Z (4 * 10 ^ 15)). rewrite <- Zle_Qle. lia. }
  change (inject_Z 86400000) with 86400000%Q in Hvy.
  assert (HX : (SF2Q (ofZ D) / SF2Q (ofZ 86400000) == inject_Z D * (1 # 86400000))%Q).
  { rewrite Hvx, Hvy. field. }
  assert (HX0 : (0 <= SF2Q (ofZ D) / SF2Q (ofZ 86400000))%Q) by (rewrite HX; lra).
  assert (Hr : rounds (SF2Q (ofZ D) / SF2Q (ofZ 86400000))%Q (num_div (ofZ D) (ofZ 86400000))).
  { apply SFdiv_rounds.
    - exact (proj2 Hfx).
    - exact (proj2 Hfy).
    - rewrite Hvy. discriminate.
    - right. rewrite Qabs_pos by exact HX0. rewrite HX.
      apply (Qle_trans _ (1 # 86400000)); [qle|lra].
    - rewrite Qabs_pos by exact HX0. rewrite HX.
      apply (Qle_lt_trans _ 4000000000000000); [lra|reflexivity]. }
  set (q := num_div (ofZ D) (ofZ 86400000)) in *. clearbody q.
  assert (Hs : sgn q = false).
  { apply (rounds_pos_sgn _ _ Hr). rewrite HX. apply (Qle_trans _ (1 # 86400000)); [qle|lra]. }
  destruct (rounds_bounds _ _ Hr HX0) as [Hb1 Hb2].
  pose proof (rounds_finite _ _ Hr) as Hfq.
  pose proof (Z.div_mod D 86400000 ltac:(lia)) as Hdm.
  pose proof (Z.mod_pos_bound D 86400000 ltac:(lia)) as Hrem.
  set (J := D / 86400000) in *. set (R := D mod 86400000) in *. clearbody J R.
  assert (HJ : 0 <= J <= 46296296) by lia.
  assert (EQ : (inject_Z D == 86400000 * inject_Z J + inject_Z R)%Q).
  { rewrite Hdm, inject_Z_plus, inject_Z_mult. reflexivity. }
  assert (HR0 : (0 <= inject_Z R)%Q) by (rewrite <- (Zle_Qle 0); lia).
  assert (HR1 : (inject_Z R <= 86399999)%Q).
  { change 86399999%Q with (inject_Z 86399999). rewrite <- Zle_Qle. lia. }
  assert (HJ0 : (0 <= inject_Z J)%Q) by (rewrite <- (Zle_Qle 0); lia).
  rewrite HX in Hb1, Hb2.
  set (X := (inject_Z D * (1 # 86400000))%Q) in *.
  assert (HXv : (X == inject_Z J + inject_Z R * (1 # 86400000))%Q) by (unfold X; lra).
  assert (HXu : (0 <= X * u /\ X * u + eta <= 1 # 172800000)%Q).
  { assert (HXle : (X <= 46296297)%Q) by (unfold X; lra).
    assert (HX00 : (0 <= X)%Q) by (unfold X; lra).
    split.
    - apply Qmult_le_0_compat; [exact HX00|apply Qlt_le_weak, u_pos].
    - apply (Qle_trans _ (46296297 * u + eta)%Q); [|qle].
      apply Qplus_le_l. apply Qmult_le_compat_r; [exact HXle|apply Qlt_le_weak, u_pos]. }
  assert (E1 : (X * (1 - u) == X - X * u)%Q) by ring.
  assert (E2 : (X * (1 + u) == X + X * u)%Q) by ring.
  rewrite E1 in Hb1. rewrite E2 in Hb2.
  set (Xu := (X * u)%Q) in *. clearbody Xu. clear E1 E2.
  pose proof eta_pos as He.
  assert (Hlow : (inject_Z J <= SF2Q q)%Q).
  { destruct (Z.eq_dec R 0) as [->|HRne].
    - destruct (int_representable J ltac:(lia)) as (w & Hw & Hwv).
      assert (Hex : (SF2Q q == SF2Q (ofZ D) / SF2Q (ofZ 86400000))%Q).
      { apply (rounds_exact _ _ w Hr Hw). rewrite Hwv, HX, HXv.
        change (inject_Z 0) with 0%Q. ring. }
      rewrite Hex, HX, HXv. change (inject_Z 0) with 0%Q. lra.
    - assert (HR2 : (1 <= inject_Z R)%Q) by (rewrite <- (Zle_Qle 1); lia).
      destruct HXu as [HXu0 HXu1]. lra. }
  assert (Hupp : (SF2Q q < inject_Z J + 1)%Q) by (destruct HXu as [HXu0 HXu1]; lra).
  destruct (floorZ_spec q (proj2 Hfq)) as [Hj1 Hj2].
  assert (Hfl : floorZ q = J).
  { assert (H1 : (inject_Z (floorZ q) < inject_Z (J + 1))%Q).
    { rewrite inject_Z_plus. change (inject_Z 1) with 1%Q. lra. }
    assert (H2 : (inject_Z J < inject_Z (floorZ q + 1))%Q).
    { rewrite inject_Z_plus. change (inject_Z 1) with 1%Q. lra. }
    rewrite <- Zlt_Qlt in H1, H2. lia. }
  rewrite <- Hfl. apply Math_floor_ofZ; [exact Hfq|exact Hs|].
  apply (Qlt_trans _ (inject_Z J + 1)%Q); [exact Hupp|].
  apply (Qle_lt_trans _ 46296297%Q); [|reflexivity].
  assert ((inject_Z J <= 46296296)%Q); [|lra].
  change 46296296%Q with (inject_Z 46296296). rewrite <- Zle_Qle. lia.
Qed.

(** What a run of [generateInvoice] that returns has done. *)
Lemma generateInvoice_parts h rs re sup cus sequence direction n inv n' :
  generateInvoice h rs re sup cus sequence direction n = Return (inv, n') ->
  exists randomDays n1 t,
    randomBetween h (ofZ 0)
      (Math_floor (num_div (num_sub (getTime re) (getTime rs)) msPerDayNumber)) n
    = Return (randomDays, n1) /\
    addDays h rs randomDays = Some t /\
    date inv = date_text t /\
    inv_number inv = generateInvoiceNumber h (getFullYear h (Some t)) sequence direction /\
    currency inv = "EUR".
Proof.
  unfold generateInvoice. intros H.
  bind_step H randomDays n1 H1.
  bind_step H terms n2 H2.
  bind_step H itemCount n3 H3.
  bind_step H items' n4 H4.
  bind_step H id' n5 H5.
  bind_step H date' n6 H6.
  bind_step H due' n7 H7.
  apply lift_inv in H6. destruct H6 as (d1 & Hd1 & E6).
  apply pair_inv in E6. destruct E6 as [<- <-].
  unfold ret in H. apply Return_pair_inv in H. destruct H as [<- _].
  apply formatDate_inv in Hd1. destruct Hd1 as (t & Ht & ->).
  exists randomDays, n1, t. lazy beta iota delta [date inv_number currency].
  rewrite Ht. repeat split; assumption.
Qed.

(** The issue date of an invoice generated for a range of dates in order:
    a whole number of days after the start, not after the end. *)
Lemma generateInvoice_issue h s e sup cus sequence direction n inv n' :
  fixed_offset h ->
  Z.abs s <= 4 * 10 ^ 15 -> 0 <= e - s <= 4 * 10 ^ 15 ->
  generateInvoice h (Some s) (Some e) sup cus sequence direction n = Return (inv, n') ->
  exists j,
    0 <= j <= (e - s) / msPerDay /\
    date inv = date_text (s + j * msPerDay) /\
    inv_number inv
    = generateInvoiceNumber h (getFullYear h (Some (s + j * msPerDay))) sequence direction.
Proof.
  intros Hfix Hs He H.
  apply generateInvoice_parts in H.
  destruct H as (randomDays & n1 & t & Hr & Ha & Hd & Hn & _).
  cbn [getTime] in Hr. rewrite num_sub_int in Hr by lia.
  rewrite (daysDiff_exact (e - s) He) in Hr.
  assert (HJ : 0 <= (e - s) / 86400000 <= 46296296).
  { Z.div_mod_to_equations. lia. }
  destruct (randomBetween_returns h 0 ((e - s) / 86400000) n ltac:(lia) ltac:(lia) ltac:(lia))
    as (j & Hj & Hrj).
  rewrite Hrj in Hr. apply Return_pair_inv in Hr. destruct Hr as [<- _].
  rewrite (addDays_Some h s j Hfix) in Ha by lia.
  apply TimeClip_inv in Ha. destruct Ha as [-> _].
  exists j. unfold msPerDay. repeat split; try assumption; lia.
Qed.

(** ** Invalid dates *)

Lemma num_add_nan_r x : num_add x NaN = NaN.
Proof. destruct x; reflexivity. Qed.

Lemma num_mul_nan_r x : num_mul x NaN = NaN.
Proof. destruct x; reflexivity. Qed.

Lemma addDays_NaN h d : addDays h d NaN = None.
Proof.
  unfold addDays, setDate. destruct d as [t|]; [|reflexivity].
  rewrite num_add_nan_r. reflexivity.
Qed.

Lemma randomBetween_NaN h a n : randomBetween h a NaN n = Return (NaN, S n).
Proof.
  unfold randomBetween, bind, Math_random, ret.
  change (num_sub NaN a) with NaN. change (num_add NaN (ofZ 1)) with NaN.
  rewrite num_mul_nan_r. reflexivity.
Qed.

Lemma randomBetween_total h a b n : exists x, randomBetween h a b n = Return (x, S n).
Proof. unfold randomBetween, bind, Math_random, ret. eexists. reflexivity. Qed.

(** With an Invalid Date at either end of the range, [generateInvoice] throws. *)
Lemma generateInvoice_invalid h rs re sup cus sequence direction n :
  rs = None \/ re = None ->
  generateInvoice h rs re sup cus sequence direction n = Throw RangeError.
Proof.
  intros Hnone.
  assert (Hd : forall x, randomBetween h (ofZ 0)
                 (Math_floor (num_div (num_sub (getTime re) (getTime rs)) msPerDayNumber)) n
               = Return (x, S n) -> addDays h rs x = None).
  { intros x Hx. destruct rs as [s|]; [|apply addDays_None].
    destruct Hnone as [Hn | ->]; [discriminate|].
    cbn [getTime] in Hx. change (num_sub NaN (ofZ s)) with NaN in Hx.
    change (Math_floor (num_div NaN msPerDayNumber)) with NaN in Hx.
    rewrite randomBetween_NaN in Hx. apply Return_pair_inv in Hx. destruct Hx as [<- _].
    apply addDays_NaN. }
  unfold generateInvoice.
  destruct (randomBetween_total h (ofZ 0)
              (Math_floor (num_div (num_sub (getTime re) (getTime rs)) msPerDayNumber)) n)
    as (x & Hx).
  rewrite (bind_Return _ _ _ _ _ Hx). rewrite (Hd x Hx).
  destruct (randomBetween_returns h 14 30 (S n) ltac:(lia) ltac:(lia) ltac:(lia)) as (k & Hk & Hr2).
  rewrite (bind_Return _ _ _ _ _ Hr2).
  destruct (randomBetween_returns h 1 5 (S (S n)) ltac:(lia) ltac:(lia) ltac:(lia))
    as (c & Hc & Hr3).
  rewrite (bind_Return _ _ _ _ _ Hr3).
  destruct (generateInvoiceItems_spec h c (S (S (S n))) ltac:(lia)) as (its & n4 & Hits & _).
  rewrite (bind_Return _ _ _ _ _ Hits).
  reflexivity.
Qed.

(** ** Invoice numbers of generated invoices *)

Lemma YearFromDay_wide d :
  -200000000 <= d <= 200000000 -> Z.abs (YearFromDay d) < 2 ^ 53.
Proof.
  intros Hd. pose proof (YearFromDay_spec d) as H. cbv zeta in H.
  destruct H as (H1 & H2 & H3).
  set (y := YearFromDay d) in *. clearbody y.
  assert (-700000 <= y <= 700000); [|lia].
  unfold DayFromYear in H1, H2. Z.div_mod_to_equations. lia.
Qed.

Lemma generateInvoice_suffix h rs re sup cus q direction n inv n' :
  0 <= q <= 9999 ->
  generateInvoice h rs re sup cus (ofZ q) direction n = Return (inv, n') ->
  exists t,
    Z.abs t <= maxTime /\ date inv = date_text t /\
    inv_number inv
    = (if direction_eqb direction receivables then "INV" else "BILL")
        ++ "-" ++ Number_toString h (getFullYear h (Some t)) ++ "-" ++ fixed_width 4 q.
Proof.
  intros Hq H. apply generateInvoice_parts in H.
  destruct H as (randomDays & n1 & t & _ & Ha & Hd & Hn & _).
  exists t. split; [exact (addDays_inv _ _ _ _ Ha)|]. split; [exact Hd|].
  rewrite Hn. unfold generateInvoiceNumber.
  rewrite (Number_toString_ofZ h q) by lia. rewrite padStart_fixed_width by exact Hq.
  reflexivity.
Qed.

Lemma getFullYear_text h t :
  (forall t' b, Z.abs (host_localTZA h t' b) <= msPerDay) -> Z.abs t <= maxTime ->
  Number_toString h (getFullYear h (Some t)) = Z_to_string (YearFromTime (LocalTime h t)).
Proof.
  intros Hoff Ht. cbn [getFullYear]. apply Number_toString_ofZ.
  unfold YearFromTime. apply YearFromDay_wide.
  pose proof (Hoff t true) as Ho. unfold LocalTime, Day, maxTime, msPerDay in *.
  Z.div_mod_to_equations. lia.
Qed.

Local Open Scope list_scope.
Local Open Scope string_scope.
Local Open Scope Z_scope.

(** * Further lemmas: transactions *)

Lemma tuple4_inv {A B C D S : Type} (a a' : A) (b b' : B) (c c' : C) (d d' : D) (n n' : S) :
  Return ((a, b, c, d), n) = Return ((a', b', c', d'), n') ->
  a = a' /\ b = b' /\ c = c' /\ d = d' /\ n = n'.
Proof.
  intros H. apply Return_pair_inv in H. destruct H as [H ->].
  apply pair_inv in H. destruct H as [H ->].
  apply pair_inv in H. destruct H as [H ->].
  apply pair_inv in H. destruct H as [-> ->]. repeat split.
Qed.

(** Opens a run of [generateTransaction]: the counterparty draw [H1], the
    branch of the type [H2], and the formatted date [Hd]. *)
Ltac open_transaction H cp n1 H1 td am ds me n2 H2 Hd :=
  unfold generateTransaction in H;
  bind_step H cp n1 H1;
  let r := fresh "r" in
  bind_step H r n2 H2; destruct r as [[[td am] ds] me];
  let d := fresh "d" in let n3 := fresh "n" in let H3 := fresh "H" in
  let E := fresh "E" in let Etx := fresh "Etx" in let Emd := fresh "Emd" in
  bind_step H d n3 H3; apply lift_inv in H3; destruct H3 as (? & Hd & E);
  apply pair_inv in E; destruct E as [<- _];
  ret_inv H Etx Emd; subst.

(** A draw of the payment delay between the literals [a] and [b], of width [w]. *)
Ltac draw_offset H a b w k Hk :=
  let offset := fresh "offset" in let n := fresh "n" in let Hr := fresh "Hr" in
  bind_step H offset n Hr;
  apply (randomBetween_inv _ a b w) in Hr; [|vm_compute; reflexivity|lia|lia];
  destruct Hr as (-> & k & Hk & ->).

(** The counterparty, the payment delay and the date of a transaction. *)
Lemma generateTransaction_common h inv type direction n tx md n' :
  generateTransaction h inv type direction n = Return ((tx, md), n') ->
  exists n1 d,
    getRandomNameVariation h
      (if direction_eqb direction payables then supplier inv else customer inv) n
    = Return (counterparty tx, n1) /\
    fst (payment_delay type) <= d <= snd (payment_delay type) /\
    formatDate (addDays h (Date_parse h (date inv)) (ofZ d)) = Return (tx_date tx) /\
    originalAmount md = total inv.
Proof.
  intros H. open_transaction H cp n1 H1 td am ds me n2 H2 Hd.
  exists n1. cbn [counterparty tx_date].
  destruct type; cbn [payment_delay fst snd];
    try unfold discount_case in H2; try unfold fx_case in H2.
  - draw_offset H2 1 7 7 k Hk. unfold ret in H2. apply tuple4_inv in H2.
    destruct H2 as (<- & _ & _ & <- & _). exists k. repeat split; try assumption; lia.
  - draw_offset H2 1 5 5 k Hk. unfold ret in H2. apply tuple4_inv in H2.
    destruct H2 as (<- & _ & _ & <- & _). exists k. repeat split; try assumption; lia.
  - draw_offset H2 1 5 5 k Hk. unfold ret in H2. apply tuple4_inv in H2.
    destruct H2 as (<- & _ & _ & <- & _). exists k. repeat split; try assumption; lia.
  - draw_offset H2 1 5 5 k Hk. unfold ret in H2. apply tuple4_inv in H2.
    destruct H2 as (<- & _ & _ & <- & _). exists k. repeat split; try assumption; lia.
  - draw_offset H2 3 14 12 k Hk. bind_step H2 rate n4 H4. unfold ret in H2.
    apply tuple4_inv in H2.
    destruct H2 as (<- & _ & _ & <- & _). exists k. repeat split; try assumption; lia.
  - draw_offset H2 3 14 12 k Hk. bind_step H2 rate n4 H4. unfold ret in H2.
    apply tuple4_inv in H2.
    destruct H2 as (<- & _ & _ & <- & _). exists k. repeat split; try assumption; lia.
  - draw_offset H2 1 10 10 k Hk. bind_step H2 de n4 H4. unfold ret in H2.
    apply tuple4_inv in H2.
    destruct H2 as (<- & _ & _ & <- & _). exists k. repeat split; try assumption; lia.
  - draw_offset H2 1 10 10 k Hk. bind_step H2 rate n4 H4. unfold ret in H2.
    apply tuple4_inv in H2.
    destruct H2 as (<- & _ & _ & <- & _). exists k. repeat split; try assumption; lia.
  - draw_offset H2 30 60 31 k Hk. unfold ret in H2. apply tuple4_inv in H2.
    destruct H2 as (<- & _ & _ & <- & _). exists k. repeat split; try assumption; lia.
  - draw_offset H2 1 7 7 k Hk. unfold ret in H2. apply tuple4_inv in H2.
    destruct H2 as (<- & _ & _ & <- & _). exists k. repeat split; try assumption; lia.
Qed.

(** The types that pay the invoice total unchanged. *)
Lemma generateTransaction_exact h inv type direction n tx md n' :
  pays_total type = true ->
  generateTransaction h inv type direction n = Return ((tx, md), n') ->
  amount_eur tx = num_mul (amountSignOf direction) (total inv) /\
  adjustedAmount md = total inv /\ originalAmount md = total inv /\
  discountPercent md = None /\ fxRate md = None.
Proof.
  intros Hp H. open_transaction H cp n1 H1 td am ds me n2 H2 Hd.
  cbn [amount_eur].
  destruct type; try discriminate Hp.
  - draw_offset H2 1 7 7 k Hk. unfold ret in H2. apply tuple4_inv in H2.
    destruct H2 as (_ & <- & _ & <- & _). repeat split.
  - draw_offset H2 1 10 10 k Hk. bind_step H2 de n4 H4. unfold ret in H2.
    apply tuple4_inv in H2. destruct H2 as (_ & <- & _ & <- & _). repeat split.
  - draw_offset H2 30 60 31 k Hk. unfold ret in H2. apply tuple4_inv in H2.
    destruct H2 as (_ & <- & _ & <- & _). repeat split.
  - draw_offset H2 1 7 7 k Hk. unfold ret in H2. apply tuple4_inv in H2.
    destruct H2 as (_ & <- & _ & <- & _). repeat split.
Qed.

(** The FX cases: the rate drawn and the amount paid. *)
Lemma generateTransaction_fx h inv type direction lo hi n tx md n' :
  fx_rate_bounds type = Some (lo, hi) ->
  generateTransaction h inv type direction n = Return ((tx, md), n') ->
  exists r,
    lo <= r <= hi /\ fxRate md = Some (cents r) /\
    amount_eur tx
    = num_mul (amountSignOf direction)
        (round2 (num_mul (total inv) (fx_multiplier direction (cents r)))) /\
    adjustedAmount md = Math_abs (amount_eur tx).
Proof.
  intros Hb H. open_transaction H cp n1 H1 td am ds me n2 H2 Hd.
  cbn [amount_eur].
  destruct type; try discriminate Hb; cbn [fx_rate_bounds] in Hb; injection Hb as <- <-;
    apply fx_case_inv in H2; destruct H2 as (offset & rate & n3 & n4 & Hrate & E);
    apply pair_inv in E; destruct E as [E ->]; apply pair_inv in E; destruct E as [E _];
    apply pair_inv in E; destruct E as [_ ->].
  - destruct (randomFloat_gain h n3) as (k & Hk & Hg). rewrite Hg in Hrate.
    apply Return_pair_inv in Hrate. destruct Hrate as [<- _].
    exists k. lazy beta iota delta [fxRate adjustedAmount].
    split; [exact Hk|]. split; [reflexivity|].
    split; [|reflexivity]. destruct direction; reflexivity.
  - destruct (randomFloat_loss h n3) as (k & Hk & Hg). rewrite Hg in Hrate.
    apply Return_pair_inv in Hrate. destruct Hrate as [<- _].
    exists k. lazy beta iota delta [fxRate adjustedAmount].
    split; [exact Hk|]. split; [reflexivity|].
    split; [|reflexivity]. destruct direction; reflexivity.
Qed.

(** The amount-mismatch case: the factor drawn and the amount paid. *)
Lemma generateTransaction_mismatch h inv direction n tx md n' :
  generateTransaction h inv partial_match_amount_mismatch direction n = Return ((tx, md), n') ->
  exists r,
    99 <= r <= 101 /\
    amount_eur tx = num_mul (amountSignOf direction) (round2 (num_mul (total inv) (cents r))) /\
    adjustedAmount md = Math_abs (amount_eur tx) /\
    discountPercent md = None /\ fxRate md = None.
Proof.
  intros H. open_transaction H cp n1 H1 td am ds me n2 H2 Hd.
  cbn [amount_eur].
  draw_offset H2 1 10 10 k Hk. bind_step H2 rate n4 Hrate.
  unfold ret in H2. apply tuple4_inv in H2. destruct H2 as (_ & <- & _ & <- & _).
  destruct (randomFloat_mismatch h (S n1)) as (r & Hr & Hg). rewrite Hg in Hrate.
  apply Return_pair_inv in Hrate. destruct Hrate as [<- _].
  exists r. lazy beta iota delta [adjustedAmount discountPercent fxRate].
  repeat split; assumption || lia || reflexivity.
Qed.

(** The discount cases: the amount paid. *)
Lemma generateTransaction_discount h inv type k direction n tx md n' :
  discount_percent type = Some k ->
  generateTransaction h inv type direction n = Return ((tx, md), n') ->
  amount_eur tx
  = num_mul (amountSignOf direction)
      (round2 (num_mul (total inv) (of_decimal false (Z.to_N (100 - k)) 2))) /\
  adjustedAmount md = Math_abs (amount_eur tx) /\
  discountPercent md = Some (ofZ k) /\ fxRate md = None.
Proof.
  intros Hk H. open_transaction H cp n1 H1 td am ds me n2 H2 Hd.
  cbn [amount_eur].
  destruct type; try discriminate Hk; cbn [discount_percent] in Hk; injection Hk as <-;
    apply discount_case_inv in H2; destruct H2 as (offset & E);
    apply pair_inv in E; destruct E as [E ->]; apply pair_inv in E; destruct E as [E _];
    apply pair_inv in E; destruct E as [_ ->]; repeat split.
Qed.

(** ** Magnitudes *)

(** A two-decimal amount of [c] cents times a factor between [lo] and [hi],
    rounded to two decimals. *)
Lemma scaled_cents c f lo hi :
  1 <= c <= 10 ^ 9 -> within lo hi f -> (0 <= lo)%Q -> (hi <= 2)%Q ->
  exists m,
    0 <= m <= 10 ^ 12 /\ round2 (num_mul (cents c) f) = cents m /\
    (2 * inject_Z m - 1 <= 200 * ((inject_Z c / 100 + tol) * hi + tol))%Q /\
    (200 * ((inject_Z c / 100 - tol) * lo - tol) < 2 * inject_Z m + 1)%Q /\
    within (inject_Z m / 100 - tol) (inject_Z m / 100 + tol) (cents m).
Proof.
  intros Hc Hf Hlo Hhi.
  destruct (cents_amount c ltac:(lia)) as (_ & Hwc & Hmax & Hc0).
  assert (Htol : (tol == 1 # 100000)%Q) by reflexivity.
  assert (Hc1 : (1 <= inject_Z c)%Q) by (rewrite <- (Zle_Qle 1); lia).
  assert (E : (inject_Z c / 100 == inject_Z c * (1 # 100))%Q) by field.
  assert (Hlh : (lo <= hi)%Q) by (destruct Hf as (_ & _ & ? & ?); lra).
  set (C := (inject_Z c / 100)%Q) in *.
  assert (HC : (1 # 100 <= C)%Q) by lra.
  assert (Hprod : ((C + tol) * hi <= 10000001 * 2)%Q).
  { apply (Qle_trans _ ((C + tol) * 2)%Q).
    - apply Qmult_le_l; [lra|exact Hhi].
    - apply Qmult_le_compat_r; [exact Hmax|discriminate]. }
  pose proof (mul_abs _ _ _ _ _ _ Hwc Hf ltac:(lra) Hlo ltac:(lra)) as Hm.
  set (P := ((C + tol) * hi)%Q) in *. set (L := ((C - tol) * lo)%Q) in *.
  destruct (round2_abs 0 (P + tol) (num_mul (cents c) f)) as (m & Hm0 & Em & A1 & B1 & Hwr).
  - exact (within_raise0 _ _ _ Hm).
  - apply Qle_refl.
  - lra.
  - exists m. split; [exact Hm0|]. split; [exact Em|].
    destruct Hm as (_ & _ & Hx1 & Hx2). clearbody P L.
    split; [lra|]. split; [lra|exact Hwr].
Qed.

Lemma loss_multiplier r :
  101 <= r <= 105 -> within (9499 # 10000) (9901 # 10000) (num_sub (ofZ 2) (cents r)).
Proof.
  intros Hr. assert (Hc : r = 101 \/ r = 102 \/ r = 103 \/ r = 104 \/ r = 105) by lia.
  destruct Hc as [->|[->|[->|[->| ->]]]]; within_closed.
Qed.

(** The factor of an FX case lies between 0.94 and 1.06. *)
Lemma fx_multiplier_within type direction lo hi r :
  fx_rate_bounds type = Some (lo, hi) -> lo <= r <= hi ->
  within (94 # 100) (106 # 100) (fx_multiplier direction (cents r)).
Proof.
  intros Hb Hr.
  destruct type; try discriminate Hb; cbn [fx_rate_bounds] in Hb; injection Hb as <- <-;
    destruct direction; cbn [fx_multiplier].
  - apply (cents_range r 95 99); try lia; qle.
  - apply (within_weaken _ _ _ _ _ (gain_multiplier r Hr)); qle.
  - apply (cents_range r 101 105); try lia; qle.
  - apply (within_weaken _ _ _ _ _ (loss_multiplier r Hr)); qle.
Qed.

(** Every transaction of a type other than the group payment pays the
    invoice total times a factor between 0.94 and 1.06, rounded to two
    decimals, or the total itself. *)
Lemma generateTransaction_factor h inv type direction n tx md n' :
  generateTransaction h inv type direction n = Return ((tx, md), n') ->
  (pays_total type = true /\
   amount_eur tx = num_mul (amountSignOf direction) (total inv) /\
   adjustedAmount md = total inv) \/
  (pays_total type = false /\
   exists f,
     within (94 # 100) (106 # 100) f /\
     amount_eur tx = num_mul (amountSignOf direction) (round2 (num_mul (total inv) f)) /\
     adjustedAmount md = Math_abs (amount_eur tx)).
Proof.
  intros H.
  destruct (pays_total type) eqn:Hp.
  { left. destruct (generateTransaction_exact _ _ _ _ _ _ _ _ Hp H) as (Ha & Hb & _).
    split; [reflexivity|split; assumption]. }
  right. split; [reflexivity|]. destruct (discount_percent type) as [k|] eqn:Hk.
  { destruct (generateTransaction_discount _ _ _ _ _ _ _ _ _ Hk H) as (Ha & Hb & _).
    exists (of_decimal false (Z.to_N (100 - k)) 2). split; [|split; assumption].
    assert (Hk3 : 1 <= k <= 3) by (destruct type; try discriminate Hk; injection Hk as <-; lia).
    apply (within_weaken _ _ _ _ _ (proj2 (discount_factor k Hk3))); qle. }
  destruct (fx_rate_bounds type) as [[lo hi]|] eqn:Hb.
  { destruct (generateTransaction_fx _ _ _ _ _ _ _ _ _ _ Hb H) as (r & Hr & _ & Ha & Hm).
    exists (fx_multiplier direction (cents r)).
    split; [exact (fx_multiplier_within _ _ _ _ _ Hb Hr)|split; assumption]. }
  destruct type; try discriminate.
  destruct (generateTransaction_mismatch _ _ _ _ _ _ _ H) as (r & Hr & Ha & Hm & _).
  exists (cents r). split; [|split; assumption].
  apply (cents_range r 99 101); try lia; qle.
Qed.

(** The amount of a transaction on an invoice of [c] cents: a two-decimal
    magnitude within six per cent of the total, with the sign of the
    direction. *)
Lemma generateTransaction_magnitude h inv type direction n tx md n' c :
  1799 <= c <= 10 ^ 8 -> total inv = cents c ->
  generateTransaction h inv type direction n = Return ((tx, md), n') ->
  exists m,
    188 * c - 100 <= 200 * m <= 212 * c + 100 /\
    amount_eur tx = signed direction (cents m) /\ adjustedAmount md = cents m /\
    (pays_total type = true -> m = c).
Proof.
  intros Hc Htot H.
  assert (Hsig : forall m, 1 <= m <= 10 ^ 9 ->
            num_mul (amountSignOf direction) (cents m) = signed direction (cents m) /\
            Math_abs (signed direction (cents m)) = cents m).
  { intros m Hm. destruct (cents_amount m ltac:(lia)) as (Hw & _ & Hmax & _).
    apply (signed_amount direction _ _ _ Hw). lra. }
  destruct (generateTransaction_factor _ _ _ _ _ _ _ _ H)
    as [(Hp & Ha & Hb)|(Hp & f & Hf & Ha & Hb)].
  - exists c. rewrite Ha, Hb, Htot. destruct (Hsig c ltac:(lia)) as [E1 _].
    split; [lia|]. split; [exact E1|]. split; reflexivity.
  - rewrite Htot in Ha.
    destruct (scaled_cents c f _ _ ltac:(lia) Hf ltac:(discriminate) ltac:(discriminate))
      as (m & Hm0 & Em & A1 & B1 & _).
    assert (Htol : (tol == 1 # 100000)%Q) by reflexivity.
    assert (E : (inject_Z c / 100 == inject_Z c * (1 # 100))%Q) by field.
    assert (Hm : 188 * c - 100 <= 200 * m <= 212 * c + 100).
    { assert (Hup : (inject_Z (200 * m) < inject_Z (212 * c + 101))%Q).
      { rewrite inject_Z_plus, !inject_Z_mult. change (inject_Z 200) with 200%Q.
        change (inject_Z 212) with 212%Q. change (inject_Z 101) with 101%Q. lra. }
      assert (Hlo : (inject_Z (188 * c) < inject_Z (200 * m + 101))%Q).
      { rewrite inject_Z_plus, !inject_Z_mult. change (inject_Z 200) with 200%Q.
        change (inject_Z 188) with 188%Q. change (inject_Z 101) with 101%Q. lra. }
      rewrite <- Zlt_Qlt in Hup, Hlo. lia. }
    exists m. split; [exact Hm|]. rewrite Hb, Ha, Em.
    destruct (Hsig m ltac:(lia)) as [E1 E2]. rewrite E1.
    split; [reflexivity|]. split; [exact E2|]. intros Hp'. congruence.
Qed.

(** ** Signs *)

Lemma signed_cents_sign direction m :
  1 <= m <= 10 ^ 9 ->
  match direction with
  | payables => is_negative (signed direction (cents m)) = true
  | receivables => is_positive (signed direction (cents m)) = true
  end.
Proof.
  intros Hm. pose proof (cents_within m ltac:(lia)) as Hw.
  assert (Hlo : (0 < inject_Z m / 100 - tol)%Q).
  { assert (Hq : (1 <= inject_Z m)%Q) by (rewrite <- (Zle_Qle 1); lia).
    assert (E : (inject_Z m / 100 == inject_Z m * (1 # 100))%Q) by field.
    assert (Htol : (tol == 1 # 100000)%Q) by reflexivity. lra. }
  destruct (within_pos_finite _ _ _ Hw Hlo) as (mm & e & ->).
  destruct direction; reflexivity.
Qed.

(** ** Dates *)

(** The date of a transaction: the issue date of the invoice plus the delay
    of the type, in whole days. *)
Lemma generateTransaction_delay h sup cus inv type direction n tx md n' :
  fixed_offset h -> invoice_generated sup cus inv ->
  generateTransaction h inv type direction n = Return ((tx, md), n') ->
  exists iss d,
    fst (payment_delay type) <= d <= snd (payment_delay type) /\
    issue_time inv = Some iss /\
    parse_date_only (tx_date tx) = Some (iss + d * msPerDay).
Proof.
  intros Hfix Hinv H.
  destruct (generateTransaction_common _ _ _ _ _ _ _ _ H) as (n1 & d & _ & Hd & Hfmt & _).
  destruct (invoice_generated_dates h _ _ _ Hinv) as (iss & Hb & _ & Hp & Hdp).
  assert (Hd60 : 1 <= d <= 60) by (destruct type; cbn [payment_delay fst snd] in Hd; lia).
  rewrite Hdp in Hfmt. rewrite (addDays_Some h _ d Hfix) in Hfmt by lia.
  apply formatDate_inv in Hfmt. destruct Hfmt as (t & Ht & Etx).
  apply TimeClip_inv in Ht. destruct Ht as [-> Ht].
  exists (iss * msPerDay), d. split; [exact Hd|]. split; [exact Hp|].
  rewrite Etx, parse_date_text by exact Ht.
  rewrite Day_shift, Day_exact. f_equal. ring.
Qed.

(** ** Counterparties *)

Lemma getRandomNameVariation_inv h c v vs n s n' :
  nameVariations c = Some (v :: vs) ->
  getRandomNameVariation h c n = Return (s, n') -> s = name c \/ In s (v :: vs).
Proof.
  intros Hv H. unfold getRandomNameVariation in H. bind_step H r n1 H1.
  destruct (num_lt r (of_decimal false 4 1)).
  - unfold ret in H. apply Return_pair_inv in H. destruct H as [<- _]. left. reflexivity.
  - rewrite Hv in H. destruct (arrayElement_spec h v vs n1) as (y & Hy & Hin).
    rewrite Hy in H. apply Return_pair_inv in H. destruct H as [<- _]. right. exact Hin.
Qed.

Lemma generateSimpleVariation_total h s n :
  exists v n', generateSimpleVariation h s n = Return (v, n').
Proof.
  unfold generateSimpleVariation.
  destruct (faker_int_spec h 0 4 n ltac:(lia)) as (z & Hz & Hr).
  rewrite (bind_Return _ _ _ _ _ Hr).
  destruct z as [|p|p]; [|destruct p as [p|p|]; [destruct p as [p|p|]|destruct p as [p|p|]|]|];
    unfold ret; eexists; eexists; reflexivity.
Qed.

Lemma getRandomNameVariation_total h c n :
  exists s n', getRandomNameVariation h c n = Return (s, n').
Proof.
  unfold getRandomNameVariation, bind, Math_random.
  destruct (num_lt _ _); [unfold ret; eexists; eexists; reflexivity|].
  destruct (nameVariations c) as [[|v vs]|]; try apply generateSimpleVariation_total.
  destruct (arrayElement_spec h v vs (S n)) as (y & Hy & _). eexists; eexists. exact Hy.
Qed.

Lemma generateNameVariations_nonempty h baseName legalSuffix :
  exists v vs, generateNameVariations h baseName legalSuffix = v :: vs.
Proof.
  unfold generateNameVariations.
  destruct (2 <=? _)%nat; destruct (negb (String.eqb (space_camel baseName) baseName));
    destruct (negb (String.eqb (remove_periods legalSuffix) legalSuffix));
    destruct (10 <? _)%nat; cbn [List.app]; unfold dedupe; cbn [dedupe_from string_mem];
    eexists; eexists; reflexivity.
Qed.

(** ** Descriptions *)

Lemma prefix_app a b : String.prefix a (a ++ b) = true.
Proof.
  induction a as [|c a IH]; cbn [append String.prefix]; [destruct b; reflexivity|].
  destruct (ascii_dec c c) as [_|Hne]; [exact IH|contradiction Hne; reflexivity].
Qed.

Lemma generateTransaction_description h inv type direction n tx md n' :
  generateTransaction h inv type direction n = Return ((tx, md), n') ->
  match type with
  | partial_match_no_description => In (description tx) GENERIC_DESCRIPTIONS
  | _ => String.prefix (inv_number inv) (description tx) = true
  end.
Proof.
  intros H. open_transaction H cp n1 H1 td am ds me n2 H2 Hd.
  cbn [description].
  destruct type; try unfold discount_case in H2; try unfold fx_case in H2.
  - draw_offset H2 1 7 7 k Hk. unfold ret in H2. apply tuple4_inv in H2.
    destruct H2 as (_ & _ & <- & _). apply prefix_app.
  - draw_offset H2 1 5 5 k Hk. unfold ret in H2. apply tuple4_inv in H2.
    destruct H2 as (_ & _ & <- & _). apply prefix_app.
  - draw_offset H2 1 5 5 k Hk. unfold ret in H2. apply tuple4_inv in H2.
    destruct H2 as (_ & _ & <- & _). apply prefix_app.
  - draw_offset H2 1 5 5 k Hk. unfold ret in H2. apply tuple4_inv in H2.
    destruct H2 as (_ & _ & <- & _). apply prefix_app.
  - draw_offset H2 3 14 12 k Hk. bind_step H2 rate n4 H4. unfold ret in H2.
    apply tuple4_inv in H2. destruct H2 as (_ & _ & <- & _). apply prefix_app.
  - draw_offset H2 3 14 12 k Hk. bind_step H2 rate n4 H4. unfold ret in H2.
    apply tuple4_inv in H2. destruct H2 as (_ & _ & <- & _). apply prefix_app.
  - draw_offset H2 1 10 10 k Hk. bind_step H2 de n4 H4. unfold ret in H2.
    apply tuple4_inv in H2. destruct H2 as (_ & _ & <- & _).
    unfold getRandomGenericDescription, GENERIC_DESCRIPTIONS in H4.
    match type of H4 with
    | arrayElement _ (?x :: ?l) ?m = _ =>
        destruct (arrayElement_spec h x l m) as (y & Hy & Hin)
    end.
    rewrite Hy in H4. apply Return_pair_inv in H4. destruct H4 as [<- _]. exact Hin.
  - draw_offset H2 1 10 10 k Hk. bind_step H2 rate n4 H4. unfold ret in H2.
    apply tuple4_inv in H2. destruct H2 as (_ & _ & <- & _). apply prefix_app.
  - draw_offset H2 30 60 31 k Hk. unfold ret in H2. apply tuple4_inv in H2.
    destruct H2 as (_ & _ & <- & _). apply prefix_app.
  - draw_offset H2 1 7 7 k Hk. unfold ret in H2. apply tuple4_inv in H2.
    destruct H2 as (_ & _ & <- & _). apply prefix_app.
Qed.

Lemma avoids_substring sep s :
  forall m l, avoids sep s = true -> avoids sep (substring m l s) = true.
Proof.
  induction s as [|c s IH]; intros m l H.
  - destruct m, l; reflexivity.
  - cbn [avoids] in H. apply andb_true_iff in H. destruct H as [Hc Hs].
    destruct m as [|m]; [destruct l as [|l]|]; cbn [substring avoids].
    + reflexivity.
    + rewrite Hc. exact (IH 0%nat l Hs).
    + exact (IH m l Hs).
Qed.

(** A text that holds a hyphen does not occur in a text that holds none. *)
Lemma index_hyphen a b :
  avoids "-" a = false -> avoids "-" b = true -> String.index 0 a b = None.
Proof.
  intros Ha Hb. destruct (String.index 0 a b) as [m|] eqn:E; [|reflexivity].
  apply String.index_correct1 in E.
  pose proof (avoids_substring "-" b m (String.length a) Hb) as H.
  rewrite E, Ha in H. discriminate H.
Qed.

Lemma generateInvoiceNumber_hyphen h y q direction :
  avoids "-" (generateInvoiceNumber h y q direction) = false.
Proof.
  unfold generateInvoiceNumber. rewrite avoids_app.
  change (avoids "-" ("-" ++ ?x)) with false.
  destruct direction; reflexivity.
Qed.

(** ** Test cases *)

Lemma generateTestCase_parts h type direction rs re our sequence n tc n' :
  generateTestCase h type direction rs re our sequence n = Return (tc, n') ->
  exists other n1 n2 n3,
    getRandomSupplier h n = Return (other, n1) /\
    generateInvoice h rs re (if direction_eqb direction payables then other else our)
      (if direction_eqb direction payables then our else other) sequence direction n1
    = Return (invoice tc, n2) /\
    generateTransaction h (invoice tc) type direction n2
    = Return ((transaction tc, metadata tc), n3) /\
    tc_type tc = type /\ tc_direction tc = direction /\ invoices tc = None.
Proof.
  unfold generateTestCase. intros H.
  bind_step H other n1 H1. bind_step H inv n2 H2. bind_step H r n3 H3.
  destruct r as [tx md]. bind_step H id' n4 H4.
  unfold ret in H. apply Return_pair_inv in H. destruct H as [<- _].
  exists other, n1, n2, n3. repeat split; assumption.
Qed.

(** ** FX cases and amount mismatches, in cents *)

Ltac cents_compare A1 B1 :=
  match goal with
  | |- ?a < ?b =>
      let Hq := fresh "Hq" in
      assert (Hq : (inject_Z (2 * a + 1) < inject_Z (2 * b + 1))%Q);
      [rewrite !inject_Z_plus, !inject_Z_mult; change (inject_Z 2) with 2%Q;
       change (inject_Z 1) with 1%Q; lra
      |rewrite <- Zlt_Qlt in Hq; lia]
  end.

Ltac cents_pos m :=
  let Hq := fresh "Hq" in
  assert (Hq : (inject_Z 1 < inject_Z (2 * m + 1))%Q);
  [rewrite !inject_Z_plus, !inject_Z_mult; change (inject_Z 2) with 2%Q;
   change (inject_Z 1) with 1%Q; lra
  |rewrite <- Zlt_Qlt in Hq; lia].

Lemma fx_amount_compare type direction lo hi r c :
  fx_rate_bounds type = Some (lo, hi) -> lo <= r <= hi -> 1799 <= c <= 10 ^ 8 ->
  exists m,
    round2 (num_mul (cents c) (fx_multiplier direction (cents r))) = cents m /\
    1 <= m <= 10 ^ 9 /\
    match type, direction with
    | fx_gain, payables | fx_loss, receivables => m < c
    | _, _ => c < m
    end.
Proof.
  intros Hb Hr Hc.
  assert (Htol : (tol == 1 # 100000)%Q) by reflexivity.
  assert (E : (inject_Z c / 100 == inject_Z c * (1 # 100))%Q) by field.
  assert (Hc1 : (1799 <= inject_Z c)%Q).
  { change 1799%Q with (inject_Z 1799). rewrite <- Zle_Qle. lia. }
  assert (Hc2 : (inject_Z c <= 100000000)%Q).
  { change 100000000%Q with (inject_Z (10 ^ 8)). rewrite <- Zle_Qle. lia. }
  assert (Hlow : within (9499 # 10000) (9901 # 10000) (fx_multiplier direction (cents r)) \/
                 within (10099 # 10000) (10501 # 10000) (fx_multiplier direction (cents r))).
  { destruct type; try discriminate Hb; cbn [fx_rate_bounds] in Hb; injection Hb as <- <-;
      destruct direction; cbn [fx_multiplier].
    - left. apply (cents_range r 95 99); try lia; qle.
    - right. apply gain_multiplier. exact Hr.
    - right. apply (cents_range r 101 105); try lia; qle.
    - left. apply loss_multiplier. exact Hr. }
  assert (Hcase : match type, direction with
                  | fx_gain, payables | fx_loss, receivables =>
                      within (9499 # 10000) (9901 # 10000) (fx_multiplier direction (cents r))
                  | _, _ =>
                      within (10099 # 10000) (10501 # 10000) (fx_multiplier direction (cents r))
                  end).
  { destruct type; try discriminate Hb; cbn [fx_rate_bounds] in Hb; injection Hb as <- <-;
      destruct direction; cbn [fx_multiplier].
    - apply (cents_range r 95 99); try lia; qle.
    - apply gain_multiplier. exact Hr.
    - apply (cents_range r 101 105); try lia; qle.
    - apply loss_multiplier. exact Hr. }
  clear Hlow.
  destruct type; try discriminate Hb; destruct direction;
    destruct (scaled_cents c _ _ _ ltac:(lia) Hcase ltac:(discriminate) ltac:(discriminate))
      as (m & Hm0 & Em & A1 & B1 & _);
    exists m; (split; [exact Em|]);
    assert (Hmq : (0 <= inject_Z m)%Q) by (rewrite <- (Zle_Qle 0); lia).
  - assert (Hlt : m < c) by cents_compare A1 B1.
    assert (Hpos : 0 < m) by cents_pos m. split; [lia|exact Hlt].
  - assert (Hlt : c < m) by cents_compare A1 B1.
    assert (Hup : m < 2 * c) by cents_compare A1 B1. split; [lia|exact Hlt].
  - assert (Hlt : c < m) by cents_compare A1 B1.
    assert (Hup : m < 2 * c) by cents_compare A1 B1. split; [lia|exact Hlt].
  - assert (Hlt : m < c) by cents_compare A1 B1.
    assert (Hpos : 0 < m) by cents_pos m. split; [lia|exact Hlt].
Qed.

Local Open Scope list_scope.
Local Open Scope Z_scope.
Local Open Scope Q_scope.

(** * Further lemmas: products of two-decimal numbers *)

(** A two-decimal number is within two units in the last place of its
    decimal value. *)
Lemma cents_relative c :
  (1 <= c <= 10 ^ 12)%Z ->
  within (inject_Z c * (1 # 100) * (1 - 2 * u)) (inject_Z c * (1 # 100) * (1 + 2 * u)) (cents c).
Proof.
  intros Hc. unfold cents. destruct c as [|p|p]; try lia. cbn [Z.to_N].
  assert (Hq : inject_Z (Zpos p) <= 1000000000000).
  { change 1000000000000 with (inject_Z (10 ^ 12)). rewrite <- Zle_Qle. lia. }
  assert (Hq1 : 1 <= inject_Z (Zpos p)) by (rewrite <- (Zle_Qle 1); lia).
  assert (Hp : inject_Z (Zpos p) < 2 ^ 1000).
  { apply (Qle_lt_trans _ 1000000000000); [exact Hq|reflexivity]. }
  destruct (of_decimal_2_rounds p Hp) as [Hr Hs].
  assert (E : inject_Z (Zpos p) / 100 == inject_Z (Zpos p) * (1 # 100)) by field.
  assert (HX0 : 0 <= inject_Z (Zpos p) / 100) by lra.
  destruct (rounds_bounds _ _ Hr HX0) as [Hb1 Hb2].
  split; [exact (rounds_finite _ _ Hr)|]. split; [exact Hs|].
  rewrite E in Hb1, Hb2.
  set (X := inject_Z (Zpos p) * (1 # 100)) in *.
  assert (HX : 1 # 100 <= X) by (unfold X; lra).
  assert (He : eta <= X * u).
  { apply (Qle_trans _ ((1 # 100) * u)); [qle|].
    apply Qmult_le_compat_r; [exact HX|apply Qlt_le_weak, u_pos]. }
  assert (E1 : X * (1 - u) - eta == X - X * u - eta) by ring.
  assert (E2 : X * (1 + u) + eta == X + X * u + eta) by ring.
  assert (E3 : X * (1 - 2 * u) == X - 2 * (X * u)) by ring.
  assert (E4 : X * (1 + 2 * u) == X + 2 * (X * u)) by ring.
  rewrite E1 in Hb1. rewrite E2 in Hb2. rewrite E3, E4.
  set (Xu := X * u) in *. clearbody Xu. split; lra.
Qed.

(** The amount of [c] cents times a rate of [r] hundredths, rounded to two
    decimals, is the nearest whole number of cents to [c * r / 100]. *)
Lemma cents_times_rate r c :
  (95 <= r <= 105)%Z -> (1 <= c <= 10 ^ 8)%Z ->
  exists m, (0 <= m <= 10 ^ 9)%Z /\
    round2 (num_mul (cents c) (cents r)) = cents m /\
    (2 * (r * c) - 100 <= 200 * m <= 2 * (r * c) + 100)%Z.
Proof.
  intros Hr Hc.
  pose proof (cents_relative c ltac:(lia)) as Hx.
  pose proof (cents_relative r ltac:(lia)) as Hy.
  assert (Hc1 : 1 <= inject_Z c) by (rewrite <- (Zle_Qle 1); lia).
  assert (Hc2 : inject_Z c <= 100000000).
  { change 100000000 with (inject_Z (10 ^ 8)). rewrite <- Zle_Qle. lia. }
  assert (Hr1 : 95 <= inject_Z r).
  { change 95 with (inject_Z 95). rewrite <- Zle_Qle. lia. }
  assert (Hr2 : inject_Z r <= 105).
  { change 105 with (inject_Z 105). rewrite <- Zle_Qle. lia. }
  pose proof eta_pos as He0. assert (He1 : eta <= 1 # 1000000000000000000000000000000) by qle.
  set (C := inject_Z c * (1 # 100)) in *. set (R := inject_Z r * (1 # 100)) in *.
  assert (HC : 1 # 100 <= C /\ C <= 1000000) by (unfold C; split; lra).
  assert (HR : 95 # 100 <= R /\ R <= 105 # 100) by (unfold R; split; lra).
  (* the product of the bounds, within 10^-8 of C * R *)
  assert (Hu : u == 1 # 9007199254740992) by reflexivity.
  assert (HCR : 0 <= C * R /\ C * R <= 1050000).
  { split; [apply Qmult_le_0_compat; lra|].
    apply (Qle_trans _ (1000000 * R)); [apply Qmult_le_compat_r; lra|lra]. }
  assert (Hlo : C * R - (1 # 100000000) <= C * (1 - 2 * u) * (R * (1 - 2 * u)) * (1 - u) - eta).
  { assert (E : C * (1 - 2 * u) * (R * (1 - 2 * u)) * (1 - u)
                == (1 - 2 * u) * (1 - 2 * u) * (1 - u) * (C * R)) by ring.
    rewrite E, Hu.
    assert (E2 : (1 - 2 * (1 # 9007199254740992)) * (1 - 2 * (1 # 9007199254740992))
                 * (1 - (1 # 9007199254740992))
                 >= 1 - (1 # 1000000000000000)) by qle.
    set (k := (1 - 2 * (1 # 9007199254740992)) * (1 - 2 * (1 # 9007199254740992))
              * (1 - (1 # 9007199254740992))) in *. clearbody k.
    assert (E3 : (1 - (1 # 1000000000000000)) * (C * R) <= k * (C * R)).
    { apply Qmult_le_compat_r; [exact E2|exact (proj1 HCR)]. }
    lra. }
  assert (Hhi : C * (1 + 2 * u) * (R * (1 + 2 * u)) * (1 + u) + eta <= C * R + (1 # 100000000)).
  { assert (E : C * (1 + 2 * u) * (R * (1 + 2 * u)) * (1 + u)
                == (1 + 2 * u) * (1 + 2 * u) * (1 + u) * (C * R)) by ring.
    rewrite E, Hu.
    assert (E2 : (1 + 2 * (1 # 9007199254740992)) * (1 + 2 * (1 # 9007199254740992))
                 * (1 + (1 # 9007199254740992))
                 <= 1 + (1 # 1000000000000000)) by qle.
    set (k := (1 + 2 * (1 # 9007199254740992)) * (1 + 2 * (1 # 9007199254740992))
              * (1 + (1 # 9007199254740992))) in *. clearbody k.
    assert (E3 : k * (C * R) <= (1 + (1 # 1000000000000000)) * (C * R)).
    { apply Qmult_le_compat_r; [exact E2|exact (proj1 HCR)]. }
    lra. }
  assert (Hw : within (C * R - (1 # 100000000)) (C * R + (1 # 100000000))
                 (num_mul (cents c) (cents r))).
  { apply (mul_within _ _ _ _ _ _ _ _ Hx Hy); try assumption.
    - rewrite Hu. apply Qmult_le_0_compat; [lra|discriminate].
    - rewrite Hu. apply Qmult_le_0_compat; [lra|discriminate].
    - apply (Qle_lt_trans _ (C * R + (1 # 100000000))); [|apply (Qle_lt_trans _ 2000000); [lra|reflexivity]].
      apply (Qle_trans _ (C * (1 + 2 * u) * (R * (1 + 2 * u)) * (1 + u) + eta)); [|exact Hhi].
      assert (0 <= C * (1 + 2 * u) * (R * (1 + 2 * u)) * u).
      { rewrite Hu. repeat apply Qmult_le_0_compat; try lra; discriminate. }
      assert (E : C * (1 + 2 * u) * (R * (1 + 2 * u)) * (1 + u)
                  == C * (1 + 2 * u) * (R * (1 + 2 * u)) + C * (1 + 2 * u) * (R * (1 + 2 * u)) * u)
        by ring.
      rewrite E. lra. }
  destruct (round2_within _ _ _ Hw) as (n & Hn & A1 & B1 & _).
  { apply (Qle_lt_trans _ 2000000); [lra|reflexivity]. }
  destruct Hw as (_ & _ & Hv1 & Hv2).
  set (v := SF2Q (num_mul (cents c) (cents r))) in *. clearbody v.
  assert (ECR : 10000 * (C * R) == inject_Z (r * c)).
  { unfold C, R. rewrite inject_Z_mult. ring. }
  set (P := C * R) in *. clearbody P.
  exists (Z.of_N n). unfold round2, cents. rewrite N2Z.id.
  assert (Hup : inject_Z (200 * Z.of_N n) < inject_Z (2 * (r * c) + 101)).
  { rewrite inject_Z_plus, !inject_Z_mult. change (inject_Z 200) with 200.
    change (inject_Z 2) with 2. change (inject_Z 101) with 101.
    rewrite inject_Z_mult in ECR. lra. }
  assert (Hdn : inject_Z (2 * (r * c)) < inject_Z (200 * Z.of_N n + 101)).
  { rewrite inject_Z_plus, !inject_Z_mult. change (inject_Z 200) with 200.
    change (inject_Z 2) with 2. change (inject_Z 101) with 101.
    rewrite inject_Z_mult in ECR. lra. }
  rewrite <- Zlt_Qlt in Hup, Hdn.
  split; [nia|]. split; [exact Hn|lia].
Qed.

(** The amount of an FX case, in cents: less than the total when the case is
    favourable to the payer of a payable or unfavourable to the payee of a
    receivable, more otherwise; for a payable it is the nearest whole number
    of cents to the total times the rate. *)
Lemma fx_amount_cents type direction lo hi r c :
  fx_rate_bounds type = Some (lo, hi) -> (lo <= r <= hi)%Z -> (1799 <= c <= 10 ^ 8)%Z ->
  exists m,
    round2 (num_mul (cents c) (fx_multiplier direction (cents r))) = cents m /\
    (1 <= m <= 10 ^ 9)%Z /\
    match type, direction with
    | fx_gain, payables | fx_loss, receivables => (m < c)%Z
    | _, _ => (c < m)%Z
    end /\
    (direction = payables -> (2 * (r * c) - 100 <= 200 * m <= 2 * (r * c) + 100)%Z).
Proof.
  intros Hb Hr Hc. destruct direction.
  - assert (Hr' : (95 <= r <= 105)%Z).
    { destruct type; try discriminate Hb; cbn [fx_rate_bounds] in Hb; injection Hb as <- <-; lia. }
    destruct (cents_times_rate r c Hr' ltac:(lia)) as (m & Hm0 & Em & Hm).
    exists m. cbn [fx_multiplier]. split; [exact Em|].
    destruct type; try discriminate Hb; cbn [fx_rate_bounds] in Hb; injection Hb as <- <-.
    + split; [nia|]. split; [nia|]. intros _. exact Hm.
    + split; [nia|]. split; [nia|]. intros _. exact Hm.
  - destruct (fx_amount_compare type receivables lo hi r c Hb Hr Hc) as (m & Em & Hm & Hcmp).
    exists m. split; [exact Em|]. split; [exact Hm|]. split; [|discriminate].
    destruct type; try discriminate Hb; exact Hcmp.
Qed.

(** The amount of an amount-mismatch case, in cents. *)
Lemma mismatch_amount_cents r c :
  (99 <= r <= 101)%Z -> (1799 <= c <= 10 ^ 8)%Z ->
  exists m,
    round2 (num_mul (cents c) (cents r)) = cents m /\
    (1 <= m <= 10 ^ 9)%Z /\
    (2 * (r * c) - 100 <= 200 * m <= 2 * (r * c) + 100)%Z /\
    (r = 100%Z -> m = c).
Proof.
  intros Hr Hc.
  destruct (cents_times_rate r c ltac:(lia) ltac:(lia)) as (m & Hm0 & Em & Hm).
  exists m. split; [exact Em|]. split; [nia|]. split; [exact Hm|].
  intros ->. lia.
Qed.

Local Open Scope list_scope.
Local Open Scope string_scope.
Local Open Scope Z_scope.

(** * Further lemmas: the loops of the suite *)

Section SuiteLoop.

Variable h : Host.
Variable direction : TransactionDirection.
Variables range_start range_end : Date.
Variable ourCompany : Company.

(** An invariant of the list of test cases and of the invoice sequence. *)
Variable Inv : list TestCase -> number -> Prop.

Hypothesis single_step :
  forall type acc sq n tc n',
    Inv acc sq ->
    generateTestCase h type direction range_start range_end ourCompany sq n = Return (tc, n') ->
    Inv (acc ++ [tc])%list (num_add sq (ofZ 1)).

Hypothesis group_step :
  forall acc sq n tc cnt n',
    Inv acc sq ->
    generateGroupPaymentTestCase h direction range_start range_end ourCompany sq n
    = Return ((tc, cnt), n') ->
    Inv (acc ++ [tc])%list (num_add sq cnt).

Lemma generate_units_invariant k type :
  forall acc sq n cases' sq' n',
    generate_units h k type direction range_start range_end ourCompany acc sq n
    = Return ((cases', sq'), n') ->
    Inv acc sq -> Inv cases' sq'.
Proof.
  induction k as [|k IH]; intros acc sq n cases' sq' n' H Hacc; cbn [generate_units] in H.
  - unfold ret in H. apply Return_pair_inv in H. destruct H as [H _].
    apply pair_inv in H. destruct H as [<- <-]. exact Hacc.
  - destruct type;
      try (bind_step H tc n1 H1; apply (IH _ _ _ _ _ _ H);
           exact (single_step _ _ _ _ _ _ Hacc H1)).
    bind_step H r n1 H1. destruct r as [tc cnt]. apply (IH _ _ _ _ _ _ H).
    exact (group_step _ _ _ _ _ _ Hacc H1).
Qed.

Lemma generate_configs_invariant fuel configs :
  forall acc sq n cases' n',
    generate_configs h fuel configs direction range_start range_end ourCompany acc sq n
    = Return (cases', n') ->
    Inv acc sq -> exists sq', Inv cases' sq'.
Proof.
  induction configs as [|config configs IH]; intros acc sq n cases' n' H Hacc.
  - cbn [generate_configs] in H.
    unfold ret in H. apply Return_pair_inv in H. destruct H as [<- _]. exists sq. exact Hacc.
  - apply generate_configs_cons in H.
    destruct H as (k & acc' & seq' & n1 & _ & H1 & H).
    apply (IH _ _ _ _ _ H). exact (generate_units_invariant _ _ _ _ _ _ _ _ H1 Hacc).
Qed.

End SuiteLoop.

(** An invariant that holds at the start of [generateTestSuite] holds of
    its test cases. *)
Lemma generateTestSuite_invariant h fuel now configs direction start' end' overrides
    (Inv : list TestCase -> number -> Prop) n suite n' :
  (forall type acc sq m tc m',
     Inv acc sq ->
     generateTestCase h type direction (Date_parse h start') (Date_parse h end')
       (merge_company DEFAULT_COMPANY overrides) sq m = Return (tc, m') ->
     Inv (acc ++ [tc])%list (num_add sq (ofZ 1))) ->
  (forall acc sq m tc cnt m',
     Inv acc sq ->
     generateGroupPaymentTestCase h direction (Date_parse h start') (Date_parse h end')
       (merge_company DEFAULT_COMPANY overrides) sq m = Return ((tc, cnt), m') ->
     Inv (acc ++ [tc])%list (num_add sq cnt)) ->
  (forall q, 100 <= q <= 999 -> Inv [] (ofZ q)) ->
  generateTestSuite h fuel now configs direction start' end' overrides n = Return (suite, n') ->
  exists sq, Inv (cases suite) sq.
Proof.
  intros Hs Hg H0 H. unfold generateTestSuite in H.
  bind_step H sq n1 H1. bind_step H tcs n2 H2. bind_step H id' n3 H3. bind_step H cr n4 H4.
  unfold ret in H. apply Return_pair_inv in H. destruct H as [<- _].
  lazy beta iota delta [cases].
  apply (randomBetween_inv h 100 999 900) in H1; [|vm_compute; reflexivity|lia|lia].
  destruct H1 as (-> & q & Hq & ->).
  apply (generate_configs_invariant h direction _ _ _ Inv Hs Hg _ _ _ _ _ _ _ H2).
  apply H0. lia.
Qed.

(** A property of every test case of a suite. *)
Lemma generateTestSuite_Forall h fuel now configs direction start' end' overrides
    (P : TestCase -> Prop) n suite n' :
  (forall type sq m tc m',
     generateTestCase h type direction (Date_parse h start') (Date_parse h end')
       (merge_company DEFAULT_COMPANY overrides) sq m = Return (tc, m') -> P tc) ->
  (forall sq m tc cnt m',
     generateGroupPaymentTestCase h direction (Date_parse h start') (Date_parse h end')
       (merge_company DEFAULT_COMPANY overrides) sq m = Return ((tc, cnt), m') -> P tc) ->
  generateTestSuite h fuel now configs direction start' end' overrides n = Return (suite, n') ->
  Forall P (cases suite).
Proof.
  intros Hs Hg H.
  destruct (generateTestSuite_invariant h fuel now configs direction start' end' overrides
              (fun acc _ => Forall P acc) n suite n') as (sq & HF); try assumption.
  - intros type acc sq m tc m' Hacc Hr. apply Forall_app. split; [exact Hacc|].
    constructor; [exact (Hs _ _ _ _ _ Hr)|constructor].
  - intros acc sq m tc cnt m' Hacc Hr. apply Forall_app. split; [exact Hacc|].
    constructor; [exact (Hg _ _ _ _ _ Hr)|constructor].
  - intros q _. constructor.
Qed.

(** ** Group payments *)

(** What a run of [generateGroupPaymentTestCase] that returns has done. *)
Lemma generateGroupPaymentTestCase_parts h direction rs re our sequence n tc cnt n' :
  generateGroupPaymentTestCase h direction rs re our sequence n = Return ((tc, cnt), n') ->
  exists other n1 N invs first rest,
    getRandomSupplier h n = Return (other, n1) /\
    2 <= N <= 3 /\ cnt = ofZ N /\
    invoices tc = Some invs /\ invs = first :: rest /\ invoice tc = first /\
    List.length invs = Z.to_nat N /\
    Forall2 (fun i inv =>
               exists m m',
                 generateInvoice h rs re
                   (if direction_eqb direction payables then other else our)
                   (if direction_eqb direction payables then our else other)
                   (num_add sequence (ofZ (Z.of_nat i))) direction m = Return (inv, m'))
            (seq 0 (Z.to_nat N)) invs /\
    (exists m m',
       getRandomNameVariation h other m = Return (counterparty (transaction tc), m')) /\
    description (transaction tc)
    = "Batch Payment: " ++ String.concat ", " (map inv_number invs) /\
    amount_eur (transaction tc) = round2 (num_mul (amountSignOf direction) (sum_totals invs)) /\
    originalAmount (metadata tc) = round2 (sum_totals invs) /\
    adjustedAmount (metadata tc) = round2 (sum_totals invs) /\
    groupedInvoiceCount (metadata tc) = Some (ofZ N) /\
    tc_type tc = group_payment /\ tc_direction tc = direction.
Proof.
  unfold generateGroupPaymentTestCase. intros H.
  bind_step H other n1 H1. bind_step H invoiceCount n2 H2. bind_step H invoices' n3 H3.
  apply (randomBetween_inv h 2 3 2) in H2; [|vm_compute; reflexivity|lia|lia].
  destruct H2 as (-> & N & HN & ->).
  rewrite iterations_ofZ in H3 by lia.
  pose proof (mapM_inv (fun i inv =>
                 exists m m',
                   generateInvoice h rs re
                     (if direction_eqb direction payables then other else our)
                     (if direction_eqb direction payables then our else other)
                     (num_add sequence (ofZ (Z.of_nat i))) direction m = Return (inv, m')) _
                (fun a m b m' Hr => ex_intro _ m (ex_intro _ m' Hr)) _ _ _ _ H3) as HF2.
  pose proof (Forall2_length HF2) as Hlen. rewrite length_seq in Hlen.
  destruct invoices' as [|first rest]; [discriminate H|].
  bind_step H offset n4 H4. bind_step H cp n5 H5. bind_step H date' n6 H6.
  bind_step H id' n7 H7.
  ret_inv H Etc Ecnt. subst tc cnt.
  exists other, n1, N, (first :: rest), first, rest.
  lazy beta iota delta [tc_type tc_direction invoices metadata groupedInvoiceCount invoice
                        transaction amount_eur description counterparty originalAmount
                        adjustedAmount].
  split; [exact H1|]. split; [lia|]. split; [reflexivity|]. split; [reflexivity|].
  split; [reflexivity|]. split; [reflexivity|]. split; [symmetry; exact Hlen|].
  split; [exact HF2|]. split.
  - exists n4, n5. destruct direction; exact H5.
  - repeat split.
Qed.

(** The invoices of a group and their totals, in cents. *)
Lemma group_invoices_generated h sup cus rs re sequence direction (N : nat) invs :
  Forall2 (fun i inv =>
             exists m m',
               generateInvoice h rs re sup cus (num_add sequence (ofZ (Z.of_nat i)))
                 direction m = Return (inv, m'))
          (seq 0 N) invs ->
  Forall (invoice_generated sup cus) invs.
Proof.
  generalize (seq 0 N). intros l HF. induction HF as [|i inv l invs (m & m' & Hr) HF IH].
  - constructor.
  - constructor; [exact (generateInvoice_inv _ _ _ _ _ _ _ _ _ _ Hr)|exact IH].
Qed.

Lemma group_amount_cents h direction rs re our sequence n tc cnt n' :
  generateGroupPaymentTestCase h direction rs re our sequence n = Return ((tc, cnt), n') ->
  exists invs ns,
    invoices tc = Some invs /\
    Forall2 (fun inv c => total inv = cents c /\ 1799 <= c <= 35702001) invs ns /\
    3598 <= Zsum ns <= 107106003 /\
    amount_eur (transaction tc) = signed direction (cents (Zsum ns)) /\
    adjustedAmount (metadata tc) = cents (Zsum ns) /\
    originalAmount (metadata tc) = cents (Zsum ns).
Proof.
  intros H.
  destruct (generateGroupPaymentTestCase_parts _ _ _ _ _ _ _ _ _ _ H)
    as (other & n1 & N & invs & first & rest & _ & HN & _ & Hinvs & _ & _ & Hlen & HF2 & _ & _
        & Hamt & Ho & Ha & _).
  pose proof (group_invoices_generated _ _ _ _ _ _ _ _ _ HF2) as HF.
  assert (Hns : exists ns,
            Forall2 (fun inv c => total inv = cents c /\ 1799 <= c <= 35702001) invs ns).
  { clear - HF. induction HF as [|inv invs Hinv HF IH].
    - exists []. constructor.
    - destruct IH as (ns & IH).
      destruct (invoice_generated_totals _ _ _ Hinv) as (c1 & c2 & c & _ & _ & Ec & _ & _ & Hc & _).
      exists (c :: ns). constructor; [split; [exact Ec|exact Hc]|exact IH]. }
  destruct Hns as (ns & Hns). exists invs, ns.
  destruct (sum_totals_cents invs ns Hns ltac:(lia)) as (Hw & Hr & Hrange).
  split; [exact Hinvs|]. split; [exact Hns|]. split; [exact Hrange|].
  rewrite Ha, Ho, Hr. split; [|split; reflexivity].
  assert (E : (inject_Z (Zsum ns) / 100 == inject_Z (Zsum ns) * (1 # 100))%Q) by field.
  rewrite Hamt, (signed_round2 direction _ _ _ Hw), Hr; [reflexivity| |].
  - assert (Hq : (3598 <= inject_Z (Zsum ns))%Q).
    { change 3598%Q with (inject_Z 3598). rewrite <- Zle_Qle. lia. }
    lra.
  - assert (Hq : (inject_Z (Zsum ns) <= 107106003)%Q).
    { change 107106003%Q with (inject_Z 107106003). rewrite <- Zle_Qle. lia. }
    lra.
Qed.

Local Open Scope list_scope.
Local Open Scope string_scope.
Local Open Scope Z_scope.

(** * Further lemmas: invoice sequences *)

Lemma string_app_assoc a b c : (a ++ b) ++ c = a ++ (b ++ c).
Proof. induction a as [|x a IH]; cbn [append]; [reflexivity|]. rewrite IH. reflexivity. Qed.

Lemma app_suffix_inj a :
  forall b s s', String.length s = String.length s' -> a ++ s = b ++ s' -> s = s'.
Proof.
  induction a as [|c a IH]; intros b s s' Hlen H; cbn [append] in H.
  - destruct b as [|c' b]; [exact H|].
    apply (f_equal String.length) in H. cbn [append String.length] in H.
    rewrite string_length_app in H. lia.
  - destruct b as [|c' b]; cbn [append] in H.
    + apply (f_equal String.length) in H. cbn [String.length] in H.
      rewrite string_length_app in H. lia.
    + injection H as _ H. exact (IH _ _ _ Hlen H).
Qed.

Lemma fixed_width_4_inj a b :
  0 <= a <= 9999 -> 0 <= b <= 9999 -> fixed_width 4 a = fixed_width 4 b -> a = b.
Proof.
  intros Ha Hb H. pose proof (parse_fixed_width_4 a Ha) as Pa.
  rewrite H, (parse_fixed_width_4 b Hb) in Pa. injection Pa as <-. reflexivity.
Qed.

(** Invoices numbered with different sequences have different numbers. *)
Lemma numbered_inj inv inv' a b :
  0 <= a <= 9999 -> 0 <= b <= 9999 ->
  numbered inv a -> numbered inv' b -> inv_number inv = inv_number inv' -> a = b.
Proof.
  intros Ha Hb (p & Ep) (p' & Ep') E. rewrite Ep, Ep' in E.
  apply (fixed_width_4_inj a b Ha Hb).
  assert (H : "-" ++ fixed_width 4 a = "-" ++ fixed_width 4 b).
  { apply (app_suffix_inj p p'); [|exact E].
    rewrite !string_length_app, !length_fixed_width. reflexivity. }
  exact (f_equal (fun s => match s with String _ t => t | EmptyString => EmptyString end) H).
Qed.

Lemma Zrange_app q a b :
  Zrange q (a + b) = (Zrange q a ++ Zrange (q + Z.of_nat a) b)%list.
Proof.
  revert q. induction a as [|a IH]; intros q.
  - cbn [Zrange Nat.add List.app Z.of_nat]. rewrite Z.add_0_r. reflexivity.
  - cbn [Zrange Nat.add List.app]. rewrite IH. do 3 f_equal. lia.
Qed.

Lemma Zrange_In q n k : In k (Zrange q n) <-> q <= k < q + Z.of_nat n.
Proof.
  revert q. induction n as [|n IH]; intros q; cbn [Zrange In].
  - split; [contradiction|lia].
  - rewrite IH. lia.
Qed.

Lemma Zrange_NoDup q n : NoDup (Zrange q n).
Proof.
  revert q. induction n as [|n IH]; intros q; cbn [Zrange]; constructor.
  - rewrite Zrange_In. lia.
  - apply IH.
Qed.

Lemma Zrange_length q n : List.length (Zrange q n) = n.
Proof. revert q. induction n as [|n IH]; intros q; cbn [Zrange List.length]; [|rewrite IH]; reflexivity. Qed.

(** Invoices numbered with distinct sequences have distinct numbers. *)
Lemma numbered_NoDup invs ks :
  Forall2 numbered invs ks -> Forall (fun k => 0 <= k <= 9999) ks -> NoDup ks ->
  NoDup (map inv_number invs).
Proof.
  intros HF. induction HF as [|inv k invs ks Hn HF IH]; intros Hr Hd; cbn [map].
  - constructor.
  - inversion Hr as [|? ? Hk Hr']; subst. inversion Hd as [|? ? Hnin Hd']; subst.
    constructor; [|exact (IH Hr' Hd')].
    intros Hin. apply in_map_iff in Hin. destruct Hin as (inv' & E & Hin').
    apply Hnin. clear IH Hd Hd' Hnin Hr.
    induction HF as [|i2 k2 invs ks Hn2 HF IH2]; [destruct Hin'|].
    inversion Hr' as [|? ? Hk2 Hr2]; subst.
    destruct Hin' as [->|Hin'].
    + left. symmetry. exact (numbered_inj _ _ _ _ Hk Hk2 Hn Hn2 (eq_sym E)).
    + right. exact (IH2 Hr2 Hin').
Qed.

Lemma generateInvoice_numbered h rs re sup cus q direction n inv n' :
  0 <= q <= 9999 ->
  generateInvoice h rs re sup cus (ofZ q) direction n = Return (inv, n') ->
  numbered inv q.
Proof.
  intros Hq H.
  destruct (generateInvoice_suffix _ _ _ _ _ _ _ _ _ _ Hq H) as (t & _ & _ & E).
  exists ((if direction_eqb direction receivables then "INV" else "BILL")
            ++ "-" ++ Number_toString h (getFullYear h (Some t))).
  rewrite E, !string_app_assoc. reflexivity.
Qed.

Lemma seq_Zrange (R : Z -> Invoice -> Prop) q N :
  forall a invs,
    Forall2 (fun i inv => R (q + Z.of_nat i) inv) (seq a N) invs ->
    Forall2 (fun inv k => R k inv) invs (Zrange (q + Z.of_nat a) N).
Proof.
  induction N as [|N IH]; intros a invs HF; cbn [seq Zrange] in *.
  - inversion HF. constructor.
  - inversion HF as [|i inv l invs' Hr HF']; subst. constructor; [exact Hr|].
    replace (q + Z.of_nat a + 1) with (q + Z.of_nat (S a)) by lia. exact (IH _ _ HF').
Qed.

Lemma all_invoices_app acc tc :
  all_invoices (acc ++ [tc])%list = (all_invoices acc ++ case_invoices tc)%list.
Proof. unfold all_invoices. rewrite flat_map_app. cbn [flat_map]. rewrite app_nil_r. reflexivity. Qed.

(** The invariant of the suite on the invoice sequence: the next sequence
    is [q], the invoices made so far carry the sequences from [q0] on, and
    there are at most three of them per test case. *)
Lemma suite_sequence_invariant h fuel now configs direction start' end' overrides n suite n' :
  generateTestSuite h fuel now configs direction start' end' overrides n = Return (suite, n') ->
  exists q0 q,
    100 <= q0 <= 999 /\ q0 <= q /\
    q - q0 = Z.of_nat (List.length (all_invoices (cases suite))) /\
    q - q0 <= 3 * Z.of_nat (List.length (cases suite)) /\
    (q <= 10000 ->
     Forall2 numbered (all_invoices (cases suite)) (Zrange q0 (Z.to_nat (q - q0)))).
Proof.
  intros H.
  destruct (generateTestSuite_invariant h fuel now configs direction start' end' overrides
              (fun acc sq =>
                 exists q0 q,
                   100 <= q0 <= 999 /\ q0 <= q /\
                   q - q0 = Z.of_nat (List.length (all_invoices acc)) /\
                   q - q0 <= 3 * Z.of_nat (List.length acc) /\
                   (q <= 10000 ->
                    sq = ofZ q /\
                    Forall2 numbered (all_invoices acc) (Zrange q0 (Z.to_nat (q - q0)))))
              n suite n') as (sq & q0 & q & Hq0 & Hq & Hlen & Hb & Hg); try exact H.
  - intros type acc sq m tc m' (q0 & q & Hq0 & Hq & Hlen & Hb & Hg) Hr.
    destruct (generateTestCase_parts _ _ _ _ _ _ _ _ _ _ Hr)
      as (other & n1 & n2 & n3 & _ & Hinv & _ & _ & _ & Hnone).
    assert (Hci : case_invoices tc = [invoice tc]) by (unfold case_invoices; rewrite Hnone; reflexivity).
    exists q0, (q + 1). rewrite all_invoices_app, Hci, !length_app. cbn [List.length].
    split; [exact Hq0|]. split; [lia|]. split; [lia|]. split; [lia|].
    intros Hle. destruct (Hg ltac:(lia)) as [-> HF]. split.
    + apply num_add_nonneg_int; lia.
    + replace (Z.to_nat (q + 1 - q0)) with (Z.to_nat (q - q0) + 1)%nat by lia.
      rewrite Zrange_app. apply Forall2_app; [exact HF|].
      cbn [Zrange]. constructor; [|constructor].
      replace (q0 + Z.of_nat (Z.to_nat (q - q0))) with q by lia.
      eapply generateInvoice_numbered; [|exact Hinv]. lia.
  - intros acc sq m tc cnt m' (q0 & q & Hq0 & Hq & Hlen & Hb & Hg) Hr.
    destruct (generateGroupPaymentTestCase_parts _ _ _ _ _ _ _ _ _ _ Hr)
      as (other & n1 & N & invs & first & rest & _ & HN & -> & Hinvs & _ & _ & HlenN & HF2 & _).
    assert (Hci : case_invoices tc = invs) by (unfold case_invoices; rewrite Hinvs; reflexivity).
    exists q0, (q + N). rewrite all_invoices_app, Hci, !length_app, HlenN. cbn [List.length].
    split; [exact Hq0|]. split; [lia|]. split; [lia|]. split; [lia|].
    intros Hle. destruct (Hg ltac:(lia)) as [-> HF]. split.
    + apply num_add_nonneg_int; lia.
    + replace (Z.to_nat (q + N - q0)) with (Z.to_nat (q - q0) + Z.to_nat N)%nat by lia.
      rewrite Zrange_app. apply Forall2_app; [exact HF|].
      replace (q0 + Z.of_nat (Z.to_nat (q - q0))) with (q + Z.of_nat 0) by lia.
      apply (seq_Zrange (fun k inv => numbered inv k)).
      clear - HF2 Hle Hq Hq0 HN.
      assert (Hall : Forall (fun i => (i < Z.to_nat N)%nat) (seq 0 (Z.to_nat N))).
      { apply Forall_forall. intros i Hi. apply in_seq in Hi. lia. }
      induction HF2 as [|i inv l invs' (m1 & m2 & Hrun) HF2 IH]; constructor.
      * inversion Hall as [|? ? Hi _]; subst.
        rewrite num_add_nonneg_int in Hrun by lia.
        eapply generateInvoice_numbered; [|exact Hrun]. lia.
      * apply IH. inversion Hall; assumption.
  - intros q0 Hq0. exists q0, q0. cbn [all_invoices flat_map List.length].
    split; [exact Hq0|]. split; [lia|]. split; [lia|]. split; [lia|].
    intros _. split; [reflexivity|]. rewrite Z.sub_diag. constructor.
  - exists q0, q. split; [exact Hq0|]. split; [exact Hq|]. split; [exact Hlen|].
    split; [exact Hb|]. intros Hle. exact (proj2 (Hg Hle)).
Qed.

Local Open Scope list_scope.
Local Open Scope string_scope.
Local Open Scope Z_scope.

(** * Further lemmas: generation returns *)

(** The date of a payment made [d] days after an issue date. *)
Lemma payment_date_returns h t d :
  fixed_offset h -> Z.abs t <= 8 * 10 ^ 15 -> 0 <= d <= 60 ->
  formatDate (addDays h (Date_parse h (date_text t)) (ofZ d))
  = Return (date_text (Day t * msPerDay + d * msPerDay)).
Proof.
  intros Hfix Ht Hd.
  rewrite Date_parse_date_text by lia.
  rewrite (addDays_Some h _ d Hfix) by lia.
  rewrite TimeClip_Some; [apply formatDate_Some|].
  unfold Day, msPerDay. Z.div_mod_to_equations. lia.
Qed.

(** On an invoice issued within the range, [generateTransaction] returns. *)
Lemma generateTransaction_total h inv type direction n t :
  fixed_offset h -> date inv = date_text t -> Z.abs t <= 8 * 10 ^ 15 ->
  exists tx md n', generateTransaction h inv type direction n = Return ((tx, md), n').
Proof.
  intros Hfix Hd Ht. unfold generateTransaction. rewrite Hd.
  destruct (getRandomNameVariation_total h
              (if direction_eqb direction payables then supplier inv else customer inv) n)
    as (cp & n1 & Hcp).
  rewrite (bind_Return _ _ _ _ _ Hcp).
  destruct (randomBetween_returns h 1 7 n1 ltac:(lia) ltac:(lia) ltac:(lia)) as (k7 & Hk7 & R7).
  destruct (randomBetween_returns h 1 5 n1 ltac:(lia) ltac:(lia) ltac:(lia)) as (k5 & Hk5 & R5).
  destruct (randomBetween_returns h 3 14 n1 ltac:(lia) ltac:(lia) ltac:(lia)) as (k14 & Hk14 & R14).
  destruct (randomBetween_returns h 1 10 n1 ltac:(lia) ltac:(lia) ltac:(lia)) as (k10 & Hk10 & R10).
  destruct (randomBetween_returns h 30 60 n1 ltac:(lia) ltac:(lia) ltac:(lia)) as (k60 & Hk60 & R60).
  destruct (randomFloat_gain h (S n1)) as (rg & _ & Rg).
  destruct (randomFloat_loss h (S n1)) as (rl & _ & Rl).
  destruct (randomFloat_mismatch h (S n1)) as (rm & _ & Rm).
  assert (Rd : exists y, arrayElement h GENERIC_DESCRIPTIONS (S n1) = Return (y, S (S n1))).
  { unfold GENERIC_DESCRIPTIONS.
    match goal with
    | |- exists y, arrayElement _ (?x :: ?l) ?m = _ =>
        destruct (arrayElement_spec h x l m) as (y & Hy & _); exists y; exact Hy
    end. }
  destruct Rd as (de & Rd).
  pose proof (payment_date_returns h t k7 Hfix Ht ltac:(lia)) as F7.
  pose proof (payment_date_returns h t k5 Hfix Ht ltac:(lia)) as F5.
  pose proof (payment_date_returns h t k14 Hfix Ht ltac:(lia)) as F14.
  pose proof (payment_date_returns h t k10 Hfix Ht ltac:(lia)) as F10.
  pose proof (payment_date_returns h t k60 Hfix Ht ltac:(lia)) as F60.
  destruct type;
    cbv beta iota zeta delta [bind ret lift discount_case fx_case getRandomGenericDescription];
    rewrite ?R7, ?R5, ?R14, ?R10, ?R60; cbv beta iota zeta;
    rewrite ?Rg, ?Rl, ?Rm, ?Rd; cbv beta iota zeta;
    rewrite ?F7, ?F5, ?F14, ?F10, ?F60; cbv beta iota zeta;
    eexists; eexists; eexists; reflexivity.
Qed.

(** ** Whole numbers of either sign *)

Lemma binary_round_opp s m e :
  SFopp (binary_round prec emax s m e) = binary_round prec emax (negb s) m e.
Proof.
  unfold binary_round. destruct (shl_align m e _) as [mz ez].
  unfold binary_round_aux.
  destruct (shr_fexp prec emax (Z.pos mz) ez loc_Exact) as [mrs' e'].
  destruct (shr_fexp prec emax _ e' loc_Exact) as [mrs'' e''].
  destruct (shr_m mrs''); try reflexivity.
  destruct (e'' <=? emax - prec); reflexivity.
Qed.

Lemma ofZ_opp z : z <> 0 -> ofZ (- z) = SFopp (ofZ z).
Proof.
  intros Hz. unfold ofZ, binary_normalize. destruct z as [|p|p]; [contradiction Hz; reflexivity| |].
  - cbn [Z.opp]. rewrite binary_round_opp. reflexivity.
  - cbn [Z.opp]. rewrite binary_round_opp. reflexivity.
Qed.

Lemma num_add_cancel a : a <> 0 -> Z.abs a < 2 ^ 53 -> num_add (ofZ a) (ofZ (- a)) = ofZ 0.
Proof.
  intros Hne Ha. rewrite (ofZ_opp a Hne).
  destruct (ofZ_spec a Ha) as ([Hv Hf] & Hval & _).
  destruct (ofZ a) as [s|s| |s m e]; try discriminate.
  - exfalso. rewrite SF2Q_zero in Hval. change 0%Q with (inject_Z 0) in Hval.
    rewrite inject_Z_injective in Hval. lia.
  - unfold num_add. cbn [SFopp SFadd]. rewrite Z.min_id.
    destruct s; cbn [cond_Zopp negb]; rewrite ?Z.add_opp_diag_l, ?Z.add_opp_diag_r; reflexivity.
Qed.

Lemma num_add_int a b :
  Z.abs a < 2 ^ 53 -> Z.abs b < 2 ^ 53 -> Z.abs (a + b) < 2 ^ 53 ->
  num_add (ofZ a) (ofZ b) = ofZ (a + b).
Proof.
  intros Ha Hb Hab.
  destruct (Z.eq_dec (a + b) 0) as [Hz|Hnz].
  - rewrite Hz. destruct (Z.eq_dec a 0) as [->|Hne].
    + assert (b = 0) by lia. subst b. reflexivity.
    + replace b with (- a) by lia. apply num_add_cancel; assumption.
  - destruct (ofZ_spec a Ha) as (Hfa & Hva & _).
    destruct (ofZ_spec b Hb) as (Hfb & Hvb & _).
    assert (HX : (SF2Q (ofZ a) + SF2Q (ofZ b) == inject_Z (a + b))%Q).
    { rewrite Hva, Hvb, inject_Z_plus. reflexivity. }
    apply (rounds_int (SF2Q (ofZ a) + SF2Q (ofZ b))%Q); try assumption.
    apply SFadd_rounds; try assumption.
    rewrite HX, Qabs_inject_Z. apply (Qlt_trans _ (inject_Z (2 ^ 53))); [|exact pow2_53_lt_1023].
    rewrite <- Zlt_Qlt. lia.
Qed.

(** [Math.floor] of a number that is not between 0 and 1. *)
Lemma Math_floor_int x :
  finite64 x -> Z.abs (floorZ x) < 2 ^ 53 -> floorZ x <> 0 ->
  Math_floor x = ofZ (floorZ x).
Proof.
  intros Hx Hb Hnz. assert (Hx' := Hx). destruct Hx' as [Hv Hf].
  destruct x as [s|s| |s m e]; try discriminate.
  - contradiction Hnz. reflexivity.
  - unfold Math_floor. destruct (Z.leb_spec 0 e) as [He|He].
    + apply int_value_ofZ; [exact Hx| |exact Hb|left; exact Hnz].
      rewrite SF2Q_signed. cbn [floorZ]. destruct (Z.leb_spec 0 e); [|lia].
      rewrite inject_Z_mult, <- (pow2Q_Z e) by lia. reflexivity.
    + destruct (Z.eqb_spec (floorZ (S754_finite s m e)) 0) as [Hz|Hz];
        [contradiction|reflexivity].
Qed.

(** ** Random integers from a range that ends before it starts *)

Lemma unit_times_neg r w :
  unit_ok r = true -> 1 <= w < 2 ^ 31 ->
  finite64 (num_mul r (ofZ (- w))) /\ sgn (num_mul r (ofZ (- w))) = true /\
  (- inject_Z w < SF2Q (num_mul r (ofZ (- w))))%Q /\
  (SF2Q (num_mul r (ofZ (- w))) <= 0)%Q.
Proof.
  intros Hr Hw. destruct (unit_ok_bound r Hr) as (Hfr & Hsr & Hr0 & Hr1).
  destruct (ofZ_spec (- w) ltac:(lia)) as (Hfw & Hvw & Hsw).
  assert (Hsw' : sgn (ofZ (- w)) = true) by (rewrite Hsw; apply Z.ltb_lt; lia).
  assert (Hwq : (1 <= inject_Z w)%Q) by (rewrite <- (Zle_Qle 1); lia).
  assert (Hwq2 : (inject_Z w < inject_Z (2 ^ 31))%Q) by (rewrite <- Zlt_Qlt; lia).
  change (inject_Z (2 ^ 31)) with (2147483648 # 1)%Q in Hwq2.
  rewrite inject_Z_opp in Hvw.
  set (W := inject_Z w) in *.
  pose proof u_pos as Hu. pose proof u_lt_1 as Hu1. pose proof eta_pos as He.
  assert (HP0 : (0 <= SF2Q r * W)%Q) by (apply Qmult_le_0_compat; lra).
  assert (HP1 : (SF2Q r * W <= (1 - u) * W)%Q) by (apply Qmult_le_compat_r; lra).
  assert (HX : (SF2Q r * SF2Q (ofZ (- w)) == - (SF2Q r * W))%Q) by (rewrite Hvw; ring).
  assert (Habs : (Qabs (SF2Q r * SF2Q (ofZ (- w))) == SF2Q r * W)%Q).
  { rewrite HX, Qabs_opp. apply Qabs_pos. exact HP0. }
  assert (HuW : (0 <= u * W)%Q) by (apply Qmult_le_0_compat; lra).
  assert (Hlt : (Qabs (SF2Q r * SF2Q (ofZ (- w))) < 2 ^ 1023)%Q).
  { rewrite Habs. apply (Qle_lt_trans _ ((1 - u) * W)%Q); [exact HP1|].
    apply (Qlt_trans _ (2147483648 # 1)%Q); [|reflexivity]. lra. }
  pose proof (SFmul_rounds r (ofZ (- w)) Hfr Hfw Hlt) as Hrd.
  pose proof (SFmul_sgn r (ofZ (- w)) Hfr Hfw Hlt) as Hs. rewrite Hsr, Hsw' in Hs.
  cbn [xorb] in Hs.
  fold (num_mul r (ofZ (- w))) in Hrd, Hs.
  set (v := num_mul r (ofZ (- w))) in *. clearbody v.
  split; [exact (rounds_finite _ _ Hrd)|]. split; [exact Hs|].
  destruct Hrd as (_ & _ & _ & Herr & _). rewrite Habs in Herr.
  apply Qabs_Qle_condition in Herr. destruct Herr as [H1 _]. rewrite HX in H1.
  split.
  - assert (H2 : (eta < u * u)%Q) by qlt.
    assert (H3 : (u * u <= u * u * W)%Q).
    { assert (0 <= u * u * (W - 1))%Q; [|lra]. apply Qmult_le_0_compat; [|lra].
      apply Qmult_le_0_compat; lra. }
    assert (H4 : (u * (SF2Q r * W) <= u * ((1 - u) * W))%Q) by (apply Qmult_le_l; lra).
    assert (H5 : (u * ((1 - u) * W) == u * W - u * u * W)%Q) by ring.
    lra.
  - unfold SF2Q. rewrite Hs. pose proof (mag_nonneg v). lra.
Qed.

Lemma random_int_neg r w :
  unit_ok r = true -> 0 <= w < 2 ^ 31 ->
  exists j, - w <= j <= 0 /\
    num_add (Math_floor (num_mul r (ofZ (- w)))) (ofZ 0) = ofZ j.
Proof.
  intros Hr Hw. destruct (Z.eq_dec w 0) as [->|Hne].
  - exists 0. split; [lia|]. destruct (unit_ok_bound r Hr) as ((Hv & Hf) & Hsr & _).
    destruct r as [s|s| |s m e]; try discriminate; cbn [sgn] in Hsr; subst s; reflexivity.
  - destruct (unit_times_neg r w Hr ltac:(lia)) as (Hf & Hs & H0 & H1).
    set (v := num_mul r (ofZ (- w))) in *. clearbody v.
    destruct v as [s|s| |s m e]; try (destruct Hf as [_ Hf]; discriminate Hf);
      cbn [sgn] in Hs; subst s.
    + exists 0. split; [lia|]. reflexivity.
    + destruct (floorZ_spec (S754_finite true m e) (proj2 Hf)) as [Hj1 Hj2].
      set (x := S754_finite true m e) in *.
      assert (Hneg : (SF2Q x < 0)%Q).
      { unfold SF2Q, x. cbn [sgn]. pose proof (mag_pos_finite true m e). lra. }
      set (j := floorZ x) in *.
      assert (Hj : - w <= j <= -1).
      { assert (Ha : (inject_Z j < inject_Z 0)%Q) by (change (inject_Z 0) with 0%Q; lra).
        assert (Hb : (inject_Z (- w) < inject_Z (j + 1))%Q).
        { rewrite inject_Z_opp, inject_Z_plus. change (inject_Z 1) with 1%Q. lra. }
        rewrite <- Zlt_Qlt in Ha, Hb. lia. }
      exists j. split; [lia|].
      rewrite (Math_floor_int x Hf); fold j; try lia.
      rewrite num_add_int by lia. f_equal. lia.
Qed.

Lemma randomBetween_reversed h d n :
  1 <= d < 2 ^ 31 ->
  exists j, - d + 1 <= j <= 0 /\
    randomBetween h (ofZ 0) (ofZ (- d)) n = Return (ofZ j, S n).
Proof.
  intros Hd.
  destruct (random_int_neg (host_random h n) (d - 1) (ud_ok (host_random h n)) ltac:(lia))
    as (j & Hj & Heq).
  exists j. split; [lia|].
  unfold randomBetween, bind, Math_random, ret.
  rewrite num_sub_int by lia. rewrite num_add_int by lia.
  replace (- d - 0 + 1) with (- (d - 1)) by lia. rewrite Heq. reflexivity.
Qed.

(** The number of whole days in a span of [D] milliseconds that runs
    backwards. *)
Lemma daysDiff_reversed D :
  - (4 * 10 ^ 15) <= D < 0 ->
  Math_floor (num_div (ofZ D) msPerDayNumber) = ofZ (D / 86400000).
Proof.
  intros HD. change msPerDayNumber with (ofZ 86400000).
  destruct (ofZ_spec D ltac:(lia)) as (Hfx & Hvx & _).
  destruct (ofZ_spec 86400000 ltac:(lia)) as (Hfy & Hvy & _).
  assert (HD1 : (inject_Z D <= - (1))%Q).
  { change (- (1))%Q with (inject_Z (-1)). rewrite <- Zle_Qle. lia. }
  assert (HD2 : (- (4000000000000000) <= inject_Z D)%Q).
  { change (- (4000000000000000))%Q with (inject_Z (- (4 * 10 ^ 15))). rewrite <- Zle_Qle. lia. }
  change (inject_Z 86400000) with 86400000%Q in Hvy.
  assert (HX : (SF2Q (ofZ D) / SF2Q (ofZ 86400000) == inject_Z D * (1 # 86400000))%Q).
  { rewrite Hvx, Hvy. field. }
  assert (Habs : (Qabs (SF2Q (ofZ D) / SF2Q (ofZ 86400000))
                  == - inject_Z D * (1 # 86400000))%Q).
  { rewrite HX. rewrite Qabs_neg by lra. ring. }
  assert (Hr : rounds (SF2Q (ofZ D) / SF2Q (ofZ 86400000))%Q (num_div (ofZ D) (ofZ 86400000))).
  { apply SFdiv_rounds.
    - exact (proj2 Hfx).
    - exact (proj2 Hfy).
    - rewrite Hvy. discriminate.
    - right. rewrite Habs. apply (Qle_trans _ (1 # 86400000)); [qle|lra].
    - rewrite Habs. apply (Qle_lt_trans _ 4000000000000000); [lra|reflexivity]. }
  set (q := num_div (ofZ D) (ofZ 86400000)) in *. clearbody q.
  pose proof (rounds_finite _ _ Hr) as Hfq.
  pose proof (Z.div_mod D 86400000 ltac:(lia)) as Hdm.
  pose proof (Z.mod_pos_bound D 86400000 ltac:(lia)) as Hrem.
  set (J := D / 86400000) in *. set (R := D mod 86400000) in *. clearbody J R.
  assert (HJ : -46296297 <= J <= -1) by lia.
  assert (EQ : (inject_Z D == 86400000 * inject_Z J + inject_Z R)%Q).
  { rewrite Hdm, inject_Z_plus, inject_Z_mult. reflexivity. }
  assert (HR0 : (0 <= inject_Z R)%Q) by (rewrite <- (Zle_Qle 0); lia).
  assert (HR1 : (inject_Z R <= 86399999)%Q).
  { change 86399999%Q with (inject_Z 86399999). rewrite <- Zle_Qle. lia. }
  assert (Herr : (Qabs (SF2Q q - SF2Q (ofZ D) / SF2Q (ofZ 86400000))
                  <= u * Qabs (SF2Q (ofZ D) / SF2Q (ofZ 86400000)) + eta)%Q).
  { destruct Hr as (_ & _ & _ & Herr & _). exact Herr. }
  rewrite Habs in Herr. rewrite HX in Herr.
  set (X := (inject_Z D * (1 # 86400000))%Q) in *.
  assert (HXv : (X == inject_Z J + inject_Z R * (1 # 86400000))%Q) by (unfold X; lra).
  assert (HXu : (u * (- inject_Z D * (1 # 86400000)) + eta <= 1 # 172800000)%Q).
  { assert (HXle : (- inject_Z D * (1 # 86400000) <= 46296297)%Q) by lra.
    apply (Qle_trans _ (u * 46296297 + eta)%Q); [|qle].
    apply Qplus_le_l. apply Qmult_le_l; [exact u_pos|exact HXle]. }
  apply Qabs_Qle_condition in Herr. destruct Herr as [Hb1 Hb2].
  set (Er := (u * (- inject_Z D * (1 # 86400000)) + eta)%Q) in *. clearbody Er.
  assert (Hlow : (inject_Z J <= SF2Q q)%Q).
  { destruct (Z.eq_dec R 0) as [->|HRne].
    - destruct (int_representable J ltac:(lia)) as (w & Hw & Hwv).
      assert (Hex : (SF2Q q == SF2Q (ofZ D) / SF2Q (ofZ 86400000))%Q).
      { apply (rounds_exact _ _ w Hr Hw). rewrite Hwv, HX. fold X. rewrite HXv.
        change (inject_Z 0) with 0%Q. ring. }
      rewrite Hex, HX. fold X. rewrite HXv. change (inject_Z 0) with 0%Q. lra.
    - assert (HR2 : (1 <= inject_Z R)%Q) by (rewrite <- (Zle_Qle 1); lia).
      lra. }
  assert (Hupp : (SF2Q q < inject_Z J + 1)%Q) by lra.
  destruct (floorZ_spec q (proj2 Hfq)) as [Hj1 Hj2].
  assert (Hfl : floorZ q = J).
  { assert (H1 : (inject_Z (floorZ q) < inject_Z (J + 1))%Q).
    { rewrite inject_Z_plus. change (inject_Z 1) with 1%Q. lra. }
    assert (H2 : (inject_Z J < inject_Z (floorZ q + 1))%Q).
    { rewrite inject_Z_plus. change (inject_Z 1) with 1%Q. lra. }
    rewrite <- Zlt_Qlt in H1, H2. lia. }
  rewrite <- Hfl. apply Math_floor_int; [exact Hfq|rewrite Hfl; lia|rewrite Hfl; lia].
Qed.

Lemma addDays_any h t k :
  fixed_offset h -> - 2 ^ 31 < k < 2 ^ 31 ->
  addDays h (Some t) (ofZ k) = TimeClip (t + k * msPerDay).
Proof.
  intros Hfix Hk. unfold addDays, getDate, setDate, LocalTime, UTC.
  set (c := host_localTZA h t true).
  pose proof (DateFromTime_range (t + c)) as Hd.
  rewrite num_add_int by lia.
  destruct (ofZ_spec (DateFromTime (t + c) + k) ltac:(lia)) as ([Hv Hf] & Hval & _).
  rewrite Hf. rewrite (truncZ_int _ (DateFromTime (t + c) + k) Hf Hval).
  rewrite MakeDay_fields. rewrite (Hfix _ t _ true). fold c.
  unfold MakeDate. f_equal.
  pose proof (Day_decompose (t + c)). lia.
Qed.

(** For a range that ends before it starts, [generateInvoice] returns an
    invoice issued after the end and not after the start. *)
Lemma generateInvoice_reversed h s e sup cus sequence direction n :
  fixed_offset h ->
  Z.abs s <= 4 * 10 ^ 15 -> - (4 * 10 ^ 15) <= e - s < 0 ->
  exists inv n' j,
    generateInvoice h (Some s) (Some e) sup cus sequence direction n = Return (inv, n') /\
    (e - s) / msPerDay + 1 <= j <= 0 /\
    date inv = date_text (s + j * msPerDay).
Proof.
  intros Hfix Hs He. unfold generateInvoice. cbn [getTime].
  rewrite num_sub_int by lia.
  rewrite (daysDiff_reversed (e - s) He).
  assert (Hq : -46296297 <= (e - s) / 86400000 <= -1) by (Z.div_mod_to_equations; lia).
  set (J := (e - s) / 86400000) in *.
  replace J with (- (- J)) by lia.
  destruct (randomBetween_reversed h (- J) n ltac:(lia)) as (i & Hi & Hr1).
  rewrite (bind_Return _ _ _ _ _ Hr1).
  destruct (randomBetween_returns h 14 30 (S n) ltac:(lia) ltac:(lia) ltac:(lia)) as (k & Hk & Hr2).
  rewrite (bind_Return _ _ _ _ _ Hr2).
  destruct (randomBetween_returns h 1 5 (S (S n)) ltac:(lia) ltac:(lia) ltac:(lia))
    as (c & Hc & Hr3).
  rewrite (bind_Return _ _ _ _ _ Hr3).
  destruct (generateInvoiceItems_spec h c (S (S (S n))) ltac:(lia)) as (its & n4 & Hits & _).
  rewrite (bind_Return _ _ _ _ _ Hits).
  rewrite (addDays_any h s i Hfix) by lia.
  rewrite (TimeClip_Some (s + i * msPerDay)) by (unfold msPerDay; lia).
  rewrite (addDays_Some h _ k Hfix) by lia.
  rewrite (TimeClip_Some (s + i * msPerDay + k * msPerDay)) by (unfold msPerDay; lia).
  rewrite !formatDate_Some.
  cbv beta iota delta [bind uuidv4 faker_text lift ret].
  eexists; eexists; exists i. split; [reflexivity|]. split; [|reflexivity].
  change msPerDay with 86400000. fold J. lia.
Qed.

(** ** Generation returns for dates in either order *)

Lemma generateInvoice_total h s e sup cus sequence direction n :
  fixed_offset h -> Z.abs s <= 4 * 10 ^ 15 -> Z.abs (e - s) <= 4 * 10 ^ 15 ->
  exists inv n' t,
    generateInvoice h (Some s) (Some e) sup cus sequence direction n = Return (inv, n') /\
    date inv = date_text t /\ Z.abs t <= 8 * 10 ^ 15.
Proof.
  intros Hfix Hs He. destruct (Z_lt_le_dec (e - s) 0) as [Hrev|Hord].
  - destruct (generateInvoice_reversed h s e sup cus sequence direction n Hfix Hs
                ltac:(lia)) as (inv & n' & j & Hr & Hj & Hd).
    exists inv, n', (s + j * msPerDay). split; [exact Hr|]. split; [exact Hd|].
    unfold msPerDay in *. Z.div_mod_to_equations. lia.
  - assert (He' : 0 <= e - s <= 4 * 10 ^ 15) by lia.
    destruct (generateInvoice_returns h s e sup cus sequence direction n Hfix Hs He')
      as (inv & n' & Hr).
    destruct (generateInvoice_issue _ _ _ _ _ _ _ _ _ _ Hfix Hs He' Hr) as (j & Hj & Hd & _).
    exists inv, n', (s + j * msPerDay). split; [exact Hr|]. split; [exact Hd|].
    unfold msPerDay in *. Z.div_mod_to_equations. lia.
Qed.

Lemma uuidv4_total h n : uuidv4 h n = Return (host_fakerText h n, S n).
Proof. reflexivity. Qed.

Lemma generateTestCase_total h type direction s e our sequence n :
  fixed_offset h -> Z.abs s <= 4 * 10 ^ 15 -> Z.abs (e - s) <= 4 * 10 ^ 15 ->
  exists tc n',
    generateTestCase h type direction (Some s) (Some e) our sequence n = Return (tc, n').
Proof.
  intros Hfix Hs He. unfold generateTestCase, getRandomSupplier.
  destruct (generateCompany_spec h n) as (c & n1 & _ & _ & Hgen & _).
  rewrite (bind_Return _ _ _ _ _ Hgen).
  destruct (generateInvoice_total h s e
              (if direction_eqb direction payables then c else our)
              (if direction_eqb direction payables then our else c)
              sequence direction n1 Hfix Hs He) as (inv & n2 & t & Hinv & Hd & Ht).
  rewrite (bind_Return _ _ _ _ _ Hinv).
  destruct (generateTransaction_total h inv type direction n2 t Hfix Hd Ht)
    as (tx & md & n3 & Htx).
  rewrite (bind_Return _ _ _ _ _ Htx). cbv beta iota.
  rewrite (bind_Return _ _ _ _ _ (uuidv4_total h n3)).
  unfold ret. eexists; eexists; reflexivity.
Qed.

Lemma fold_max_bound B ts :
  forall s, Z.abs s <= B -> Forall (fun t => Z.abs t <= B) ts ->
            Z.abs (fold_left Z.max ts s) <= B.
Proof.
  induction ts as [|t ts IH]; intros s Hs HF; cbn [fold_left]; [exact Hs|].
  inversion HF as [|? ? Ht HF']; subst. apply IH; [lia|exact HF'].
Qed.

Lemma generateGroupPaymentTestCase_total h direction s e our sequence n :
  fixed_offset h -> Z.abs s <= 4 * 10 ^ 15 -> Z.abs (e - s) <= 4 * 10 ^ 15 ->
  exists tc cnt n',
    generateGroupPaymentTestCase h direction (Some s) (Some e) our sequence n
    = Return ((tc, cnt), n').
Proof.
  intros Hfix Hs He. unfold generateGroupPaymentTestCase, getRandomSupplier.
  destruct (generateCompany_spec h n) as (c & n1 & _ & _ & Hgen & _).
  rewrite (bind_Return _ _ _ _ _ Hgen).
  destruct (randomBetween_returns h 2 3 n1 ltac:(lia) ltac:(lia) ltac:(lia)) as (N & HN & RN).
  rewrite (bind_Return _ _ _ _ _ RN). rewrite iterations_ofZ by lia.
  destruct (mapM_spec (fun _ : nat => True)
              (fun inv => exists t, date inv = date_text t /\ Z.abs t <= 8 * 10 ^ 15)
              (fun i =>
                 generateInvoice h (Some s) (Some e)
                   (if direction_eqb direction payables then c else our)
                   (if direction_eqb direction payables then our else c)
                   (num_add sequence (ofZ (Z.of_nat i))) direction))
    with (l := seq 0 (Z.to_nat N)) (n := S n1) as (invs & n2 & Hm & HP & Hlen).
  { intros i _ m.
    destruct (generateInvoice_total h s e
                (if direction_eqb direction payables then c else our)
                (if direction_eqb direction payables then our else c)
                (num_add sequence (ofZ (Z.of_nat i))) direction m Hfix Hs He)
      as (inv & m' & t & Hr & Hd & Ht).
    exists inv, m'. split; [exact Hr|]. exists t. split; assumption. }
  { apply Forall_forall. intros; exact I. }
  rewrite (bind_Return _ _ _ _ _ Hm). rewrite length_seq in Hlen.
  destruct invs as [|first rest]; [cbn [List.length] in Hlen; lia|].
  assert (Hts : exists ts,
            Forall2 (fun inv t => Date_parse h (date inv) = Some t) (first :: rest) ts /\
            Forall (fun t => Z.abs t <= 8 * 10 ^ 15 + msPerDay) ts).
  { clear - HP. induction HP as [|inv invs (t & Hd & Ht) HP IH].
    - exists []. split; constructor.
    - destruct IH as (ts & HF & HB). exists (Day t * msPerDay :: ts). split.
      + constructor; [|exact HF]. rewrite Hd. apply Date_parse_date_text. lia.
      + constructor; [|exact HB]. unfold Day, msPerDay. Z.div_mod_to_equations. lia. }
  destruct Hts as (ts & HF2 & HB).
  assert (Hfirst : exists s0, Date_parse h (date first) = Some s0 /\
                              Z.abs s0 <= 8 * 10 ^ 15 + msPerDay).
  { inversion HF2 as [|? t0 ? ts' H0 _]; subst. inversion HB; subst.
    exists t0. split; assumption. }
  destruct Hfirst as (s0 & Hs0 & Hb0).
  rewrite Hs0, (latestDate_spec h _ ts s0 HF2).
  pose proof (fold_max_bound _ ts s0 Hb0 HB) as Hmax.
  set (latest := fold_left Z.max ts s0) in *. clearbody latest.
  destruct (randomBetween_returns h 1 7 n2 ltac:(lia) ltac:(lia) ltac:(lia)) as (k & Hk & Rk).
  rewrite (bind_Return _ _ _ _ _ Rk).
  destruct (getRandomNameVariation_total h
              (if direction_eqb direction payables
               then (if direction_eqb direction payables then c else our)
               else (if direction_eqb direction payables then our else c)) (S n2))
    as (cp & n3 & Hcp).
  rewrite (bind_Return _ _ _ _ _ Hcp).
  rewrite (addDays_Some h latest k Hfix) by lia.
  rewrite TimeClip_Some by (unfold msPerDay in *; lia).
  rewrite formatDate_Some.
  cbv beta iota delta [bind lift ret uuidv4 faker_text].
  eexists; eexists; eexists; reflexivity.
Qed.

(** ** The loops *)

Lemma generate_units_total h k type direction s e our :
  fixed_offset h -> Z.abs s <= 4 * 10 ^ 15 -> Z.abs (e - s) <= 4 * 10 ^ 15 ->
  forall acc sq n,
  exists cases' sq' n',
    generate_units h k type direction (Some s) (Some e) our acc sq n
    = Return ((cases', sq'), n').
Proof.
  intros Hfix Hs He. induction k as [|k IH]; intros acc sq n; cbn [generate_units].
  - unfold ret. eexists; eexists; eexists; reflexivity.
  - destruct type;
      try (match goal with
           | |- context [generateTestCase h ?ty _ _ _ _ _] =>
               destruct (generateTestCase_total h ty direction s e our sq n Hfix Hs He)
                 as (tc & n1 & Hr)
           end;
           rewrite (bind_Return _ _ _ _ _ Hr); apply IH).
    destruct (generateGroupPaymentTestCase_total h direction s e our sq n Hfix Hs He)
      as (tc & cnt & n1 & Hr).
    rewrite (bind_Return _ _ _ _ _ Hr). cbv beta iota. apply IH.
Qed.

Lemma requested_Some_cons config configs k :
  requested (config :: configs) = Some k ->
  exists k1 k2, iterations (cfg_quantity config) = Some k1 /\
                requested configs = Some k2 /\ k = (k1 + k2)%nat.
Proof.
  cbn [requested fold_right]. fold (requested configs).
  destruct (iterations (cfg_quantity config)) as [k1|]; [|discriminate].
  destruct (requested configs) as [k2|]; [|discriminate].
  intros E. exists k1, k2. split; [reflexivity|]. split; [reflexivity|].
  injection E as <-. reflexivity.
Qed.

Lemma generate_configs_total h fuel configs direction s e our :
  fixed_offset h -> Z.abs s <= 4 * 10 ^ 15 -> Z.abs (e - s) <= 4 * 10 ^ 15 ->
  forall k, requested configs = Some k ->
  forall acc sq n,
  exists cases' n',
    generate_configs h fuel configs direction (Some s) (Some e) our acc sq n
    = Return (cases', n').
Proof.
  intros Hfix Hs He. induction configs as [|config configs IH]; intros k Hk acc sq n;
    cbn [generate_configs].
  - unfold ret. eexists; eexists; reflexivity.
  - destruct (requested_Some_cons _ _ _ Hk) as (k1 & k2 & E1 & E2 & _). rewrite E1.
    destruct (generate_units_total h k1 (cfg_type config)
                direction s e our Hfix Hs He acc sq n) as (acc' & sq' & n1 & Hr).
    rewrite (bind_Return _ _ _ _ _ Hr). cbv beta iota. exact (IH k2 E2 _ _ _).
Qed.

(** For dates that are read, in either order, and quantities whose loops
    exit, [generateTestSuite] returns. *)
Lemma generateTestSuite_total h fuel now configs direction start' end' overrides n s e k :
  fixed_offset h ->
  Date_parse h start' = Some s -> Date_parse h end' = Some e ->
  Z.abs s <= 4 * 10 ^ 15 -> Z.abs (e - s) <= 4 * 10 ^ 15 -> Z.abs now <= maxTime ->
  requested configs = Some k ->
  exists suite n',
    generateTestSuite h fuel now configs direction start' end' overrides n
    = Return (suite, n').
Proof.
  intros Hfix Hps Hpe Hs He Hnow Hk. unfold generateTestSuite. rewrite Hps, Hpe.
  destruct (randomBetween_returns h 100 999 n ltac:(lia) ltac:(lia) ltac:(lia)) as (q & Hq & Rq).
  rewrite (bind_Return _ _ _ _ _ Rq).
  destruct (generate_configs_total h fuel configs direction s e
              (merge_company DEFAULT_COMPANY overrides) Hfix Hs He k Hk [] (ofZ q) (S n))
    as (tcs & n1 & Hr).
  rewrite (bind_Return _ _ _ _ _ Hr).
  rewrite (bind_Return _ _ _ _ _ (uuidv4_total h n1)).
  rewrite TimeClip_Some by exact Hnow.
  cbv beta iota delta [bind lift ret toISOString].
  eexists; eexists; reflexivity.
Qed.

(** ** Quantities whose loop never exits *)

Lemma bind_Unending {A B : Type} (g : Gen A) (k : A -> Gen B) n :
  g n = Unending -> bind g k n = Unending.
Proof. intros H. unfold bind. rewrite H. reflexivity. Qed.

(** With dates that are read, no iteration throws: the loop is still
    running after any number of iterations. *)
Lemma generate_unending_runs h fuel type direction s e our :
  fixed_offset h -> Z.abs s <= 4 * 10 ^ 15 -> Z.abs (e - s) <= 4 * 10 ^ 15 ->
  forall acc sq n,
    generate_unending h fuel type direction (Some s) (Some e) our acc sq n = Unending.
Proof.
  intros Hfix Hs He. induction fuel as [|fuel IH]; intros acc sq n; cbn [generate_unending];
    [reflexivity|].
  destruct type;
    try (match goal with
         | |- context [generateTestCase h ?ty _ _ _ _ _] =>
             destruct (generateTestCase_total h ty direction s e our sq n Hfix Hs He)
               as (tc & n1 & Hr)
         end;
         rewrite (bind_Return _ _ _ _ _ Hr); apply IH).
  destruct (generateGroupPaymentTestCase_total h direction s e our sq n Hfix Hs He)
    as (tc & cnt & n1 & Hr).
  rewrite (bind_Return _ _ _ _ _ Hr). cbv beta iota. apply IH.
Qed.

Lemma generate_configs_unending h fuel configs direction s e our :
  fixed_offset h -> Z.abs s <= 4 * 10 ^ 15 -> Z.abs (e - s) <= 4 * 10 ^ 15 ->
  requested configs = None ->
  forall acc sq n,
    generate_configs h fuel configs direction (Some s) (Some e) our acc sq n = Unending.
Proof.
  intros Hfix Hs He. induction configs as [|config configs IH]; intros Hreq acc sq n;
    [discriminate Hreq|].
  cbn [generate_configs]. cbn [requested fold_right] in Hreq. fold (requested configs) in Hreq.
  destruct (iterations (cfg_quantity config)) as [k1|].
  - destruct (generate_units_total h k1 (cfg_type config)
                direction s e our Hfix Hs He acc sq n) as (acc' & sq' & n1 & Hr).
    rewrite (bind_Return _ _ _ _ _ Hr). cbv beta iota. apply IH.
    destruct (requested configs); [discriminate Hreq|reflexivity].
  - apply bind_Unending. apply generate_unending_runs; assumption.
Qed.

Lemma generateTestSuite_unending h fuel now configs direction start' end' overrides n s e :
  fixed_offset h ->
  Date_parse h start' = Some s -> Date_parse h end' = Some e ->
  Z.abs s <= 4 * 10 ^ 15 -> Z.abs (e - s) <= 4 * 10 ^ 15 ->
  requested configs = None ->
  generateTestSuite h fuel now configs direction start' end' overrides n = Unending.
Proof.
  intros Hfix Hps Hpe Hs He Hreq. unfold generateTestSuite. rewrite Hps, Hpe.
  destruct (randomBetween_returns h 100 999 n ltac:(lia) ltac:(lia) ltac:(lia)) as (q & Hq & Rq).
  rewrite (bind_Return _ _ _ _ _ Rq).
  apply bind_Unending. apply generate_configs_unending; assumption.
Qed.

(** ** Dates that are not read *)

Lemma bind_Throw {A B : Type} (g : Gen A) (k : A -> Gen B) n e :
  g n = Throw e -> bind g k n = Throw e.
Proof. intros H. unfold bind. rewrite H. reflexivity. Qed.

Lemma generateTestCase_invalid h type direction rs re our sequence n :
  rs = None \/ re = None ->
  generateTestCase h type direction rs re our sequence n = Throw RangeError.
Proof.
  intros Hnone. unfold generateTestCase, getRandomSupplier.
  destruct (generateCompany_spec h n) as (c & n1 & _ & _ & Hgen & _).
  rewrite (bind_Return _ _ _ _ _ Hgen).
  apply bind_Throw. apply generateInvoice_invalid. exact Hnone.
Qed.

Lemma generateGroupPaymentTestCase_invalid h direction rs re our sequence n :
  rs = None \/ re = None ->
  generateGroupPaymentTestCase h direction rs re our sequence n = Throw RangeError.
Proof.
  intros Hnone. unfold generateGroupPaymentTestCase, getRandomSupplier.
  destruct (generateCompany_spec h n) as (c & n1 & _ & _ & Hgen & _).
  rewrite (bind_Return _ _ _ _ _ Hgen).
  destruct (randomBetween_returns h 2 3 n1 ltac:(lia) ltac:(lia) ltac:(lia)) as (N & HN & RN).
  rewrite (bind_Return _ _ _ _ _ RN). rewrite iterations_ofZ by lia.
  apply bind_Throw.
  destruct (Z.to_nat N) as [|m] eqn:EN; [lia|].
  cbn [seq mapM]. apply bind_Throw. apply generateInvoice_invalid. exact Hnone.
Qed.

Lemma generate_units_invalid h k type direction rs re our acc sq n :
  rs = None \/ re = None ->
  generate_units h (S k) type direction rs re our acc sq n = Throw RangeError.
Proof.
  intros Hnone. cbn [generate_units].
  destruct type; apply bind_Throw;
    first [apply generateTestCase_invalid | apply generateGroupPaymentTestCase_invalid];
    exact Hnone.
Qed.

Lemma generate_unending_invalid h fuel type direction rs re our acc sq n :
  rs = None \/ re = None ->
  generate_unending h (S fuel) type direction rs re our acc sq n = Throw RangeError.
Proof.
  intros Hnone. cbn [generate_unending].
  destruct type; apply bind_Throw;
    first [apply generateTestCase_invalid | apply generateGroupPaymentTestCase_invalid];
    exact Hnone.
Qed.

Lemma generate_configs_invalid h fuel configs direction rs re our :
  rs = None \/ re = None -> requested configs <> Some O ->
  forall acc sq n,
    generate_configs h (S fuel) configs direction rs re our acc sq n = Throw RangeError.
Proof.
  intros Hnone. induction configs as [|config configs IH]; intros Hreq acc sq n;
    [contradiction Hreq; reflexivity|].
  cbn [requested fold_right] in Hreq. fold (requested configs) in Hreq.
  cbn [generate_configs].
  destruct (iterations (cfg_quantity config)) as [[|k]|] eqn:Ek.
  - cbn [generate_units]. unfold bind at 1, ret at 1. cbv beta iota.
    apply IH. intros E. apply Hreq. rewrite E. reflexivity.
  - apply bind_Throw. apply generate_units_invalid. exact Hnone.
  - apply bind_Throw. apply generate_unending_invalid. exact Hnone.
Qed.

(** A start or an end that is no date makes [generateTestSuite] throw as
    soon as one test case is asked for. *)
Lemma generateTestSuite_invalid h fuel now configs direction start' end' overrides n :
  Date_parse h start' = None \/ Date_parse h end' = None ->
  requested configs <> Some O ->
  generateTestSuite h (S fuel) now configs direction start' end' overrides n
  = Throw RangeError.
Proof.
  intros Hnone Hreq. unfold generateTestSuite.
  destruct (randomBetween_returns h 100 999 n ltac:(lia) ltac:(lia) ltac:(lia)) as (q & Hq & Rq).
  rewrite (bind_Return _ _ _ _ _ Rq).
  apply bind_Throw. apply generate_configs_invalid; assumption.
Qed.

(** ** Nothing asked for *)

Lemma generate_configs_nothing h fuel configs direction rs re our :
  requested configs = Some O ->
  forall acc sq n,
    generate_configs h fuel configs direction rs re our acc sq n = Return (acc, n).
Proof.
  induction configs as [|config configs IH]; intros Hreq acc sq n;
    cbn [generate_configs]; [reflexivity|].
  destruct (requested_Some_cons _ _ _ Hreq) as (k1 & k2 & E1 & E2 & E).
  rewrite E1. assert (k1 = O) by lia. assert (k2 = O) by lia. subst k1 k2.
  cbn [generate_units]. unfold bind at 1, ret at 1. cbv beta iota.
  apply IH. exact E2.
Qed.

Lemma generateTestSuite_nothing h fuel now configs direction start' end' overrides n :
  requested configs = Some O -> Z.abs now <= maxTime ->
  exists suite n',
    generateTestSuite h fuel now configs direction start' end' overrides n
    = Return (suite, n') /\
    cases suite = [] /\ csvContent suite = csv_header.
Proof.
  intros Hreq Hnow. unfold generateTestSuite.
  destruct (randomBetween_returns h 100 999 n ltac:(lia) ltac:(lia) ltac:(lia)) as (q & Hq & Rq).
  rewrite (bind_Return _ _ _ _ _ Rq).
  rewrite (bind_Return _ _ _ _ _
             (generate_configs_nothing h fuel configs direction _ _ _ Hreq _ _ _)).
  rewrite (bind_Return _ _ _ _ _ (uuidv4_total h (S n))).
  rewrite TimeClip_Some by exact Hnow.
  cbv beta iota delta [bind lift ret toISOString].
  eexists; eexists. split; [reflexivity|]. split; reflexivity.
Qed.

(** ** Following a loop for longer *)

Lemma generate_unending_S h fuel type direction range_start range_end our acc sq :
  generate_unending h (S fuel) type direction range_start range_end our acc sq
  = match type with
    | group_payment =>
        bind (generateGroupPaymentTestCase h direction range_start range_end our sq)
          (fun '(testCase, invoicesGenerated) =>
             generate_unending h fuel type direction range_start range_end our
               (acc ++ [testCase])%list (num_add sq invoicesGenerated))
    | _ =>
        bind (generateTestCase h type direction range_start range_end our sq)
          (fun testCase =>
             generate_unending h fuel type direction range_start range_end our
               (acc ++ [testCase])%list (num_add sq (ofZ 1)))
    end.
Proof. destruct type; reflexivity. Qed.

(** An iteration that throws is met again when the loop is followed for
    longer. *)
Lemma generate_unending_longer h fuel type direction range_start range_end our :
  forall acc sq n e,
    generate_unending h fuel type direction range_start range_end our acc sq n = Throw e ->
    generate_unending h (S fuel) type direction range_start range_end our acc sq n = Throw e.
Proof.
  induction fuel as [|fuel IH]; intros acc sq n e H; [discriminate H|].
  rewrite generate_unending_S in H. rewrite (generate_unending_S h (S fuel)).
  destruct type; unfold bind in *;
    match goal with
    | |- context [match ?g with _ => _ end] => destruct g as [[a n1]|e'|]
    end;
    try exact H; try (destruct a as [tc cnt]); exact (IH _ _ _ _ H).
Qed.

Lemma generate_configs_longer h fuel configs direction range_start range_end our :
  forall acc sq n r,
    generate_configs h fuel configs direction range_start range_end our acc sq n = r ->
    r <> Unending ->
    generate_configs h (S fuel) configs direction range_start range_end our acc sq n = r.
Proof.
  induction configs as [|config configs IH]; intros acc sq n r H Hr; [exact H|].
  cbn [generate_configs] in H |- *.
  destruct (iterations (cfg_quantity config)) as [k|].
  - unfold bind in *.
    destruct (generate_units h k (cfg_type config) direction range_start range_end our acc sq n)
      as [[[acc' sq'] n1]|e|]; [|exact H|exact H].
    exact (IH _ _ _ _ H Hr).
  - unfold bind at 1 in H. unfold bind at 1.
    destruct (generate_unending h fuel (cfg_type config) direction range_start range_end our
                acc sq n) as [p|e|] eqn:E.
    + exfalso. exact (generate_unending_never _ _ _ _ _ _ _ _ _ _ _ E).
    + rewrite (generate_unending_longer _ _ _ _ _ _ _ _ _ _ _ E). exact H.
    + contradiction Hr. symmetry. exact H.
Qed.

Lemma generateTestSuite_longer h fuel now configs direction start' end' overrides n r :
  generateTestSuite h fuel now configs direction start' end' overrides n = r ->
  r <> Unending ->
  generateTestSuite h (S fuel) now configs direction start' end' overrides n = r.
Proof.
  unfold generateTestSuite. intros H Hr. unfold bind at 1 in H. unfold bind at 1.
  destruct (randomBetween h (ofZ 100) (ofZ 999) n) as [[sq n1]|e|]; [|exact H|exact H].
  unfold bind at 1 in H. unfold bind at 1.
  destruct (generate_configs h fuel configs direction (Date_parse h start') (Date_parse h end')
              (merge_company DEFAULT_COMPANY overrides) [] sq n1) as [[tcs n2]|e|] eqn:E.
  - rewrite (generate_configs_longer _ _ _ _ _ _ _ _ _ _ _ E ltac:(discriminate)). exact H.
  - rewrite (generate_configs_longer _ _ _ _ _ _ _ _ _ _ _ E ltac:(discriminate)). exact H.
  - contradiction Hr. symmetry. exact H.
Qed.

(** An answer of the handler stays when a loop that never exits is followed
    for longer: the handler answers [r] when some [fuel] gives [Some r], and
    does not answer when every [fuel] gives [None]. *)
Lemma post_generate_longer h fuel fuel' now b n r :
  (fuel <= fuel')%nat ->
  post_generate h fuel now b n = Some r -> post_generate h fuel' now b n = Some r.
Proof.
  intros Hle. induction Hle as [|fuel' Hle IH]; [exact (fun H => H)|].
  intros H. specialize (IH H). clear H. revert IH. unfold post_generate.
  destruct (body_cases b) as [[|c0 cs]|]; try exact (fun H => H).
  destruct (body_dateRange b) as [rg|]; try exact (fun H => H).
  destruct (truthy_text (range_start_text rg)) as [st|]; try exact (fun H => H).
  destruct (truthy_text (range_end_text rg)) as [en|]; try exact (fun H => H).
  destruct (generateTestSuite h fuel' now (c0 :: cs) _ st en (body_myCompany b) n) as [p|e|] eqn:E.
  - rewrite (generateTestSuite_longer _ _ _ _ _ _ _ _ _ _ E ltac:(discriminate)).
    exact (fun H => H).
  - rewrite (generateTestSuite_longer _ _ _ _ _ _ _ _ _ _ E ltac:(discriminate)).
    exact (fun H => H).
  - discriminate.
Qed.

Local Open Scope list_scope.
Local Open Scope string_scope.
Local Open Scope Z_scope.

(** * Further properties of the generator: utilities and invoices *)

(** X1. [randomBetween(min, max)], for integers with 0 <= min <= max < 2^30,
    makes one draw from [Math.random] and returns an integer between [min]
    and [max], both bounds included. *)
Theorem randomBetween_in_range h a b n :
  0 <= a -> a <= b -> b < 2 ^ 30 ->
  exists k, a <= k <= b /\ randomBetween h (ofZ a) (ofZ b) n = Return (ofZ k, S n).
Proof. intros Ha Hab Hb. exact (randomBetween_returns h a b n Ha Hab Hb). Qed.

Lemma randomBetween_in_range_sample :
  exists k, 14 <= k <= 30 /\
    randomBetween sample_host (ofZ 14) (ofZ 30) 0%nat = Return (ofZ k, 1%nat).
Proof. apply (randomBetween_in_range sample_host 14 30 0%nat); lia. Defined.

(** X2. The four rates that the generator draws with [randomFloat] are
    two-decimal numbers within their bounds, both included: the price
    variation in 0.80 .. 1.20, the FX gain rate in 0.95 .. 0.99, the FX loss
    rate in 1.01 .. 1.05 and the mismatch factor in 0.99 .. 1.01. *)
Theorem randomFloat_rates h n :
  (exists k, 80 <= k <= 120 /\
     randomFloat h (of_decimal false 8 1) (of_decimal false 12 1) 2 n = Return (cents k, S n)) /\
  (exists k, 95 <= k <= 99 /\
     randomFloat h (of_decimal false 95 2) (of_decimal false 99 2) 2 n = Return (cents k, S n)) /\
  (exists k, 101 <= k <= 105 /\
     randomFloat h (of_decimal false 101 2) (of_decimal false 105 2) 2 n = Return (cents k, S n)) /\
  (exists k, 99 <= k <= 101 /\
     randomFloat h (of_decimal false 99 2) (of_decimal false 101 2) 2 n = Return (cents k, S n)).
Proof.
  split; [apply randomFloat_variation|]. split; [apply randomFloat_gain|].
  split; [apply randomFloat_loss|apply randomFloat_mismatch].
Qed.

(** X3. [formatDate] gives the UTC calendar date of a valid Date; read back
    with [new Date], the text is midnight UTC of the same day, and formatting
    that again gives the same text.  The text has ten characters for the
    years 0 to 9999.  [formatDate] of an Invalid Date throws a RangeError. *)
Theorem formatDate_round_trip h t :
  Z.abs t <= maxTime ->
  formatDate (Some t) = Return (date_text t) /\
  Date_parse h (date_text t) = Some (Day t * msPerDay) /\
  Day t * msPerDay <= t < Day t * msPerDay + msPerDay /\
  formatDate (Date_parse h (date_text t)) = Return (date_text t) /\
  (0 <= YearFromTime t <= 9999 -> String.length (date_text t) = 10%nat) /\
  formatDate None = Throw RangeError.
Proof.
  intros Ht. unfold maxTime in Ht.
  split; [apply formatDate_Some|].
  split; [apply Date_parse_date_text; exact Ht|].
  split; [unfold Day, msPerDay; Z.div_mod_to_equations; lia|].
  split; [rewrite Date_parse_date_text by exact Ht; rewrite formatDate_Some, date_text_day;
          reflexivity|].
  split; [|reflexivity].
  intros Hy. unfold date_text, year_text.
  replace ((0 <=? YearFromTime t) && (YearFromTime t <=? 9999)) with true
    by (symmetry; apply andb_true_intro; split; apply Z.leb_le; lia).
  rewrite !string_length_app, !length_fixed_width. reflexivity.
Qed.

Lemma formatDate_round_trip_sample :
  Z.abs sample_now <= maxTime /\
  formatDate (Some sample_now) = Return "2023-11-14" /\
  Date_parse sample_host "2023-11-14" = Some 1699920000000.
Proof.
  split; [unfold sample_now, maxTime; lia|].
  destruct (formatDate_round_trip sample_host sample_now) as (H1 & H2 & _).
  - unfold sample_now, maxTime; lia.
  - split; [exact H1|exact H2].
Defined.

(** X4. On a host whose local time is at a fixed offset from UTC,
    [addDays(d, k)] for a whole number of days 0 <= k < 2^31 moves a valid
    Date by exactly k times 86 400 000 ms, or gives an Invalid Date when that
    leaves the range of Dates; an Invalid Date stays invalid, and a number of
    days that is NaN gives an Invalid Date. *)
Theorem addDays_shift h t k :
  fixed_offset h -> 0 <= k < 2 ^ 31 ->
  addDays h (Some t) (ofZ k) = TimeClip (t + k * msPerDay) /\
  addDays h None (ofZ k) = None /\
  addDays h (Some t) NaN = None.
Proof.
  intros Hfix Hk. split; [apply addDays_Some; assumption|].
  split; [apply addDays_None|apply addDays_NaN].
Qed.

Lemma addDays_shift_sample :
  fixed_offset sample_host /\
  addDays sample_host (Some sample_now) (ofZ 30) = TimeClip (sample_now + 30 * msPerDay) /\
  addDays sample_host None (ofZ 30) = None /\
  addDays sample_host (Some sample_now) NaN = None.
Proof.
  split; [intros t t' b b'; reflexivity|].
  apply (addDays_shift sample_host sample_now 30); [intros t t' b b'; reflexivity|lia].
Defined.

(** X5. For a range of dates in order, the issue date of the generated
    invoice is a whole number of days after the start of the range and not
    after its end (host of fixed offset, dates within 4 * 10^15 ms of the
    epoch). *)
Theorem invoice_date_in_range h s e sup cus sequence direction n inv n' :
  fixed_offset h ->
  Z.abs s <= 4 * 10 ^ 15 -> 0 <= e - s <= 4 * 10 ^ 15 ->
  generateInvoice h (Some s) (Some e) sup cus sequence direction n = Return (inv, n') ->
  exists j,
    0 <= j /\ s <= s + j * msPerDay <= e /\
    date inv = date_text (s + j * msPerDay) /\
    issue_time inv = Some (Day (s + j * msPerDay) * msPerDay).
Proof.
  intros Hfix Hs He H.
  destruct (generateInvoice_issue _ _ _ _ _ _ _ _ _ _ Hfix Hs He H) as (j & Hj & Hd & _).
  exists j. split; [lia|]. split.
  - unfold msPerDay in *. Z.div_mod_to_equations. lia.
  - split; [exact Hd|]. unfold issue_time. rewrite Hd. apply parse_date_text.
    unfold msPerDay in *. Z.div_mod_to_equations. lia.
Qed.

Lemma invoice_date_in_range_sample :
  fixed_offset sample_host /\
  generateInvoice sample_host (Some 1735689600000) (Some 1767139200000) DEFAULT_COMPANY
    DEFAULT_COMPANY (ofZ 100) payables 0%nat = Return (sample_invoice, sample_invoice_next) /\
  exists j,
    0 <= j /\ 1735689600000 <= 1735689600000 + j * msPerDay <= 1767139200000 /\
    date sample_invoice = date_text (1735689600000 + j * msPerDay) /\
    issue_time sample_invoice = Some (Day (1735689600000 + j * msPerDay) * msPerDay).
Proof.
  split; [intros t t' b b'; reflexivity|]. split; [vm_compute; reflexivity|].
  apply (invoice_date_in_range sample_host 1735689600000 1767139200000 DEFAULT_COMPANY
           DEFAULT_COMPANY (ofZ 100) payables 0%nat sample_invoice sample_invoice_next).
  - intros t t' b b'. reflexivity.
  - lia.
  - lia.
  - vm_compute; reflexivity.
Defined.

(** X6. For a range of dates in order (host of fixed offset, dates within
    4 * 10^15 ms of the epoch), [generateInvoice] returns an invoice: it does
    not throw. *)
Theorem generateInvoice_succeeds h s e sup cus sequence direction n :
  fixed_offset h ->
  Z.abs s <= 4 * 10 ^ 15 -> 0 <= e - s <= 4 * 10 ^ 15 ->
  exists inv n',
    generateInvoice h (Some s) (Some e) sup cus sequence direction n = Return (inv, n').
Proof. intros Hfix Hs He. apply generateInvoice_returns; assumption. Qed.

Lemma generateInvoice_succeeds_sample :
  fixed_offset sample_host /\
  exists inv n',
    generateInvoice sample_host (Some 0) (Some 86400000) DEFAULT_COMPANY DEFAULT_COMPANY
      NaN receivables 7%nat = Return (inv, n').
Proof.
  split; [intros t t' b b'; reflexivity|].
  apply (generateInvoice_succeeds sample_host 0 86400000); [intros t t' b b'; reflexivity|lia|lia].
Defined.

(** X7. When the start or the end of the range is an Invalid Date,
    [generateInvoice] throws a RangeError. *)
Theorem generateInvoice_throws h rs re sup cus sequence direction n :
  rs = None \/ re = None ->
  generateInvoice h rs re sup cus sequence direction n = Throw RangeError.
Proof. apply generateInvoice_invalid. Qed.

Lemma generateInvoice_throws_sample :
  Date_parse sample_host "later" = None /\
  generateInvoice sample_host sample_start (Date_parse sample_host "later") DEFAULT_COMPANY
    DEFAULT_COMPANY (ofZ 100) payables 0%nat = Throw RangeError.
Proof.
  split; [reflexivity|].
  apply (generateInvoice_throws sample_host sample_start (Date_parse sample_host "later")).
  right. reflexivity.
Defined.

(** X8. Every invoice that [generateInvoice] returns is between the two
    given parties, in EUR, and has one to five items, each with a whole
    quantity from 1 to 10, a two-decimal price from 20.00 to 6000.05 and a
    tax rate of 0 or 19. *)
Theorem invoice_items_wellformed h rs re sup cus sequence direction n inv n' :
  generateInvoice h rs re sup cus sequence direction n = Return (inv, n') ->
  supplier inv = sup /\ customer inv = cus /\ currency inv = "EUR" /\
  (1 <= List.length (items inv) <= 5)%nat /\
  Forall (fun it =>
            (exists q, 1 <= q <= 10 /\ quantity it = ofZ q) /\
            (exists c, 2000 <= c <= 600005 /\ price it = cents c) /\
            (tax it = ofZ 0 \/ tax it = ofZ 19))
         (items inv).
Proof.
  intros H. pose proof (generateInvoice_inv _ _ _ _ _ _ _ _ _ _ H) as Hg.
  apply generateInvoice_parts in H. destruct H as (_ & _ & _ & _ & _ & _ & _ & Hc).
  destruct Hg as (Hs & Hcu & _ & Hit & Hlen & _).
  repeat split; try assumption; lia.
Qed.

Lemma invoice_items_wellformed_sample :
  supplier sample_invoice = DEFAULT_COMPANY /\ customer sample_invoice = DEFAULT_COMPANY /\
  currency sample_invoice = "EUR" /\
  (1 <= List.length (items sample_invoice) <= 5)%nat /\
  Forall (fun it =>
            (exists q, 1 <= q <= 10 /\ quantity it = ofZ q) /\
            (exists c, 2000 <= c <= 600005 /\ price it = cents c) /\
            (tax it = ofZ 0 \/ tax it = ofZ 19))
         (items sample_invoice).
Proof.
  apply (invoice_items_wellformed sample_host sample_start sample_end DEFAULT_COMPANY
           DEFAULT_COMPANY (ofZ 100) payables 0%nat sample_invoice sample_invoice_next).
  vm_compute; reflexivity.
Defined.

(** X9. The number of a generated invoice with sequence 0 <= q <= 9999 is
    the prefix INV (receivables) or BILL (payables), the year of the issue
    date in local time and the sequence padded to four digits, joined by
    hyphens; [invoiceToPDFData] reads it back as the number
    |year| * 10000 + q (host within a day of UTC). *)
Theorem invoice_number_round_trip h rs re sup cus q direction n inv n' :
  (forall t b, Z.abs (host_localTZA h t b) <= msPerDay) ->
  0 <= q <= 9999 ->
  generateInvoice h rs re sup cus (ofZ q) direction n = Return (inv, n') ->
  exists t y,
    date inv = date_text t /\ y = YearFromTime (LocalTime h t) /\
    inv_number inv
    = (if direction_eqb direction receivables then "INV" else "BILL")
        ++ "-" ++ Z_to_string y ++ "-" ++ fixed_width 4 q /\
    pdf_number (pdf_invoice (invoiceToPDFData h inv)) = ofZ (Z.abs y * 10000 + q).
Proof.
  intros Hoff Hq H.
  destruct (generateInvoice_suffix _ _ _ _ _ _ _ _ _ _ Hq H) as (t & Ht & Hd & Hn).
  rewrite (getFullYear_text h t Hoff Ht) in Hn.
  exists t, (YearFromTime (LocalTime h t)).
  split; [exact Hd|]. split; [reflexivity|]. split; [exact Hn|].
  lazy beta iota delta [invoiceToPDFData pdf_invoice pdf_number]. rewrite Hn.
  apply invoice_number_digits; [destruct direction; reflexivity|exact Hq].
Qed.

Lemma invoice_number_round_trip_sample :
  inv_number sample_invoice = "BILL-2025-0100" /\
  exists t y,
    date sample_invoice = date_text t /\ y = YearFromTime (LocalTime sample_host t) /\
    inv_number sample_invoice
    = (if direction_eqb payables receivables then "INV" else "BILL")
        ++ "-" ++ Z_to_string y ++ "-" ++ fixed_width 4 100 /\
    pdf_number (pdf_invoice (invoiceToPDFData sample_host sample_invoice))
    = ofZ (Z.abs y * 10000 + 100).
Proof.
  split; [reflexivity|].
  apply (invoice_number_round_trip sample_host sample_start sample_end DEFAULT_COMPANY
           DEFAULT_COMPANY 100 payables 0%nat sample_invoice sample_invoice_next).
  - intros t b. unfold msPerDay. cbn. lia.
  - lia.
  - vm_compute; reflexivity.
Defined.

Local Open Scope list_scope.
Local Open Scope string_scope.
Local Open Scope Z_scope.

(** * Further properties of the generator: transactions *)

(** X10. In every test case of a single invoice the amount of the
    transaction is a two-decimal number, not zero, within six per cent of the
    invoice total (plus half a cent), negative for payables and positive for
    receivables; [metadata.adjustedAmount] is its magnitude and
    [metadata.originalAmount] is the invoice total. *)
Theorem transaction_amount_sign h type direction rs re our sequence n tc n' :
  generateTestCase h type direction rs re our sequence n = Return (tc, n') ->
  exists c m,
    total (invoice tc) = cents c /\
    1 <= m /\ 188 * c - 100 <= 200 * m <= 212 * c + 100 /\
    amount_eur (transaction tc) = signed direction (cents m) /\
    adjustedAmount (metadata tc) = cents m /\
    originalAmount (metadata tc) = total (invoice tc) /\
    match direction with
    | payables => is_negative (amount_eur (transaction tc)) = true
    | receivables => is_positive (amount_eur (transaction tc)) = true
    end.
Proof.
  intros H. destruct (generateTestCase_parts _ _ _ _ _ _ _ _ _ _ H)
    as (other & n1 & n2 & n3 & _ & Hinv & Htx & _).
  apply generateInvoice_inv in Hinv.
  destruct (invoice_generated_totals _ _ _ Hinv) as (c1 & c2 & c & _ & _ & Ec & _ & _ & Hc & _).
  destruct (generateTransaction_magnitude _ _ _ _ _ _ _ _ c ltac:(lia) Ec Htx)
    as (m & Hm & Ha & Hb & _).
  destruct (generateTransaction_common _ _ _ _ _ _ _ _ Htx) as (_ & _ & _ & _ & _ & Ho).
  exists c, m. split; [exact Ec|]. split; [lia|]. split; [exact Hm|].
  split; [exact Ha|]. split; [exact Hb|]. split; [exact Ho|].
  rewrite Ha. apply signed_cents_sign. lia.
Qed.

Lemma transaction_amount_sign_sample :
  exists c m,
    total (invoice sample_discount_case) = cents c /\
    1 <= m /\ 188 * c - 100 <= 200 * m <= 212 * c + 100 /\
    amount_eur (transaction sample_discount_case) = signed payables (cents m) /\
    adjustedAmount (metadata sample_discount_case) = cents m /\
    originalAmount (metadata sample_discount_case) = total (invoice sample_discount_case) /\
    is_negative (amount_eur (transaction sample_discount_case)) = true.
Proof.
  apply (transaction_amount_sign sample_host discount_2_percent payables sample_start sample_end
           DEFAULT_COMPANY (ofZ 100) 0%nat sample_discount_case sample_discount_next).
  vm_compute; reflexivity.
Defined.

(** X11. For the types perfect_match, partial_match_no_description,
    partial_match_date_far and group_payment, [generateTransaction] pays the
    invoice total unchanged: the amount is the total with the sign of the
    direction, the adjusted amount is the total, and the metadata hold no
    discount and no FX rate. *)
Theorem exact_payment_amount h type direction rs re our sequence n tc n' :
  pays_total type = true ->
  generateTestCase h type direction rs re our sequence n = Return (tc, n') ->
  amount_eur (transaction tc) = signed direction (total (invoice tc)) /\
  adjustedAmount (metadata tc) = total (invoice tc) /\
  originalAmount (metadata tc) = total (invoice tc) /\
  discountPercent (metadata tc) = None /\ fxRate (metadata tc) = None.
Proof.
  intros Hp H. destruct (generateTestCase_parts _ _ _ _ _ _ _ _ _ _ H)
    as (other & n1 & n2 & n3 & _ & Hinv & Htx & _).
  apply generateInvoice_inv in Hinv.
  destruct (invoice_generated_totals _ _ _ Hinv) as (c1 & c2 & c & _ & _ & Ec & _ & _ & Hc & _).
  destruct (generateTransaction_exact _ _ _ _ _ _ _ _ Hp Htx) as (Ha & Hb & Ho & Hd & Hf).
  repeat split; try assumption.
  rewrite Ha, Ec. destruct (cents_amount c ltac:(lia)) as (Hw & _ & Hmax & _).
  apply (signed_amount direction _ _ _ Hw). lra.
Qed.

Lemma exact_payment_amount_sample :
  amount_eur (transaction sample_perfect_case)
  = signed payables (total (invoice sample_perfect_case)) /\
  adjustedAmount (metadata sample_perfect_case) = total (invoice sample_perfect_case) /\
  originalAmount (metadata sample_perfect_case) = total (invoice sample_perfect_case) /\
  discountPercent (metadata sample_perfect_case) = None /\
  fxRate (metadata sample_perfect_case) = None.
Proof.
  apply (exact_payment_amount sample_host perfect_match payables sample_start sample_end
           DEFAULT_COMPANY (ofZ 100) 0%nat sample_perfect_case sample_perfect_next).
  - reflexivity.
  - vm_compute; reflexivity.
Defined.

(** X12. In an FX case the rate drawn is a two-decimal number, 0.95 to 0.99
    for a gain and 1.01 to 1.05 for a loss; the amount is the invoice total
    times the rate (payables) or times 2 - rate (receivables), rounded to
    two decimals, with the sign of the direction.  A gain pays less than the
    total on a payable and more on a receivable; a loss does the reverse.
    For a payable the amount is the nearest cent to total times rate. *)
Theorem fx_amount_direction h type direction lo hi rs re our sequence n tc n' :
  fx_rate_bounds type = Some (lo, hi) ->
  generateTestCase h type direction rs re our sequence n = Return (tc, n') ->
  exists r c m,
    lo <= r <= hi /\ fxRate (metadata tc) = Some (cents r) /\
    total (invoice tc) = cents c /\
    amount_eur (transaction tc) = signed direction (cents m) /\
    cents m = round2 (num_mul (total (invoice tc)) (fx_multiplier direction (cents r))) /\
    adjustedAmount (metadata tc) = cents m /\
    match type, direction with
    | fx_gain, payables | fx_loss, receivables => m < c
    | _, _ => c < m
    end /\
    (direction = payables -> 2 * (r * c) - 100 <= 200 * m <= 2 * (r * c) + 100).
Proof.
  intros Hb H. destruct (generateTestCase_parts _ _ _ _ _ _ _ _ _ _ H)
    as (other & n1 & n2 & n3 & _ & Hinv & Htx & _).
  apply generateInvoice_inv in Hinv.
  destruct (invoice_generated_totals _ _ _ Hinv) as (c1 & c2 & c & _ & _ & Ec & _ & _ & Hc & _).
  destruct (generateTransaction_fx _ _ _ _ _ _ _ _ _ _ Hb Htx) as (r & Hr & Hf & Ha & Hm).
  destruct (fx_amount_cents type direction lo hi r c Hb Hr ltac:(lia))
    as (m & Em & Hm0 & Hcmp & Hex).
  destruct (cents_amount m ltac:(lia)) as (Hw & _ & Hmax & _).
  destruct (signed_amount direction _ _ _ Hw ltac:(lra)) as [E1 E2].
  exists r, c, m. rewrite Hm, Ha, Ec, Em, E1, E2.
  split; [exact Hr|]. split; [exact Hf|]. split; [reflexivity|]. split; [reflexivity|].
  split; [reflexivity|]. split; [reflexivity|]. split; [exact Hcmp|exact Hex].
Qed.

Lemma fx_amount_direction_sample :
  exists r c m,
    95 <= r <= 99 /\ fxRate (metadata sample_fx_case) = Some (cents r) /\
    total (invoice sample_fx_case) = cents c /\
    amount_eur (transaction sample_fx_case) = signed receivables (cents m) /\
    cents m = round2 (num_mul (total (invoice sample_fx_case))
                        (fx_multiplier receivables (cents r))) /\
    adjustedAmount (metadata sample_fx_case) = cents m /\
    c < m /\
    (receivables = payables -> 2 * (r * c) - 100 <= 200 * m <= 2 * (r * c) + 100).
Proof.
  apply (fx_amount_direction sample_host fx_gain receivables 95 99 sample_start sample_end
           DEFAULT_COMPANY (ofZ 100) 0%nat sample_fx_case sample_fx_next).
  - reflexivity.
  - vm_compute; reflexivity.
Defined.

(** X13. In an amount-mismatch case the factor drawn is 0.99, 1.00 or 1.01
    and the amount is the nearest cent to the invoice total times the
    factor, with the sign of the direction; when the factor drawn is 1.00 the
    amount is the invoice total itself, so the case shows no mismatch. *)
Theorem mismatch_amount_bound h direction rs re our sequence n tc n' :
  generateTestCase h partial_match_amount_mismatch direction rs re our sequence n
  = Return (tc, n') ->
  exists r c m,
    99 <= r <= 101 /\ total (invoice tc) = cents c /\
    amount_eur (transaction tc) = signed direction (cents m) /\
    cents m = round2 (num_mul (total (invoice tc)) (cents r)) /\
    adjustedAmount (metadata tc) = cents m /\
    2 * (r * c) - 100 <= 200 * m <= 2 * (r * c) + 100 /\
    (r = 100 -> amount_eur (transaction tc) = signed direction (total (invoice tc))).
Proof.
  intros H. destruct (generateTestCase_parts _ _ _ _ _ _ _ _ _ _ H)
    as (other & n1 & n2 & n3 & _ & Hinv & Htx & _).
  apply generateInvoice_inv in Hinv.
  destruct (invoice_generated_totals _ _ _ Hinv) as (c1 & c2 & c & _ & _ & Ec & _ & _ & Hc & _).
  destruct (generateTransaction_mismatch _ _ _ _ _ _ _ Htx) as (r & Hr & Ha & Hm & _).
  destruct (mismatch_amount_cents r c Hr ltac:(lia)) as (m & Em & Hm0 & Hb & Heq).
  destruct (cents_amount m ltac:(lia)) as (Hw & _ & Hmax & _).
  destruct (signed_amount direction _ _ _ Hw ltac:(lra)) as [E1 E2].
  exists r, c, m. rewrite Hm, Ha, Ec, Em, E1, E2.
  repeat split; try assumption; try reflexivity; try lia.
  intros E. rewrite (Heq E). reflexivity.
Qed.

Lemma mismatch_amount_bound_sample :
  exists r c m,
    99 <= r <= 101 /\ total (invoice sample_mismatch_case) = cents c /\
    amount_eur (transaction sample_mismatch_case) = signed receivables (cents m) /\
    cents m = round2 (num_mul (total (invoice sample_mismatch_case)) (cents r)) /\
    adjustedAmount (metadata sample_mismatch_case) = cents m /\
    2 * (r * c) - 100 <= 200 * m <= 2 * (r * c) + 100 /\
    (r = 100 ->
     amount_eur (transaction sample_mismatch_case)
     = signed receivables (total (invoice sample_mismatch_case))).
Proof.
  apply (mismatch_amount_bound sample_host receivables sample_start sample_end
           DEFAULT_COMPANY (ofZ 100) 0%nat sample_mismatch_case sample_mismatch_next).
  vm_compute; reflexivity.
Defined.

(** X14. On a host of fixed offset, the date of the transaction of a test
    case is the issue date of its invoice plus a whole number of days that
    depends on the type: 1 to 7 (perfect match), 1 to 5 (discounts), 3 to 14
    (FX), 1 to 10 (no description, amount mismatch) and 30 to 60 (date
    far). *)
Theorem payment_date_delay h type direction rs re our sequence n tc n' :
  fixed_offset h ->
  generateTestCase h type direction rs re our sequence n = Return (tc, n') ->
  exists iss d,
    fst (payment_delay type) <= d <= snd (payment_delay type) /\
    issue_time (invoice tc) = Some iss /\
    parse_date_only (tx_date (transaction tc)) = Some (iss + d * msPerDay).
Proof.
  intros Hfix H. destruct (generateTestCase_parts _ _ _ _ _ _ _ _ _ _ H)
    as (other & n1 & n2 & n3 & _ & Hinv & Htx & _).
  apply generateInvoice_inv in Hinv.
  exact (generateTransaction_delay _ _ _ _ _ _ _ _ _ _ Hfix Hinv Htx).
Qed.

Lemma payment_date_delay_sample :
  fixed_offset sample_host /\
  exists iss d,
    1 <= d <= 7 /\
    issue_time (invoice sample_perfect_case) = Some iss /\
    parse_date_only (tx_date (transaction sample_perfect_case)) = Some (iss + d * msPerDay).
Proof.
  split; [intros t t' b b'; reflexivity|].
  apply (payment_date_delay sample_host perfect_match payables sample_start sample_end
           DEFAULT_COMPANY (ofZ 100) 0%nat sample_perfect_case sample_perfect_next).
  - intros t t' b b'. reflexivity.
  - vm_compute; reflexivity.
Defined.

(** X15. The counterparty named on the transaction of a test case is the
    other party of the invoice (the supplier of a payable, the customer of a
    receivable): its full name, or one of its recorded name variations, of
    which there is at least one. *)
Theorem counterparty_known h type direction rs re our sequence n tc n' :
  generateTestCase h type direction rs re our sequence n = Return (tc, n') ->
  exists vs,
    nameVariations (other_company direction (invoice tc)) = Some vs /\ vs <> [] /\
    (counterparty (transaction tc) = name (other_company direction (invoice tc)) \/
     In (counterparty (transaction tc)) vs).
Proof.
  intros H. destruct (generateTestCase_parts _ _ _ _ _ _ _ _ _ _ H)
    as (other & n1 & n2 & n3 & Hother & Hinv & Htx & _).
  apply generateInvoice_inv in Hinv. destruct Hinv as (Hs & Hc & _).
  destruct (generateCompany_spec h n) as (c & m & baseName & legalSuffix & Hgen & _ & Hv).
  unfold getRandomSupplier in Hother. rewrite Hgen in Hother.
  apply Return_pair_inv in Hother. destruct Hother as [-> _].
  destruct (generateNameVariations_nonempty h baseName legalSuffix) as (v & vs & Evs).
  rewrite Evs in Hv.
  destruct (generateTransaction_common _ _ _ _ _ _ _ _ Htx) as (n4 & d & Hcp & _).
  assert (Eo : other_company direction (invoice tc) = other).
  { destruct direction; cbn [other_company direction_eqb] in *; assumption. }
  assert (Ec : (if direction_eqb direction payables then supplier (invoice tc)
                else customer (invoice tc)) = other).
  { destruct direction; cbn [direction_eqb] in *; assumption. }
  rewrite Ec in Hcp. rewrite Eo. exists (v :: vs).
  split; [exact Hv|]. split; [discriminate|].
  exact (getRandomNameVariation_inv _ _ _ _ _ _ _ Hv Hcp).
Qed.

Lemma counterparty_known_sample :
  exists vs,
    nameVariations (other_company payables (invoice sample_perfect_case)) = Some vs /\
    vs <> [] /\
    (counterparty (transaction sample_perfect_case)
     = name (other_company payables (invoice sample_perfect_case)) \/
     In (counterparty (transaction sample_perfect_case)) vs).
Proof.
  apply (counterparty_known sample_host perfect_match payables sample_start sample_end
           DEFAULT_COMPANY (ofZ 100) 0%nat sample_perfect_case sample_perfect_next).
  vm_compute; reflexivity.
Defined.

(** X16. The description of the transaction of a test case starts with the
    number of its invoice, except for the type partial_match_no_description,
    where it is one of the ten generic descriptions and the invoice number
    occurs nowhere in it. *)
Theorem description_invoice_number h type direction rs re our sequence n tc n' :
  generateTestCase h type direction rs re our sequence n = Return (tc, n') ->
  match type with
  | partial_match_no_description =>
      In (description (transaction tc)) GENERIC_DESCRIPTIONS /\
      String.index 0 (inv_number (invoice tc)) (description (transaction tc)) = None
  | _ => String.prefix (inv_number (invoice tc)) (description (transaction tc)) = true
  end.
Proof.
  intros H. destruct (generateTestCase_parts _ _ _ _ _ _ _ _ _ _ H)
    as (other & n1 & n2 & n3 & _ & Hinv & Htx & _).
  pose proof (generateTransaction_description _ _ _ _ _ _ _ _ Htx) as Hd.
  destruct type; try exact Hd.
  split; [exact Hd|].
  apply generateInvoice_parts in Hinv. destruct Hinv as (rd & k1 & t & _ & _ & _ & Hn & _).
  apply index_hyphen.
  - rewrite Hn. apply generateInvoiceNumber_hyphen.
  - assert (HF : Forall (fun d => avoids "-" d = true) GENERIC_DESCRIPTIONS)
      by (repeat constructor).
    exact (proj1 (Forall_forall _ _) HF _ Hd).
Qed.

Lemma description_invoice_number_sample :
  description (transaction sample_generic_case) = "Supplier Payment" /\
  In (description (transaction sample_generic_case)) GENERIC_DESCRIPTIONS /\
  String.index 0 (inv_number (invoice sample_generic_case))
    (description (transaction sample_generic_case)) = None.
Proof.
  split; [vm_compute; reflexivity|].
  apply (description_invoice_number sample_host partial_match_no_description payables
           sample_start sample_end DEFAULT_COMPANY (ofZ 100) 0%nat sample_generic_case
           sample_generic_next).
  vm_compute; reflexivity.
Defined.

Local Open Scope list_scope.
Local Open Scope string_scope.
Local Open Scope Z_scope.

(** * Further properties of the generator: suites *)

(** X17. In every test case of a generated suite, group payments included,
    the direction is that of the suite and the amount of the transaction is
    a two-decimal number of at least one cent in magnitude, negative for
    payables and positive for receivables, whose magnitude is
    [metadata.adjustedAmount]. *)
Theorem suite_amount_signs h fuel now configs direction start' end' overrides n suite n' :
  generateTestSuite h fuel now configs direction start' end' overrides n = Return (suite, n') ->
  suite_direction suite = direction /\
  Forall (fun tc =>
            tc_direction tc = direction /\
            exists m,
              1 <= m /\ amount_eur (transaction tc) = signed direction (cents m) /\
              adjustedAmount (metadata tc) = cents m /\
              match direction with
              | payables => is_negative (amount_eur (transaction tc)) = true
              | receivables => is_positive (amount_eur (transaction tc)) = true
              end)
         (cases suite).
Proof.
  intros H. split; [exact (proj1 (generateTestSuite_inv _ _ _ _ _ _ _ _ _ _ _ H))|].
  apply (generateTestSuite_Forall _ _ _ _ _ _ _ _ _ _ _ _) with (3 := H).
  - intros type sq m tc m' Hr.
    destruct (generateTestCase_parts _ _ _ _ _ _ _ _ _ _ Hr)
      as (other & n1 & n2 & n3 & _ & Hinv & Htx & _ & Hd & _).
    apply generateInvoice_inv in Hinv.
    destruct (invoice_generated_totals _ _ _ Hinv) as (c1 & c2 & c & _ & _ & Ec & _ & _ & Hc & _).
    destruct (generateTransaction_magnitude _ _ _ _ _ _ _ _ c ltac:(lia) Ec Htx)
      as (k & Hk & Ha & Hb & _).
    split; [exact Hd|]. exists k. split; [lia|]. split; [exact Ha|]. split; [exact Hb|].
    rewrite Ha. apply signed_cents_sign. lia.
  - intros sq m tc cnt m' Hr.
    destruct (group_amount_cents _ _ _ _ _ _ _ _ _ _ Hr) as (invs & ns & _ & _ & Hs & Ha & Hb & _).
    destruct (generateGroupPaymentTestCase_parts _ _ _ _ _ _ _ _ _ _ Hr)
      as (other & n1 & N & invs' & first & rest & P).
    split; [exact (proj2 (proj2 (proj2 (proj2 (proj2 (proj2 (proj2 (proj2 (proj2 (proj2
                    (proj2 (proj2 (proj2 (proj2 (proj2 P)))))))))))))))|].
    exists (Zsum ns). split; [lia|]. split; [exact Ha|]. split; [exact Hb|].
    rewrite Ha. apply signed_cents_sign. lia.
Qed.

Lemma suite_amount_signs_sample :
  suite_direction sample_suite = payables /\
  Forall (fun tc =>
            tc_direction tc = payables /\
            exists m,
              1 <= m /\ amount_eur (transaction tc) = signed payables (cents m) /\
              adjustedAmount (metadata tc) = cents m /\
              is_negative (amount_eur (transaction tc)) = true)
         (cases sample_suite).
Proof.
  apply (suite_amount_signs sample_host 0%nat sample_now sample_configs payables "2025-01-01"
           "2025-12-31" None 0%nat sample_suite sample_suite_next).
  vm_compute; reflexivity.
Defined.

(** X18. When the two date texts of the range are read as dates in order,
    every invoice of every test case of the suite, those of group payments
    included, is issued a whole number of days after the start of the range
    and not after its end (host of fixed offset, dates within 4 * 10^15 ms
    of the epoch). *)
Theorem suite_dates_in_range h fuel now configs direction start' end' overrides n suite n' s e :
  fixed_offset h ->
  Date_parse h start' = Some s -> Date_parse h end' = Some e ->
  Z.abs s <= 4 * 10 ^ 15 -> 0 <= e - s <= 4 * 10 ^ 15 ->
  generateTestSuite h fuel now configs direction start' end' overrides n = Return (suite, n') ->
  Forall (fun tc =>
            Forall (fun inv =>
                      exists j,
                        0 <= j /\ s <= s + j * msPerDay <= e /\
                        date inv = date_text (s + j * msPerDay))
                   (case_invoices tc))
         (cases suite).
Proof.
  intros Hfix Hs He Hsb Heb H.
  assert (Hone : forall sup cus sq dir m inv m',
            generateInvoice h (Some s) (Some e) sup cus sq dir m = Return (inv, m') ->
            exists j, 0 <= j /\ s <= s + j * msPerDay <= e /\
                      date inv = date_text (s + j * msPerDay)).
  { intros sup cus sq dir m inv m' Hr.
    destruct (generateInvoice_issue _ _ _ _ _ _ _ _ _ _ Hfix Hsb Heb Hr) as (j & Hj & Hd & _).
    exists j. split; [lia|]. split; [|exact Hd].
    unfold msPerDay in *. Z.div_mod_to_equations. lia. }
  apply (generateTestSuite_Forall _ _ _ _ _ _ _ _ _ _ _ _) with (3 := H); rewrite Hs, He.
  - intros type sq m tc m' Hr.
    destruct (generateTestCase_parts _ _ _ _ _ _ _ _ _ _ Hr)
      as (other & n1 & n2 & n3 & _ & Hinv & _ & _ & _ & Hnone).
    unfold case_invoices. rewrite Hnone. constructor; [|constructor].
    exact (Hone _ _ _ _ _ _ _ Hinv).
  - intros sq m tc cnt m' Hr.
    destruct (generateGroupPaymentTestCase_parts _ _ _ _ _ _ _ _ _ _ Hr)
      as (other & n1 & N & invs & first & rest & _ & _ & _ & Hinvs & _ & _ & _ & HF2 & _).
    unfold case_invoices. rewrite Hinvs. clear - HF2 Hone.
    induction HF2 as [|i inv l invs (m1 & m2 & Hr) HF IH]; constructor.
    + exact (Hone _ _ _ _ _ _ _ Hr).
    + exact IH.
Qed.

Lemma suite_dates_in_range_sample :
  fixed_offset sample_host /\
  Date_parse sample_host "2025-01-01" = Some 1735689600000 /\
  Date_parse sample_host "2025-12-31" = Some 1767139200000 /\
  Forall (fun tc =>
            Forall (fun inv =>
                      exists j,
                        0 <= j /\
                        1735689600000 <= 1735689600000 + j * msPerDay <= 1767139200000 /\
                        date inv = date_text (1735689600000 + j * msPerDay))
                   (case_invoices tc))
         (cases sample_suite).
Proof.
  split; [intros t t' b b'; reflexivity|]. split; [reflexivity|]. split; [reflexivity|].
  apply (suite_dates_in_range sample_host 0%nat sample_now sample_configs payables "2025-01-01"
           "2025-12-31" None 0%nat sample_suite sample_suite_next).
  - intros t t' b b'. reflexivity.
  - reflexivity.
  - reflexivity.
  - lia.
  - lia.
  - vm_compute; reflexivity.
Defined.

(** X19. In a suite of at most 3000 test cases the invoices, those of group
    payments included, carry consecutive sequences in the order of
    generation, starting from a number between 100 and 999: each invoice
    number ends with a hyphen and its sequence in four digits, and no two
    invoices of the suite have the same number. *)
Theorem suite_invoice_numbers h fuel now configs direction start' end' overrides n suite n' :
  generateTestSuite h fuel now configs direction start' end' overrides n = Return (suite, n') ->
  (List.length (cases suite) <= 3000)%nat ->
  exists q0,
    100 <= q0 <= 999 /\
    Forall2 numbered (all_invoices (cases suite))
      (Zrange q0 (List.length (all_invoices (cases suite)))) /\
    NoDup (map inv_number (all_invoices (cases suite))).
Proof.
  intros H Hreq.
  destruct (suite_sequence_invariant _ _ _ _ _ _ _ _ _ _ _ H)
    as (q0 & q & Hq0 & Hq & Hlen & Hb & Hg).
  assert (HF : Forall2 numbered (all_invoices (cases suite))
                 (Zrange q0 (List.length (all_invoices (cases suite))))).
  { replace (List.length (all_invoices (cases suite))) with (Z.to_nat (q - q0)) by lia.
    apply Hg. lia. }
  exists q0. split; [exact Hq0|]. split; [exact HF|].
  apply (numbered_NoDup _ _ HF).
  - apply Forall_forall. intros k Hk. apply Zrange_In in Hk. lia.
  - apply Zrange_NoDup.
Qed.

Lemma suite_invoice_numbers_sample :
  map inv_number (all_invoices (cases sample_suite))
  = ["BILL-2025-0550"; "BILL-2025-0551"; "BILL-2025-0552"; "BILL-2025-0553";
     "BILL-2025-0554"] /\
  exists q0,
    100 <= q0 <= 999 /\
    Forall2 numbered (all_invoices (cases sample_suite))
      (Zrange q0 (List.length (all_invoices (cases sample_suite)))) /\
    NoDup (map inv_number (all_invoices (cases sample_suite))).
Proof.
  split; [vm_compute; reflexivity|].
  apply (suite_invoice_numbers sample_host 0%nat sample_now sample_configs payables "2025-01-01"
           "2025-12-31" None 0%nat sample_suite sample_suite_next).
  - vm_compute; reflexivity.
  - change (List.length (cases sample_suite)) with 4%nat. lia.
Defined.

Local Open Scope list_scope.
Local Open Scope string_scope.
Local Open Scope Z_scope.

(** * Further properties: the generation request *)



(** X21. A request that asks for at least one test case (one of its
    quantities is positive, [+Infinity] included) and whose start or end is
    a text that is not read as a date passes the checks of the handler,
    makes the generator throw in the first iteration, and is answered with
    status 500 and the error of a failed generation. *)
Theorem post_generate_unreadable_date h fuel now b n configs r start' end' :
  body_cases b = Some configs -> requested configs <> Some O ->
  body_dateRange b = Some r ->
  range_start_text r = Some start' -> range_end_text r = Some end' ->
  start' <> "" -> end' <> "" ->
  Date_parse h start' = None \/ Date_parse h end' = None ->
  post_generate h (S fuel) now b n
  = Some {| status := 500; body := ErrorBody "Failed to generate test cases" |}.
Proof.
  intros Hcases Hreq Hrange Hst Hen Hs0 He0 Hnone.
  unfold post_generate. rewrite Hcases.
  destruct configs as [|c0 cs]; [contradiction Hreq; reflexivity|].
  rewrite Hrange, Hst, Hen. unfold truthy_text.
  destruct start' as [|a1 s1]; [contradiction Hs0; reflexivity|].
  destruct end' as [|a2 s2]; [contradiction He0; reflexivity|].
  rewrite (generateTestSuite_invalid h fuel now (c0 :: cs) _ _ _ (body_myCompany b) n
             Hnone Hreq).
  reflexivity.
Qed.

Lemma post_generate_unreadable_date_sample :
  post_generate sample_host 1 sample_now unparsable_request 0%nat
  = Some {| status := 500; body := ErrorBody "Failed to generate test cases" |}.
Proof.
  apply (post_generate_unreadable_date sample_host 0%nat sample_now unparsable_request 0%nat
           [config_of perfect_match 2]
           {| range_start_text := Some "soon"; range_end_text := Some "later" |}
           "soon" "later").
  - reflexivity.
  - vm_compute. discriminate.
  - reflexivity.
  - reflexivity.
  - reflexivity.
  - discriminate.
  - discriminate.
  - left. reflexivity.
Defined.

(** X22. A request whose case list is not empty but whose quantities ask
    for no test case (each is zero, negative or not a number) is answered
    with status 200 whatever its start and end texts are, as long as they
    are not empty and the time of the request is the time value of a date:
    the suite has no test case and its CSV text is the header line alone. *)
Theorem post_generate_nothing_requested h fuel now b n configs r start' end' :
  body_cases b = Some configs -> configs <> [] -> requested configs = Some O ->
  body_dateRange b = Some r ->
  range_start_text r = Some start' -> range_end_text r = Some end' ->
  start' <> "" -> end' <> "" ->
  Z.abs now <= maxTime ->
  exists suite,
    post_generate h fuel now b n = Some {| status := 200; body := SuiteBody suite |} /\
    cases suite = [] /\ csvContent suite = "date;counterparty;description;amount_eur".
Proof.
  intros Hcases Hne Hreq Hrange Hst Hen Hs0 He0 Hnow.
  unfold post_generate. rewrite Hcases.
  destruct configs as [|c0 cs]; [contradiction Hne; reflexivity|].
  rewrite Hrange, Hst, Hen. unfold truthy_text.
  destruct start' as [|a1 s1]; [contradiction Hs0; reflexivity|].
  destruct end' as [|a2 s2]; [contradiction He0; reflexivity|].
  destruct (generateTestSuite_nothing h fuel now (c0 :: cs) (request_direction b)
              (String a1 s1) (String a2 s2) (body_myCompany b) n Hreq Hnow)
    as (suite & n' & Hr & Hc & Hcsv).
  fold (request_direction b). rewrite Hr.
  exists suite. split; [reflexivity|]. split; [exact Hc|exact Hcsv].
Qed.

Lemma post_generate_nothing_requested_sample :
  exists suite,
    post_generate sample_host 0 sample_now idle_request 0%nat
    = Some {| status := 200; body := SuiteBody suite |} /\
    cases suite = [] /\ csvContent suite = "date;counterparty;description;amount_eur".
Proof.
  apply (post_generate_nothing_requested sample_host 0%nat sample_now idle_request 0%nat
           [config_of perfect_match 0; config_of group_payment (-2)]
           {| range_start_text := Some "soon"; range_end_text := Some "later" |}
           "soon" "later").
  - reflexivity.
  - discriminate.
  - vm_compute. reflexivity.
  - reflexivity.
  - reflexivity.
  - reflexivity.
  - discriminate.
  - discriminate.
  - unfold sample_now, maxTime. lia.
Defined.

(** * Further properties: group payments and companies *)

(** X23. In a group payment the invoices are all between the caller's own
    company and one generated company; the test case's [invoice] is the
    first of its [invoices]; the counterparty of the transaction is the name
    of that company or one of its name variations; and the description is
    [Batch Payment: ] followed by the numbers of the invoices, in order,
    separated by a comma and a space. *)
Theorem group_payment_invoices h direction rs re our sequence n tc cnt n' :
  generateGroupPaymentTestCase h direction rs re our sequence n = Return ((tc, cnt), n') ->
  exists invs other vs,
    invoices tc = Some invs /\ hd_error invs = Some (invoice tc) /\
    Forall (fun inv => own_company direction inv = our /\
                       other_company direction inv = other) invs /\
    nameVariations other = Some vs /\
    (counterparty (transaction tc) = name other \/ In (counterparty (transaction tc)) vs) /\
    description (transaction tc)
    = "Batch Payment: " ++ String.concat ", " (map inv_number invs).
Proof.
  intros H.
  destruct (generateGroupPaymentTestCase_parts _ _ _ _ _ _ _ _ _ _ H)
    as (other & n1 & N & invs & first & rest & Hother & _ & _ & Hinvs & Hcons & Hfirst & _
        & HF2 & (m & m' & Hcp) & Hdesc & _).
  destruct (generateCompany_spec h n) as (c & k & baseName & legalSuffix & Hgen & _ & Hv).
  unfold getRandomSupplier in Hother. rewrite Hgen in Hother.
  apply Return_pair_inv in Hother. destruct Hother as [-> _].
  destruct (generateNameVariations_nonempty h baseName legalSuffix) as (v & vs & Evs).
  rewrite Evs in Hv.
  exists invs, other, (v :: vs).
  split; [exact Hinvs|]. split; [rewrite Hcons, Hfirst; reflexivity|].
  split; [|split; [exact Hv|split; [exact (getRandomNameVariation_inv _ _ _ _ _ _ _ Hv Hcp)
                                   |exact Hdesc]]].
  pose proof (group_invoices_generated _ _ _ _ _ _ _ _ _ HF2) as HF.
  clear - HF. induction HF as [|inv l (Hs & Hc & _) HF IH]; constructor; [|exact IH].
  destruct direction; cbn [own_company other_company direction_eqb] in *; split; assumption.
Qed.

Lemma group_payment_invoices_sample :
  exists invs other vs,
    invoices sample_group_case = Some invs /\
    hd_error invs = Some (invoice sample_group_case) /\
    Forall (fun inv => own_company payables inv = DEFAULT_COMPANY /\
                       other_company payables inv = other) invs /\
    nameVariations other = Some vs /\
    (counterparty (transaction sample_group_case) = name other \/
     In (counterparty (transaction sample_group_case)) vs) /\
    description (transaction sample_group_case)
    = "Batch Payment: " ++ String.concat ", " (map inv_number invs).
Proof.
  apply (group_payment_invoices sample_host payables sample_start sample_end DEFAULT_COMPANY
           (ofZ 100) 0%nat sample_group_case sample_group_count sample_group_next).
  vm_compute; reflexivity.
Defined.

(** X24. [generateCompany] always returns, and the company it returns
    belongs to one of the ten countries of the table: the legal form that
    ends its name and its bank are taken from the lists of that country,
    its VAT id starts with the VAT prefix of the country, its address ends
    with the country code and its website with the country code in lower
    case. *)
Theorem generateCompany_country h n :
  exists c n' country baseName legalSuffix,
    generateCompany h n = Return (c, n') /\
    In country EU_COUNTRIES /\ In legalSuffix (suffix country) /\
    name c = baseName ++ " " ++ legalSuffix /\
    In (bankName c) (bankNames country) /\
    String.prefix (vatPrefix country) (vatId c) = true /\
    (exists place, address c = place ++ ", " ++ country_code country) /\
    website c = "www." ++ remove_spaces (toLowerCase h baseName) ++ "."
                ++ toLowerCase h (country_code country).
Proof.
  unfold generateCompany.
  assert (Hne : exists c0 cs, EU_COUNTRIES = c0 :: cs) by (eexists; eexists; reflexivity).
  destruct Hne as (c0 & cs & Hne). rewrite Hne.
  destruct (arrayElement_spec h c0 cs n) as (country & Hc & Hin).
  rewrite (bind_Return _ _ _ _ _ Hc). rewrite <- Hne in Hin. rewrite <- Hne.
  destruct (proj1 (Forall_forall _ _) EU_COUNTRIES_lists country Hin) as [Hs Hb].
  destruct (generateBusinessName_total h (S n)) as (baseName & n1 & Hbn).
  rewrite (bind_Return _ _ _ _ _ Hbn).
  destruct (suffix country) as [|s0 ss] eqn:Esuf; [contradiction|].
  destruct (arrayElement_spec h s0 ss n1) as (legalSuffix & Hls & Hlin).
  rewrite (bind_Return _ _ _ _ _ Hls).
  destruct (bankNames country) as [|b0 bs] eqn:Ebank; [contradiction|].
  destruct (arrayElement_spec h b0 bs (S (S (S (S (S (S n1))))))) as (bank & Hbk & Hbin).
  cbv beta iota delta [bind faker_text ret].
  rewrite Hbk.
  eexists; eexists; exists country, baseName, legalSuffix.
  split; [reflexivity|]. cbv beta iota delta [name bankName vatId address website].
  split; [exact Hin|]. split; [rewrite Esuf; exact Hlin|]. split; [reflexivity|].
  split; [rewrite Ebank; exact Hbin|]. split; [apply prefix_app|].
  split; [|reflexivity].
  eexists. rewrite <- !string_app_assoc. reflexivity.
Qed.

(** * Further properties: a range that ends before it starts *)

(** X25. On a host at a fixed offset from UTC, for a range whose start
    lies within 4 * 10^15 ms of the epoch and whose end lies before its
    start, by 4 * 10^15 ms at most, [generateInvoice] does not fail: it
    returns an invoice whose issue date is a whole number of days before the
    start, or the start itself, and lies after the end. *)
Theorem reversed_range_issue_date h s e sup cus sequence direction n :
  fixed_offset h ->
  Z.abs s <= 4 * 10 ^ 15 -> - (4 * 10 ^ 15) <= e - s < 0 ->
  exists inv n' j,
    generateInvoice h (Some s) (Some e) sup cus sequence direction n = Return (inv, n') /\
    j <= 0 /\ e < s + j * msPerDay <= s /\
    date inv = date_text (s + j * msPerDay).
Proof.
  intros Hfix Hs He.
  destruct (generateInvoice_reversed h s e sup cus sequence direction n Hfix Hs He)
    as (inv & n' & j & Hr & Hj & Hd).
  exists inv, n', j. split; [exact Hr|]. split; [lia|]. split; [|exact Hd].
  unfold msPerDay in *. Z.div_mod_to_equations. lia.
Qed.

Lemma reversed_range_issue_date_sample :
  exists inv n' j,
    generateInvoice sample_host (Some 1767139200000) (Some 1735689600000)
      DEFAULT_COMPANY DEFAULT_COMPANY (ofZ 100) payables 0%nat = Return (inv, n') /\
    j <= 0 /\ 1735689600000 < 1767139200000 + j * msPerDay <= 1767139200000 /\
    date inv = date_text (1767139200000 + j * msPerDay).
Proof.
  apply (reversed_range_issue_date sample_host 1767139200000 1735689600000
           DEFAULT_COMPANY DEFAULT_COMPANY (ofZ 100) payables 0%nat).
  - intros t t' b b'. reflexivity.
  - lia.
  - lia.
Defined.

(** * Further properties: a quantity whose loop never exits *)



